(** * Maxwell-Sandbox: the 2D FDTD solver of [maxwell-solver.ts]

    A shallow embedding of the [MaxwellSolver] class (TE mode: Ez, Hx, Hy on a
    row-major nx*ny grid) and the properties of its specification.

    Numbers.  A JavaScript [number] is an IEEE-754 binary64 value: Rocq's
    primitive [float].  A [Float32Array] element is a binary64 value that has
    been rounded to binary32 on the way in ([fround]).  Quantities that the
    program only ever uses as integers (grid sizes, loop counters, cell
    indices, the step counter) are [Z]; they are converted with [of_Z] where
    the program mixes them into floating-point arithmetic.  This is exact as
    long as they stay below 2^53, which an array index always does.

    The functions of [Math] whose results ECMAScript leaves to the
    implementation (sin, cos, exp, log, pow) are a parameter of the
    development ([MathHost]); [RefHost] is one concrete implementation, used
    to evaluate the solver on concrete grids. *)

From Stdlib Require Import ZArith Floats Lia Bool String.
From stdpp Require Import base option list.

Set Warnings "-inexact-float".

Local Open Scope Z_scope.

(* ===================================================================== *)
(** ** JavaScript numbers *)

Module JS.

(** [Number(z)] for an integer [z] below 2^63 in magnitude. *)
Definition of_Z (z : Z) : float :=
  match z with
  | Z0 => 0%float
  | Zpos _ => of_uint63 (Uint63.of_Z z)
  | Zneg p => (- of_uint63 (Uint63.of_Z (Zpos p)))%float
  end.

(** The integer [Math.floor(x)] of a finite [x]; [None] for NaN and the
    infinities, which [Math.floor] returns unchanged. *)
Definition floorZ (x : float) : option Z :=
  match Prim2SF x with
  | S754_zero _ => Some 0
  | S754_finite s m e =>
      let v := if s then Zneg m else Zpos m in
      Some (if 0 <=? e then v * 2 ^ e else v / 2 ^ (- e))
  | _ => None
  end.

(** The least integer that is not below a finite [x]. *)
Definition ceilZ (x : float) : option Z :=
  match floorZ (- x)%float with
  | Some z => Some (- z)
  | None => None
  end.

(** [Math.floor] as a number: zeros, NaN, infinities and the integers from
    2^53 on are returned unchanged. *)
Definition Math_floor (x : float) : float :=
  match floorZ x with
  | Some z => if is_zero x then x else if Z.abs z <? 2 ^ 53 then of_Z z else x
  | None => x
  end.

(** [Math.max] and [Math.min]: NaN when an argument is NaN, and
    [-0 < +0]. *)
Definition Math_max (a b : float) : float :=
  if is_nan a || is_nan b then nan
  else if (a <? b)%float then b
  else if (b <? a)%float then a
  else if get_sign a then b else a.

Definition Math_min (a b : float) : float :=
  if is_nan a || is_nan b then nan
  else if (a <? b)%float then a
  else if (b <? a)%float then b
  else if get_sign a then a else b.

Definition Math_PI : float := 3.141592653589793%float.

(** Truthiness of a number: [0], [-0] and [NaN] are falsy. *)
Definition truthy (x : float) : bool := negb (is_zero x || is_nan x).

(** [v || d] where [v] is a possibly undefined number. *)
Definition or_default (v : option float) (d : float) : float :=
  match v with
  | Some x => if truthy x then x else d
  | None => d
  end.

(** Rounding of a binary64 value to binary32, round to nearest, ties to
    even, the result again written as a binary64 value.  On a binary64
    significand of 53 bits with exponent [e] the binary32 unit in the last
    place sits [n] bits up, [n = 29] in the normal range and more below
    2^-126; a value that rounds to 2^128 or more becomes an infinity. *)
Definition round32 (x : spec_float) : spec_float :=
  match x with
  | S754_finite s m e =>
      let n := Z.max 29 (-149 - e) in
      let q := Zpos m / 2 ^ n in
      let r := Zpos m mod 2 ^ n in
      let h := 2 ^ (n - 1) in
      let q' := if (h <? r) || ((r =? h) && Z.odd q) then q + 1 else q in
      let M := q' * 2 ^ n in
      if q' =? 0 then S754_zero s
      else if M <? 2 ^ 53
           then (if e <=? 75 then S754_finite s (Z.to_pos M) e
                 else S754_infinity s)
           else (if e + 1 <=? 75 then S754_finite s (Z.to_pos (2 ^ 52)) (e + 1)
                 else S754_infinity s)
  | _ => x
  end.

(** [Math.fround]: what a store into a [Float32Array] keeps of a number. *)
Definition fround (x : float) : float := SF2Prim (round32 (Prim2SF x)).

(** The Standard Library's generic rounding at the binary32 parameters,
    against which [fround] is checked below. *)
Definition fround_std (x : float) : float :=
  match Prim2SF x with
  | S754_finite s m e =>
      SF2Prim (binary_round_aux 24 128 s (Zpos m) e loc_Exact)
  | _ => x
  end.

End JS.

(* ===================================================================== *)
(** ** Float32Array *)

Module F32.

Definition t := list float.

(** [new Float32Array(size)] *)
Definition make (size : Z) : t := replicate (Z.to_nat size) 0%float.

(** [a.fill(v)] *)
Definition fill (a : t) (v : float) : t := replicate (length a) (JS.fround v).

(** [a[idx]]: [None] is [undefined]. *)
Definition get (a : t) (idx : Z) : option float :=
  if idx <? 0 then None else a !! Z.to_nat idx.

(** [a[idx]] where a number is expected: [undefined] becomes NaN. *)
Definition rd (a : t) (idx : Z) : float := default nan (get a idx).

(** [a[idx] = v]: rounds to binary32; a store outside the array is
    ignored. *)
Definition wr (a : t) (idx : Z) (v : float) : t :=
  if idx <? 0 then a else <[Z.to_nat idx := JS.fround v]> a.

End F32.

(* ===================================================================== *)
(** ** Loops *)

(** [for (let i = lo; i < hi; i++) s = body(i, s)] on integers. *)
Fixpoint for_loop {St : Type} (n : nat) (i : Z) (body : Z -> St -> St) (s : St) : St :=
  match n with
  | O => s
  | S n' => for_loop n' (i + 1) body (body i s)
  end.

Definition for_range {St : Type} (lo hi : Z) (body : Z -> St -> St) (s : St) : St :=
  for_loop (Z.to_nat (hi - lo)) lo body s.

(** The same loop when the bounds are numbers [lo] (integer valued) and
    [hi]: no iteration unless [lo < hi]; otherwise the counter runs over
    the integers from [lo] up to [hi].  [None] when the loop is entered
    with a bound that is infinite or beyond 2^53 in magnitude, where [i++]
    is not an exact increment: the source loop runs forever there or
    advances by the steps of the rounding, and the model gives no result. *)
Definition loop_bounds (lo hi : float) : option (Z * Z) :=
  if negb (lo <? hi)%float then Some (0, 0)
  else match JS.floorZ lo, JS.ceilZ hi with
       | Some a, Some b =>
           if (- 2 ^ 53 <=? a) && (b <=? 2 ^ 53) then Some (a, b) else None
       | _, _ => None
       end.

(* ===================================================================== *)
(** ** The host's [Math] library *)

(** The functions ECMAScript calls implementation-approximated.  The law is
    a value the standard fixes exactly: [Math.sin(+0)] is [+0]. *)
Class MathHost := {
  Math_sin : float -> float;
  Math_cos : float -> float;
  Math_exp : float -> float;
  Math_log : float -> float;
  Math_pow : float -> float -> float;
  Math_sin_zero : Math_sin 0%float = 0%float
}.

(* ===================================================================== *)
(** ** Data model *)

Record GridParams := {
  nx : Z;     (* grid points in x *)
  ny : Z;     (* grid points in y *)
  dx : float; (* spatial step (meters) *)
  dy : float;
  dt : float  (* time step (seconds) *)
}.

Module Material.
Record t := {
  epsilon : float; (* relative permittivity *)
  mu : float;      (* relative permeability *)
  sigma : float    (* conductivity (S/m) *)
}.
End Material.

Module Source.
Inductive kind :=
| dipole | plane_wave | antenna | gaussian | wire | point_charge | magnet
| current_loop.

Inductive pole := N_S | S_N.

(** The optional fields are [None] when absent. *)
Record t := {
  id : string;
  type : kind;
  x : float;
  y : float;
  frequency : float;
  amplitude : float;
  phase : float;
  width : option float;
  length : option float;
  angle : option float;
  charge : option float;
  current : option float;
  polarity : option pole
}.
End Source.

Module Obstacle.
Record t := {
  id : string;
  x : float;
  y : float;
  width : float;
  height : float;
  material : Material.t
}.
End Obstacle.

Record MaxwellSolver := {
  params : GridParams;
  Ez : F32.t;
  Hx : F32.t;
  Hy : F32.t;
  epsilon : F32.t;
  mu : F32.t;
  sigma : F32.t;
  Ca : F32.t;
  Cb : F32.t;
  Da : F32.t;
  Db : F32.t;
  sources : list Source.t;
  obstacles : list Obstacle.t;
  time : Z
}.

(** Assignments to one field of [this]. *)
Definition set_Ez (v : F32.t) (s : MaxwellSolver) : MaxwellSolver :=
  {| params := params s; Ez := v; Hx := Hx s; Hy := Hy s;
     epsilon := epsilon s; mu := mu s; sigma := sigma s;
     Ca := Ca s; Cb := Cb s; Da := Da s; Db := Db s;
     sources := sources s; obstacles := obstacles s; time := time s |}.

Definition set_Hx (v : F32.t) (s : MaxwellSolver) : MaxwellSolver :=
  {| params := params s; Ez := Ez s; Hx := v; Hy := Hy s;
     epsilon := epsilon s; mu := mu s; sigma := sigma s;
     Ca := Ca s; Cb := Cb s; Da := Da s; Db := Db s;
     sources := sources s; obstacles := obstacles s; time := time s |}.

Definition set_Hy (v : F32.t) (s : MaxwellSolver) : MaxwellSolver :=
  {| params := params s; Ez := Ez s; Hx := Hx s; Hy := v;
     epsilon := epsilon s; mu := mu s; sigma := sigma s;
     Ca := Ca s; Cb := Cb s; Da := Da s; Db := Db s;
     sources := sources s; obstacles := obstacles s; time := time s |}.

Definition set_material (e m g : F32.t) (s : MaxwellSolver) : MaxwellSolver :=
  {| params := params s; Ez := Ez s; Hx := Hx s; Hy := Hy s;
     epsilon := e; mu := m; sigma := g;
     Ca := Ca s; Cb := Cb s; Da := Da s; Db := Db s;
     sources := sources s; obstacles := obstacles s; time := time s |}.

Definition set_sigma (v : F32.t) (s : MaxwellSolver) : MaxwellSolver :=
  set_material (epsilon s) (mu s) v s.

Definition set_coefficients (a b c d : F32.t) (s : MaxwellSolver) : MaxwellSolver :=
  {| params := params s; Ez := Ez s; Hx := Hx s; Hy := Hy s;
     epsilon := epsilon s; mu := mu s; sigma := sigma s;
     Ca := a; Cb := b; Da := c; Db := d;
     sources := sources s; obstacles := obstacles s; time := time s |}.

Definition set_sources (v : list Source.t) (s : MaxwellSolver) : MaxwellSolver :=
  {| params := params s; Ez := Ez s; Hx := Hx s; Hy := Hy s;
     epsilon := epsilon s; mu := mu s; sigma := sigma s;
     Ca := Ca s; Cb := Cb s; Da := Da s; Db := Db s;
     sources := v; obstacles := obstacles s; time := time s |}.

Definition set_obstacles (v : list Obstacle.t) (s : MaxwellSolver) : MaxwellSolver :=
  {| params := params s; Ez := Ez s; Hx := Hx s; Hy := Hy s;
     epsilon := epsilon s; mu := mu s; sigma := sigma s;
     Ca := Ca s; Cb := Cb s; Da := Da s; Db := Db s;
     sources := sources s; obstacles := v; time := time s |}.

Definition set_time (v : Z) (s : MaxwellSolver) : MaxwellSolver :=
  {| params := params s; Ez := Ez s; Hx := Hx s; Hy := Hy s;
     epsilon := epsilon s; mu := mu s; sigma := sigma s;
     Ca := Ca s; Cb := Cb s; Da := Da s; Db := Db s;
     sources := sources s; obstacles := obstacles s; time := v |}.

(** Physical constants of the class. *)
Definition c0 : float := 299792458%float.
Definition eps0 : float := 8.854187817e-12%float.
Definition mu0 : float := (4 * JS.Math_PI * 1e-7)%float.
Definition pmlThickness : Z := 20.
Definition pmlOrder : float := 3%float.
Definition pmlReflection : float := 1e-6%float.

(* ===================================================================== *)
(** ** The solver *)

Section Solver.
Context {M : MathHost}.

Local Open Scope float_scope.

(** [updateCoefficients]: pre-compute the update coefficients from the
    material maps. *)
Definition updateCoefficients (s : MaxwellSolver) : MaxwellSolver :=
  let p := params s in
  for_range 0 (ny p) (fun j s =>
    for_range 0 (nx p) (fun i s =>
      let idx := (j * nx p + i)%Z in
      let eps := F32.rd (epsilon s) idx * eps0 in
      let sig := F32.rd (sigma s) idx in
      let mu_val := F32.rd (mu s) idx * mu0 in
      set_coefficients
        (F32.wr (Ca s) idx
           ((1 - sig * dt p / (2 * eps)) / (1 + sig * dt p / (2 * eps))))
        (F32.wr (Cb s) idx ((dt p / eps) / (1 + sig * dt p / (2 * eps))))
        (F32.wr (Da s) idx 1)
        (F32.wr (Db s) idx (dt p / mu_val))
        s) s) s.

(** The graded conductivity of one axis of the PML: [c] is the cell
    coordinate along the axis, [n] the number of cells, [sigmaMax] the peak
    value. *)
Definition pmlProfile (sigmaMax : float) (thickness n c : Z) : float :=
  if (c <? thickness)%Z then
    let ratio := JS.of_Z (thickness - c) / JS.of_Z thickness in
    sigmaMax * Math_pow ratio pmlOrder
  else if (c >=? n - thickness)%Z then
    let ratio := JS.of_Z (c - (n - thickness - 1)) / JS.of_Z thickness in
    sigmaMax * Math_pow (JS.Math_min ratio 1) pmlOrder
  else 0.

Definition pmlThicknessOf (p : GridParams) : Z :=
  Z.min pmlThickness (Z.min (nx p) (ny p) / 4).

Definition eta0 : float := sqrt (mu0 / eps0).

Definition sigmaMaxOf (thickness : Z) (d : float) : float :=
  - (pmlOrder + 1) * Math_log pmlReflection / (2 * eta0 * JS.of_Z thickness * d).

(** [setupPML]: merge the absorbing-layer conductivity into [sigma]. *)
Definition setupPML (s : MaxwellSolver) : MaxwellSolver :=
  let p := params s in
  let thickness := pmlThicknessOf p in
  if (thickness <=? 0)%Z then s
  else
    let sigmaMaxX := sigmaMaxOf thickness (dx p) in
    let sigmaMaxY := sigmaMaxOf thickness (dy p) in
    for_range 0 (ny p) (fun j s =>
      for_range 0 (nx p) (fun i s =>
        let idx := (j * nx p + i)%Z in
        let sigmaX := pmlProfile sigmaMaxX thickness (nx p) i in
        let sigmaY := pmlProfile sigmaMaxY thickness (ny p) j in
        let pmlSigma := sigmaX + sigmaY in
        if 0 <? pmlSigma
        then set_sigma
               (F32.wr (sigma s) idx (JS.Math_max (F32.rd (sigma s) idx) pmlSigma)) s
        else s) s) s.

(** The field initialisers and the allocations of the constructor: zero
    fields, vacuum materials, no source, no obstacle, step counter 0. *)
Definition allocate (p : GridParams) : MaxwellSolver :=
  let size := (nx p * ny p)%Z in
  {| params := p;
     Ez := F32.make size; Hx := F32.make size; Hy := F32.make size;
     epsilon := F32.fill (F32.make size) 1;
     mu := F32.fill (F32.make size) 1;
     sigma := F32.fill (F32.make size) 0;
     Ca := F32.make size; Cb := F32.make size;
     Da := F32.make size; Db := F32.make size;
     sources := []; obstacles := []; time := 0 |}.

(** [new MaxwellSolver(params)] *)
Definition constructor (p : GridParams) : MaxwellSolver :=
  updateCoefficients (setupPML (allocate p)).

(** [updateH]: H^(n+1/2) from E^n. *)
Definition updateH (s : MaxwellSolver) : MaxwellSolver :=
  let p := params s in
  let s :=
    for_range 0 (ny p - 1) (fun j s =>
      for_range 0 (nx p) (fun i s =>
        let idx := (j * nx p + i)%Z in
        let dEz_dy := (F32.rd (Ez s) (idx + nx p) - F32.rd (Ez s) idx) / dy p in
        set_Hx (F32.wr (Hx s) idx
                  (F32.rd (Da s) idx * F32.rd (Hx s) idx
                   - F32.rd (Db s) idx * dEz_dy)) s) s) s in
  for_range 0 (ny p) (fun j s =>
    for_range 0 (nx p - 1) (fun i s =>
      let idx := (j * nx p + i)%Z in
      let dEz_dx := (F32.rd (Ez s) (idx + 1) - F32.rd (Ez s) idx) / dx p in
      set_Hy (F32.wr (Hy s) idx
                (F32.rd (Da s) idx * F32.rd (Hy s) idx
                 + F32.rd (Db s) idx * dEz_dx)) s) s) s.

(** [updateE]: E^(n+1) from H^(n+1/2). *)
Definition updateE (s : MaxwellSolver) : MaxwellSolver :=
  let p := params s in
  for_range 1 (ny p) (fun j s =>
    for_range 1 (nx p) (fun i s =>
      let idx := (j * nx p + i)%Z in
      let dHy_dx := (F32.rd (Hy s) idx - F32.rd (Hy s) (idx - 1)) / dx p in
      let dHx_dy := (F32.rd (Hx s) idx - F32.rd (Hx s) (idx - nx p)) / dy p in
      let curlH := dHy_dx - dHx_dy in
      set_Ez (F32.wr (Ez s) idx
                (F32.rd (Ca s) idx * F32.rd (Ez s) idx
                 + F32.rd (Cb s) idx * curlH)) s) s) s.

(** [this.Ez[idx] += v] *)
Definition add_Ez (idx : Z) (v : float) (s : MaxwellSolver) : MaxwellSolver :=
  set_Ez (F32.wr (Ez s) idx (F32.rd (Ez s) idx + v)) s.

Definition in_grid (p : GridParams) (i j : Z) : bool :=
  ((0 <=? i) && (i <? nx p) && (0 <=? j) && (j <? ny p))%Z.

Definition omega : float := 2 * JS.Math_PI.

(** [this.Ez[...] += v] at the cell [(floor a, floor b)] when it lies in the
    grid (the guard is false for NaN and infinite coordinates). *)
Definition add_Ez_at (a b : float) (v : float) (s : MaxwellSolver) : MaxwellSolver :=
  match JS.floorZ a, JS.floorZ b with
  | Some i, Some j =>
      if in_grid (params s) i j then add_Ez (j * nx (params s) + i) v s else s
  | _, _ => s
  end.

(** The loops of the excitation of a source are counted loops: those with
    a bound from the source have bounds inside [loop_bounds], which do not
    depend on the position of the source. *)
Definition source_terminates (source : Source.t) : bool :=
  match Source.type source with
  | Source.wire =>
      match loop_bounds 0 (JS.or_default (Source.length source) 20) with
      | Some _ => true
      | None => false
      end
  | Source.current_loop =>
      match loop_bounds 0
              (JS.Math_floor (2 * JS.Math_PI * JS.or_default (Source.width source) 10)) with
      | Some _ => true
      | None => false
      end
  | _ => true
  end.

(** The range test [c < 0 || c >= n] on the number [c = Math.floor(x)]
    when [x] is not finite: true for the infinities, false for NaN. *)
Definition off_axis (x : float) (n : Z) : bool :=
  match JS.floorZ x with
  | Some i => ((i <? 0) || (i >=? n))%Z
  | None => negb (is_nan x)
  end.

(** A source with a coordinate that is not finite.  When the range test
    lets it pass, a coordinate is NaN: every index computed from it is NaN
    and no store reaches the array, but the loops of the excitation run. *)
Definition applySourceNaN (source : Source.t) (s : MaxwellSolver) : option MaxwellSolver :=
  let p := params s in
  if off_axis (Source.x source) (nx p) || off_axis (Source.y source) (ny p) then Some s
  else if source_terminates source then Some s else None.

(** The body of the loop of [applySources] for one source.  [None]: the
    excitation runs a loop with bounds outside [loop_bounds]. *)
Definition applySource (source : Source.t) (s : MaxwellSolver) : option MaxwellSolver :=
  let p := params s in
  match JS.floorZ (Source.x source), JS.floorZ (Source.y source) with
  | Some i, Some j =>
      if ((i <? 0) || (i >=? nx p) || (j <? 0) || (j >=? ny p))%Z then Some s
      else
        let idx := (j * nx p + i)%Z in
        let t := JS.of_Z (time s) * dt p in
        let freq := Source.frequency source in
        let wave := Math_sin (omega * freq * t + Source.phase source) in
        match Source.type source with
        | Source.dipole | Source.antenna | Source.plane_wave =>
            Some (add_Ez idx (Source.amplitude source * wave) s)
        | Source.gaussian =>
            let t0 := 3 / freq in
            let tau := 1 / freq in
            let envelope := Math_exp (- Math_pow ((t - t0) / tau) 2) in
            Some (add_Ez idx (Source.amplitude source * envelope * wave) s)
        | Source.wire =>
            let wireLength := JS.or_default (Source.length source) 20 in
            let wireAngle := JS.or_default (Source.angle source) 0 in
            let current := JS.or_default (Source.current source) 1 in
            match loop_bounds 0 wireLength with
            | None => None
            | Some (k0, k1) =>
                Some (for_range k0 k1 (fun k s =>
                  add_Ez_at (JS.of_Z i + JS.of_Z k * Math_cos wireAngle)
                            (JS.of_Z j + JS.of_Z k * Math_sin wireAngle)
                            (current * wave * Source.amplitude source * 0.5) s) s)
            end
        | Source.point_charge =>
            let charge := JS.or_default (Source.charge source) 1e-9 in
            let oscillation := wave in
            Some (for_range (-10) 11 (fun dj s =>
              for_range (-10) 11 (fun di s =>
                let ci := (i + di)%Z in
                let cj := (j + dj)%Z in
                if in_grid p ci cj then
                  let r := sqrt (JS.of_Z (di * di + dj * dj)) + 1e-6 in
                  let fieldStrength := (charge / (r * r)) * oscillation in
                  add_Ez (cj * nx p + ci) (fieldStrength * Source.amplitude source) s
                else s) s) s)
        | Source.magnet =>
            let magnetStrength := Source.amplitude source in
            let magnetAngle := JS.or_default (Source.angle source) 0 in
            let polarity :=
              match Source.polarity source with
              | Some Source.N_S => 1
              | _ => -1
              end in
            Some (for_range (-15) 16 (fun dj s =>
              for_range (-15) 16 (fun di s =>
                let mi := (i + di)%Z in
                let mj := (j + dj)%Z in
                if in_grid p mi mj then
                  let r := sqrt (JS.of_Z (di * di + dj * dj)) + 1e-6 in
                  let dx_rot := JS.of_Z di * Math_cos magnetAngle
                                - JS.of_Z dj * Math_sin magnetAngle in
                  let dy_rot := JS.of_Z di * Math_sin magnetAngle
                                + JS.of_Z dj * Math_cos magnetAngle in
                  let dipoleField :=
                    polarity * magnetStrength * (3 * dx_rot * dy_rot)
                    / Math_pow r 5 in
                  add_Ez (mj * nx p + mi) (dipoleField * wave) s
                else s) s) s)
        | Source.current_loop =>
            let loopRadius := JS.or_default (Source.width source) 10 in
            let loopCurrent := JS.or_default (Source.current source) 1 in
            let numPoints := JS.Math_floor (2 * JS.Math_PI * loopRadius) in
            match loop_bounds 0 numPoints with
            | None => None
            | Some (k0, k1) =>
                Some (for_range k0 k1 (fun k s =>
                  let theta := (2 * JS.Math_PI * JS.of_Z k) / numPoints in
                  add_Ez_at (JS.of_Z i + loopRadius * Math_cos theta)
                            (JS.of_Z j + loopRadius * Math_sin theta)
                            (loopCurrent * wave * Source.amplitude source * 0.3) s) s)
            end
        end
  | _, _ => applySourceNaN source s
  end.

(** [applySources]: [for (const source of this.sources) ...] *)
Fixpoint applySourcesFrom (l : list Source.t) (s : MaxwellSolver) : option MaxwellSolver :=
  match l with
  | [] => Some s
  | source :: l' =>
      match applySource source s with
      | Some s' => applySourcesFrom l' s'
      | None => None
      end
  end.

Definition applySources (s : MaxwellSolver) : option MaxwellSolver :=
  applySourcesFrom (sources s) s.

(** [applyBoundaries]: zero Ez on the outer rim. *)
Definition applyBoundaries (s : MaxwellSolver) : MaxwellSolver :=
  let p := params s in
  let s :=
    for_range 0 (ny p) (fun j s =>
      let s := set_Ez (F32.wr (Ez s) (j * nx p) 0) s in
      set_Ez (F32.wr (Ez s) (j * nx p + nx p - 1) 0) s) s in
  for_range 0 (nx p) (fun i s =>
    let s := set_Ez (F32.wr (Ez s) i 0) s in
    set_Ez (F32.wr (Ez s) ((ny p - 1) * nx p + i) 0) s) s.

(** [step]: advance the simulation by [dt]. *)
Definition step (s : MaxwellSolver) : option MaxwellSolver :=
  match applySources (updateH s) with
  | Some s' =>
      let s' := applyBoundaries (updateE s') in
      Some (set_time (time s' + 1) s')
  | None => None
  end.

(** [run(steps)] *)
Fixpoint run (steps : nat) (s : MaxwellSolver) : option MaxwellSolver :=
  match steps with
  | O => Some s
  | S n =>
      match step s with
      | Some s' => run n s'
      | None => None
      end
  end.

Definition addSource (source : Source.t) (s : MaxwellSolver) : MaxwellSolver :=
  set_sources (sources s ++ [source]) s.

Definition removeSource (id : string) (s : MaxwellSolver) : MaxwellSolver :=
  set_sources
    (List.filter (fun x => negb (String.eqb (Source.id x) id)) (sources s)) s.

(** The body of the loops of [applyObstacle] and [removeObstacleMaterial]:
    store the material [(e, m, g)] in the cell [(i, j)] if it lies in the
    grid. *)
Definition paintCell (p : GridParams) (e m g : float) (i j : Z) (s : MaxwellSolver)
  : MaxwellSolver :=
  if ((i >=? 0) && (i <? nx p) && (j >=? 0) && (j <? ny p))%Z then
    let idx := (j * nx p + i)%Z in
    set_material (F32.wr (epsilon s) idx e)
                 (F32.wr (mu s) idx m)
                 (F32.wr (sigma s) idx g) s
  else s.

(** The loops shared by [applyObstacle] and [removeObstacleMaterial], which
    differ only in the values they store.  [None]: a loop has bounds
    outside [loop_bounds]. *)
Definition paintRect (obstacle : Obstacle.t) (e m g : float) (s : MaxwellSolver)
  : option MaxwellSolver :=
  let p := params s in
  let x1 := JS.Math_floor (Obstacle.x obstacle) in
  let y1 := JS.Math_floor (Obstacle.y obstacle) in
  let x2 := JS.Math_floor (Obstacle.x obstacle + Obstacle.width obstacle) in
  let y2 := JS.Math_floor (Obstacle.y obstacle + Obstacle.height obstacle) in
  match loop_bounds y1 y2 with
  | None => None
  | Some (j0, j1) =>
      for_range j0 j1 (fun j os =>
        match os with
        | None => None
        | Some s =>
            match loop_bounds x1 x2 with
            | None => None
            | Some (i0, i1) =>
                Some (for_range i0 i1 (fun i s => paintCell p e m g i j s) s)
            end
        end) (Some s)
  end.

(** [applyObstacle]: apply obstacle material to the grid. *)
Definition applyObstacle (obstacle : Obstacle.t) (s : MaxwellSolver) : option MaxwellSolver :=
  let mat := Obstacle.material obstacle in
  paintRect obstacle (Material.epsilon mat) (Material.mu mat) (Material.sigma mat) s.

(** [removeObstacleMaterial]: reset to vacuum. *)
Definition removeObstacleMaterial (obstacle : Obstacle.t) (s : MaxwellSolver) : option MaxwellSolver :=
  paintRect obstacle 1 1 0 s.

(** [addObstacle] *)
Definition addObstacle (obstacle : Obstacle.t) (s : MaxwellSolver) : option MaxwellSolver :=
  match applyObstacle obstacle (set_obstacles (obstacles s ++ [obstacle]) s) with
  | Some s' => Some (updateCoefficients (setupPML s'))
  | None => None
  end.

(** [removeObstacle] *)
Definition removeObstacle (id : string) (s : MaxwellSolver) : option MaxwellSolver :=
  match List.find (fun o => String.eqb (Obstacle.id o) id) (obstacles s) with
  | Some obstacle =>
      match removeObstacleMaterial obstacle s with
      | Some s' =>
          let s' :=
            set_obstacles
              (List.filter (fun o => negb (String.eqb (Obstacle.id o) id)) (obstacles s'))
              s' in
          Some (updateCoefficients (setupPML s'))
      | None => None
      end
  | None => Some s
  end.

(** [reset]: back to the initial fields. *)
Definition reset (s : MaxwellSolver) : MaxwellSolver :=
  let s := set_Ez (F32.fill (Ez s) 0) s in
  let s := set_Hx (F32.fill (Hx s) 0) s in
  let s := set_Hy (F32.fill (Hy s) 0) s in
  let s := set_time 0 s in
  setupPML s.

Record FieldSample := { sample_Ez : float; sample_Hx : float; sample_Hy : float }.

(** [getFieldAt(x, y)].  The index [j * nx + i] is a number; an element is
    read when it is an integer inside the array, and [undefined]
    otherwise (NaN, an infinity, a negative or too large index). *)
Definition getFieldAt (x y : float) (s : MaxwellSolver) : FieldSample :=
  let i := JS.Math_floor x in
  let j := JS.Math_floor y in
  let idx := j * JS.of_Z (nx (params s)) + i in
  let at_idx (a : F32.t) : option float :=
    match JS.floorZ idx with
    | Some k => if JS.of_Z k =? idx then F32.get a k else None
    | None => None
    end in
  {| sample_Ez := JS.or_default (at_idx (Ez s)) 0;
     sample_Hx := JS.or_default (at_idx (Hx s)) 0;
     sample_Hy := JS.or_default (at_idx (Hy s)) 0 |}.

Definition getTime (s : MaxwellSolver) : float := JS.of_Z (time s) * dt (params s).
Definition getSources (s : MaxwellSolver) : list Source.t := sources s.
Definition getObstacles (s : MaxwellSolver) : list Obstacle.t := obstacles s.
Definition getParams (s : MaxwellSolver) : GridParams := params s.

End Solver.

(* ===================================================================== *)
(** ** A reference host *)

(** One implementation of the approximated functions, in binary64
    arithmetic: Taylor polynomials after a range reduction, and repeated
    multiplication for [pow] at the small integral exponents the solver
    uses.  It serves to run the solver on concrete grids. *)
Module RefHost.
Local Open Scope float_scope.

Fixpoint taylor (n : nat) (k : float) (term x2 acc : float) : float :=
  match n with
  | O => acc
  | S n' =>
      let term' := - term * x2 / ((k + 1) * (k + 2)) in
      taylor n' (k + 2) term' x2 (acc + term')
  end.

(** The nearest integer to a finite [x], as a number. *)
Definition nearest (x : float) : float := JS.Math_floor (x + 0.5).

Definition reduce (x : float) : float :=
  if (abs x <=? JS.Math_PI) then x
  else x - nearest (x / (2 * JS.Math_PI)) * (2 * JS.Math_PI).

Definition sin (x : float) : float :=
  let r := reduce x in taylor 14 1 r (r * r) r.

Definition cos (x : float) : float :=
  let r := reduce x in taylor 14 0 1 (r * r) 1.

Fixpoint pow_nat (x : float) (n : nat) : float :=
  match n with
  | O => 1
  | S O => x
  | S n' => pow_nat x n' * x
  end.

Fixpoint exp_series (n : nat) (k : float) (term x acc : float) : float :=
  match n with
  | O => acc
  | S n' =>
      let term' := term * x / k in
      exp_series n' (k + 1) term' x (acc + term')
  end.

(** [exp x = (exp (x / 1024)) ^ 1024] *)
Definition exp (x : float) : float :=
  let y := x / 1024 in
  let e := exp_series 12 1 1 y 1 in
  Nat.iter 10 (fun v => v * v) e.

Fixpoint atanh_series (n : nat) (k : float) (pw z2 acc : float) : float :=
  match n with
  | O => acc
  | S n' =>
      let pw' := pw * z2 in
      atanh_series n' (k + 2) pw' z2 (acc + pw' / (k + 2))
  end.

Definition ln2 : float := 0.6931471805599453.

(** [log x = log m + e * log 2] where [x = m * 2^e], [1/2 <= m < 1]. *)
Definition log (x : float) : float :=
  if is_nan x || (x <? 0) then nan
  else if is_zero x then neg_infinity
  else if is_infinity x then x
  else
    let (m, e) := Z.frexp x in
    let z := (m - 1) / (m + 1) in
    2 * atanh_series 25 1 z (z * z) z + JS.of_Z e * ln2.

Definition pow (x y : float) : float :=
  match JS.floorZ y with
  | Some n =>
      if (JS.of_Z n =? y) && (0 <=? n)%Z && (n <? 64)%Z
      then pow_nat x (Z.to_nat n) else nan
  | None => nan
  end.

End RefHost.

#[export] Instance ref_host : MathHost := {
  Math_sin := RefHost.sin;
  Math_cos := RefHost.cos;
  Math_exp := RefHost.exp;
  Math_log := RefHost.log;
  Math_pow := RefHost.pow;
  Math_sin_zero := eq_refl
}.

(* ===================================================================== *)
(** ** Predicates of the statements *)

(** Classes of numbers, read off the IEEE specification value: the zeros
    [+0] and [-0]; NaN; the finite numbers (zeros included). *)
Definition fzero (x : float) : bool :=
  match Prim2SF x with S754_zero _ => true | _ => false end.

Definition fnan (x : float) : bool :=
  match Prim2SF x with S754_nan => true | _ => false end.

Definition ffinite (x : float) : bool :=
  match Prim2SF x with S754_zero _ | S754_finite _ _ _ => true | _ => false end.

(** The binary64 significands that are binary32 values. *)
Definition f32_repr (M : positive) (e : Z) : Prop :=
  exists q, Zpos M = q * 2 ^ (Z.max 29 (-149 - e)) /\
            2 ^ 52 <= Zpos M < 2 ^ 53 /\ -1074 <= e <= 75.

(** A number that a [Float32Array] can hold. *)
Definition is_f32 (x : float) : bool := PrimFloat.Leibniz.eqb (JS.fround x) x.

(** An array of [n] binary32 values. *)
Definition array_ok (n : nat) (a : F32.t) : bool :=
  Nat.eqb (length a) n && forallb is_f32 a.

(** The invariant of the class: non-negative grid sizes, and the ten arrays
    allocated by the constructor keep their length [nx * ny] and hold
    binary32 values. *)
Definition wfb (s : MaxwellSolver) : bool :=
  let p := params s in
  (0 <=? nx p) && (0 <=? ny p) &&
  forallb (array_ok (Z.to_nat (nx p * ny p)))
    [Ez s; Hx s; Hy s; epsilon s; mu s; sigma s; Ca s; Cb s; Da s; Db s].

Definition wf (s : MaxwellSolver) : Prop := wfb s = true.

(* ===================================================================== *)

(** The number of cells. *)
Definition cells (p : GridParams) : nat := Z.to_nat (nx p * ny p).

(** A row-major sweep: the nested loops [for j in j0 .. j1) for i in
    i0 .. i1)] every pass of the solver is made of. *)
Definition sweep {St : Type} (body : Z -> Z -> St -> St) (j0 j1 i0 i1 : Z) (s : St) : St :=
  for_range j0 j1 (fun j s => for_range i0 i1 (fun i s => body i j s) s) s.

(** What [step] must leave alone: everything but the fields and the
    clock. *)
Definition static (s : MaxwellSolver) :=
  (params s, epsilon s, mu s, sigma s, Ca s, Cb s, Da s, Db s,
   sources s, obstacles s).

(** The cell [(i, j)] lies on the outer rim of the grid. *)
Definition on_rim (p : GridParams) (i j : Z) : Prop :=
  i = 0 \/ i = nx p - 1 \/ j = 0 \/ j = ny p - 1.

(** A small grid and a dipole, to run the solver on. *)
Definition demo_params : GridParams :=
  {| nx := 8; ny := 8; dx := 0.001; dy := 0.001; dt := 1e-12 |}.

Definition demo_dipole : Source.t :=
  {| Source.id := "s1"; Source.type := Source.dipole;
     Source.x := 4; Source.y := 4;
     Source.frequency := 2.5e11; Source.amplitude := 1; Source.phase := 0;
     Source.width := None; Source.length := None; Source.angle := None;
     Source.charge := None; Source.current := None; Source.polarity := None |}.

Definition demo_solver : MaxwellSolver :=
  addSource demo_dipole (constructor demo_params).

(** Everything of a solver but its conductivity map. *)
Definition non_sigma (s : MaxwellSolver) :=
  (params s, Ez s, Hx s, Hy s, epsilon s, mu s, Ca s, Cb s, Da s, Db s,
   sources s, obstacles s, time s).

(** The coefficients as the specification writes them, from the relative
    permittivity [epsr], the conductivity [sig] and the relative
    permeability [mur] of a cell: with [eps = epsr * eps0] and
    [mu = mur * mu0],
      Ca = (1 - sig*dt/(2 eps)) / (1 + sig*dt/(2 eps)),
      Cb = (dt/eps) / (1 + sig*dt/(2 eps)),  Da = 1,  Db = dt/mu. *)
Definition spec_Ca (dt epsr sig : float) : float :=
  let eps := (epsr * eps0)%float in
  ((1 - sig * dt / (2 * eps)) / (1 + sig * dt / (2 * eps)))%float.

Definition spec_Cb (dt epsr sig : float) : float :=
  let eps := (epsr * eps0)%float in
  ((dt / eps) / (1 + sig * dt / (2 * eps)))%float.

Definition spec_Da : float := 1%float.

Definition spec_Db (dt mur : float) : float :=
  let mu := (mur * mu0)%float in (dt / mu)%float.

(** The coefficient maps hold, in every cell, the binary32 rounding of the
    specification's value at the cell's material entries. *)
Definition coefficients_ok (s : MaxwellSolver) : Prop :=
  let p := params s in
  forall i j, 0 <= i < nx p -> 0 <= j < ny p ->
  let idx := j * nx p + i in
  exists e g m,
    F32.get (epsilon s) idx = Some e /\
    F32.get (sigma s) idx = Some g /\
    F32.get (mu s) idx = Some m /\
    F32.get (Ca s) idx = Some (JS.fround (spec_Ca (dt p) e g)) /\
    F32.get (Cb s) idx = Some (JS.fround (spec_Cb (dt p) e g)) /\
    F32.get (Da s) idx = Some (JS.fround spec_Da) /\
    F32.get (Db s) idx = Some (JS.fround (spec_Db (dt p) m)).

(** Everything of a solver but its coefficient maps. *)
Definition non_coefficients (s : MaxwellSolver) :=
  (params s, epsilon s, mu s, sigma s, Ez s, Hx s, Hy s,
   sources s, obstacles s, time s).

(** What the coefficients are computed from. *)
Definition materials (s : MaxwellSolver) :=
  (params s, epsilon s, mu s, sigma s).

(** The rows [j0 <= j < j1] and columns [i0 <= i < i1] the loops of
    [applyObstacle] and [removeObstacleMaterial] run over; [None] when a
    loop that is entered has bounds outside [loop_bounds].  The column loop
    is entered only if the row loop has an iteration. *)
Definition rect_of (obstacle : Obstacle.t) : option (Z * Z * Z * Z) :=
  let x1 := JS.Math_floor (Obstacle.x obstacle) in
  let y1 := JS.Math_floor (Obstacle.y obstacle) in
  let x2 := JS.Math_floor (Obstacle.x obstacle + Obstacle.width obstacle)%float in
  let y2 := JS.Math_floor (Obstacle.y obstacle + Obstacle.height obstacle)%float in
  match loop_bounds y1 y2 with
  | None => None
  | Some (j0, j1) =>
      if j0 <? j1 then
        match loop_bounds x1 x2 with
        | None => None
        | Some (i0, i1) => Some (j0, j1, i0, i1)
        end
      else Some (j0, j1, 0, 0)
  end.

(** The cell [(i, j)] lies in the rows and columns [r]. *)
Definition in_rect (r : Z * Z * Z * Z) (i j : Z) : bool :=
  let '(j0, j1, i0, i1) := r in
  (j0 <=? j) && (j <? j1) && (i0 <=? i) && (i <? i1).

(** The grid cell [(i, j)] is one the obstacle's loops store to. *)
Definition touched (obstacle : Obstacle.t) (p : GridParams) (i j : Z) : Prop :=
  exists r, rect_of obstacle = Some r /\ in_rect r i j = true /\
            0 <= i < nx p /\ 0 <= j < ny p.

Section PMLDefs.
Context {M : MathHost}.
(** The conductivity the absorbing layer grades into the cell [(i, j)]:
    the sum of the profiles of the two axes. *)
Definition pmlSigmaAt (p : GridParams) (i j : Z) : float :=
  let thickness := pmlThicknessOf p in
  (pmlProfile (sigmaMaxOf thickness (dx p)) thickness (nx p) i
   + pmlProfile (sigmaMaxOf thickness (dy p)) thickness (ny p) j)%float.

(** What [setupPML] makes of the conductivity [v] of the cell [(i, j)]. *)
Definition pmlMerge (p : GridParams) (i j : Z) (v : float) : float :=
  if pmlThicknessOf p <=? 0 then v
  else if (0 <? pmlSigmaAt p i j)%float
       then JS.fround (JS.Math_max v (pmlSigmaAt p i j))
       else v.
End PMLDefs.

(** The absorbing layer is already merged into [sigma]: merging it again
    leaves every cell as it is. *)
Definition pml_merged `{MathHost} (s : MaxwellSolver) : Prop :=
  forall i j, 0 <= i < nx (params s) -> 0 <= j < ny (params s) ->
  exists v, F32.get (sigma s) (j * nx (params s) + i) = Some v /\
            pmlMerge (params s) i j v = v.

(** Everything of a solver but its material maps. *)
Definition non_material (s : MaxwellSolver) :=
  (params s, Ez s, Hx s, Hy s, Ca s, Cb s, Da s, Db s,
   sources s, obstacles s, time s).

(** What neither the obstacles nor the coefficient compiler touch. *)
Definition core (s : MaxwellSolver) :=
  (params s, Ez s, Hx s, Hy s, sources s, time s).

(** An obstacle over the corner cells of the demo grid, inside the
    absorbing layer. *)
Definition demo_obstacle : Obstacle.t :=
  {| Obstacle.id := "o1"; Obstacle.x := 0; Obstacle.y := 0;
     Obstacle.width := 2; Obstacle.height := 2;
     Obstacle.material :=
       {| Material.epsilon := 4; Material.mu := 1; Material.sigma := 5 |} |}.
(** A second obstacle of the demo grid; it overlaps [demo_obstacle] in the
    cell (1, 1). *)
Definition demo_obstacle2 : Obstacle.t :=
  {| Obstacle.id := "o2"; Obstacle.x := 1; Obstacle.y := 1;
     Obstacle.width := 3; Obstacle.height := 3;
     Obstacle.material :=
       {| Material.epsilon := 2; Material.mu := 1; Material.sigma := 0 |} |}.

(** A third one, apart from the other two; its cells (5..6, 5..6) reach
    into the absorbing layer. *)
Definition demo_obstacle3 : Obstacle.t :=
  {| Obstacle.id := "o3"; Obstacle.x := 5; Obstacle.y := 5;
     Obstacle.width := 2; Obstacle.height := 2;
     Obstacle.material :=
       {| Material.epsilon := 3; Material.mu := 1; Material.sigma := 1 |} |}.

(** Every entry of the array is a zero ([+0] or [-0]). *)
Definition all_zero (a : F32.t) : bool := forallb fzero a.

(** The three field arrays hold zeros only. *)
Definition zero_fields (s : MaxwellSolver) : bool :=
  all_zero (Ez s) && all_zero (Hx s) && all_zero (Hy s).

(** No coefficient is NaN or infinite. *)
Definition finite_coefficients (s : MaxwellSolver) : bool :=
  forallb ffinite (Ca s) && forallb ffinite (Cb s) &&
  forallb ffinite (Da s) && forallb ffinite (Db s).

(** The spatial steps are neither zero nor NaN. *)
Definition regular_spacing (p : GridParams) : bool :=
  negb (fzero (dx p)) && negb (fnan (dx p)) &&
  negb (fzero (dy p)) && negb (fnan (dy p)).

(** A well-formed solver at rest: zero fields, finite coefficients, regular
    spacing. *)
Definition quiet (s : MaxwellSolver) : Prop :=
  wf s /\ zero_fields s = true /\ finite_coefficients s = true /\
  regular_spacing (params s) = true.

(** An obstacle of zero permittivity, in the interior of the demo grid. *)
Definition degenerate_obstacle : Obstacle.t :=
  {| Obstacle.id := "o2"; Obstacle.x := 3; Obstacle.y := 3;
     Obstacle.width := 2; Obstacle.height := 2;
     Obstacle.material :=
       {| Material.epsilon := 0; Material.mu := 1; Material.sigma := 0 |} |}.

(** ** Rounding on integers

    The order of the numbers of the solver is read off their values, counted
    in units small enough to make every value an integer. *)

(** [V / 2^k] rounded to the nearest integer, ties to even. *)
Definition rne (V k : Z) : Z :=
  let q := V / 2 ^ k in
  let r := V mod 2 ^ k in
  if (2 ^ k <? 2 * r) || ((2 * r =? 2 ^ k) && Z.odd q) then q + 1 else q.

(** The number of binary digits of a positive integer. *)
Definition digits (V : Z) : Z := Z.log2 V + 1.

(** [V] rounded to [p] significant bits, none of them below the bit [emn]. *)
Definition RN (p emn V : Z) : Z :=
  let k := Z.max (digits V - p) emn in rne V k * 2 ^ k.

(** A non-negative number or [+Infinity]: not NaN, no negative sign on a
    non-zero value. *)
Definition nonneg (x : spec_float) : bool :=
  match x with
  | S754_zero _ => true
  | S754_finite false _ _ => true
  | S754_infinity false => true
  | _ => false
  end.

(** A finite non-negative number. *)
Definition fin_nonneg (x : spec_float) : bool :=
  match x with
  | S754_zero _ => true
  | S754_finite false _ _ => true
  | _ => false
  end.

(** The value of a non-negative number in units of [2^-K]; [+Infinity]
    counts as [2^1024]. *)
Definition val (K : Z) (x : spec_float) : Z :=
  match x with
  | S754_finite _ m e => Zpos m * 2 ^ (e + K)
  | S754_infinity _ => 2 ^ (1024 + K)
  | _ => 0
  end.

(** Rounding to binary64 and to binary32 on values. *)
Definition r64 (K V : Z) : Z := Z.min (RN 53 (K - 1074) V) (2 ^ (1024 + K)).

Definition r32 (K V : Z) : Z :=
  let R := RN 24 (K - 149) V in if R <? 2 ^ (128 + K) then R else 2 ^ (1024 + K).

(** A JavaScript number that is finite and not negative. *)
Definition fin_nonnegative (x : float) : bool := fin_nonneg (Prim2SF x).

(** A JavaScript number that is not negative and not NaN; [Infinity] is
    admitted. *)
Definition nonnegative (x : float) : bool := nonneg (Prim2SF x).

(** What [setupPML] stores into a vacuum cell whose graded conductivity is
    [P]. *)
Definition pmlStore (P : float) : float :=
  if (0 <? P)%float then JS.fround (JS.Math_max 0 P) else 0%float.

Section PMLGrading.
Context {M : MathHost}.

(** The grading factor [k] cells (of 20) away from the inner face of the
    absorbing layer. *)
Definition pmlGrade (k : Z) : float :=
  Math_pow (JS.of_Z k / JS.of_Z pmlThickness) pmlOrder.

(** What the grading needs of the host's [Math.pow]: on the twenty ratios
    [k / 20] of a full layer its results are finite, not negative, and do
    not decrease with [k]. *)
Definition pow_graded : bool :=
  forallb (fun k => fin_nonnegative (pmlGrade k)) (map Z.of_nat (seq 1 20)) &&
  forallb (fun k => (pmlGrade k <=? pmlGrade (k + 1))%float) (map Z.of_nat (seq 1 19)).

(** The conductivity of the cell [(i, j)] of a freshly constructed solver. *)
Definition pmlCell (p : GridParams) (i j : Z) : option float :=
  F32.get (sigma (constructor p)) (j * nx p + i).
End PMLGrading.

(** A grid with room for the full layer of 20 cells. *)
Definition wide_params : GridParams :=
  {| nx := 96; ny := 80; dx := 0.001; dy := 0.001; dt := 1e-12 |}.

Section Running.
Context {M : MathHost}.

(** [run(steps)] for a number of steps: the loop
    [for (let i = 0; i < steps; i++) this.step()]. *)
Definition runNumber (steps : float) (s : MaxwellSolver) : option MaxwellSolver :=
  match loop_bounds 0 steps with
  | Some (k0, k1) => run (Z.to_nat (k1 - k0)) s
  | None => None
  end.
End Running.

(** A second dipole of the demo, with the id ["s2"]. *)
Definition demo_dipole2 : Source.t :=
  {| Source.id := "s2"; Source.type := Source.dipole;
     Source.x := 2; Source.y := 5;
     Source.frequency := 1e11; Source.amplitude := 2; Source.phase := 0;
     Source.width := None; Source.length := None; Source.angle := None;
     Source.charge := None; Source.current := None; Source.polarity := None |}.

(** The assignments of [reset] before its call of [setupPML]. *)
Definition zeroed (s : MaxwellSolver) : MaxwellSolver :=
  set_time 0 (set_Hy (F32.fill (Hy s) 0) (set_Hx (F32.fill (Hx s) 0)
                (set_Ez (F32.fill (Ez s) 0) s))).

(** [getPoyntingVector]: |Ez| * sqrt(Hx^2 + Hy^2) per cell.  The array is
    allocated with [nx * ny] entries; the model is that of [allocate], for
    sizes that are not negative. *)
Definition getPoyntingVector (s : MaxwellSolver) : F32.t :=
  let size := (nx (params s) * ny (params s))%Z in
  let poynting := F32.make size in
  for_range 0 size (fun i poynting =>
    let H_mag := sqrt (F32.rd (Hx s) i * F32.rd (Hx s) i
                       + F32.rd (Hy s) i * F32.rd (Hy s) i) in
    F32.wr poynting i (abs (F32.rd (Ez s) i) * H_mag)) poynting.

(** [getIntensity]: |E|^2 per cell. *)
Definition getIntensity (s : MaxwellSolver) : F32.t :=
  let size := (nx (params s) * ny (params s))%Z in
  let intensity := F32.make size in
  for_range 0 size (fun i intensity =>
    F32.wr intensity i (F32.rd (Ez s) i * F32.rd (Ez s) i)) intensity.

(** A binary64 datum that is not below zero: NaN, a zero, or a number or
    infinity with the sign bit clear. *)
Definition not_neg (x : spec_float) : bool :=
  match x with
  | S754_finite true _ _ | S754_infinity true => false
  | _ => true
  end.

Definition not_negative (x : float) : bool := not_neg (Prim2SF x).

(** The field selector of the display. *)
Inductive FieldMode := ModeEz | ModeHx | ModeHy | ModePoynting | ModeIntensity.

Record ExportMetrics := {
  maxIntensity : float;
  avgIntensity : float;
  maxPoynting : float;
  totalEnergy : float
}.

(** The report written beside an exported frame.  Its time stamp
    [createdAt] is read from the clock and is not part of the model. *)
Record ExportReport := {
  simulationTime : float;
  fieldMode : FieldMode;
  showVectors : bool;
  grid : GridParams;
  metrics : ExportMetrics;
  report_sources : list Source.t;
  report_obstacles : list Obstacle.t
}.

(** The loop of [buildExportReport] over the entries of the two maps: the
    state is [(maxIntensity, sumIntensity, maxPoynting)]. *)
Definition metricsLoop (intensity poynting : F32.t) : float * float * float :=
  for_range 0 (Z.of_nat (length intensity)) (fun i '(maxIntensity, sumIntensity, maxPoynting) =>
    let currentIntensity := F32.rd intensity i in
    let currentPoynting := F32.rd poynting i in
    let maxIntensity :=
      if (maxIntensity <? currentIntensity)%float then currentIntensity else maxIntensity in
    let maxPoynting :=
      if (maxPoynting <? currentPoynting)%float then currentPoynting else maxPoynting in
    (maxIntensity, (sumIntensity + currentIntensity)%float, maxPoynting))
    (0%float, 0%float, 0%float).

(** [buildExportReport] *)
Definition buildExportReport (solver : MaxwellSolver) (mode : FieldMode) (vectors : bool)
  : ExportReport :=
  let intensity := getIntensity solver in
  let poynting := getPoyntingVector solver in
  let '(maxI, sumI, maxP) := metricsLoop intensity poynting in
  let params := getParams solver in
  {| simulationTime := getTime solver;
     fieldMode := mode;
     showVectors := vectors;
     grid := params;
     metrics :=
       {| maxIntensity := maxI;
          avgIntensity :=
            if (Z.of_nat (length intensity) =? 0)%Z then 0%float
            else (sumI / JS.of_Z (Z.of_nat (length intensity)))%float;
          maxPoynting := maxP;
          totalEnergy := sumI |};
     report_sources := getSources solver;
     report_obstacles := getObstacles solver |}.
(** What the loop of the metrics has established after the entries below
    [hi]. *)
Definition metrics_inv (ci cp : Z -> float) (hi : Z) (st : float * float * float) : Prop :=
  let '(mI, sI, mP) := st in
  nonnegative mI = true /\ nonnegative mP = true /\
  (forall k, 0 <= k < hi -> (mI <? ci k)%float = false) /\
  (forall k, 0 <= k < hi -> (mP <? cp k)%float = false) /\
  (mI = 0%float \/ exists k, 0 <= k < hi /\ ci k = mI) /\
  (mP = 0%float \/ exists k, 0 <= k < hi /\ cp k = mP) /\
  ((exists k, 0 <= k < hi /\ is_nan (ci k) = true) /\ is_nan sI = true \/
   (forall k, 0 <= k < hi -> is_nan (ci k) = false) /\ nonnegative sI = true).

(** The cell [(i, j)] lies in the rectangle of an obstacle of the list. *)
Definition covered (l : list Obstacle.t) (p : GridParams) (i j : Z) : Prop :=
  exists o, In o l /\ touched o p i j.

Section Scene.
Context {M : MathHost}.

(** [ids.forEach(id => solver.removeObstacle(id))] *)
Fixpoint removeObstacles (ids : list string) (s : MaxwellSolver) : option MaxwellSolver :=
  match ids with
  | [] => Some s
  | id :: ids' =>
      match removeObstacle id s with
      | Some s' => removeObstacles ids' s'
      | None => None
      end
  end.

(** The state of the materials that the public methods maintain when the
    obstacles are added under ids not in use: the class invariant, compiled
    coefficients, obstacles with distinct ids whose loops have bounds inside
    [loop_bounds], and vacuum with the absorbing layer in every cell that no
    listed obstacle covers. *)
Definition scene_ok (s : MaxwellSolver) : Prop :=
  let p := params s in
  wf s /\ coefficients_ok s /\
  List.NoDup (map Obstacle.id (obstacles s)) /\
  Forall (fun o => rect_of o <> None) (obstacles s) /\
  forall i j, 0 <= i < nx p -> 0 <= j < ny p ->
    ~ covered (obstacles s) p i j ->
    F32.get (epsilon s) (j * nx p + i) = Some 1%float /\
    F32.get (mu s) (j * nx p + i) = Some 1%float /\
    F32.get (sigma s) (j * nx p + i) = Some (pmlMerge p i j 0).
End Scene.

(** The range test [i < 0 || i >= nx || j < 0 || j >= ny] of [applySources]
    on the position of a source. *)
Definition outside (source : Source.t) (p : GridParams) : bool :=
  match JS.floorZ (Source.x source), JS.floorZ (Source.y source) with
  | Some i, Some j => ((i <? 0) || (i >=? nx p) || (j <? 0) || (j >=? ny p))%Z
  | _, _ => off_axis (Source.x source) (nx p) || off_axis (Source.y source) (ny p)
  end.

(** A source of the demo placed off the grid. *)
Definition demo_far : Source.t :=
  {| Source.id := "s9"; Source.type := Source.wire; Source.x := 40; Source.y := 3;
     Source.frequency := 1e9; Source.amplitude := 1; Source.phase := 0;
     Source.width := None; Source.length := None; Source.angle := None;
     Source.charge := None; Source.current := None; Source.polarity := None |}.

(** What [updateH] stores in Hx at the index [idx], read from the state
    before the call. *)
Definition Hx_update (s : MaxwellSolver) (idx : Z) : float :=
  let p := params s in
  let dEz_dy := ((F32.rd (Ez s) (idx + nx p) - F32.rd (Ez s) idx) / dy p)%float in
  (F32.rd (Da s) idx * F32.rd (Hx s) idx - F32.rd (Db s) idx * dEz_dy)%float.

(** What [updateH] stores in Hy. *)
Definition Hy_update (s : MaxwellSolver) (idx : Z) : float :=
  let p := params s in
  let dEz_dx := ((F32.rd (Ez s) (idx + 1) - F32.rd (Ez s) idx) / dx p)%float in
  (F32.rd (Da s) idx * F32.rd (Hy s) idx + F32.rd (Db s) idx * dEz_dx)%float.

(** What [updateE] stores in Ez. *)
Definition Ez_update (s : MaxwellSolver) (idx : Z) : float :=
  let p := params s in
  let dHy_dx := ((F32.rd (Hy s) idx - F32.rd (Hy s) (idx - 1)) / dx p)%float in
  let dHx_dy := ((F32.rd (Hx s) idx - F32.rd (Hx s) (idx - nx p)) / dy p)%float in
  let curlH := (dHy_dx - dHx_dy)%float in
  (F32.rd (Ca s) idx * F32.rd (Ez s) idx + F32.rd (Cb s) idx * curlH)%float.

(** The kinds of source that excite the cell of their position only. *)
Definition point_like (k : Source.kind) : bool :=
  match k with
  | Source.dipole | Source.antenna | Source.plane_wave | Source.gaussian => true
  | _ => false
  end.

(** A rectangle of cells, columns [lo_i .. hi_i] and rows [lo_j .. hi_j]. *)
Record Region := { lo_i : Z; hi_i : Z; lo_j : Z; hi_j : Z }.

(** The rectangle grown by [r] cells on every side. *)
Definition in_box (B : Region) (r i j : Z) : bool :=
  ((lo_i B - r <=? i) && (i <=? hi_i B + r) &&
   (lo_j B - r <=? j) && (j <=? hi_j B + r))%Z.

(** The cells whose Hx, and whose Hy, read Ez inside the grown rectangle:
    Hx reads the row above, Hy the column to the right. *)
Definition in_box_Hx (B : Region) (r i j : Z) : bool :=
  ((lo_i B - r <=? i) && (i <=? hi_i B + r) &&
   (lo_j B - r - 1 <=? j) && (j <=? hi_j B + r))%Z.

Definition in_box_Hy (B : Region) (r i j : Z) : bool :=
  ((lo_i B - r - 1 <=? i) && (i <=? hi_i B + r) &&
   (lo_j B - r <=? j) && (j <=? hi_j B + r))%Z.

(** A source that excites one cell, inside the rectangle. *)
Definition confined (B : Region) (source : Source.t) : bool :=
  point_like (Source.type source) &&
  match JS.floorZ (Source.x source), JS.floorZ (Source.y source) with
  | Some i, Some j => in_box B 0 i j
  | _, _ => true
  end.

(** The entry [k] of the array is a zero. *)
Definition cell_zero (a : F32.t) (k : Z) : Prop :=
  exists v, F32.get a k = Some v /\ fzero v = true.

(** The fields vanish outside the rectangle grown by [r] cells; the
    magnetic field, which is half a step behind, outside what it reads of
    the rectangle grown by [r - 1]. *)
Definition dark (B : Region) (r : Z) (s : MaxwellSolver) : Prop :=
  let p := params s in
  forall i j, (0 <= i < nx p)%Z -> (0 <= j < ny p)%Z ->
    (in_box B r i j = false -> cell_zero (Ez s) (j * nx p + i)) /\
    (in_box_Hx B (r - 1) i j = false -> cell_zero (Hx s) (j * nx p + i)) /\
    (in_box_Hy B (r - 1) i j = false -> cell_zero (Hy s) (j * nx p + i)).

(** The rectangle made of the cell of the demo's dipole. *)
Definition demo_region : Region := {| lo_i := 4; hi_i := 4; lo_j := 4; hi_j := 4 |}.

(** Two numbers that are the same up to the sign of a zero. *)
Definition same_number (x y : float) : Prop :=
  x = y \/ (fzero x = true /\ fzero y = true).

(** * Properties *)

(** ** Binary64 significands *)

Lemma digits2_pos_bounds (m : positive) :
  2 ^ (Zpos (digits2_pos m) - 1) <= Zpos m < 2 ^ Zpos (digits2_pos m).
Proof.
  induction m as [m IH|m IH|]; simpl digits2_pos.
  - rewrite Pos2Z.inj_succ.
    replace (Z.succ (Zpos (digits2_pos m)) - 1) with (Z.succ (Zpos (digits2_pos m) - 1)) by lia.
    rewrite !Z.pow_succ_r by lia. lia.
  - rewrite Pos2Z.inj_succ.
    replace (Z.succ (Zpos (digits2_pos m)) - 1) with (Z.succ (Zpos (digits2_pos m) - 1)) by lia.
    rewrite !Z.pow_succ_r by lia. lia.
  - simpl. lia.
Qed.

Lemma digits2_pos_unique (m : positive) (k : Z) :
  2 ^ (k - 1) <= Zpos m < 2 ^ k -> Zpos (digits2_pos m) = k.
Proof.
  intros [Hlo Hhi]. pose proof (digits2_pos_bounds m) as [Dlo Dhi].
  set (d := Zpos (digits2_pos m)) in *.
  assert (Hd : 0 < d) by (unfold d; lia).
  destruct (Z_lt_le_dec k 1) as [Hk|Hk].
  - assert (2 ^ k <= 1).
    { destruct (Z_lt_le_dec k 0). rewrite Z.pow_neg_r by lia. lia.
      replace k with 0 by lia. simpl. lia. }
    lia.
  - destruct (Z.lt_trichotomy d k) as [H|[H|H]]; [|exact H|].
    + assert (2 ^ d <= 2 ^ (k - 1)) by (apply Z.pow_le_mono_r; lia). lia.
    + assert (2 ^ k <= 2 ^ (d - 1)) by (apply Z.pow_le_mono_r; lia). lia.
Qed.

(** What validity says of a binary64 significand. *)
Lemma valid_finite s m e :
  valid_binary (S754_finite s m e) = true ->
  Zpos m < 2 ^ 53 /\ -1074 <= e <= 971 /\ (2 ^ 52 <= Zpos m \/ e = -1074).
Proof.
  unfold valid_binary, SpecFloat.valid_binary, bounded, canonical_mantissa, fexp, SpecFloat.emin, emax, prec.
  intros H. apply andb_true_iff in H as [H1 H2].
  apply Z.eqb_eq in H1. apply Z.leb_le in H2.
  pose proof (digits2_pos_bounds m) as [Dlo Dhi].
  set (d := Zpos (digits2_pos m)) in *.
  assert (Hd : 0 < d) by (unfold d; lia).
  assert (d <= 53) by lia.
  assert (2 ^ d <= 2 ^ 53) by (apply Z.pow_le_mono_r; lia).
  split; [lia|]. split; [lia|].
  destruct (Z.eq_dec e (-1074)) as [He|He]; [right; exact He|left].
  assert (d = 53) by lia. subst d. rewrite H3 in Dlo. exact Dlo.
Qed.

Lemma valid_normal s m e :
  2 ^ 52 <= Zpos m < 2 ^ 53 -> -1074 <= e <= 971 ->
  valid_binary (S754_finite s m e) = true.
Proof.
  intros Hm He.
  unfold valid_binary, SpecFloat.valid_binary, bounded, canonical_mantissa, fexp, SpecFloat.emin, emax, prec.
  rewrite (digits2_pos_unique m 53) by exact Hm.
  apply andb_true_iff. split; [apply Z.eqb_eq | apply Z.leb_le]; lia.
Qed.

(** ** Rounding to binary32 is idempotent *)

Lemma round32_fix s M e :
  f32_repr M e -> JS.round32 (S754_finite s M e) = S754_finite s M e.
Proof.
  intros (q & Hq & HM & He). unfold JS.round32.
  set (n := Z.max 29 (-149 - e)) in *.
  assert (Hn : 29 <= n) by (unfold n; lia).
  assert (Hp : 0 < 2 ^ n) by (apply Z.pow_pos_nonneg; lia).
  assert (Hh : 0 < 2 ^ (n - 1)) by (apply Z.pow_pos_nonneg; lia).
  rewrite Hq, Z.div_mul, Z.mod_mul by lia.
  replace (2 ^ (n - 1) <? 0) with false by (symmetry; apply Z.ltb_ge; lia).
  replace (0 =? 2 ^ (n - 1)) with false by (symmetry; apply Z.eqb_neq; lia).
  cbn [orb andb].
  assert (q <> 0) by (intros ->; lia).
  replace (q =? 0) with false by (symmetry; apply Z.eqb_neq; lia).
  rewrite <- Hq.
  replace (Zpos M <? 2 ^ 53) with true by (symmetry; apply Z.ltb_lt; lia).
  replace (e <=? 75) with true by (symmetry; apply Z.leb_le; lia).
  rewrite Pos2Z.id. reflexivity.
Qed.

Lemma round32_cases s m e :
  valid_binary (S754_finite s m e) = true ->
  JS.round32 (S754_finite s m e) = S754_zero s \/
  JS.round32 (S754_finite s m e) = S754_infinity s \/
  exists M' e', JS.round32 (S754_finite s m e) = S754_finite s M' e' /\ f32_repr M' e'.
Proof.
  intros Hv. apply valid_finite in Hv as (Hm & He & Hnorm).
  unfold JS.round32.
  set (n := Z.max 29 (-149 - e)).
  assert (Hn : 29 <= n) by (unfold n; lia).
  assert (Hp : 0 < 2 ^ n) by (apply Z.pow_pos_nonneg; lia).
  assert (Hh : 2 * 2 ^ (n - 1) = 2 ^ n).
  { rewrite <- Z.pow_succ_r by lia. f_equal. lia. }
  set (q := Zpos m / 2 ^ n).
  set (r := Zpos m mod 2 ^ n).
  assert (Hdiv : Zpos m = 2 ^ n * q + r) by (apply Z.div_mod; lia).
  assert (Hr : 0 <= r < 2 ^ n) by (apply Z.mod_pos_bound; lia).
  assert (Hq0 : 0 <= q) by (apply Z.div_pos; lia).
  set (q' := if (2 ^ (n - 1) <? r) || (r =? 2 ^ (n - 1)) && Z.odd q then q + 1 else q).
  assert (Hq' : q' = q \/ (q' = q + 1 /\ 2 ^ (n - 1) <= r)).
  { unfold q'. destruct (2 ^ (n - 1) <? r) eqn:E1; simpl.
    - right. split; [reflexivity|]. apply Z.ltb_lt in E1. lia.
    - destruct (r =? 2 ^ (n - 1)) eqn:E2; simpl; [|left; reflexivity].
      destruct (Z.odd q); [|left; reflexivity].
      right. split; [reflexivity|]. apply Z.eqb_eq in E2. lia. }
  destruct (q' =? 0) eqn:Ez; [left; reflexivity|].
  apply Z.eqb_neq in Ez.
  assert (Hq'pos : 0 < q') by lia.
  (* the significand has all its 53 bits: a subnormal rounds to zero *)
  assert (Hn53 : n <= 53).
  { destruct (Z_le_gt_dec n 53) as [H|H]; [exact H|exfalso].
    assert (2 ^ 53 <= 2 ^ (n - 1)) by (apply Z.pow_le_mono_r; lia).
    assert (q = 0).
    { unfold q. apply Z.div_small. split; [lia|].
      assert (2 ^ (n - 1) < 2 ^ n) by lia. lia. }
    assert (r = Zpos m) by lia.
    destruct Hq' as [Hq'|[Hq' Hr']]; lia. }
  assert (Hnormal : 2 ^ 52 <= Zpos m).
  { destruct Hnorm as [H|H]; [exact H|]. unfold n in Hn53. lia. }
  assert (HMlo : 2 ^ 52 <= q' * 2 ^ n).
  { destruct (Z.eq_dec n 53) as [E|E].
    - assert (1 <= q') by lia. rewrite E in *.
      assert (2 ^ 52 <= 2 ^ 53) by (apply Z.pow_le_mono_r; lia). nia.
    - assert (Hs : 2 ^ 52 = 2 ^ (52 - n) * 2 ^ n).
      { rewrite <- Z.pow_add_r by lia. f_equal. lia. }
      assert (2 ^ (52 - n) <= q).
      { unfold q. rewrite <- (Z.div_mul (2 ^ (52 - n)) (2 ^ n)) by lia.
        apply Z.div_le_mono; lia. }
      nia. }
  destruct (q' * 2 ^ n <? 2 ^ 53) eqn:EM.
  - apply Z.ltb_lt in EM.
    destruct (e <=? 75) eqn:Ee; [|right; left; reflexivity].
    apply Z.leb_le in Ee.
    right; right. exists (Z.to_pos (q' * 2 ^ n)), e. split; [reflexivity|].
    exists q'. rewrite Z2Pos.id by lia. fold n. repeat split; lia.
  - apply Z.ltb_ge in EM.
    destruct (e + 1 <=? 75) eqn:Ee; [|right; left; reflexivity].
    apply Z.leb_le in Ee.
    right; right. exists (Z.to_pos (2 ^ 52)), (e + 1). split; [reflexivity|].
    set (n2 := Z.max 29 (-149 - (e + 1))).
    assert (Hn2 : 29 <= n2 <= 52) by (unfold n2, n in *; lia).
    exists (2 ^ (52 - n2)). fold n2.
    rewrite Z2Pos.id by (apply Z.pow_pos_nonneg; lia).
    split; [rewrite <- Z.pow_add_r by lia; f_equal; lia|].
    assert (2 ^ 52 < 2 ^ 53) by (apply Z.pow_lt_mono_r; lia).
    split; lia.
Qed.

Lemma f32_repr_valid s M e : f32_repr M e -> valid_binary (S754_finite s M e) = true.
Proof. intros (q & _ & HM & He). apply valid_normal; lia. Qed.

Lemma round32_valid x : valid_binary x = true -> valid_binary (JS.round32 x) = true.
Proof.
  destruct x as [s|s| |s m e]; try (intros; reflexivity || assumption).
  intros Hv. destruct (round32_cases s m e Hv) as [H|[H|(M' & e' & H & Hr)]];
    rewrite H; [reflexivity | reflexivity | apply f32_repr_valid; exact Hr].
Qed.

Lemma round32_idem x : valid_binary x = true -> JS.round32 (JS.round32 x) = JS.round32 x.
Proof.
  destruct x as [s|s| |s m e]; try reflexivity.
  intros Hv. destruct (round32_cases s m e Hv) as [H|[H|(M' & e' & H & Hr)]];
    rewrite H; [reflexivity | reflexivity | apply round32_fix; exact Hr].
Qed.

Theorem fround_idem x : JS.fround (JS.fround x) = JS.fround x.
Proof.
  unfold JS.fround.
  rewrite Prim2SF_SF2Prim by (apply round32_valid, Prim2SF_valid).
  rewrite round32_idem by apply Prim2SF_valid. reflexivity.
Qed.

(** ** Zeros, NaN and finite numbers under the arithmetic *)

Lemma SFcompare_refl m e s :
  SFcompare (S754_finite s m e) (S754_finite s m e) = Some Eq.
Proof.
  simpl. rewrite Z.compare_refl, Pos.compare_cont_refl. destruct s; reflexivity.
Qed.

Lemma is_zero_spec x : is_zero x = fzero x.
Proof.
  unfold is_zero, fzero. rewrite FloatAxioms.eqb_spec.
  change (Prim2SF zero) with (S754_zero false).
  destruct (Prim2SF x) as [s|s| |s m e]; try reflexivity; destruct s; reflexivity.
Qed.

Lemma is_nan_spec x : is_nan x = fnan x.
Proof.
  unfold is_nan, fnan. rewrite FloatAxioms.eqb_spec. unfold SFeqb.
  destruct (Prim2SF x) as [s|s| |s m e]; try reflexivity.
  - destruct s; reflexivity.
  - rewrite SFcompare_refl. reflexivity.
Qed.

Lemma is_finite_spec x : is_finite x = ffinite x.
Proof.
  unfold is_finite, is_infinity, ffinite. rewrite is_nan_spec. unfold fnan.
  rewrite FloatAxioms.eqb_spec, abs_spec.
  change (Prim2SF infinity) with (S754_infinity false).
  destruct (Prim2SF x) as [s|s| |s m e]; try reflexivity.
Qed.

Lemma fzero_mul_r x y : ffinite x = true -> fzero y = true -> fzero (x * y) = true.
Proof.
  unfold ffinite, fzero. rewrite mul_spec.
  destruct (Prim2SF x), (Prim2SF y); simpl; congruence.
Qed.

Lemma fzero_mul_l x y : fzero x = true -> ffinite y = true -> fzero (x * y) = true.
Proof.
  unfold ffinite, fzero. rewrite mul_spec.
  destruct (Prim2SF x), (Prim2SF y); simpl; congruence.
Qed.

Lemma fzero_add x y : fzero x = true -> fzero y = true -> fzero (x + y) = true.
Proof.
  unfold fzero. rewrite add_spec.
  destruct (Prim2SF x) as [[]| | |], (Prim2SF y) as [[]| | |]; simpl; congruence.
Qed.

Lemma fzero_sub x y : fzero x = true -> fzero y = true -> fzero (x - y) = true.
Proof.
  unfold fzero. rewrite sub_spec.
  destruct (Prim2SF x) as [[]| | |], (Prim2SF y) as [[]| | |]; simpl; congruence.
Qed.

Lemma fzero_div x y :
  fzero x = true -> fzero y = false -> fnan y = false -> fzero (x / y) = true.
Proof.
  unfold fzero, fnan. rewrite div_spec.
  destruct (Prim2SF x), (Prim2SF y); simpl; congruence.
Qed.

Lemma fround_special x : ffinite x = false \/ fzero x = true -> JS.fround x = x.
Proof.
  unfold ffinite, fzero, JS.fround. intros H.
  assert (E : JS.round32 (Prim2SF x) = Prim2SF x).
  { destruct (Prim2SF x); try reflexivity. destruct H; discriminate. }
  rewrite E. apply SF2Prim_Prim2SF.
Qed.

Lemma fzero_fround x : fzero x = true -> fzero (JS.fround x) = true.
Proof. intros H. rewrite fround_special by (right; exact H). exact H. Qed.

Lemma fzero_finite x : fzero x = true -> ffinite x = true.
Proof. unfold fzero, ffinite. destruct (Prim2SF x); congruence. Qed.

Lemma fnan_eq x : fnan x = true -> x = nan.
Proof.
  unfold fnan. intros H. apply Prim2SF_inj.
  destruct (Prim2SF x); try discriminate. reflexivity.
Qed.

(** ** Loops *)

Lemma for_loop_ind {St : Type} (P : Z -> St -> Prop) (body : Z -> St -> St) :
  forall n i s,
    P i s ->
    (forall k t, i <= k < i + Z.of_nat n -> P k t -> P (k + 1) (body k t)) ->
    P (i + Z.of_nat n) (for_loop n i body s).
Proof.
  induction n as [|n IH]; intros i s H0 Hstep; simpl.
  - replace (i + Z.of_nat 0) with i by lia. exact H0.
  - replace (i + Z.of_nat (S n)) with ((i + 1) + Z.of_nat n) by lia.
    apply IH.
    + apply Hstep; [lia | exact H0].
    + intros k t Hk. apply Hstep. lia.
Qed.

Lemma for_range_ind {St : Type} (P : Z -> St -> Prop) (body : Z -> St -> St) lo hi s :
  lo <= hi ->
  P lo s ->
  (forall k t, lo <= k < hi -> P k t -> P (k + 1) (body k t)) ->
  P hi (for_range lo hi body s).
Proof.
  intros Hle H0 Hstep. unfold for_range.
  replace hi with (lo + Z.of_nat (Z.to_nat (hi - lo))) at 1 by lia.
  apply for_loop_ind; [exact H0 |].
  intros k t Hk. apply Hstep. lia.
Qed.

Lemma for_range_empty {St : Type} (body : Z -> St -> St) lo hi s :
  hi <= lo -> for_range lo hi body s = s.
Proof.
  intros H. unfold for_range. replace (Z.to_nat (hi - lo)) with O by lia.
  reflexivity.
Qed.

(** A property of the state that every iteration keeps. *)
Lemma for_range_inv {St : Type} (P : St -> Prop) (body : Z -> St -> St) lo hi s :
  P s ->
  (forall k t, lo <= k < hi -> P t -> P (body k t)) ->
  P (for_range lo hi body s).
Proof.
  intros H0 Hstep.
  destruct (Z_le_gt_dec lo hi) as [Hle|Hgt].
  - apply (for_range_ind (fun _ t => P t)); auto.
  - rewrite for_range_empty by lia. exact H0.
Qed.

(** A loop whose iterations all leave [f] alone leaves [f] alone. *)
Lemma for_range_frame {St A : Type} (f : St -> A) (body : Z -> St -> St) lo hi s :
  (forall k t, lo <= k < hi -> f (body k t) = f t) ->
  f (for_range lo hi body s) = f s.
Proof.
  intros H. apply (for_range_inv (fun t => f t = f s)); [reflexivity |].
  intros k t Hk Ht. rewrite H by exact Hk. exact Ht.
Qed.

(** ** Arrays *)

Lemma F32_length_wr (a : F32.t) idx v : length (F32.wr a idx v) = length a.
Proof. unfold F32.wr. destruct (idx <? 0); [reflexivity | apply length_insert]. Qed.

Lemma F32_get_wr_eq (a : F32.t) idx v :
  0 <= idx < Z.of_nat (length a) ->
  F32.get (F32.wr a idx v) idx = Some (JS.fround v).
Proof.
  intros H. unfold F32.get, F32.wr.
  destruct (idx <? 0) eqn:E; [lia |].
  apply list_lookup_insert_eq. lia.
Qed.

Lemma F32_get_wr_ne (a : F32.t) idx k v :
  idx <> k -> F32.get (F32.wr a idx v) k = F32.get a k.
Proof.
  intros H. unfold F32.get, F32.wr.
  destruct (k <? 0) eqn:Ek; [reflexivity |].
  destruct (idx <? 0) eqn:Ei; [reflexivity |].
  apply list_lookup_insert_ne. lia.
Qed.

Lemma F32_get_Some_range (a : F32.t) idx v :
  F32.get a idx = Some v -> 0 <= idx < Z.of_nat (length a).
Proof.
  unfold F32.get. destruct (idx <? 0) eqn:E; [discriminate |].
  intros H. apply lookup_lt_Some in H. lia.
Qed.

Lemma F32_get_in_range (a : F32.t) idx :
  0 <= idx < Z.of_nat (length a) -> exists v, F32.get a idx = Some v.
Proof.
  intros H. unfold F32.get. destruct (idx <? 0) eqn:E; [lia |].
  apply lookup_lt_is_Some_2. lia.
Qed.

Lemma F32_length_make n : length (F32.make n) = Z.to_nat n.
Proof. apply length_replicate. Qed.

Lemma F32_length_fill a v : length (F32.fill a v) = length a.
Proof. apply length_replicate. Qed.

Lemma F32_get_fill a v idx :
  0 <= idx < Z.of_nat (length a) -> F32.get (F32.fill a v) idx = Some (JS.fround v).
Proof.
  intros H. unfold F32.get, F32.fill. destruct (idx <? 0) eqn:E; [lia |].
  apply lookup_replicate_2. lia.
Qed.

Lemma F32_get_make n idx :
  0 <= idx < n -> F32.get (F32.make n) idx = Some 0%float.
Proof.
  intros H. unfold F32.get, F32.make. destruct (idx <? 0) eqn:E; [lia |].
  apply lookup_replicate_2. lia.
Qed.

(** ** The invariant of the class *)

Lemma is_f32_spec x : is_f32 x = true <-> JS.fround x = x.
Proof. unfold is_f32. apply FloatAxioms.Leibniz.eqb_spec. Qed.

Lemma is_f32_fround v : is_f32 (JS.fround v) = true.
Proof. apply is_f32_spec, fround_idem. Qed.

Lemma forallb_Forall {A} (f : A -> bool) (l : list A) :
  forallb f l = true <-> Forall (fun x => f x = true) l.
Proof.
  induction l as [|x l IH]; simpl.
  - split; [constructor | reflexivity].
  - rewrite andb_true_iff, IH. split.
    + intros [H1 H2]. constructor; assumption.
    + intros H. inversion H; subst. split; assumption.
Qed.

Lemma array_ok_spec n a :
  array_ok n a = true <-> length a = n /\ Forall (fun x => is_f32 x = true) a.
Proof.
  unfold array_ok. rewrite andb_true_iff, Nat.eqb_eq, forallb_Forall. reflexivity.
Qed.

Lemma array_ok_wr n a idx v :
  array_ok n a = true -> array_ok n (F32.wr a idx v) = true.
Proof.
  rewrite !array_ok_spec. intros [Hl Hf]. split.
  - rewrite F32_length_wr. exact Hl.
  - unfold F32.wr. destruct (idx <? 0); [exact Hf|].
    apply Forall_insert; [exact Hf | apply is_f32_fround].
Qed.

Lemma array_ok_replicate n v :
  is_f32 v = true -> array_ok n (replicate n v) = true.
Proof.
  intros H. apply array_ok_spec. split; [apply length_replicate|].
  apply Forall_replicate. exact H.
Qed.

Lemma array_ok_fill n a v : array_ok n a = true -> array_ok n (F32.fill a v) = true.
Proof.
  intros H. apply array_ok_spec in H as [Hl _]. unfold F32.fill. rewrite Hl.
  apply array_ok_replicate, is_f32_fround.
Qed.

Lemma array_ok_make size : array_ok (Z.to_nat size) (F32.make size) = true.
Proof. apply array_ok_replicate. reflexivity. Qed.

Lemma array_ok_length n a : array_ok n a = true -> length a = n.
Proof. intros H. apply array_ok_spec in H. tauto. Qed.

Lemma array_ok_get n a idx v :
  array_ok n a = true -> F32.get a idx = Some v -> JS.fround v = v.
Proof.
  intros H Hg. apply array_ok_spec in H as [_ Hf].
  unfold F32.get in Hg. destruct (idx <? 0); [discriminate|].
  rewrite Forall_lookup in Hf. apply is_f32_spec. exact (Hf _ _ Hg).
Qed.

Lemma wf_iff s :
  wf s <->
  (0 <= nx (params s) /\ 0 <= ny (params s)) /\
  array_ok (cells (params s)) (Ez s) = true /\
  array_ok (cells (params s)) (Hx s) = true /\
  array_ok (cells (params s)) (Hy s) = true /\
  array_ok (cells (params s)) (epsilon s) = true /\
  array_ok (cells (params s)) (mu s) = true /\
  array_ok (cells (params s)) (sigma s) = true /\
  array_ok (cells (params s)) (Ca s) = true /\
  array_ok (cells (params s)) (Cb s) = true /\
  array_ok (cells (params s)) (Da s) = true /\
  array_ok (cells (params s)) (Db s) = true.
Proof.
  unfold wf, wfb, cells. cbn [forallb].
  rewrite !andb_true_iff, !Z.leb_le. tauto.
Qed.

(** A cell of the grid has an index inside the arrays. *)
Lemma cell_index_range p i j :
  0 <= i < nx p -> 0 <= j < ny p -> 0 <= j * nx p + i < Z.of_nat (cells p).
Proof. intros Hi Hj. unfold cells. nia. Qed.

Lemma cell_index_inj n i j i' j' :
  0 <= i < n -> 0 <= i' < n -> j * n + i = j' * n + i' -> i = i' /\ j = j'.
Proof.
  intros Hi Hi' H.
  assert (j = j').
  { destruct (Z.lt_trichotomy j j') as [H1|[H1|H1]]; [exfalso | exact H1 | exfalso].
    - assert (j * n + n <= j' * n) by nia. lia.
    - assert (j' * n + n <= j * n) by nia. lia. }
  subst j'. split; [lia | reflexivity].
Qed.

(** ** Row-major sweeps over the grid

    Every sweep of the solver visits the cells [(i, j)] row by row and, at
    an active cell, replaces the entry [j * n + i] of one array by a function
    [h i j] of the entry's old value, leaving the rest of that array and
    everything the function depends on ([env]) alone. *)
Section GridLoops.
Context {St E : Type} (arr : St -> F32.t) (env : St -> E).
Variables (body : Z -> Z -> St -> St) (act : Z -> Z -> bool).
Variables (h : Z -> Z -> float -> float) (n : Z) (e0 : E).
Variables (j0 j1 i0 i1 : Z).
Hypothesis Hact : forall i j, i0 <= i < i1 -> act i j = true -> 0 <= i < n.
Hypothesis Hbody : forall i j t, j0 <= j < j1 -> i0 <= i < i1 -> env t = e0 ->
  env (body i j t) = e0 /\
  length (arr (body i j t)) = length (arr t) /\
  (forall k, act i j = false \/ k <> j * n + i ->
             F32.get (arr (body i j t)) k = F32.get (arr t) k) /\
  (act i j = true -> forall v,
     F32.get (arr t) (j * n + i) = Some v ->
     F32.get (arr (body i j t)) (j * n + i) = Some (h i j v)).

(** The cells visited before the sweep reaches [(I, J)]. *)
Let vis (J I i j : Z) : Prop :=
  i0 <= i < i1 /\ j0 <= j /\ (j < J \/ (j = J /\ i < I)).

Let Inv (s0 : St) (J I : Z) (t : St) : Prop :=
  env t = e0 /\
  length (arr t) = length (arr s0) /\
  (forall i j, vis J I i j -> act i j = true -> forall v,
     F32.get (arr s0) (j * n + i) = Some v ->
     F32.get (arr t) (j * n + i) = Some (h i j v)) /\
  (forall k, (forall i j, vis J I i j -> act i j = true -> k <> j * n + i) ->
     F32.get (arr t) k = F32.get (arr s0) k).

Lemma sweep_cell s0 J I u :
  i0 <= I < i1 -> j0 <= J < j1 ->
  Inv s0 J I u -> Inv s0 J (I + 1) (body I J u).
Proof.
  intros HIr HJ (H1 & H2 & H3 & H4).
  destruct (Hbody I J u HJ HIr H1) as (B1 & B2 & B3 & B4).
  split; [exact B1|]. split; [congruence|].
  destruct (act I J) eqn:Ea.
  - (* the cell is written *)
    pose proof (Hact _ _ HIr Ea) as HIn.
    assert (Hfresh : F32.get (arr u) (J * n + I) = F32.get (arr s0) (J * n + I)).
    { apply H4. intros i' j' Hv' Ha' Heq.
      apply Hact in Ha'; [|unfold vis in Hv'; lia].
      apply cell_index_inj in Heq; [|lia|lia]. unfold vis in Hv'. lia. }
    split.
    + intros i j Hv Ha v Hg.
      destruct (Z.eq_dec (j * n + i) (J * n + I)) as [Heq|Hne].
      * assert (0 <= i < n) by (apply (Hact i j); [unfold vis in Hv; lia | exact Ha]).
        apply cell_index_inj in Heq as [-> ->]; [|lia|lia].
        apply B4; [reflexivity|]. rewrite Hfresh. exact Hg.
      * rewrite B3 by (right; exact Hne).
        apply H3; [|exact Ha|exact Hg].
        unfold vis in *.
        assert (~ (i = I /\ j = J)) by (intros [-> ->]; apply Hne; reflexivity).
        lia.
    + intros k Hk. rewrite B3.
      * apply H4. intros i j Hv Ha. apply Hk; [|exact Ha]. unfold vis in *. lia.
      * right. apply Hk; [|exact Ea]. unfold vis. lia.
  - (* the cell is skipped *)
    split.
    + intros i j Hv Ha v Hg. rewrite B3 by (left; reflexivity).
      apply H3; [|exact Ha|exact Hg].
      unfold vis in *.
      assert (~ (i = I /\ j = J)) by (intros [-> ->]; congruence).
      lia.
    + intros k Hk. rewrite B3 by (left; reflexivity).
      apply H4. intros i j Hv Ha. apply Hk; [|exact Ha]. unfold vis in *. lia.
Qed.

Lemma sweep_row s0 J t :
  Inv s0 J i0 t ->
  j0 <= J < j1 ->
  Inv s0 (J + 1) i0 (for_range i0 i1 (fun i s => body i J s) t).
Proof.
  intros HI HJ.
  assert (Hweak : forall u, Inv s0 J (Z.max i0 i1) u -> Inv s0 (J + 1) i0 u).
  { intros u (H1 & H2 & H3 & H4). repeat split; auto.
    - intros i j Hv. apply H3. unfold vis in *. lia.
    - intros k Hk. apply H4. intros i j Hv. apply Hk. unfold vis in *. lia. }
  apply Hweak.
  destruct (Z_le_gt_dec i0 i1) as [Hle|Hgt].
  - replace (Z.max i0 i1) with i1 by lia.
    apply (for_range_ind (fun I t => Inv s0 J I t)); [exact Hle | exact HI |].
    intros I u HIr HInv. apply sweep_cell; assumption.
  - rewrite for_range_empty by lia. replace (Z.max i0 i1) with i0 by lia. exact HI.
Qed.

Lemma sweep_spec s0 :
  env s0 = e0 ->
  env (sweep body j0 j1 i0 i1 s0) = e0 /\
  length (arr (sweep body j0 j1 i0 i1 s0)) = length (arr s0) /\
  (forall i j, j0 <= j < j1 -> i0 <= i < i1 -> act i j = true -> forall v,
     F32.get (arr s0) (j * n + i) = Some v ->
     F32.get (arr (sweep body j0 j1 i0 i1 s0)) (j * n + i) = Some (h i j v)) /\
  (forall k, (forall i j, j0 <= j < j1 -> i0 <= i < i1 -> act i j = true -> k <> j * n + i) ->
     F32.get (arr (sweep body j0 j1 i0 i1 s0)) k = F32.get (arr s0) k).
Proof.
  intros He.
  assert (H0 : Inv s0 j0 i0 s0).
  { repeat split; auto. intros i j Hv. unfold vis in Hv. lia. }
  assert (Hend : Inv s0 (Z.max j0 j1) i0 (sweep body j0 j1 i0 i1 s0)).
  { unfold sweep. destruct (Z_le_gt_dec j0 j1) as [Hle|Hgt].
    - replace (Z.max j0 j1) with j1 by lia.
      apply (for_range_ind (fun J t => Inv s0 J i0 t)); [exact Hle | exact H0 |].
      intros J u HJ HInv. apply sweep_row; [exact HInv | lia].
    - rewrite for_range_empty by lia. replace (Z.max j0 j1) with j0 by lia. exact H0. }
  destruct Hend as (H1 & H2 & H3 & H4). repeat split; auto.
  - intros i j Hj Hi. apply H3. unfold vis. lia.
  - intros k Hk. apply H4. intros i j Hv. apply Hk; unfold vis in Hv; lia.
Qed.

End GridLoops.

(** ** The invariant is kept by every method *)

Ltac wf_arrays H :=
  let H' := fresh in
  pose proof H as H'; apply wf_iff in H';
  destruct H' as ((? & ?) & ? & ? & ? & ? & ? & ? & ? & ? & ? & ?).

Lemma wf_set_Ez s v : wf s -> array_ok (cells (params s)) v = true -> wf (set_Ez v s).
Proof. intros H Hv. wf_arrays H. apply wf_iff. cbn. tauto. Qed.

Lemma wf_set_Hx s v : wf s -> array_ok (cells (params s)) v = true -> wf (set_Hx v s).
Proof. intros H Hv. wf_arrays H. apply wf_iff. cbn. tauto. Qed.

Lemma wf_set_Hy s v : wf s -> array_ok (cells (params s)) v = true -> wf (set_Hy v s).
Proof. intros H Hv. wf_arrays H. apply wf_iff. cbn. tauto. Qed.

Lemma wf_set_material s e m g :
  wf s ->
  array_ok (cells (params s)) e = true ->
  array_ok (cells (params s)) m = true ->
  array_ok (cells (params s)) g = true ->
  wf (set_material e m g s).
Proof. intros H He Hm Hg. wf_arrays H. apply wf_iff. cbn. tauto. Qed.

Lemma wf_set_coefficients s a b c d :
  wf s ->
  array_ok (cells (params s)) a = true ->
  array_ok (cells (params s)) b = true ->
  array_ok (cells (params s)) c = true ->
  array_ok (cells (params s)) d = true ->
  wf (set_coefficients a b c d s).
Proof. intros H Ha Hb Hc Hd. wf_arrays H. apply wf_iff. cbn. tauto. Qed.

Lemma wf_set_sources s v : wf s -> wf (set_sources v s).
Proof. intros H. wf_arrays H. apply wf_iff. cbn. tauto. Qed.

Lemma wf_set_obstacles s v : wf s -> wf (set_obstacles v s).
Proof. intros H. wf_arrays H. apply wf_iff. cbn. tauto. Qed.

Lemma wf_set_time s v : wf s -> wf (set_time v s).
Proof. intros H. wf_arrays H. apply wf_iff. cbn. tauto. Qed.

Ltac aok :=
  first [ assumption | apply array_ok_wr; aok | apply array_ok_fill; aok ].

(** One store into a field array. *)
Ltac wf_store :=
  match goal with
  | H : wf ?t |- wf (set_Ez _ ?t) =>
      apply wf_set_Ez; [exact H | wf_arrays H; aok]
  | H : wf ?t |- wf (set_Hx _ ?t) =>
      apply wf_set_Hx; [exact H | wf_arrays H; aok]
  | H : wf ?t |- wf (set_Hy _ ?t) =>
      apply wf_set_Hy; [exact H | wf_arrays H; aok]
  | H : wf ?t |- wf (set_sigma _ ?t) =>
      apply wf_set_material; [exact H | wf_arrays H; aok ..]
  | H : wf ?t |- wf (set_material _ _ _ ?t) =>
      apply wf_set_material; [exact H | wf_arrays H; aok ..]
  | H : wf ?t |- wf (set_coefficients _ _ _ _ ?t) =>
      apply wf_set_coefficients; [exact H | wf_arrays H; aok ..]
  end.

(** Walk into the loops of a method, keeping [wf]. *)
Ltac wf_loops :=
  repeat first
    [ assumption
    | wf_store
    | apply for_range_inv; [| intros ? ? ? ?]
    | match goal with |- wf (if ?c then _ else _) => destruct c end
    | match goal with |- wf (match ?c with _ => _ end) => destruct c end ].

Section Invariant.
Context {M : MathHost}.

Lemma wf_updateCoefficients s : wf s -> wf (updateCoefficients s).
Proof. intros H. unfold updateCoefficients. cbv zeta. wf_loops. Qed.

Lemma wf_setupPML s : wf s -> wf (setupPML s).
Proof. intros H. unfold setupPML. cbv zeta. wf_loops. Qed.

Lemma wf_updateH s : wf s -> wf (updateH s).
Proof. intros H. unfold updateH. cbv zeta. wf_loops. Qed.

Lemma wf_updateE s : wf s -> wf (updateE s).
Proof. intros H. unfold updateE. cbv zeta. wf_loops. Qed.

Lemma wf_applyBoundaries s : wf s -> wf (applyBoundaries s).
Proof.
  intros H. unfold applyBoundaries. cbv zeta.
  apply for_range_inv; [apply for_range_inv; [exact H|] |];
    intros k t Hk Ht; cbv zeta;
    match goal with |- wf (set_Ez _ ?u) => assert (wf u) by wf_store end;
    wf_store.
Qed.

Lemma wf_add_Ez idx v s : wf s -> wf (add_Ez idx v s).
Proof. intros H. unfold add_Ez. wf_store. Qed.

Lemma wf_add_Ez_at a b v s : wf s -> wf (add_Ez_at a b v s).
Proof.
  intros H. unfold add_Ez_at.
  destruct (JS.floorZ a), (JS.floorZ b); try exact H.
  destruct (in_grid _ _ _); [apply wf_add_Ez|]; exact H.
Qed.

Lemma applySourceNaN_inv src s s' : applySourceNaN src s = Some s' -> s' = s.
Proof.
  unfold applySourceNaN. cbv zeta.
  destruct (_ || _); [congruence|]. destruct (source_terminates src); congruence.
Qed.

Lemma wf_applySource src s s' : wf s -> applySource src s = Some s' -> wf s'.
Proof.
  intros H. unfold applySource. cbv zeta.
  destruct (JS.floorZ (Source.x src)) as [i|];
    [|intros E; apply applySourceNaN_inv in E as ->; exact H].
  destruct (JS.floorZ (Source.y src)) as [j|];
    [|intros E; apply applySourceNaN_inv in E as ->; exact H].
  destruct (_ || _); [intros [= <-]; exact H|].
  destruct (Source.type src);
    try destruct (loop_bounds _ _) as [[k0 k1]|]; try discriminate;
    intros Hs'; injection Hs' as <-;
    lazymatch goal with
    | |- wf (add_Ez _ _ _) => apply wf_add_Ez; exact H
    | |- wf (for_range _ _ _ _) =>
        apply for_range_inv; [exact H|]; intros;
        lazymatch goal with
        | |- wf (add_Ez_at _ _ _ _) => apply wf_add_Ez_at; assumption
        | |- wf (for_range _ _ _ _) =>
            apply for_range_inv; [assumption|]; intros;
            destruct (in_grid _ _ _); [apply wf_add_Ez|]; assumption
        end
    end.
Qed.

Lemma wf_applySourcesFrom l : forall s s',
  wf s -> applySourcesFrom l s = Some s' -> wf s'.
Proof.
  induction l as [|src l IH]; simpl; intros s s' H.
  - intros [= <-]. exact H.
  - destruct (applySource src s) as [t|] eqn:E; [|discriminate].
    apply IH. eapply wf_applySource; eassumption.
Qed.

Lemma wf_step s s' : wf s -> step s = Some s' -> wf s'.
Proof.
  intros H. unfold step, applySources.
  destruct (applySourcesFrom _ _) as [t|] eqn:E; [|discriminate].
  intros [= <-]. apply wf_set_time, wf_applyBoundaries, wf_updateE.
  eapply wf_applySourcesFrom; [|exact E]. apply wf_updateH. exact H.
Qed.

Lemma wf_reset s : wf s -> wf (reset s).
Proof.
  intros H. unfold reset. cbv zeta. apply wf_setupPML, wf_set_time.
  assert (H1 : wf (set_Ez (F32.fill (Ez s) 0) s)) by wf_store.
  assert (H2 : wf (set_Hx (F32.fill (Hx (set_Ez (F32.fill (Ez s) 0) s)) 0)
                          (set_Ez (F32.fill (Ez s) 0) s))) by wf_store.
  wf_store.
Qed.

End Invariant.

(** ** What the passes of a step leave alone *)

(** [f (loops s) = f s] when no store of the loops touches [f]. *)
Ltac frame :=
  lazymatch goal with
  | |- ?f (for_range _ _ _ _) = _ =>
      etransitivity; [apply (for_range_frame f); intros; frame | frame]
  | |- _ (if ?c then _ else _) = _ => destruct c; frame
  | |- _ (match ?c with Some _ => _ | None => _ end) = _ => destruct c; frame
  | |- _ => reflexivity
  end.

Section Frames.
Context {M : MathHost}.

Lemma updateH_frame s :
  static (updateH s) = static s /\ time (updateH s) = time s /\ Ez (updateH s) = Ez s.
Proof. unfold updateH. cbv zeta. repeat split; frame. Qed.

Lemma updateE_frame s :
  static (updateE s) = static s /\ time (updateE s) = time s /\
  Hx (updateE s) = Hx s /\ Hy (updateE s) = Hy s.
Proof. unfold updateE. cbv zeta. repeat split; frame. Qed.

Lemma applyBoundaries_frame s :
  static (applyBoundaries s) = static s /\ time (applyBoundaries s) = time s /\
  Hx (applyBoundaries s) = Hx s /\ Hy (applyBoundaries s) = Hy s.
Proof. unfold applyBoundaries. cbv zeta. repeat split; frame. Qed.

Lemma add_Ez_at_frame a b v s :
  static (add_Ez_at a b v s) = static s /\ time (add_Ez_at a b v s) = time s /\
  Hx (add_Ez_at a b v s) = Hx s /\ Hy (add_Ez_at a b v s) = Hy s.
Proof.
  unfold add_Ez_at. destruct (JS.floorZ a), (JS.floorZ b); try (repeat split; reflexivity).
  destruct (in_grid _ _ _); repeat split; reflexivity.
Qed.

Lemma applySource_frame src s s' :
  applySource src s = Some s' ->
  static s' = static s /\ time s' = time s /\ Hx s' = Hx s /\ Hy s' = Hy s.
Proof.
  unfold applySource. cbv zeta.
  destruct (JS.floorZ (Source.x src)) as [i|];
    [|intros E; apply applySourceNaN_inv in E as ->; repeat split; reflexivity].
  destruct (JS.floorZ (Source.y src)) as [j|];
    [|intros E; apply applySourceNaN_inv in E as ->; repeat split; reflexivity].
  destruct (_ || _); [intros [= <-]; repeat split; reflexivity|].
  destruct (Source.type src);
    try destruct (loop_bounds _ _) as [[k0 k1]|]; try discriminate;
    intros Hs'; injection Hs' as <-;
    lazymatch goal with
    | |- context [add_Ez_at] =>
        repeat split;
        (etransitivity; [apply for_range_frame; intros; apply add_Ez_at_frame | reflexivity])
    | |- _ => repeat split; frame
    end.
Qed.

Lemma applySourcesFrom_frame l : forall s s',
  applySourcesFrom l s = Some s' ->
  static s' = static s /\ time s' = time s /\ Hx s' = Hx s /\ Hy s' = Hy s.
Proof.
  induction l as [|src l IH]; simpl; intros s s'.
  - intros [= <-]. repeat split; reflexivity.
  - destruct (applySource src s) as [t|] eqn:E; [|discriminate].
    intros H. apply IH in H. apply applySource_frame in E.
    destruct H as (-> & -> & -> & ->). exact E.
Qed.

(** A source whose loops terminate is applied. *)
Lemma applySource_total src s :
  source_terminates src = true -> exists s', applySource src s = Some s'.
Proof.
  intros Ht. assert (HN : exists s', applySourceNaN src s = Some s').
  { unfold applySourceNaN. cbv zeta. rewrite Ht. destruct (_ || _); eauto. }
  revert Ht. unfold source_terminates, applySource. cbv zeta.
  destruct (JS.floorZ (Source.x src)) as [i|]; [|intros _; exact HN].
  destruct (JS.floorZ (Source.y src)) as [j|]; [|intros _; exact HN].
  destruct (_ || _); [eauto|].
  destruct (Source.type src); try (intros _; eexists; reflexivity).
  - destruct (loop_bounds _ _) as [[k0 k1]|]; [eauto | discriminate].
  - destruct (loop_bounds _ _) as [[k0 k1]|]; [eauto | discriminate].
Qed.

Lemma applySourcesFrom_total l : forall s,
  forallb source_terminates l = true -> exists s', applySourcesFrom l s = Some s'.
Proof.
  induction l as [|src l IH]; simpl; intros s H; [eauto|].
  apply andb_true_iff in H as [H1 H2].
  destruct (applySource_total src s H1) as [t ->]. apply IH. exact H2.
Qed.

Lemma step_total s :
  forallb source_terminates (sources s) = true -> exists s', step s = Some s'.
Proof.
  intros H. unfold step, applySources.
  replace (sources (updateH s)) with (sources s).
  - destruct (applySourcesFrom_total (sources s) (updateH s) H) as [t ->]. eauto.
  - destruct (updateH_frame s) as (Hs & _). unfold static in Hs. congruence.
Qed.

(** The shape of [step]: the four passes, then the clock. *)
Lemma step_inv s s' :
  step s = Some s' ->
  exists t, applySources (updateH s) = Some t /\
            s' = set_time (time t + 1) (applyBoundaries (updateE t)).
Proof.
  unfold step. destruct (applySources (updateH s)) as [t|]; [|discriminate].
  intros [= <-]. exists t. split; [reflexivity|].
  destruct (applyBoundaries_frame (updateE t)) as (_ & -> & _).
  destruct (updateE_frame t) as (_ & -> & _). reflexivity.
Qed.

Lemma step_static s s' :
  step s = Some s' -> static s' = static s /\ time s' = time s + 1.
Proof.
  intros H. apply step_inv in H as (t & Ht & ->).
  apply applySourcesFrom_frame in Ht as (Hs & Htime & _).
  destruct (updateH_frame s) as (Hs1 & Ht1 & _).
  destruct (updateE_frame t) as (Hs2 & Ht2 & _).
  destruct (applyBoundaries_frame (updateE t)) as (Hs3 & Ht3 & _).
  split.
  - change (static (applyBoundaries (updateE t)) = static s). congruence.
  - cbn. congruence.
Qed.

End Frames.

(** ** The rim *)

Lemma F32_get_wr_zero a idx k :
  F32.get a k = Some 0%float -> F32.get (F32.wr a idx 0) k = Some 0%float.
Proof.
  intros H. destruct (Z.eq_dec idx k) as [->|Hne].
  - rewrite F32_get_wr_eq by (eapply F32_get_Some_range; exact H). reflexivity.
  - rewrite F32_get_wr_ne by exact Hne. exact H.
Qed.

Lemma F32_get_wr_zero_at a idx :
  0 <= idx < Z.of_nat (length a) -> F32.get (F32.wr a idx 0) idx = Some 0%float.
Proof. intros H. rewrite F32_get_wr_eq by exact H. reflexivity. Qed.

(** A loop that stores zero at [f k] and [g k]: zeros stay, and the cells
    stored to are zero. *)
Lemma zero_stores (f g : Z -> Z) lo hi s :
  let s' := for_range lo hi (fun k t =>
              let t := set_Ez (F32.wr (Ez t) (f k) 0) t in
              set_Ez (F32.wr (Ez t) (g k) 0) t) s in
  length (Ez s') = length (Ez s) /\
  (forall c, F32.get (Ez s) c = Some 0%float -> F32.get (Ez s') c = Some 0%float) /\
  (forall k c, lo <= k < hi -> c = f k \/ c = g k ->
               0 <= c < Z.of_nat (length (Ez s)) -> F32.get (Ez s') c = Some 0%float).
Proof.
  cbv zeta.
  set (body := fun k t => set_Ez _ (set_Ez _ t)).
  set (P := fun (K : Z) (t : MaxwellSolver) =>
    length (Ez t) = length (Ez s) /\
    (forall c, F32.get (Ez s) c = Some 0%float -> F32.get (Ez t) c = Some 0%float) /\
    (forall k c, lo <= k < K -> c = f k \/ c = g k ->
                 0 <= c < Z.of_nat (length (Ez s)) -> F32.get (Ez t) c = Some 0%float)).
  assert (Hstep : forall K t, P K t -> P (K + 1) (body K t)).
  { intros K t (Hl & Hz & Hk). unfold P, body. cbn [Ez set_Ez]. split; [|split].
    - rewrite !F32_length_wr. exact Hl.
    - intros c Hc. apply F32_get_wr_zero, F32_get_wr_zero, Hz, Hc.
    - intros k c Hkr Hc Hr.
      destruct (Z.eq_dec k K) as [->|Hne].
      + destruct Hc as [->| ->].
        * apply F32_get_wr_zero, F32_get_wr_zero_at. lia.
        * apply F32_get_wr_zero_at. rewrite F32_length_wr. lia.
      + apply F32_get_wr_zero, F32_get_wr_zero. apply (Hk k); [lia | exact Hc | exact Hr]. }
  assert (H0 : P lo s).
  { split; [reflexivity|]. split; [auto|]. intros; lia. }
  destruct (Z_le_gt_dec lo hi) as [Hle|Hgt].
  - apply (for_range_ind P); [exact Hle | exact H0 |]. intros K t _. apply Hstep.
  - rewrite for_range_empty by lia. destruct H0 as (A & B & C).
    split; [exact A|]. split; [exact B|]. intros; lia.
Qed.

Section Rim.
Context {M : MathHost}.

Lemma applyBoundaries_rim s i j :
  wf s ->
  0 <= i < nx (params s) -> 0 <= j < ny (params s) -> on_rim (params s) i j ->
  F32.get (Ez (applyBoundaries s)) (j * nx (params s) + i) = Some 0%float.
Proof.
  intros Hwf Hi Hj Hrim. wf_arrays Hwf.
  pose proof (cell_index_range (params s) i j Hi Hj) as Hidx.
  unfold applyBoundaries. cbv zeta.
  set (p := params s) in *.
  pose proof (zero_stores (fun j => j * nx p) (fun j => j * nx p + nx p - 1) 0 (ny p) s)
    as (L1 & Z1 & K1).
  cbv zeta beta in L1, Z1, K1.
  set (s1 := for_range 0 (ny p) _ s) in *.
  pose proof (zero_stores (fun i => i) (fun i => (ny p - 1) * nx p + i) 0 (nx p) s1)
    as (L2 & Z2 & K2).
  cbv zeta beta in L2, Z2, K2.
  assert (Hlen : length (Ez s) = cells p) by (apply array_ok_length; assumption).
  destruct Hrim as [->|[->|[->| ->]]].
  - apply Z2, (K1 j); [lia | left; lia | lia].
  - apply Z2, (K1 j); [lia | right; lia | lia].
  - apply (K2 i); [lia | left; lia | lia].
  - apply (K2 i); [lia | right; reflexivity | lia].
Qed.

End Rim.

(** ** Step, boundaries and reset *)

Section StepAndReset.
Context {M : MathHost}.

Lemma setupPML_frame s : non_sigma (setupPML s) = non_sigma s.
Proof.
  unfold setupPML. cbv zeta. destruct (_ <=? 0); [reflexivity|]. frame.
Qed.

(** C10.  [step] changes only Ez, Hx, Hy and the step counter: the grid
    parameters, the material arrays, the coefficient arrays, the sources and
    the obstacles are those of the state before, and the counter is one
    more.  The call returns whenever the loops of the sources terminate. *)
Theorem step_frame (s : MaxwellSolver) :
  (forallb source_terminates (sources s) = true -> exists s', step s = Some s') /\
  (forall s', step s = Some s' ->
     params s' = params s /\
     epsilon s' = epsilon s /\ mu s' = mu s /\ sigma s' = sigma s /\
     Ca s' = Ca s /\ Cb s' = Cb s /\ Da s' = Da s /\ Db s' = Db s /\
     sources s' = sources s /\ obstacles s' = obstacles s /\
     time s' = time s + 1).
Proof.
  split; [apply step_total|].
  intros s' H. apply step_static in H as [Hs Ht]. unfold static in Hs.
  injection Hs as -> -> -> -> -> -> -> -> -> ->. repeat split. exact Ht.
Qed.

(** C4.  After every [step], Ez is exactly 0 on the outer rim: row 0, row
    ny-1, column 0 and column nx-1, whatever the sources and obstacles. *)
Theorem boundary_clamp (s : MaxwellSolver) :
  wf s ->
  (forallb source_terminates (sources s) = true -> exists s', step s = Some s') /\
  (forall s', step s = Some s' ->
     forall i j, 0 <= i < nx (params s) -> 0 <= j < ny (params s) ->
       on_rim (params s) i j ->
       F32.get (Ez s') (j * nx (params s) + i) = Some 0%float).
Proof.
  intros Hwf. split; [apply step_total|].
  intros s' H i j Hi Hj Hrim.
  apply step_inv in H as (t & Ht & ->).
  assert (Hwt : wf t).
  { eapply wf_applySourcesFrom; [|exact Ht]. apply wf_updateH, Hwf. }
  assert (Hp : params (updateE t) = params s).
  { apply applySourcesFrom_frame in Ht as (Hs & _).
    destruct (updateH_frame s) as (Hs1 & _).
    destruct (updateE_frame t) as (Hs2 & _).
    unfold static in *. congruence. }
  change (Ez (set_time _ (applyBoundaries (updateE t))))
    with (Ez (applyBoundaries (updateE t))).
  rewrite <- Hp in *. apply applyBoundaries_rim; [apply wf_updateE, Hwt | assumption ..].
Qed.

(** C8.  After [reset], [getTime()] is 0, the arrays Ez, Hx and Hy hold
    zeros only, and the lists of sources and obstacles are those from before
    the reset.  The time step of the grid is a finite number. *)
Theorem reset_contract (s : MaxwellSolver) :
  ffinite (dt (params s)) = true ->
  is_zero (getTime (reset s)) = true /\
  Ez (reset s) = replicate (length (Ez s)) 0%float /\
  Hx (reset s) = replicate (length (Hx s)) 0%float /\
  Hy (reset s) = replicate (length (Hy s)) 0%float /\
  getSources (reset s) = getSources s /\
  getObstacles (reset s) = getObstacles s.
Proof.
  intros Hdt. unfold reset, getTime, getSources, getObstacles. cbv zeta.
  match goal with |- context [setupPML ?t] =>
    remember t as u eqn:Hu; pose proof (setupPML_frame u) as Hf end.
  unfold non_sigma in Hf.
  injection Hf as Hp -> -> -> _ _ _ _ _ _ -> -> ->.
  rewrite Hp. subst u. split; [|cbn; repeat split].
  rewrite is_zero_spec. apply fzero_mul_l; [reflexivity | exact Hdt].
Qed.

End StepAndReset.

Lemma boundary_clamp_witness :
  wf demo_solver /\
  (forallb source_terminates (sources demo_solver) = true ->
   exists s', step demo_solver = Some s') /\
  (forall s', step demo_solver = Some s' ->
     forall i j, 0 <= i < nx (params demo_solver) -> 0 <= j < ny (params demo_solver) ->
       on_rim (params demo_solver) i j ->
       F32.get (Ez s') (j * nx (params demo_solver) + i) = Some 0%float).
Proof.
  split; [vm_compute; reflexivity | apply (boundary_clamp demo_solver); vm_compute; reflexivity].
Defined.

Lemma reset_contract_witness :
  ffinite (dt (params demo_solver)) = true /\
  is_zero (getTime (reset demo_solver)) = true /\
  Ez (reset demo_solver) = replicate (length (Ez demo_solver)) 0%float /\
  Hx (reset demo_solver) = replicate (length (Hx demo_solver)) 0%float /\
  Hy (reset demo_solver) = replicate (length (Hy demo_solver)) 0%float /\
  getSources (reset demo_solver) = getSources demo_solver /\
  getObstacles (reset demo_solver) = getObstacles demo_solver.
Proof.
  split; [vm_compute; reflexivity | apply (reset_contract demo_solver); vm_compute; reflexivity].
Defined.

(** ** The coefficient maps *)

Lemma F32_rd_get a idx v : F32.get a idx = Some v -> F32.rd a idx = v.
Proof. unfold F32.rd. intros ->. reflexivity. Qed.

Section Coefficients.
Context {M : MathHost}.

Lemma wf_cell s i j :
  wf s -> 0 <= i < nx (params s) -> 0 <= j < ny (params s) ->
  forall a, array_ok (cells (params s)) a = true ->
  exists v, F32.get a (j * nx (params s) + i) = Some v.
Proof.
  intros Hwf Hi Hj a Ha. apply F32_get_in_range.
  rewrite (array_ok_length _ _ Ha). apply cell_index_range; assumption.
Qed.

Lemma updateCoefficients_frame s :
  non_coefficients (updateCoefficients s) = non_coefficients s.
Proof. unfold updateCoefficients. cbv zeta. frame. Qed.

Lemma updateCoefficients_ok s : wf s -> coefficients_ok (updateCoefficients s).
Proof.
  intros Hwf. wf_arrays Hwf.
  set (p := params s) in *.
  set (body := fun (i j : Z) (t : MaxwellSolver) =>
    set_coefficients
      (F32.wr (Ca t) (j * nx p + i)
         ((1 - F32.rd (sigma t) (j * nx p + i) * dt p
                 / (2 * (F32.rd (epsilon t) (j * nx p + i) * eps0)))
          / (1 + F32.rd (sigma t) (j * nx p + i) * dt p
                 / (2 * (F32.rd (epsilon t) (j * nx p + i) * eps0))))%float)
      (F32.wr (Cb t) (j * nx p + i)
         ((dt p / (F32.rd (epsilon t) (j * nx p + i) * eps0))
          / (1 + F32.rd (sigma t) (j * nx p + i) * dt p
                 / (2 * (F32.rd (epsilon t) (j * nx p + i) * eps0))))%float)
      (F32.wr (Da t) (j * nx p + i) 1)
      (F32.wr (Db t) (j * nx p + i) (dt p / (F32.rd (mu t) (j * nx p + i) * mu0))%float)
      t).
  assert (Hdef : updateCoefficients s = sweep body 0 (ny p) 0 (nx p) s) by reflexivity.
  assert (Hact : forall i j : Z, 0 <= i < nx p -> true = true -> 0 <= i < nx p) by auto.
  assert (Hb : forall (arr : MaxwellSolver -> F32.t) (v : Z -> Z -> MaxwellSolver -> float),
    (forall i j t, arr (body i j t) = F32.wr (arr t) (j * nx p + i) (v i j t)) ->
    forall (hv : Z -> Z -> float -> float),
    (forall i j t w, materials t = materials s -> hv i j w = JS.fround (v i j t)) ->
    forall i j t, 0 <= j < ny p -> 0 <= i < nx p -> materials t = materials s ->
      materials (body i j t) = materials s /\
      length (arr (body i j t)) = length (arr t) /\
      (forall k, true = false \/ k <> j * nx p + i ->
                 F32.get (arr (body i j t)) k = F32.get (arr t) k) /\
      (true = true -> forall w, F32.get (arr t) (j * nx p + i) = Some w ->
         F32.get (arr (body i j t)) (j * nx p + i) = Some (hv i j w))).
  { intros arr v Harr hv Hhv i j t Hj Hi Ht. rewrite Harr. split; [exact Ht|].
    split; [apply F32_length_wr|]. split.
    - intros k [Hk|Hk]; [discriminate|]. apply F32_get_wr_ne. congruence.
    - intros _ w Hw. rewrite F32_get_wr_eq by (eapply F32_get_Some_range; exact Hw).
      f_equal. symmetry. apply Hhv. exact Ht. }
  assert (Hmat : forall t, materials t = materials s ->
            epsilon t = epsilon s /\ sigma t = sigma s /\ mu t = mu s).
  { intros t Ht. unfold materials in Ht. injection Ht as _ -> -> ->. auto. }
  (* each of the four maps is swept cell by cell *)
  pose proof (fun Hbody => sweep_spec Ca materials body (fun _ _ => true)
    (fun i j _ => JS.fround (spec_Ca (dt p) (F32.rd (epsilon s) (j * nx p + i))
                                      (F32.rd (sigma s) (j * nx p + i))))
    (nx p) (materials s) 0 (ny p) 0 (nx p) Hact Hbody s eq_refl) as HCa.
  pose proof (fun Hbody => sweep_spec Cb materials body (fun _ _ => true)
    (fun i j _ => JS.fround (spec_Cb (dt p) (F32.rd (epsilon s) (j * nx p + i))
                                      (F32.rd (sigma s) (j * nx p + i))))
    (nx p) (materials s) 0 (ny p) 0 (nx p) Hact Hbody s eq_refl) as HCb.
  pose proof (fun Hbody => sweep_spec Da materials body (fun _ _ => true)
    (fun i j _ => JS.fround spec_Da)
    (nx p) (materials s) 0 (ny p) 0 (nx p) Hact Hbody s eq_refl) as HDa.
  pose proof (fun Hbody => sweep_spec Db materials body (fun _ _ => true)
    (fun i j _ => JS.fround (spec_Db (dt p) (F32.rd (mu s) (j * nx p + i))))
    (nx p) (materials s) 0 (ny p) 0 (nx p) Hact Hbody s eq_refl) as HDb.
  rewrite <- Hdef in HCa, HCb, HDa, HDb.
  destruct HCa as (_ & _ & HCa & _).
  { eapply Hb; [intros; reflexivity|]. intros i j t w Ht.
    apply Hmat in Ht as (-> & -> & _). reflexivity. }
  destruct HCb as (_ & _ & HCb & _).
  { eapply Hb; [intros; reflexivity|]. intros i j t w Ht.
    apply Hmat in Ht as (-> & -> & _). reflexivity. }
  destruct HDa as (_ & _ & HDa & _).
  { eapply Hb; [intros; reflexivity|]. intros i j t w Ht. reflexivity. }
  destruct HDb as (_ & _ & HDb & _).
  { eapply Hb; [intros; reflexivity|]. intros i j t w Ht.
    apply Hmat in Ht as (_ & _ & ->). reflexivity. }
  pose proof (updateCoefficients_frame s) as Hfr.
  injection Hfr as Hp He Hm Hs _ _ _ _ _ _.
  unfold coefficients_ok. cbv zeta. rewrite Hp, He, Hm, Hs. fold p.
  intros i j Hi Hj.
  destruct (wf_cell s i j Hwf Hi Hj (epsilon s)) as [e Hge]; [assumption|].
  destruct (wf_cell s i j Hwf Hi Hj (sigma s)) as [g Hgg]; [assumption|].
  destruct (wf_cell s i j Hwf Hi Hj (mu s)) as [m Hgm]; [assumption|].
  destruct (wf_cell s i j Hwf Hi Hj (Ca s)) as [a Hga]; [assumption|].
  destruct (wf_cell s i j Hwf Hi Hj (Cb s)) as [b Hgb]; [assumption|].
  destruct (wf_cell s i j Hwf Hi Hj (Da s)) as [c Hgc]; [assumption|].
  destruct (wf_cell s i j Hwf Hi Hj (Db s)) as [d Hgd]; [assumption|].
  fold p in Hge, Hgg, Hgm, Hga, Hgb, Hgc, Hgd.
  exists e, g, m. repeat split; try assumption.
  - rewrite (HCa i j Hj Hi eq_refl a Hga).
    rewrite (F32_rd_get _ _ _ Hge), (F32_rd_get _ _ _ Hgg). reflexivity.
  - rewrite (HCb i j Hj Hi eq_refl b Hgb).
    rewrite (F32_rd_get _ _ _ Hge), (F32_rd_get _ _ _ Hgg). reflexivity.
  - rewrite (HDa i j Hj Hi eq_refl c Hgc). reflexivity.
  - rewrite (HDb i j Hj Hi eq_refl d Hgd).
    rewrite (F32_rd_get _ _ _ Hgm). reflexivity.
Qed.

End Coefficients.

(** ** Obstacles *)

(** A loop over optional states whose body fails or not regardless of the
    state. *)
Lemma for_loop_option {St : Type} (body : Z -> St -> St) n : forall i s,
  for_loop n i (fun k os => match os with
                            | None => None
                            | Some t => Some (body k t)
                            end) (Some s)
  = Some (for_loop n i body s).
Proof. induction n as [|n IH]; intros i s; simpl; [reflexivity | apply IH]. Qed.

Lemma for_loop_none {St : Type} (body : Z -> option St -> option St) n :
  (forall k, body k None = None) -> forall i, for_loop n i body None = None.
Proof.
  intros Hb. induction n as [|n IH]; intros i; simpl; [reflexivity|].
  rewrite Hb. apply IH.
Qed.

Section Obstacles.
Context {M : MathHost}.

Lemma paintRect_eq o e m g s :
  paintRect o e m g s =
  match rect_of o with
  | None => None
  | Some (j0, j1, i0, i1) =>
      Some (sweep (paintCell (params s) e m g) j0 j1 i0 i1 s)
  end.
Proof.
  unfold paintRect, rect_of. cbv zeta.
  destruct (loop_bounds (JS.Math_floor (Obstacle.y o)) _) as [[j0 j1]|]; [|reflexivity].
  destruct (loop_bounds (JS.Math_floor (Obstacle.x o)) _) as [[i0 i1]|].
  - unfold sweep, for_range at 1 3.
    rewrite (for_loop_option (fun j t => for_range i0 i1 (fun i u => paintCell (params s) e m g i j u) t)).
    destruct (j0 <? j1) eqn:E; [reflexivity|].
    apply Z.ltb_ge in E. replace (Z.to_nat (j1 - j0)) with O by lia. reflexivity.
  - destruct (j0 <? j1) eqn:E.
    + apply Z.ltb_lt in E. unfold for_range.
      destruct (Z.to_nat (j1 - j0)) as [|n] eqn:En; [lia|].
      simpl. apply for_loop_none. reflexivity.
    + apply Z.ltb_ge in E. unfold sweep. rewrite !for_range_empty by lia. reflexivity.
Qed.

Lemma wf_paintCell p e m g i j s : wf s -> wf (paintCell p e m g i j s).
Proof.
  intros H. unfold paintCell. destruct (_ && _); [|exact H]. cbv zeta. wf_store.
Qed.

Lemma wf_paintRect o e m g s s' : wf s -> paintRect o e m g s = Some s' -> wf s'.
Proof.
  intros H. rewrite paintRect_eq.
  destruct (rect_of o) as [[[[j0 j1] i0] i1]|]; [|discriminate].
  intros [= <-]. unfold sweep.
  apply for_range_inv; [exact H|]. intros. apply for_range_inv; [assumption|].
  intros. apply wf_paintCell. assumption.
Qed.

Lemma wf_addObstacle o s s' : wf s -> addObstacle o s = Some s' -> wf s'.
Proof.
  intros H. unfold addObstacle, applyObstacle.
  destruct (paintRect _ _ _ _ _) as [t|] eqn:E; [|discriminate].
  intros [= <-]. apply wf_updateCoefficients, wf_setupPML.
  eapply wf_paintRect; [|exact E]. apply wf_set_obstacles, H.
Qed.

Lemma wf_removeObstacle id s s' : wf s -> removeObstacle id s = Some s' -> wf s'.
Proof.
  intros H. unfold removeObstacle, removeObstacleMaterial.
  destruct (find _ _) as [o|]; [|intros [= <-]; exact H].
  destruct (paintRect _ _ _ _ _) as [t|] eqn:E; [|discriminate].
  intros [= <-]. apply wf_updateCoefficients, wf_setupPML, wf_set_obstacles.
  eapply wf_paintRect; [|exact E]. exact H.
Qed.

Lemma wf_allocate p : 0 <= nx p -> 0 <= ny p -> wf (allocate p).
Proof.
  intros Hx Hy. apply wf_iff. cbn.
  pose proof (array_ok_make (nx p * ny p)).
  pose proof (array_ok_fill _ _ 1%float H).
  pose proof (array_ok_fill _ _ 0%float H).
  unfold cells. tauto.
Qed.

Lemma wf_constructor p : 0 <= nx p -> 0 <= ny p -> wf (constructor p).
Proof.
  intros Hx Hy. unfold constructor.
  apply wf_updateCoefficients, wf_setupPML, wf_allocate; assumption.
Qed.

(** C2.  After construction and after every addObstacle and removeObstacle,
    the coefficient maps hold in every cell the values the specification
    gives for the cell's material entries (rounded to binary32, as every
    element of a Float32Array is): Ca, Cb, Da = 1 and Db. *)
Theorem coefficient_compiler :
  (forall p, 0 <= nx p -> 0 <= ny p -> coefficients_ok (constructor p)) /\
  (forall s o, wf s ->
     (rect_of o <> None -> exists s', addObstacle o s = Some s') /\
     (forall s', addObstacle o s = Some s' -> coefficients_ok s')) /\
  (forall s id, wf s -> coefficients_ok s ->
     forall s', removeObstacle id s = Some s' -> coefficients_ok s').
Proof.
  split; [|split].
  - intros p Hx Hy. unfold constructor.
    apply updateCoefficients_ok, wf_setupPML, wf_allocate; assumption.
  - intros s o Hwf. unfold addObstacle, applyObstacle. rewrite paintRect_eq. split.
    + destruct (rect_of o) as [[[[j0 j1] i0] i1]|]; [eauto | congruence].
    + intros s'. destruct (rect_of o) as [[[[j0 j1] i0] i1]|] eqn:E; [|discriminate].
      intros [= <-]. apply updateCoefficients_ok, wf_setupPML.
      eapply (wf_paintRect o); [apply wf_set_obstacles, Hwf|].
      rewrite paintRect_eq, E. reflexivity.
  - intros s id Hwf Hok s'. unfold removeObstacle, removeObstacleMaterial.
    destruct (find _ _) as [o|]; [|intros [= <-]; exact Hok].
    destruct (paintRect _ _ _ _ _) as [t|] eqn:E; [|discriminate].
    intros [= <-]. apply updateCoefficients_ok, wf_setupPML, wf_set_obstacles.
    eapply wf_paintRect; [|exact E]. exact Hwf.
Qed.

End Obstacles.

(** ** [Math.max] *)

Lemma is_nan_nan x : is_nan x = true -> x = nan.
Proof. rewrite is_nan_spec. apply fnan_eq. Qed.

Lemma Math_max_cases a b :
  JS.Math_max a b = nan \/ JS.Math_max a b = a \/
  (JS.Math_max a b = b /\ is_nan b = false).
Proof.
  unfold JS.Math_max.
  destruct (is_nan a) eqn:Ea; [left; reflexivity|].
  destruct (is_nan b) eqn:Eb; [left; reflexivity|]. simpl.
  destruct (a <? b)%float; [right; right; auto|].
  destruct (b <? a)%float; [right; left; reflexivity|].
  destruct (get_sign a); [right; right; auto | right; left; reflexivity].
Qed.

Lemma Math_max_nan_l b : JS.Math_max nan b = nan.
Proof. reflexivity. Qed.

(** Merging a second time changes nothing: the stored value is a binary32
    number, and the largest of it and the overlay is stored again. *)
Lemma merge_twice v q :
  JS.fround v = v -> is_nan q = false ->
  JS.fround (JS.Math_max (JS.fround (JS.Math_max v q)) q)
  = JS.fround (JS.Math_max v q).
Proof.
  intros Hv Hq.
  destruct (Math_max_cases v q) as [E|[E|[E _]]]; rewrite E.
  - reflexivity.
  - rewrite Hv, E. exact Hv.
  - destruct (Math_max_cases (JS.fround q) q) as [E'|[E'|[E' _]]]; rewrite E'.
    + (* NaN: one of the two is NaN, and it is not [q] *)
      unfold JS.Math_max in E'. rewrite Hq, orb_false_r in E'.
      destruct (is_nan (JS.fround q)) eqn:En.
      * apply is_nan_nan in En. rewrite En. reflexivity.
      * simpl in E'.
        destruct (JS.fround q <? q)%float; [rewrite E' in Hq; discriminate|].
        destruct (q <? JS.fround q)%float; [rewrite E' in En; discriminate|].
        destruct (get_sign (JS.fround q));
          [rewrite E' in Hq | rewrite E' in En]; discriminate.
    + apply fround_idem.
    + reflexivity.
Qed.

Lemma ltb_not_nan a b : (a <? b)%float = true -> is_nan b = false.
Proof.
  rewrite ltb_spec, is_nan_spec. unfold fnan, SFltb.
  destruct (Prim2SF a), (Prim2SF b); simpl; congruence.
Qed.

Section PML.
Context {M : MathHost}.

Lemma pmlMerge_idem p i j v :
  JS.fround v = v -> pmlMerge p i j (pmlMerge p i j v) = pmlMerge p i j v.
Proof.
  intros Hv. unfold pmlMerge.
  destruct (pmlThicknessOf p <=? 0); [reflexivity|].
  destruct (0 <? pmlSigmaAt p i j)%float eqn:E; [|reflexivity].
  apply merge_twice; [exact Hv | eapply ltb_not_nan; exact E].
Qed.

(** [setupPML], cell by cell. *)
Lemma setupPML_cell s i j v :
  0 <= i < nx (params s) -> 0 <= j < ny (params s) ->
  F32.get (sigma s) (j * nx (params s) + i) = Some v ->
  F32.get (sigma (setupPML s)) (j * nx (params s) + i)
  = Some (pmlMerge (params s) i j v).
Proof.
  intros Hi Hj Hv. unfold setupPML, pmlMerge. cbv zeta.
  destruct (pmlThicknessOf (params s) <=? 0); [exact Hv|].
  set (p := params s) in *.
  set (body := fun (i j : Z) (t : MaxwellSolver) =>
    if (0 <? pmlSigmaAt p i j)%float
    then set_sigma (F32.wr (sigma t) (j * nx p + i)
                      (JS.Math_max (F32.rd (sigma t) (j * nx p + i)) (pmlSigmaAt p i j))) t
    else t).
  change (F32.get (sigma (sweep body 0 (ny p) 0 (nx p) s)) (j * nx p + i) =
          Some ((fun i j v => if (0 <? pmlSigmaAt p i j)%float
                              then JS.fround (JS.Math_max v (pmlSigmaAt p i j))
                              else v) i j v)).
  refine (proj1 (proj2 (proj2 (sweep_spec sigma (fun _ => tt) body (fun _ _ => true)
            _ (nx p) tt 0 (ny p) 0 (nx p) _ _ s eq_refl))) i j Hj Hi eq_refl v Hv).
  - auto.
  - intros i' j' t _ _ _. unfold body.
    destruct (0 <? pmlSigmaAt p i' j')%float.
    + cbn [sigma set_sigma set_material]. split; [reflexivity|].
      split; [apply F32_length_wr|]. split.
      * intros k [Hk|Hk]; [discriminate|]. apply F32_get_wr_ne. congruence.
      * intros _ w Hw.
        rewrite F32_get_wr_eq by (eapply F32_get_Some_range; exact Hw).
        rewrite (F32_rd_get _ _ _ Hw). reflexivity.
    + split; [reflexivity|]. split; [reflexivity|]. split; auto.
Qed.

End PML.

(** ** Equality of arrays and of solvers *)

Lemma F32_ext (a b : F32.t) :
  length a = length b ->
  (forall k, 0 <= k < Z.of_nat (length a) -> F32.get a k = F32.get b k) ->
  a = b.
Proof.
  intros Hl H. apply list_eq. intros n.
  destruct (Nat.lt_ge_cases n (length a)) as [Hn|Hn].
  - specialize (H (Z.of_nat n)). unfold F32.get in H.
    destruct (Z.of_nat n <? 0) eqn:E; [lia|].
    rewrite Nat2Z.id in H. apply H. lia.
  - rewrite !lookup_ge_None_2 by lia. reflexivity.
Qed.

(** Every index of the arrays is the index of a cell. *)
Lemma index_cell p k :
  0 <= k < Z.of_nat (cells p) -> 0 <= nx p -> 0 <= ny p ->
  exists i j, 0 <= i < nx p /\ 0 <= j < ny p /\ k = j * nx p + i.
Proof.
  intros Hk Hx Hy. unfold cells in Hk.
  assert (0 < nx p) by nia.
  exists (k mod nx p), (k / nx p).
  pose proof (Z.mod_pos_bound k (nx p) ltac:(lia)).
  pose proof (Z.div_mod k (nx p) ltac:(lia)).
  split; [lia|]. split; [|lia].
  split; [apply Z.div_pos; lia|].
  apply Z.div_lt_upper_bound; [lia|]. nia.
Qed.

Lemma solver_ext (s t : MaxwellSolver) :
  non_sigma s = non_sigma t -> sigma s = sigma t -> s = t.
Proof.
  destruct s, t. unfold non_sigma. cbn. intros [= -> -> -> -> -> -> -> -> -> -> -> -> ->] ->.
  reflexivity.
Qed.

Lemma wf_sigma s : wf s -> array_ok (cells (params s)) (sigma s) = true.
Proof. intros H. wf_arrays H. assumption. Qed.

Lemma wf_epsilon s : wf s -> array_ok (cells (params s)) (epsilon s) = true.
Proof. intros H. wf_arrays H. assumption. Qed.

Lemma wf_mu s : wf s -> array_ok (cells (params s)) (mu s) = true.
Proof. intros H. wf_arrays H. assumption. Qed.

Lemma wf_fields s :
  wf s ->
  array_ok (cells (params s)) (Ez s) = true /\
  array_ok (cells (params s)) (Hx s) = true /\
  array_ok (cells (params s)) (Hy s) = true.
Proof. intros H. wf_arrays H. auto. Qed.

Lemma wf_coefficients s :
  wf s ->
  array_ok (cells (params s)) (Ca s) = true /\
  array_ok (cells (params s)) (Cb s) = true /\
  array_ok (cells (params s)) (Da s) = true /\
  array_ok (cells (params s)) (Db s) = true.
Proof. intros H. wf_arrays H. auto. Qed.

Lemma wf_nonneg s : wf s -> 0 <= nx (params s) /\ 0 <= ny (params s).
Proof. intros H. wf_arrays H. auto. Qed.

Section Idempotence.
Context {M : MathHost}.

Lemma wf_sigma_cell s i j :
  wf s -> 0 <= i < nx (params s) -> 0 <= j < ny (params s) ->
  exists v, F32.get (sigma s) (j * nx (params s) + i) = Some v /\ JS.fround v = v.
Proof.
  intros Hwf Hi Hj. pose proof (wf_sigma s Hwf) as Hok.
  destruct (wf_cell s i j Hwf Hi Hj (sigma s) Hok) as [v Hv].
  exists v. split; [exact Hv|]. exact (array_ok_get _ _ _ _ Hok Hv).
Qed.

Lemma setupPML_params s : params (setupPML s) = params s.
Proof. pose proof (setupPML_frame s) as H. unfold non_sigma in H. congruence. Qed.

Lemma setupPML_merged s : wf s -> pml_merged (setupPML s).
Proof.
  intros Hwf i j. rewrite setupPML_params. intros Hi Hj.
  destruct (wf_sigma_cell s i j Hwf Hi Hj) as (v & Hv & Hf).
  exists (pmlMerge (params s) i j v). split.
  - apply setupPML_cell; assumption.
  - apply pmlMerge_idem. exact Hf.
Qed.

Lemma setupPML_fixed s : wf s -> pml_merged s -> setupPML s = s.
Proof.
  intros Hwf Hm. apply solver_ext; [apply setupPML_frame|].
  pose proof (wf_sigma _ (wf_setupPML s Hwf)) as Hok'.
  pose proof (wf_sigma s Hwf) as Hok.
  destruct (wf_nonneg s Hwf) as [Hx Hy].
  rewrite setupPML_params in Hok'.
  apply F32_ext.
  - rewrite (array_ok_length _ _ Hok'), (array_ok_length _ _ Hok). reflexivity.
  - intros k Hk. rewrite (array_ok_length _ _ Hok') in Hk.
    destruct (index_cell (params s) k Hk Hx Hy) as (i & j & Hi & Hj & ->).
    destruct (Hm i j Hi Hj) as (v & Hv & Hfix).
    rewrite (setupPML_cell s i j v Hi Hj Hv), Hfix, Hv. reflexivity.
Qed.

Lemma pml_merged_same s t :
  params t = params s -> sigma t = sigma s -> pml_merged s -> pml_merged t.
Proof. intros Hp Hs H i j. rewrite Hp, Hs. apply H. Qed.

Lemma updateCoefficients_merged s : pml_merged s -> pml_merged (updateCoefficients s).
Proof.
  pose proof (updateCoefficients_frame s) as H. unfold non_coefficients in H.
  apply pml_merged_same; congruence.
Qed.

End Idempotence.

(** ** [setupPML] is idempotent *)

Section SetupPMLTwice.
Context {M : MathHost}.

Lemma fixed_merged s : wf s -> setupPML s = s -> pml_merged s.
Proof. intros Hwf H. rewrite <- H. apply setupPML_merged, Hwf. Qed.

(** The conductivity after [setupPML] depends on the grid and on the
    conductivity before only. *)
Lemma setupPML_sigma_congr s u :
  wf s -> wf u -> params u = params s -> sigma u = sigma s ->
  sigma (setupPML u) = sigma (setupPML s).
Proof.
  intros Hs Hu Hp Hg.
  pose proof (wf_sigma _ (wf_setupPML s Hs)) as Hok.
  pose proof (wf_sigma _ (wf_setupPML u Hu)) as Hok'.
  destruct (wf_nonneg s Hs) as [Hx Hy].
  rewrite setupPML_params in Hok, Hok'. rewrite Hp in Hok'.
  apply F32_ext.
  - rewrite (array_ok_length _ _ Hok'), (array_ok_length _ _ Hok). reflexivity.
  - intros k Hk. rewrite (array_ok_length _ _ Hok') in Hk.
    destruct (index_cell (params s) k Hk Hx Hy) as (i & j & Hi & Hj & ->).
    destruct (wf_sigma_cell s i j Hs Hi Hj) as (v & Hv & _).
    rewrite (setupPML_cell s i j v Hi Hj Hv).
    rewrite <- Hp in *. apply setupPML_cell; [assumption ..|]. rewrite Hg. exact Hv.
Qed.

(** C9.  [setupPML] is idempotent: once the absorbing layer is merged into
    sigma, running [setupPML] again changes nothing.  The layer is merged
    after construction, after every addObstacle and after every
    removeObstacle; and the [setupPML] call inside [reset] leaves sigma as
    it is. *)
Theorem setupPML_idempotent :
  (forall s, wf s -> setupPML (setupPML s) = setupPML s) /\
  (forall p, 0 <= nx p -> 0 <= ny p -> setupPML (constructor p) = constructor p) /\
  (forall s o s', wf s -> addObstacle o s = Some s' -> setupPML s' = s') /\
  (forall s id s', wf s -> setupPML s = s ->
                   removeObstacle id s = Some s' -> setupPML s' = s') /\
  (forall s, wf s -> setupPML s = s -> sigma (reset s) = sigma s).
Proof.
  assert (Hpost : forall t, wf t ->
            setupPML (updateCoefficients (setupPML t)) = updateCoefficients (setupPML t)).
  { intros t Ht. apply setupPML_fixed.
    - apply wf_updateCoefficients, wf_setupPML, Ht.
    - apply updateCoefficients_merged, setupPML_merged, Ht. }
  split; [|split; [|split; [|split]]].
  - intros s Hwf. apply setupPML_fixed; [apply wf_setupPML, Hwf|].
    apply setupPML_merged, Hwf.
  - intros p Hx Hy. unfold constructor. apply Hpost, wf_allocate; assumption.
  - intros s o s' Hwf. unfold addObstacle, applyObstacle.
    destruct (paintRect _ _ _ _ _) as [t|] eqn:E; [|discriminate].
    intros [= <-]. apply Hpost.
    eapply wf_paintRect; [|exact E]. apply wf_set_obstacles, Hwf.
  - intros s id s' Hwf Hfix. unfold removeObstacle, removeObstacleMaterial.
    destruct (find _ _) as [o|]; [|intros [= <-]; exact Hfix].
    destruct (paintRect _ _ _ _ _) as [t|] eqn:E; [|discriminate].
    intros [= <-]. apply Hpost, wf_set_obstacles.
    eapply wf_paintRect; [|exact E]. exact Hwf.
  - intros s Hwf Hfix. unfold reset. cbv zeta.
    rewrite (setupPML_sigma_congr s); [rewrite Hfix; reflexivity | exact Hwf | | reflexivity ..].
    apply wf_set_time.
    assert (H1 : wf (set_Ez (F32.fill (Ez s) 0) s)) by wf_store.
    assert (H2 : wf (set_Hx (F32.fill (Hx (set_Ez (F32.fill (Ez s) 0) s)) 0)
                            (set_Ez (F32.fill (Ez s) 0) s))) by wf_store.
    wf_store.
Qed.

End SetupPMLTwice.

(** ** Painting a rectangle *)

Section Paint.
Context {M : MathHost}.

Lemma paintCell_frame p e m g i j s :
  non_material (paintCell p e m g i j s) = non_material s.
Proof. unfold paintCell. destruct (_ && _); reflexivity. Qed.

Lemma sweep_paint_frame p e m g j0 j1 i0 i1 s :
  non_material (sweep (paintCell p e m g) j0 j1 i0 i1 s) = non_material s.
Proof.
  unfold sweep.
  etransitivity; [apply for_range_frame|reflexivity]. intros.
  etransitivity; [apply for_range_frame|reflexivity]. intros.
  apply paintCell_frame.
Qed.

(** One material map under the loops of an obstacle: the cells of the
    rectangle hold the stored value, the others what they held. *)
Lemma sweep_paint_get (arr : MaxwellSolver -> F32.t) (x : float) p e m g j0 j1 i0 i1 s :
  (forall i j t, arr (paintCell p e m g i j t) =
     if (i >=? 0) && (i <? nx p) && (j >=? 0) && (j <? ny p)
     then F32.wr (arr t) (j * nx p + i) x else arr t) ->
  length (arr (sweep (paintCell p e m g) j0 j1 i0 i1 s)) = length (arr s) /\
  forall i j, 0 <= i < nx p -> 0 <= j < ny p ->
    0 <= j * nx p + i < Z.of_nat (length (arr s)) ->
    F32.get (arr (sweep (paintCell p e m g) j0 j1 i0 i1 s)) (j * nx p + i) =
    if in_rect (j0, j1, i0, i1) i j then Some (JS.fround x)
    else F32.get (arr s) (j * nx p + i).
Proof.
  intros Harr.
  pose proof (sweep_spec arr (fun _ => tt) (paintCell p e m g)
    (fun i j => (i >=? 0) && (i <? nx p) && (j >=? 0) && (j <? ny p))
    (fun _ _ _ => JS.fround x) (nx p) tt j0 j1 i0 i1) as H.
  destruct H with (s0 := s) as (_ & Hlen & Hin & Hout).
  - intros i j _ Ha. rewrite !andb_true_iff, !Z.geb_le, !Z.ltb_lt in Ha. lia.
  - intros i j t _ _ _. rewrite Harr. split; [reflexivity|].
    destruct (_ && _) eqn:Ea; cbv beta iota.
    + split; [apply F32_length_wr|]. split.
      * intros k [Hk|Hk]; [discriminate|]. apply F32_get_wr_ne. congruence.
      * intros _ w Hw. pose proof (F32_get_Some_range _ _ _ Hw) as Hr.
        rewrite F32_get_wr_eq by exact Hr. reflexivity.
    + split; [reflexivity|]. split; [reflexivity | discriminate].
  - reflexivity.
  - split; [exact Hlen|]. intros i j Hi Hj Hidx. unfold in_rect.
    destruct ((j0 <=? j) && (j <? j1) && (i0 <=? i) && (i <? i1)) eqn:Er.
    + destruct (F32_get_in_range (arr s) _ Hidx) as [w Hw].
      assert (Ha : (i >=? 0) && (i <? nx p) && (j >=? 0) && (j <? ny p) = true).
      { rewrite !andb_true_iff, !Z.geb_le, !Z.ltb_lt. lia. }
      rewrite !andb_true_iff, !Z.leb_le, !Z.ltb_lt in Er.
      exact (Hin i j ltac:(lia) ltac:(lia) Ha w Hw).
    + apply Hout. intros i' j' Hj' Hi' Ha Heq.
      rewrite !andb_true_iff, !Z.geb_le, !Z.ltb_lt in Ha.
      apply cell_index_inj in Heq as [-> ->]; [|lia|lia].
      rewrite <- not_true_iff_false, !andb_true_iff, !Z.leb_le, !Z.ltb_lt in Er. lia.
Qed.

End Paint.

(** ** The coefficients depend on the materials only *)

Lemma solver_ext_coefficients (s t : MaxwellSolver) :
  non_coefficients s = non_coefficients t ->
  Ca s = Ca t -> Cb s = Cb t -> Da s = Da t -> Db s = Db t -> s = t.
Proof.
  destruct s, t. unfold non_coefficients. cbn.
  intros [= -> -> -> -> -> -> -> -> -> ->] -> -> -> ->. reflexivity.
Qed.

Lemma array_ext p (a b : F32.t) :
  0 <= nx p -> 0 <= ny p ->
  array_ok (cells p) a = true -> array_ok (cells p) b = true ->
  (forall i j, 0 <= i < nx p -> 0 <= j < ny p ->
     F32.get a (j * nx p + i) = F32.get b (j * nx p + i)) ->
  a = b.
Proof.
  intros Hx Hy Ha Hb H.
  apply F32_ext.
  - rewrite (array_ok_length _ _ Ha), (array_ok_length _ _ Hb). reflexivity.
  - intros k Hk. rewrite (array_ok_length _ _ Ha) in Hk.
    destruct (index_cell p k Hk Hx Hy) as (i & j & Hi & Hj & ->).
    apply H; assumption.
Qed.

Lemma wf_array_ext s t (a b : F32.t) :
  wf s -> params t = params s ->
  array_ok (cells (params s)) a = true -> array_ok (cells (params s)) b = true ->
  (forall i j, 0 <= i < nx (params s) -> 0 <= j < ny (params s) ->
     F32.get a (j * nx (params s) + i) = F32.get b (j * nx (params s) + i)) ->
  a = b.
Proof.
  intros Hwf _ Ha Hb H. destruct (wf_nonneg s Hwf) as [Hx Hy].
  apply F32_ext.
  - rewrite (array_ok_length _ _ Ha), (array_ok_length _ _ Hb). reflexivity.
  - intros k Hk. rewrite (array_ok_length _ _ Ha) in Hk.
    destruct (index_cell (params s) k Hk Hx Hy) as (i & j & Hi & Hj & ->).
    apply H; assumption.
Qed.

Section Congruence.
Context {M : MathHost}.

(** The coefficient maps are a function of the rest of the solver. *)
Lemma updateCoefficients_congr a b :
  wf a -> wf b -> non_coefficients a = non_coefficients b ->
  updateCoefficients a = updateCoefficients b.
Proof.
  intros Ha Hb Hab.
  pose proof (updateCoefficients_frame a) as Fa.
  pose proof (updateCoefficients_frame b) as Fb.
  pose proof (updateCoefficients_ok a Ha) as Oa.
  pose proof (updateCoefficients_ok b Hb) as Ob.
  pose proof (wf_updateCoefficients a Ha) as Wa.
  pose proof (wf_updateCoefficients b Hb) as Wb.
  assert (Hnc : non_coefficients (updateCoefficients a)
                = non_coefficients (updateCoefficients b)) by congruence.
  assert (Hp : params (updateCoefficients b) = params (updateCoefficients a)).
  { unfold non_coefficients in Hnc. congruence. }
  unfold coefficients_ok in Oa, Ob. cbv zeta in Oa, Ob.
  assert (Hcell : forall i j,
    0 <= i < nx (params (updateCoefficients a)) ->
    0 <= j < ny (params (updateCoefficients a)) ->
    F32.get (Ca (updateCoefficients a)) (j * nx (params (updateCoefficients a)) + i)
    = F32.get (Ca (updateCoefficients b)) (j * nx (params (updateCoefficients a)) + i) /\
    F32.get (Cb (updateCoefficients a)) (j * nx (params (updateCoefficients a)) + i)
    = F32.get (Cb (updateCoefficients b)) (j * nx (params (updateCoefficients a)) + i) /\
    F32.get (Da (updateCoefficients a)) (j * nx (params (updateCoefficients a)) + i)
    = F32.get (Da (updateCoefficients b)) (j * nx (params (updateCoefficients a)) + i) /\
    F32.get (Db (updateCoefficients a)) (j * nx (params (updateCoefficients a)) + i)
    = F32.get (Db (updateCoefficients b)) (j * nx (params (updateCoefficients a)) + i)).
  { intros i j Hi Hj.
    destruct (Oa i j Hi Hj) as (e & g & m & He & Hg & Hm & A1 & A2 & A3 & A4).
    rewrite <- Hp in Hi, Hj.
    destruct (Ob i j Hi Hj) as (e' & g' & m' & He' & Hg' & Hm' & B1 & B2 & B3 & B4).
    rewrite Hp in *.
    unfold non_coefficients in Hnc.
    injection Hnc as _ Heq Hmq Hgq _ _ _ _ _ _.
    rewrite <- Heq in He'. rewrite <- Hgq in Hg'. rewrite <- Hmq in Hm'.
    assert (e' = e) by congruence. assert (g' = g) by congruence.
    assert (m' = m) by congruence. subst e' g' m'.
    rewrite A1, A2, A3, A4, B1, B2, B3, B4. auto. }
  wf_arrays Wa. wf_arrays Wb. rewrite Hp in *.
  apply solver_ext_coefficients; [exact Hnc | ..];
    apply (wf_array_ext (updateCoefficients a) (updateCoefficients b));
    try assumption; intros i j Hi Hj; apply Hcell; assumption.
Qed.

End Congruence.

(** ** Adding and removing an obstacle *)

Lemma find_last_fresh (id : string) (l : list Obstacle.t) (o : Obstacle.t) :
  Forall (fun o' => Obstacle.id o' <> id) l -> Obstacle.id o = id ->
  List.find (fun o' => String.eqb (Obstacle.id o') id) (l ++ [o]) = Some o.
Proof.
  intros Hl Ho. induction Hl as [|o' l Hne _ IH]; simpl.
  - rewrite Ho, String.eqb_refl. reflexivity.
  - destruct (String.eqb_spec (Obstacle.id o') id) as [E|_]; [contradiction | exact IH].
Qed.

Section AddRemove.
Context {M : MathHost}.

Lemma paintCell_epsilon p e m g i j t :
  epsilon (paintCell p e m g i j t) =
  if (i >=? 0) && (i <? nx p) && (j >=? 0) && (j <? ny p)
  then F32.wr (epsilon t) (j * nx p + i) e else epsilon t.
Proof. unfold paintCell. destruct (_ && _); reflexivity. Qed.

Lemma paintCell_mu p e m g i j t :
  mu (paintCell p e m g i j t) =
  if (i >=? 0) && (i <? nx p) && (j >=? 0) && (j <? ny p)
  then F32.wr (mu t) (j * nx p + i) m else mu t.
Proof. unfold paintCell. destruct (_ && _); reflexivity. Qed.

Lemma paintCell_sigma p e m g i j t :
  sigma (paintCell p e m g i j t) =
  if (i >=? 0) && (i <? nx p) && (j >=? 0) && (j <? ny p)
  then F32.wr (sigma t) (j * nx p + i) g else sigma t.
Proof. unfold paintCell. destruct (_ && _); reflexivity. Qed.

(** The material of one cell after the loops of an obstacle, the layer and
    the coefficients have run over a well-formed solver [u]. *)
Lemma repaint_cell u e m g r i j :
  wf u -> 0 <= i < nx (params u) -> 0 <= j < ny (params u) ->
  let '(j0, j1, i0, i1) := r in
  forall t, params t = params u ->
            epsilon t = epsilon (sweep (paintCell (params u) e m g) j0 j1 i0 i1 u) ->
            mu t = mu (sweep (paintCell (params u) e m g) j0 j1 i0 i1 u) ->
            sigma t = sigma (sweep (paintCell (params u) e m g) j0 j1 i0 i1 u) ->
  let s' := updateCoefficients (setupPML t) in
  let idx := j * nx (params u) + i in
  params s' = params u /\
  F32.get (epsilon s') idx =
    (if in_rect r i j then Some (JS.fround e) else F32.get (epsilon u) idx) /\
  F32.get (mu s') idx =
    (if in_rect r i j then Some (JS.fround m) else F32.get (mu u) idx) /\
  exists v, F32.get (sigma u) idx = Some v /\
    F32.get (sigma s') idx =
      Some (pmlMerge (params u) i j (if in_rect r i j then JS.fround g else v)).
Proof.
  intros Hwf Hi Hj. destruct r as [[[j0 j1] i0] i1].
  intros t Hp He Hm Hg s' idx.
  pose proof (updateCoefficients_frame (setupPML t)) as Huc.
  pose proof (setupPML_frame t) as Hpml.
  unfold non_coefficients in Huc. unfold non_sigma in Hpml.
  injection Huc as Huc1 Huc2 Huc3 Huc4 _ _ _ _ _ _.
  injection Hpml as Hp1 _ _ _ Hp2 Hp3 _ _ _ _ _ _ _.
  pose proof (wf_epsilon u Hwf) as Oe. pose proof (wf_mu u Hwf) as Om.
  pose proof (wf_sigma u Hwf) as Og.
  pose proof (cell_index_range (params u) i j Hi Hj) as Hidx.
  destruct (sweep_paint_get epsilon e (params u) e m g j0 j1 i0 i1 u
              (paintCell_epsilon (params u) e m g)) as [_ Ge].
  destruct (sweep_paint_get mu m (params u) e m g j0 j1 i0 i1 u
              (paintCell_mu (params u) e m g)) as [_ Gm].
  destruct (sweep_paint_get sigma g (params u) e m g j0 j1 i0 i1 u
              (paintCell_sigma (params u) e m g)) as [_ Gg].
  subst s'. split; [congruence|].
  rewrite Huc2, Hp2, He, Huc3, Hp3, Hm, Huc4.
  split; [apply Ge; try assumption; rewrite (array_ok_length _ _ Oe); exact Hidx|].
  split; [apply Gm; try assumption; rewrite (array_ok_length _ _ Om); exact Hidx|].
  destruct (F32_get_in_range (sigma u) idx) as [v Hv];
    [rewrite (array_ok_length _ _ Og); exact Hidx|].
  exists v. split; [exact Hv|].
  subst idx.
  pose proof (setupPML_cell t i j
                (if in_rect (j0, j1, i0, i1) i j then JS.fround g else v)) as Hc.
  rewrite Hp in Hc. apply Hc; [assumption | assumption |].
  rewrite Hg.
  rewrite Gg; [|assumption|assumption|rewrite (array_ok_length _ _ Og); exact Hidx].
  destruct (in_rect _ _ _); [reflexivity | exact Hv].
Qed.

End AddRemove.

Lemma non_coefficients_eq s t :
  core s = core t -> obstacles s = obstacles t ->
  epsilon s = epsilon t -> mu s = mu t -> sigma s = sigma t ->
  non_coefficients s = non_coefficients t.
Proof.
  unfold core, non_coefficients. intros [= -> -> -> -> -> ->] -> -> -> ->. reflexivity.
Qed.

Section AddRemoveState.
Context {M : MathHost}.

Lemma core_setupPML s : core (setupPML s) = core s /\ obstacles (setupPML s) = obstacles s.
Proof.
  pose proof (setupPML_frame s) as H. unfold non_sigma in H. unfold core.
  injection H as -> -> -> -> _ _ _ _ _ _ -> -> ->. auto.
Qed.

Lemma core_updateCoefficients s :
  core (updateCoefficients s) = core s /\
  obstacles (updateCoefficients s) = obstacles s.
Proof.
  pose proof (updateCoefficients_frame s) as H. unfold non_coefficients in H. unfold core.
  injection H as -> _ _ _ -> -> -> -> -> ->. auto.
Qed.

Lemma core_sweep_paint p e m g j0 j1 i0 i1 s :
  core (sweep (paintCell p e m g) j0 j1 i0 i1 s) = core s /\
  obstacles (sweep (paintCell p e m g) j0 j1 i0 i1 s) = obstacles s.
Proof.
  pose proof (sweep_paint_frame p e m g j0 j1 i0 i1 s) as H.
  unfold non_material in H. unfold core.
  injection H as -> -> -> -> _ _ _ _ -> -> ->. auto.
Qed.

Lemma wf_sweep_paint p e m g j0 j1 i0 i1 s :
  wf s -> wf (sweep (paintCell p e m g) j0 j1 i0 i1 s).
Proof.
  intros H. unfold sweep. apply for_range_inv; [exact H|]. intros.
  apply for_range_inv; [assumption|]. intros. apply wf_paintCell. assumption.
Qed.

Lemma addObstacle_inv o s s1 :
  addObstacle o s = Some s1 ->
  exists j0 j1 i0 i1,
    rect_of o = Some (j0, j1, i0, i1) /\
    s1 = updateCoefficients (setupPML
           (sweep (paintCell (params s)
                     (Material.epsilon (Obstacle.material o))
                     (Material.mu (Obstacle.material o))
                     (Material.sigma (Obstacle.material o))) j0 j1 i0 i1
              (set_obstacles (obstacles s ++ [o]) s))).
Proof.
  unfold addObstacle, applyObstacle. rewrite paintRect_eq.
  destruct (rect_of o) as [[[[j0 j1] i0] i1]|]; [|discriminate].
  intros [= <-]. exists j0, j1, i0, i1. split; reflexivity.
Qed.

Lemma removeObstacle_inv id o s s2 :
  List.find (fun o' => String.eqb (Obstacle.id o') id) (obstacles s) = Some o ->
  removeObstacle id s = Some s2 ->
  exists j0 j1 i0 i1,
    rect_of o = Some (j0, j1, i0, i1) /\
    s2 = updateCoefficients (setupPML
           (set_obstacles
              (List.filter (fun o' => negb (String.eqb (Obstacle.id o') id))
                 (obstacles (sweep (paintCell (params s) 1 1 0) j0 j1 i0 i1 s)))
              (sweep (paintCell (params s) 1 1 0) j0 j1 i0 i1 s))).
Proof.
  intros Hf. unfold removeObstacle, removeObstacleMaterial. rewrite Hf, paintRect_eq.
  destruct (rect_of o) as [[[[j0 j1] i0] i1]|]; [|discriminate].
  intros [= <-]. exists j0, j1, i0, i1. split; reflexivity.
Qed.

(** The state after [addObstacle]: well formed, same grid, the new obstacle
    last in the list. *)
Lemma addObstacle_post o s s1 :
  wf s -> addObstacle o s = Some s1 ->
  wf s1 /\ core s1 = core s /\ obstacles s1 = obstacles s ++ [o].
Proof.
  intros Hwf H. split; [eapply wf_addObstacle; eassumption|].
  apply addObstacle_inv in H as (j0 & j1 & i0 & i1 & _ & ->).
  destruct (core_updateCoefficients (setupPML
    (sweep (paintCell (params s) (Material.epsilon (Obstacle.material o))
       (Material.mu (Obstacle.material o)) (Material.sigma (Obstacle.material o)))
       j0 j1 i0 i1 (set_obstacles (obstacles s ++ [o]) s)))) as [-> ->].
  destruct (core_setupPML
    (sweep (paintCell (params s) (Material.epsilon (Obstacle.material o))
       (Material.mu (Obstacle.material o)) (Material.sigma (Obstacle.material o)))
       j0 j1 i0 i1 (set_obstacles (obstacles s ++ [o]) s))) as [-> ->].
  destruct (core_sweep_paint (params s) (Material.epsilon (Obstacle.material o))
       (Material.mu (Obstacle.material o)) (Material.sigma (Obstacle.material o))
       j0 j1 i0 i1 (set_obstacles (obstacles s ++ [o]) s)) as [-> ->].
  split; reflexivity.
Qed.

End AddRemoveState.

Section AddRemoveCells.
Context {M : MathHost}.

Lemma params_sweep_paint p e m g j0 j1 i0 i1 s :
  params (sweep (paintCell p e m g) j0 j1 i0 i1 s) = params s.
Proof.
  destruct (core_sweep_paint p e m g j0 j1 i0 i1 s) as [H _].
  unfold core in H. congruence.
Qed.

(** The material of a cell after addObstacle and then removeObstacle of the
    same, fresh, obstacle. *)
Lemma add_remove_cell s o s1 s2 i j :
  wf s ->
  Forall (fun o' => Obstacle.id o' <> Obstacle.id o) (obstacles s) ->
  addObstacle o s = Some s1 ->
  removeObstacle (Obstacle.id o) s1 = Some s2 ->
  0 <= i < nx (params s) -> 0 <= j < ny (params s) ->
  exists r v,
    rect_of o = Some r /\
    F32.get (sigma s) (j * nx (params s) + i) = Some v /\
    F32.get (epsilon s2) (j * nx (params s) + i) =
      (if in_rect r i j then Some 1%float
       else F32.get (epsilon s) (j * nx (params s) + i)) /\
    F32.get (mu s2) (j * nx (params s) + i) =
      (if in_rect r i j then Some 1%float
       else F32.get (mu s) (j * nx (params s) + i)) /\
    F32.get (sigma s2) (j * nx (params s) + i) =
      Some (pmlMerge (params s) i j
              (if in_rect r i j then 0%float else pmlMerge (params s) i j v)).
Proof.
  intros Hwf Hfresh Ha Hr Hi Hj.
  destruct (addObstacle_post o s s1 Hwf Ha) as (Hwf1 & Hcore & Hobs).
  assert (Hp : params s1 = params s) by (unfold core in Hcore; congruence).
  assert (Hfind : List.find (fun o' => String.eqb (Obstacle.id o') (Obstacle.id o))
                    (obstacles s1) = Some o).
  { rewrite Hobs. apply find_last_fresh; [exact Hfresh | reflexivity]. }
  apply (removeObstacle_inv _ o) in Hr as (j0 & j1 & i0 & i1 & Hrect & ->); [|exact Hfind].
  apply addObstacle_inv in Ha as (j0' & j1' & i0' & i1' & Hrect' & Hs1).
  rewrite Hrect in Hrect'. injection Hrect' as <- <- <- <-.
  set (e := Material.epsilon (Obstacle.material o)) in *.
  set (m := Material.mu (Obstacle.material o)) in *.
  set (g := Material.sigma (Obstacle.material o)) in *.
  set (u0 := set_obstacles (obstacles s ++ [o]) s) in *.
  (* the cell after addObstacle *)
  assert (Hwf0 : wf u0) by (apply wf_set_obstacles, Hwf).
  pose proof (repaint_cell u0 e m g (j0, j1, i0, i1) i j Hwf0 Hi Hj
                (sweep (paintCell (params u0) e m g) j0 j1 i0 i1 u0)
                (params_sweep_paint _ _ _ _ _ _ _ _ _) eq_refl eq_refl eq_refl) as H1.
  cbv zeta in H1. change (params u0) with (params s) in H1.
  change (epsilon u0) with (epsilon s) in H1. change (mu u0) with (mu s) in H1.
  change (sigma u0) with (sigma s) in H1. rewrite <- Hs1 in H1.
  destruct H1 as (_ & He1 & Hm1 & v & Hv & Hg1).
  (* the cell after removeObstacle *)
  rewrite <- Hp in Hi, Hj.
  pose proof (repaint_cell s1 1 1 0 (j0, j1, i0, i1) i j Hwf1 Hi Hj
                (set_obstacles
                   (List.filter (fun o' => negb (String.eqb (Obstacle.id o') (Obstacle.id o)))
                      (obstacles (sweep (paintCell (params s1) 1 1 0) j0 j1 i0 i1 s1)))
                   (sweep (paintCell (params s1) 1 1 0) j0 j1 i0 i1 s1))
                (params_sweep_paint _ _ _ _ _ _ _ _ _) eq_refl eq_refl eq_refl) as H2.
  cbv zeta in H2. rewrite Hp in H2 |- *.
  destruct H2 as (_ & He2 & Hm2 & w & Hw & Hg2).
  exists (j0, j1, i0, i1), v. split; [exact Hrect|]. split; [exact Hv|].
  split; [|split].
  - rewrite He2. destruct (in_rect _ _ _) eqn:Er; [reflexivity|].
    rewrite He1. reflexivity.
  - rewrite Hm2. destruct (in_rect _ _ _) eqn:Er; [reflexivity|].
    rewrite Hm1. reflexivity.
  - rewrite Hg2. destruct (in_rect _ _ _) eqn:Er; [reflexivity|].
    rewrite Hg1 in Hw. injection Hw as <-. reflexivity.
Qed.

Lemma add_remove_core s o s1 s2 :
  wf s ->
  Forall (fun o' => Obstacle.id o' <> Obstacle.id o) (obstacles s) ->
  addObstacle o s = Some s1 ->
  removeObstacle (Obstacle.id o) s1 = Some s2 ->
  core s2 = core s /\
  obstacles s2 =
    List.filter (fun o' => negb (String.eqb (Obstacle.id o') (Obstacle.id o)))
      (obstacles s ++ [o]).
Proof.
  intros Hwf Hfresh Ha Hr.
  destruct (addObstacle_post o s s1 Hwf Ha) as (Hwf1 & Hcore & Hobs).
  assert (Hfind : List.find (fun o' => String.eqb (Obstacle.id o') (Obstacle.id o))
                    (obstacles s1) = Some o).
  { rewrite Hobs. apply find_last_fresh; [exact Hfresh | reflexivity]. }
  apply (removeObstacle_inv _ o) in Hr as (j0 & j1 & i0 & i1 & _ & ->); [|exact Hfind].
  match goal with |- core (updateCoefficients ?x) = _ /\ _ =>
    destruct (core_updateCoefficients x) as [-> ->] end.
  match goal with |- core (setupPML ?x) = _ /\ _ =>
    destruct (core_setupPML x) as [-> ->] end.
  destruct (core_sweep_paint (params s1) 1 1 0 j0 j1 i0 i1 s1) as [Hc Ho].
  split.
  - change (core (sweep (paintCell (params s1) 1 1 0) j0 j1 i0 i1 s1) = core s).
    congruence.
  - cbn [obstacles set_obstacles]. rewrite Ho, Hobs. reflexivity.
Qed.

End AddRemoveCells.

Section AddRemoveRestores.
Context {M : MathHost}.

(** Two well-formed solvers with compiled coefficients that agree on
    everything else are equal. *)
Lemma coefficients_ok_ext a b :
  wf a -> wf b -> coefficients_ok a -> coefficients_ok b ->
  non_coefficients a = non_coefficients b -> a = b.
Proof.
  intros Wa Wb Oa Ob Hnc.
  assert (Hp : params b = params a) by (unfold non_coefficients in Hnc; congruence).
  unfold coefficients_ok in Oa, Ob. cbv zeta in Oa, Ob.
  assert (Hcell : forall i j, 0 <= i < nx (params a) -> 0 <= j < ny (params a) ->
    F32.get (Ca a) (j * nx (params a) + i) = F32.get (Ca b) (j * nx (params a) + i) /\
    F32.get (Cb a) (j * nx (params a) + i) = F32.get (Cb b) (j * nx (params a) + i) /\
    F32.get (Da a) (j * nx (params a) + i) = F32.get (Da b) (j * nx (params a) + i) /\
    F32.get (Db a) (j * nx (params a) + i) = F32.get (Db b) (j * nx (params a) + i)).
  { intros i j Hi Hj.
    destruct (Oa i j Hi Hj) as (e & g & m & He & Hg & Hm & A1 & A2 & A3 & A4).
    rewrite <- Hp in Hi, Hj.
    destruct (Ob i j Hi Hj) as (e' & g' & m' & He' & Hg' & Hm' & B1 & B2 & B3 & B4).
    rewrite Hp in *.
    unfold non_coefficients in Hnc.
    injection Hnc as _ Heq Hmq Hgq _ _ _ _ _ _.
    rewrite <- Heq in He'. rewrite <- Hgq in Hg'. rewrite <- Hmq in Hm'.
    assert (e' = e) by congruence. assert (g' = g) by congruence.
    assert (m' = m) by congruence. subst e' g' m'.
    rewrite A1, A2, A3, A4, B1, B2, B3, B4. auto. }
  destruct (wf_coefficients a Wa) as (A1 & A2 & A3 & A4).
  destruct (wf_coefficients b Wb) as (B1 & B2 & B3 & B4).
  rewrite Hp in *.
  apply solver_ext_coefficients; [exact Hnc | ..];
    apply (wf_array_ext a b); try assumption; intros i j Hi Hj; apply Hcell; assumption.
Qed.

Lemma constructor_cell p i j :
  0 <= i < nx p -> 0 <= j < ny p ->
  params (constructor p) = p /\
  F32.get (epsilon (constructor p)) (j * nx p + i) = Some 1%float /\
  F32.get (mu (constructor p)) (j * nx p + i) = Some 1%float /\
  F32.get (sigma (constructor p)) (j * nx p + i) = Some (pmlMerge p i j 0).
Proof.
  intros Hi Hj. unfold constructor.
  pose proof (updateCoefficients_frame (setupPML (allocate p))) as Huc.
  pose proof (setupPML_frame (allocate p)) as Hpml.
  unfold non_coefficients in Huc. unfold non_sigma in Hpml.
  injection Huc as -> -> -> -> _ _ _ _ _ _.
  injection Hpml as Hp _ _ _ -> -> _ _ _ _ _ _ _.
  assert (Hidx : 0 <= j * nx p + i < Z.of_nat (length (F32.make (nx p * ny p)))).
  { rewrite F32_length_make. pose proof (cell_index_range p i j Hi Hj). unfold cells in *. lia. }
  split; [exact Hp|].
  split; [apply (F32_get_fill _ 1%float), Hidx|].
  split; [apply (F32_get_fill _ 1%float), Hidx|].
  apply (setupPML_cell (allocate p) i j 0%float Hi Hj).
  apply (F32_get_fill _ 0%float), Hidx.
Qed.

Lemma removeObstacle_ok id s s' :
  wf s -> coefficients_ok s -> removeObstacle id s = Some s' -> coefficients_ok s'.
Proof.
  intros Hwf Hok. unfold removeObstacle, removeObstacleMaterial.
  destruct (find _ _) as [o|]; [|intros [= <-]; exact Hok].
  destruct (paintRect _ _ _ _ _) as [t|] eqn:E; [|discriminate].
  intros [= <-]. apply updateCoefficients_ok, wf_setupPML, wf_set_obstacles.
  eapply wf_paintRect; [|exact E]. exact Hwf.
Qed.

Lemma addObstacle_ok o s s' :
  wf s -> addObstacle o s = Some s' -> coefficients_ok s'.
Proof.
  intros Hwf. unfold addObstacle, applyObstacle.
  destruct (paintRect _ _ _ _ _) as [t|] eqn:E; [|discriminate].
  intros [= <-]. apply updateCoefficients_ok, wf_setupPML.
  eapply wf_paintRect; [|exact E]. apply wf_set_obstacles, Hwf.
Qed.

Lemma constructor_obstacles p : obstacles (constructor p) = [].
Proof.
  unfold constructor.
  destruct (core_updateCoefficients (setupPML (allocate p))) as [_ ->].
  destruct (core_setupPML (allocate p)) as [_ ->]. reflexivity.
Qed.

Lemma filter_fresh_last (l : list Obstacle.t) (o : Obstacle.t) :
  Forall (fun o' => Obstacle.id o' <> Obstacle.id o) l ->
  List.filter (fun o' => negb (String.eqb (Obstacle.id o') (Obstacle.id o))) (l ++ [o]) = l.
Proof.
  intros H. rewrite List.filter_app. cbn [List.filter].
  rewrite String.eqb_refl. cbn [negb]. rewrite app_nil_r.
  induction H as [|x l Hx _ IH]; [reflexivity|]. cbn [List.filter].
  apply String.eqb_neq in Hx. rewrite Hx. cbn [negb]. rewrite IH. reflexivity.
Qed.

(** Add and remove over vacuum: when the cells of the rectangle are vacuum
    before, the state is given back. *)
Lemma add_remove_restores (s : MaxwellSolver) (o : Obstacle.t) (s1 s2 : MaxwellSolver) :
  wf s -> coefficients_ok s -> pml_merged s ->
  Forall (fun o' => Obstacle.id o' <> Obstacle.id o) (obstacles s) ->
  (forall i j, touched o (params s) i j ->
     F32.get (epsilon s) (j * nx (params s) + i) = Some 1%float /\
     F32.get (mu s) (j * nx (params s) + i) = Some 1%float /\
     F32.get (sigma s) (j * nx (params s) + i) = Some (pmlMerge (params s) i j 0)) ->
  addObstacle o s = Some s1 ->
  removeObstacle (Obstacle.id o) s1 = Some s2 ->
  s2 = s.
Proof.
  intros Hwf Hok Hmerged Hfresh Hvac Ha Hr.
  pose proof (wf_addObstacle _ _ _ Hwf Ha) as Hwf1.
  pose proof (wf_removeObstacle _ _ _ Hwf1 Hr) as Hwf2.
  destruct (add_remove_core _ o s1 s2 Hwf Hfresh Ha Hr) as [Hc Ho].
  assert (Hp2 : params s2 = params s) by (unfold core in Hc; congruence).
  assert (Hcells : forall i j, 0 <= i < nx (params s) -> 0 <= j < ny (params s) ->
    F32.get (epsilon s2) (j * nx (params s) + i) = F32.get (epsilon s) (j * nx (params s) + i) /\
    F32.get (mu s2) (j * nx (params s) + i) = F32.get (mu s) (j * nx (params s) + i) /\
    F32.get (sigma s2) (j * nx (params s) + i) = F32.get (sigma s) (j * nx (params s) + i)).
  { intros i j Hi Hj.
    destruct (add_remove_cell _ o s1 s2 i j Hwf Hfresh Ha Hr Hi Hj)
      as (r & v & Hrect & Hv & He & Hm & Hg).
    rewrite He, Hm, Hg.
    destruct (in_rect r i j) eqn:Er.
    - destruct (Hvac i j) as (E1 & E2 & E3); [exists r; auto|].
      rewrite E1, E2, E3. repeat split.
    - destruct (Hmerged i j Hi Hj) as (v' & Hv' & Hfix).
      rewrite Hv in Hv'. injection Hv' as <-.
      rewrite Hv, !Hfix. repeat split. }
  apply coefficients_ok_ext; try assumption.
  - eapply removeObstacle_ok; [exact Hwf1 | | exact Hr].
    eapply addObstacle_ok; [exact Hwf | exact Ha].
  - pose proof (wf_epsilon _ Hwf2) as E2. pose proof (wf_mu _ Hwf2) as M2.
    pose proof (wf_sigma _ Hwf2) as G2.
    pose proof (wf_epsilon _ Hwf) as E0. pose proof (wf_mu _ Hwf) as M0.
    pose proof (wf_sigma _ Hwf) as G0.
    rewrite Hp2 in E2, M2, G2.
    destruct (wf_nonneg s Hwf) as [Hx Hy].
    apply non_coefficients_eq.
    + exact Hc.
    + rewrite Ho. apply filter_fresh_last, Hfresh.
    + apply (array_ext (params s)); try assumption. intros i j Hi Hj. apply Hcells; assumption.
    + apply (array_ext (params s)); try assumption. intros i j Hi Hj. apply Hcells; assumption.
    + apply (array_ext (params s)); try assumption. intros i j Hi Hj. apply Hcells; assumption.
Qed.

(** C5 (amended).  addObstacle(o) followed by removeObstacle(o.id), for an
    obstacle whose id is not in use: the calls return when the obstacle's
    loops terminate; every cell the obstacle touched is back to epsilon = 1
    and mu = 1, and its sigma is what the absorbing layer makes of 0 (which
    is 0 outside the layer only); and whenever the cells of the rectangle
    were such vacuum cells before, in a state with compiled coefficients
    and the absorbing layer merged into sigma, the whole state, materials
    and coefficient maps included, is the state from before: with sources,
    after steps, with other obstacles listed.  The freshly constructed
    solver is one such state. *)
Theorem add_remove_obstacle :
  (forall s o, wf s ->
     Forall (fun o' => Obstacle.id o' <> Obstacle.id o) (obstacles s) ->
     rect_of o <> None ->
     exists s1 s2, addObstacle o s = Some s1 /\
                   removeObstacle (Obstacle.id o) s1 = Some s2) /\
  (forall s o s1 s2, wf s ->
     Forall (fun o' => Obstacle.id o' <> Obstacle.id o) (obstacles s) ->
     addObstacle o s = Some s1 ->
     removeObstacle (Obstacle.id o) s1 = Some s2 ->
     forall i j, touched o (params s) i j ->
       F32.get (epsilon s2) (j * nx (params s) + i) = Some 1%float /\
       F32.get (mu s2) (j * nx (params s) + i) = Some 1%float /\
       F32.get (sigma s2) (j * nx (params s) + i) = Some (pmlMerge (params s) i j 0)) /\
  (forall s o s1 s2,
     wf s -> coefficients_ok s -> pml_merged s ->
     Forall (fun o' => Obstacle.id o' <> Obstacle.id o) (obstacles s) ->
     (forall i j, touched o (params s) i j ->
        F32.get (epsilon s) (j * nx (params s) + i) = Some 1%float /\
        F32.get (mu s) (j * nx (params s) + i) = Some 1%float /\
        F32.get (sigma s) (j * nx (params s) + i) = Some (pmlMerge (params s) i j 0)) ->
     addObstacle o s = Some s1 ->
     removeObstacle (Obstacle.id o) s1 = Some s2 ->
     s2 = s) /\
  (forall p o s1 s2, 0 <= nx p -> 0 <= ny p ->
     addObstacle o (constructor p) = Some s1 ->
     removeObstacle (Obstacle.id o) s1 = Some s2 ->
     s2 = constructor p).
Proof.
  split; [|split; [|split; [exact add_remove_restores|]]].
  - intros s o Hwf Hfresh Hrect.
    destruct (rect_of o) as [[[[j0 j1] i0] i1]|] eqn:Er; [|exfalso; apply Hrect; reflexivity].
    assert (Ha : exists s1, addObstacle o s = Some s1).
    { unfold addObstacle, applyObstacle. rewrite paintRect_eq, Er. eauto. }
    destruct Ha as [s1 Ha]. exists s1.
    destruct (addObstacle_post o s s1 Hwf Ha) as (_ & _ & Hobs).
    unfold removeObstacle, removeObstacleMaterial.
    rewrite Hobs, (find_last_fresh _ _ o Hfresh eq_refl), paintRect_eq, Er. eauto.
  - intros s o s1 s2 Hwf Hfresh Ha Hr i j (r & Hrect & Hin & Hi & Hj).
    destruct (add_remove_cell s o s1 s2 i j Hwf Hfresh Ha Hr Hi Hj)
      as (r' & v & Hrect' & _ & He & Hm & Hg).
    rewrite Hrect in Hrect'. injection Hrect' as <-.
    rewrite Hin in He, Hm, Hg. auto.
  - intros p o s1 s2 Hx Hy Ha Hr.
    pose proof (wf_constructor p Hx Hy) as Hwf.
    assert (Hfresh : Forall (fun o' => Obstacle.id o' <> Obstacle.id o)
                       (obstacles (constructor p))).
    { rewrite constructor_obstacles. constructor. }
    pose proof (wf_addObstacle _ _ _ Hwf Ha) as Hwf1.
    pose proof (wf_removeObstacle _ _ _ Hwf1 Hr) as Hwf2.
    assert (Hp : params (constructor p) = p).
    { unfold constructor.
      destruct (core_updateCoefficients (setupPML (allocate p))) as [Hc _].
      destruct (core_setupPML (allocate p)) as [Hc' _].
      unfold core in *. transitivity (params (allocate p)); [congruence | reflexivity]. }
    destruct (add_remove_core _ o s1 s2 Hwf Hfresh Ha Hr) as [Hc Ho].
    assert (Hp2 : params s2 = p) by (unfold core in Hc; congruence).
    assert (Hcells : forall i j, 0 <= i < nx p -> 0 <= j < ny p ->
      F32.get (epsilon s2) (j * nx p + i) = F32.get (epsilon (constructor p)) (j * nx p + i) /\
      F32.get (mu s2) (j * nx p + i) = F32.get (mu (constructor p)) (j * nx p + i) /\
      F32.get (sigma s2) (j * nx p + i) = F32.get (sigma (constructor p)) (j * nx p + i)).
    { intros i j Hi Hj.
      destruct (constructor_cell p i j Hi Hj) as (_ & Ce & Cm & Cg).
      rewrite <- Hp in Hi, Hj.
      destruct (add_remove_cell _ o s1 s2 i j Hwf Hfresh Ha Hr Hi Hj)
        as (r & v & _ & Hv & He & Hm & Hg).
      rewrite Hp in *. rewrite Cg in Hv. injection Hv as <-.
      rewrite He, Hm, Hg, Ce, Cm, Cg.
      destruct (in_rect r i j); repeat split.
      rewrite !(pmlMerge_idem p i j 0 eq_refl). reflexivity. }
    apply coefficients_ok_ext; try assumption.
    + eapply removeObstacle_ok; [exact Hwf1 | | exact Hr].
      eapply addObstacle_ok; [exact Hwf | exact Ha].
    + unfold constructor. apply updateCoefficients_ok, wf_setupPML, wf_allocate; assumption.
    + pose proof (wf_epsilon _ Hwf2) as E2. pose proof (wf_mu _ Hwf2) as M2.
      pose proof (wf_sigma _ Hwf2) as G2.
      pose proof (wf_epsilon _ Hwf) as E0. pose proof (wf_mu _ Hwf) as M0.
      pose proof (wf_sigma _ Hwf) as G0.
      rewrite Hp in E0, M0, G0. rewrite Hp2 in E2, M2, G2.
      apply non_coefficients_eq.
      * exact Hc.
      * rewrite Ho, constructor_obstacles. simpl. rewrite String.eqb_refl. reflexivity.
      * apply (array_ext p); try assumption. intros i j Hi Hj. apply Hcells; assumption.
      * apply (array_ext p); try assumption. intros i j Hi Hj. apply Hcells; assumption.
      * apply (array_ext p); try assumption. intros i j Hi Hj. apply Hcells; assumption.
Qed.

End AddRemoveRestores.

(** ** Arithmetic on zeros *)

Lemma rd_forallb (f : float -> bool) (a : F32.t) idx :
  forallb f a = true -> 0 <= idx < Z.of_nat (length a) -> f (F32.rd a idx) = true.
Proof.
  intros Hf Hidx. destruct (F32_get_in_range a idx Hidx) as [v Hv].
  rewrite (F32_rd_get _ _ _ Hv). unfold F32.get in Hv.
  destruct (idx <? 0); [discriminate|].
  rewrite forallb_Forall, Forall_lookup in Hf. exact (Hf _ _ Hv).
Qed.

Lemma all_zero_wr a idx v : all_zero a = true -> fzero v = true -> all_zero (F32.wr a idx v) = true.
Proof.
  unfold all_zero. rewrite !forallb_Forall. intros Ha Hv.
  unfold F32.wr. destruct (idx <? 0); [exact Ha|].
  apply Forall_insert; [exact Ha | apply fzero_fround, Hv].
Qed.

Lemma zero_Hx_update da h db e1 e2 d :
  ffinite da = true -> fzero h = true -> ffinite db = true ->
  fzero e1 = true -> fzero e2 = true -> fzero d = false -> fnan d = false ->
  fzero (da * h - db * ((e1 - e2) / d)) = true.
Proof.
  intros. apply fzero_sub; [apply fzero_mul_r; assumption|].
  apply fzero_mul_r; [assumption|]. apply fzero_div; [|assumption ..].
  apply fzero_sub; assumption.
Qed.

Lemma zero_Hy_update da h db e1 e2 d :
  ffinite da = true -> fzero h = true -> ffinite db = true ->
  fzero e1 = true -> fzero e2 = true -> fzero d = false -> fnan d = false ->
  fzero (da * h + db * ((e1 - e2) / d)) = true.
Proof.
  intros. apply fzero_add; [apply fzero_mul_r; assumption|].
  apply fzero_mul_r; [assumption|]. apply fzero_div; [|assumption ..].
  apply fzero_sub; assumption.
Qed.

Lemma zero_Ez_update ca e cb h1 h2 h3 h4 d1 d2 :
  ffinite ca = true -> fzero e = true -> ffinite cb = true ->
  fzero h1 = true -> fzero h2 = true -> fzero h3 = true -> fzero h4 = true ->
  fzero d1 = false -> fnan d1 = false -> fzero d2 = false -> fnan d2 = false ->
  fzero (ca * e + cb * ((h1 - h2) / d1 - (h3 - h4) / d2)) = true.
Proof.
  intros. apply fzero_add; [apply fzero_mul_r; assumption|].
  apply fzero_mul_r; [assumption|].
  apply fzero_sub; (apply fzero_div; [apply fzero_sub; assumption | assumption ..]).
Qed.

Lemma quiet_parts s :
  quiet s ->
  wf s /\
  (all_zero (Ez s) = true /\ all_zero (Hx s) = true /\ all_zero (Hy s) = true) /\
  (forallb ffinite (Ca s) = true /\ forallb ffinite (Cb s) = true /\
   forallb ffinite (Da s) = true /\ forallb ffinite (Db s) = true) /\
  (fzero (dx (params s)) = false /\ fnan (dx (params s)) = false /\
   fzero (dy (params s)) = false /\ fnan (dy (params s)) = false).
Proof.
  intros (Hwf & Hz & Hf & Hr). unfold zero_fields, finite_coefficients, regular_spacing in *.
  rewrite !andb_true_iff, !negb_true_iff in *. tauto.
Qed.

Lemma quiet_intro s :
  wf s ->
  all_zero (Ez s) = true -> all_zero (Hx s) = true -> all_zero (Hy s) = true ->
  finite_coefficients s = true -> regular_spacing (params s) = true -> quiet s.
Proof.
  intros Hwf H1 H2 H3 Hf Hr. unfold quiet, zero_fields. rewrite H1, H2, H3. auto.
Qed.

Section Quiet.
Context {M : MathHost}.

Lemma quiet_set_Hx s idx v :
  quiet s -> fzero v = true -> quiet (set_Hx (F32.wr (Hx s) idx v) s).
Proof.
  intros Hq Hv. pose proof (quiet_parts s Hq) as (Hwf & (Z1 & Z2 & Z3) & _ & _).
  destruct Hq as (_ & _ & Hf & Hr).
  apply quiet_intro; try assumption; [wf_store|]. cbn. apply all_zero_wr; assumption.
Qed.

Lemma quiet_set_Hy s idx v :
  quiet s -> fzero v = true -> quiet (set_Hy (F32.wr (Hy s) idx v) s).
Proof.
  intros Hq Hv. pose proof (quiet_parts s Hq) as (Hwf & (Z1 & Z2 & Z3) & _ & _).
  destruct Hq as (_ & _ & Hf & Hr).
  apply quiet_intro; try assumption; [wf_store|]. cbn. apply all_zero_wr; assumption.
Qed.

Lemma quiet_set_Ez s idx v :
  quiet s -> fzero v = true -> quiet (set_Ez (F32.wr (Ez s) idx v) s).
Proof.
  intros Hq Hv. pose proof (quiet_parts s Hq) as (Hwf & (Z1 & Z2 & Z3) & _ & _).
  destruct Hq as (_ & _ & Hf & Hr).
  apply quiet_intro; try assumption; [wf_store|]. cbn. apply all_zero_wr; assumption.
Qed.

(** Reading a cell of a solver at rest. *)
Lemma quiet_reads s t i j :
  quiet t -> params t = params s ->
  0 <= j * nx (params s) + i < Z.of_nat (cells (params s)) ->
  fzero (F32.rd (Ez t) (j * nx (params s) + i)) = true /\
  fzero (F32.rd (Hx t) (j * nx (params s) + i)) = true /\
  fzero (F32.rd (Hy t) (j * nx (params s) + i)) = true /\
  ffinite (F32.rd (Ca t) (j * nx (params s) + i)) = true /\
  ffinite (F32.rd (Cb t) (j * nx (params s) + i)) = true /\
  ffinite (F32.rd (Da t) (j * nx (params s) + i)) = true /\
  ffinite (F32.rd (Db t) (j * nx (params s) + i)) = true.
Proof.
  intros Hq Hp Hidx.
  pose proof (quiet_parts t Hq) as (Hwf & (Z1 & Z2 & Z3) & (F1 & F2 & F3 & F4) & _).
  destruct (wf_fields t Hwf) as (A1 & A2 & A3).
  destruct (wf_coefficients t Hwf) as (B1 & B2 & B3 & B4).
  rewrite Hp in *.
  repeat split; apply rd_forallb; try assumption;
    erewrite array_ok_length by eassumption; exact Hidx.
Qed.

End Quiet.

(** ** A solver at rest stays at rest *)

Section QuietPasses.
Context {M : MathHost}.

Lemma quiet_cell s t i j :
  quiet t -> params t = params s ->
  0 <= i < nx (params s) -> 0 <= j < ny (params s) ->
  fzero (F32.rd (Ez t) (j * nx (params s) + i)) = true /\
  fzero (F32.rd (Hx t) (j * nx (params s) + i)) = true /\
  fzero (F32.rd (Hy t) (j * nx (params s) + i)) = true /\
  ffinite (F32.rd (Ca t) (j * nx (params s) + i)) = true /\
  ffinite (F32.rd (Cb t) (j * nx (params s) + i)) = true /\
  ffinite (F32.rd (Da t) (j * nx (params s) + i)) = true /\
  ffinite (F32.rd (Db t) (j * nx (params s) + i)) = true.
Proof.
  intros Hq Hp Hi Hj. apply quiet_reads; [assumption ..|].
  apply cell_index_range; assumption.
Qed.

Lemma quiet_updateH s : quiet s -> quiet (updateH s) /\ params (updateH s) = params s.
Proof.
  intros Hq. unfold updateH. cbv zeta.
  set (P := fun t => quiet t /\ params t = params s).
  change (P (for_range 0 (ny (params s)) (fun j s0 =>
            for_range 0 (nx (params s) - 1) (fun i s1 =>
              set_Hy (F32.wr (Hy s1) (j * nx (params s) + i)
                (F32.rd (Da s1) (j * nx (params s) + i) * F32.rd (Hy s1) (j * nx (params s) + i)
                 + F32.rd (Db s1) (j * nx (params s) + i)
                   * ((F32.rd (Ez s1) (j * nx (params s) + i + 1)
                       - F32.rd (Ez s1) (j * nx (params s) + i)) / dx (params s)))%float) s1) s0)
          (for_range 0 (ny (params s) - 1) (fun j s0 =>
            for_range 0 (nx (params s)) (fun i s1 =>
              set_Hx (F32.wr (Hx s1) (j * nx (params s) + i)
                (F32.rd (Da s1) (j * nx (params s) + i) * F32.rd (Hx s1) (j * nx (params s) + i)
                 - F32.rd (Db s1) (j * nx (params s) + i)
                   * ((F32.rd (Ez s1) (j * nx (params s) + i + nx (params s))
                       - F32.rd (Ez s1) (j * nx (params s) + i)) / dy (params s)))%float) s1) s0)
             s))).
  apply for_range_inv; [apply for_range_inv; [split; [exact Hq | reflexivity]|] |].
  - intros j t Hj Ht. apply for_range_inv; [exact Ht|].
    intros i u Hi [Hu Hp]. split; [|exact Hp].
    destruct (quiet_cell s u i j Hu Hp ltac:(lia) ltac:(lia)) as (E1 & X1 & _ & _ & _ & A1 & B1).
    destruct (quiet_cell s u i (j + 1) Hu Hp ltac:(lia) ltac:(lia)) as (E2 & _).
    pose proof (quiet_parts u Hu) as (_ & _ & _ & (_ & _ & R3 & R4)). rewrite Hp in R3, R4.
    replace (j * nx (params s) + i + nx (params s)) with ((j + 1) * nx (params s) + i) by lia.
    apply quiet_set_Hx; [exact Hu|]. apply zero_Hx_update; assumption.
  - intros j t Hj Ht. apply for_range_inv; [exact Ht|].
    intros i u Hi [Hu Hp]. split; [|exact Hp].
    destruct (quiet_cell s u i j Hu Hp ltac:(lia) ltac:(lia)) as (E1 & _ & Y1 & _ & _ & A1 & B1).
    destruct (quiet_cell s u (i + 1) j Hu Hp ltac:(lia) ltac:(lia)) as (E2 & _).
    pose proof (quiet_parts u Hu) as (_ & _ & _ & (R1 & R2 & _ & _)). rewrite Hp in R1, R2.
    replace (j * nx (params s) + i + 1) with (j * nx (params s) + (i + 1)) by lia.
    apply quiet_set_Hy; [exact Hu|]. apply zero_Hy_update; assumption.
Qed.

Lemma quiet_updateE s : quiet s -> quiet (updateE s) /\ params (updateE s) = params s.
Proof.
  intros Hq. unfold updateE. cbv zeta.
  apply (for_range_inv (fun t => quiet t /\ params t = params s));
    [split; [exact Hq | reflexivity]|].
  intros j t Hj Ht.
  apply (for_range_inv (fun t => quiet t /\ params t = params s)); [exact Ht|].
  intros i u Hi [Hu Hp]. split; [|exact Hp].
  destruct (quiet_cell s u i j Hu Hp ltac:(lia) ltac:(lia)) as (E1 & X1 & Y1 & A1 & B1 & _).
  destruct (quiet_cell s u (i - 1) j Hu Hp ltac:(lia) ltac:(lia)) as (_ & _ & Y2 & _).
  destruct (quiet_cell s u i (j - 1) Hu Hp ltac:(lia) ltac:(lia)) as (_ & X2 & _).
  pose proof (quiet_parts u Hu) as (_ & _ & _ & (R1 & R2 & R3 & R4)).
  rewrite Hp in R1, R2, R3, R4.
  replace (j * nx (params s) + i - 1) with (j * nx (params s) + (i - 1)) by lia.
  replace (j * nx (params s) + i - nx (params s)) with ((j - 1) * nx (params s) + i) by lia.
  apply quiet_set_Ez; [exact Hu|]. apply zero_Ez_update; assumption.
Qed.

Lemma quiet_applyBoundaries s :
  quiet s -> quiet (applyBoundaries s) /\ params (applyBoundaries s) = params s.
Proof.
  intros Hq. unfold applyBoundaries. cbv zeta.
  apply (for_range_inv (fun t => quiet t /\ params t = params s));
    [apply (for_range_inv (fun t => quiet t /\ params t = params s));
       [split; [exact Hq | reflexivity]|] |];
    intros k t Hk [Ht Hp]; (split; [|exact Hp]);
    apply quiet_set_Ez; [apply quiet_set_Ez; [exact Ht|] | | apply quiet_set_Ez; [exact Ht|] |];
    reflexivity.
Qed.

Lemma quiet_set_time s v : quiet s -> quiet (set_time v s).
Proof.
  intros (Hwf & Hz & Hf & Hr). split; [apply wf_set_time, Hwf|]. auto.
Qed.

End QuietPasses.

(** ** Vacuum quiescence and the first step of a dipole *)

Lemma fzero_add_zero x : fzero x = true -> (x + 0)%float = 0%float.
Proof.
  unfold fzero. intros H. apply Prim2SF_inj. rewrite add_spec.
  change (Prim2SF 0) with (S754_zero false).
  destruct (Prim2SF x) as [[]| | |]; try discriminate; reflexivity.
Qed.

Section Quiescence.
Context {M : MathHost}.

Lemma quiet_zero_cell s i j :
  quiet s -> 0 <= i < nx (params s) -> 0 <= j < ny (params s) ->
  exists v, F32.get (Ez s) (j * nx (params s) + i) = Some v /\ fzero v = true.
Proof.
  intros Hq Hi Hj.
  pose proof (quiet_parts s Hq) as (Hwf & (Z1 & _) & _).
  destruct (wf_fields s Hwf) as (A1 & _).
  destruct (wf_cell s i j Hwf Hi Hj (Ez s) A1) as [v Hv].
  exists v. split; [exact Hv|].
  destruct (quiet_cell s s i j Hq eq_refl Hi Hj) as (E & _).
  rewrite (F32_rd_get _ _ _ Hv) in E. exact E.
Qed.

(** The passes after the injection, on a solver that is still at rest. *)
Lemma quiet_finish t :
  quiet t -> quiet (set_time (time (applyBoundaries (updateE t)) + 1)
                      (applyBoundaries (updateE t))) /\
             params (applyBoundaries (updateE t)) = params t.
Proof.
  intros Ht.
  destruct (quiet_updateE t Ht) as [H1 P1].
  destruct (quiet_applyBoundaries _ H1) as [H2 P2].
  split; [apply quiet_set_time, H2 | congruence].
Qed.

Lemma quiet_step s :
  quiet s -> sources s = [] ->
  exists s', step s = Some s' /\ quiet s' /\ sources s' = [].
Proof.
  intros Hq Hs. unfold step, applySources.
  destruct (updateH_frame s) as (Hst & _ & _).
  assert (Hsrc : sources (updateH s) = []) by (unfold static in Hst; congruence).
  rewrite Hsrc. cbn [applySourcesFrom].
  destruct (quiet_updateH s Hq) as [H1 _].
  destruct (quiet_finish _ H1) as [H2 _].
  eexists. split; [reflexivity|]. split; [exact H2|].
  destruct (updateE_frame (updateH s)) as (Hst2 & _).
  destruct (applyBoundaries_frame (updateE (updateH s))) as (Hst3 & _).
  unfold static in *. cbn [sources set_time]. congruence.
Qed.

(** C3 (amended).  A solver with no source, zero fields, finite coefficients
    and spatial steps that are neither zero nor NaN still has zero fields
    after any number of steps. *)
Theorem vacuum_quiescence (n : nat) (s : MaxwellSolver) :
  quiet s -> sources s = [] ->
  exists s', run n s = Some s' /\ zero_fields s' = true.
Proof.
  revert s. induction n as [|n IH]; intros s Hq Hs; simpl.
  - exists s. split; [reflexivity|]. apply Hq.
  - destruct (quiet_step s Hq Hs) as (s1 & -> & Hq1 & Hs1). apply IH; assumption.
Qed.

(** One dipole of finite amplitude and frequency and phase 0 at the grid
    cell (i, j), zero fields, step counter 0: the first [step] evaluates the
    excitation at the time 0 * dt, where A sin(0) is 0, and leaves the
    solver at rest. *)
Lemma first_step_quiet (s : MaxwellSolver) (source : Source.t) (i j : Z) :
  quiet s -> time s = 0 ->
  sources s = [source] ->
  Source.type source = Source.dipole ->
  Source.phase source = 0%float ->
  JS.floorZ (Source.x source) = Some i ->
  JS.floorZ (Source.y source) = Some j ->
  0 <= i < nx (params s) -> 0 <= j < ny (params s) ->
  ffinite (dt (params s)) = true ->
  ffinite (Source.amplitude source) = true ->
  ffinite (omega * Source.frequency source) = true ->
  exists s', step s = Some s' /\ quiet s'.
Proof.
  intros Hq Htime Hsrc Hty Hph Hx Hy Hi Hj Hdt Hamp Hfr.
  unfold step, applySources.
  destruct (updateH_frame s) as (Hst & Ht & _).
  assert (Hs1 : sources (updateH s) = [source]) by (unfold static in Hst; congruence).
  destruct (quiet_updateH s Hq) as [H1 P1].
  rewrite Hs1. cbn [applySourcesFrom]. unfold applySource. cbv zeta.
  rewrite Hx, Hy, Hty, Hph, Ht, Htime, P1.
  replace ((i <? 0) || (i >=? nx (params s)) || (j <? 0) || (j >=? ny (params s)))
    with false.
  2:{ symmetry. rewrite !orb_false_iff, !Z.ltb_ge, Z.geb_leb, Z.geb_leb, !Z.leb_gt. lia. }
  (* the excitation at time 0 *)
  assert (Hwave : Math_sin (omega * Source.frequency source
                            * (JS.of_Z 0 * dt (params s)) + 0)%float = 0%float).
  { rewrite fzero_add_zero; [apply Math_sin_zero|].
    apply fzero_mul_r; [exact Hfr|]. apply fzero_mul_l; [reflexivity | exact Hdt]. }
  rewrite Hwave.
  assert (H2 : quiet (add_Ez (j * nx (params s) + i) (Source.amplitude source * 0)%float
                        (updateH s))).
  { unfold add_Ez. apply quiet_set_Ez; [exact H1|].
    destruct (quiet_cell s (updateH s) i j H1 P1 Hi Hj) as (E & _).
    apply fzero_add; [exact E|]. apply fzero_mul_r; [exact Hamp | reflexivity]. }
  destruct (quiet_finish _ H2) as [H3 P3].
  eexists. split; [reflexivity | exact H3].
Qed.

End Quiescence.

(** ** The solver on the demo grid (reference host) *)

Ltac evaluate :=
  lazymatch goal with
  | |- _ /\ _ => split; [vm_compute; reflexivity | evaluate]
  | |- _ => vm_compute; reflexivity
  end.

Lemma quiet_demo : quiet demo_solver.
Proof. unfold quiet. evaluate. Qed.

(** On the demo grid the amplitude of the dipole arrives with the second
    step. *)
Example second_step_dipole :
  exists s', run 2 demo_solver = Some s' /\ F32.get (Ez s') (4 * 8 + 4) = Some 1%float.
Proof. eexists. evaluate. Qed.

Lemma vacuum_quiescence_witness :
  exists s', run 3 (constructor demo_params) = Some s' /\ zero_fields s' = true.
Proof.
  apply (vacuum_quiescence 3 (constructor demo_params));
    [unfold quiet; evaluate | vm_compute; reflexivity].
Defined.

(** C3 as stated fails: with an obstacle of permittivity 0 the solver has no
    source and zero fields, and one step puts NaN into Ez at the cell
    (3, 3). *)
Lemma vacuum_quiescence_counterexample :
  exists s s',
    addObstacle degenerate_obstacle (constructor demo_params) = Some s /\
    sources s = [] /\ zero_fields s = true /\
    step s = Some s' /\
    zero_fields s' = false /\ F32.get (Ez s') (3 * 8 + 3) = Some nan.
Proof.
  eexists. eexists. split; [vm_compute; reflexivity|].
  evaluate.
Qed.

(** C6: a position outside the grid whose linear index falls inside the
    arrays is answered with the field of another cell.  On the 8 x 8 demo
    grid after two steps, [getFieldAt(12, 3)] (column 12 does not exist)
    returns Ez = 1, the value of the cell (4, 4). *)
Theorem getFieldAt_wraps :
  exists s,
    run 2 demo_solver = Some s /\
    in_grid (params s) 12 3 = false /\
    sample_Ez (getFieldAt 12 3 s) = 1%float /\
    getFieldAt 12 3 s = getFieldAt 4 4 s.
Proof. eexists. split; [vm_compute; reflexivity|]. evaluate. Qed.

Lemma coefficient_compiler_witness : coefficients_ok (constructor demo_params).
Proof. apply (proj1 coefficient_compiler demo_params); vm_compute; congruence. Defined.

Lemma setupPML_idempotent_witness :
  setupPML (constructor demo_params) = constructor demo_params.
Proof.
  apply (proj1 (proj2 setupPML_idempotent) demo_params); vm_compute; congruence.
Defined.

Lemma step_frame_witness :
  exists s', step demo_solver = Some s' /\
             sigma s' = sigma demo_solver /\ sources s' = sources demo_solver /\
             time s' = time demo_solver + 1.
Proof.
  destruct (proj1 (step_frame demo_solver)) as [s' H]; [vm_compute; reflexivity|].
  exists s'. split; [exact H|].
  destruct (proj2 (step_frame demo_solver) s' H)
    as (_ & _ & _ & Hsig & _ & _ & _ & _ & Hsrc & _ & Htime).
  split; [exact Hsig|]. split; [exact Hsrc | exact Htime].
Defined.

(** ** Rounding to nearest is monotone *)

Lemma pow2_pos k : 0 <= k -> 0 < 2 ^ k.
Proof. intros. apply Z.pow_pos_nonneg; lia. Qed.

Lemma pow2_split a b : 0 <= a -> 0 <= b -> 2 ^ (a + b) = 2 ^ a * 2 ^ b.
Proof. intros. apply Z.pow_add_r; lia. Qed.

Lemma pow2_le a b : 0 <= a <= b -> 2 ^ a <= 2 ^ b.
Proof. intros. apply Z.pow_le_mono_r; lia. Qed.

Lemma pow2_lt a b : 0 <= a < b -> 2 ^ a < 2 ^ b.
Proof. intros. apply Z.pow_lt_mono_r; lia. Qed.

Lemma rne_cases V k :
  0 <= k ->
  let q := V / 2 ^ k in
  let r := V mod 2 ^ k in
  V = q * 2 ^ k + r /\ 0 <= r < 2 ^ k /\
  (rne V k = q /\ 2 * r <= 2 ^ k \/ rne V k = q + 1 /\ 2 ^ k <= 2 * r).
Proof.
  intros Hk q r. pose proof (pow2_pos k Hk) as Hp.
  split; [unfold q, r; rewrite Z.mul_comm; apply Z.div_mod; lia|].
  split; [apply Z.mod_pos_bound; lia|].
  unfold rne. fold q r.
  destruct (2 ^ k <? 2 * r) eqn:E1; cbn [orb].
  - right. apply Z.ltb_lt in E1. lia.
  - apply Z.ltb_ge in E1. destruct (2 * r =? 2 ^ k) eqn:E2; cbn [andb].
    + apply Z.eqb_eq in E2. destruct (Z.odd q); [right | left]; lia.
    + left. lia.
Qed.

Lemma rne_mono V1 V2 k : 0 <= k -> V1 <= V2 -> rne V1 k <= rne V2 k.
Proof.
  intros Hk HV. pose proof (pow2_pos k Hk) as Hp.
  destruct (rne_cases V1 k Hk) as (D1 & R1 & C1).
  destruct (rne_cases V2 k Hk) as (D2 & R2 & C2).
  assert (Hq : V1 / 2 ^ k <= V2 / 2 ^ k) by (apply Z.div_le_mono; lia).
  destruct (Z.eq_dec (V1 / 2 ^ k) (V2 / 2 ^ k)) as [E|E]; [|lia].
  (* same quotient: the remainders decide *)
  unfold rne. rewrite <- E.
  set (q := V1 / 2 ^ k) in *. set (r1 := V1 mod 2 ^ k) in *. set (r2 := V2 mod 2 ^ k) in *.
  assert (Hr : r1 <= r2) by nia.
  destruct (2 ^ k <? 2 * r1) eqn:A1; cbn [orb].
  - apply Z.ltb_lt in A1. replace (2 ^ k <? 2 * r2) with true by (symmetry; apply Z.ltb_lt; lia).
    cbn [orb]. lia.
  - destruct (2 * r1 =? 2 ^ k) eqn:A2; cbn [andb].
    + apply Z.eqb_eq in A2. destruct (Z.odd q) eqn:Eo.
      * destruct (2 ^ k <? 2 * r2) eqn:B1; cbn [orb]; [lia|].
        apply Z.ltb_ge in B1.
        replace (2 * r2 =? 2 ^ k) with true by (symmetry; apply Z.eqb_eq; lia).
        cbn [andb]. lia.
      * destruct ((2 ^ k <? 2 * r2) || (2 * r2 =? 2 ^ k) && false); lia.
    + destruct ((2 ^ k <? 2 * r2) || (2 * r2 =? 2 ^ k) && Z.odd q); lia.
Qed.

Lemma rne_exact q k : 0 <= k -> rne (q * 2 ^ k) k = q.
Proof.
  intros Hk. pose proof (pow2_pos k Hk) as Hp. unfold rne.
  rewrite Z.div_mul, Z.mod_mul by lia.
  replace (2 ^ k <? 2 * 0) with false by (symmetry; apply Z.ltb_ge; lia).
  replace (2 * 0 =? 2 ^ k) with false by (symmetry; apply Z.eqb_neq; lia).
  reflexivity.
Qed.

Lemma rne_scale V k a : 0 <= k -> 0 <= a -> rne (V * 2 ^ a) (k + a) = rne V k.
Proof.
  intros Hk Ha. pose proof (pow2_pos k Hk) as Hp. pose proof (pow2_pos a Ha) as Hq.
  unfold rne. rewrite pow2_split by lia.
  rewrite Z.div_mul_cancel_r by lia.
  rewrite Z.mul_mod_distr_r by lia.
  replace (2 ^ k * 2 ^ a <? 2 * (V mod 2 ^ k * 2 ^ a)) with (2 ^ k <? 2 * (V mod 2 ^ k)).
  2:{ destruct (2 ^ k <? 2 * (V mod 2 ^ k)) eqn:E; symmetry.
      - apply Z.ltb_lt in E. apply Z.ltb_lt. nia.
      - apply Z.ltb_ge in E. apply Z.ltb_ge. nia. }
  replace (2 * (V mod 2 ^ k * 2 ^ a) =? 2 ^ k * 2 ^ a) with (2 * (V mod 2 ^ k) =? 2 ^ k).
  2:{ destruct (2 * (V mod 2 ^ k) =? 2 ^ k) eqn:E; symmetry.
      - apply Z.eqb_eq in E. apply Z.eqb_eq. nia.
      - apply Z.eqb_neq in E. apply Z.eqb_neq. nia. }
  reflexivity.
Qed.

Lemma digits_bounds V : 0 < V -> 2 ^ (digits V - 1) <= V < 2 ^ digits V.
Proof.
  intros HV. unfold digits. replace (Z.log2 V + 1 - 1) with (Z.log2 V) by lia.
  replace (Z.log2 V + 1) with (Z.succ (Z.log2 V)) by lia. apply Z.log2_spec, HV.
Qed.

Lemma digits_unique V d : 2 ^ (d - 1) <= V < 2 ^ d -> 0 < d -> digits V = d.
Proof.
  intros H Hd. unfold digits.
  rewrite (Z.log2_unique V (d - 1)); [lia | lia |].
  replace (Z.succ (d - 1)) with d by lia. exact H.
Qed.

Lemma digits_pos V : 1 <= digits V.
Proof. unfold digits. pose proof (Z.log2_nonneg V). lia. Qed.

Lemma digits_mono V1 V2 : V1 <= V2 -> digits V1 <= digits V2.
Proof. intros H. unfold digits. apply Z.log2_le_mono in H. lia. Qed.

Lemma digits_upper V : 0 <= V -> V < 2 ^ digits V.
Proof.
  intros H. destruct (Z.eq_dec V 0) as [->|Hn].
  - reflexivity.
  - apply digits_bounds. lia.
Qed.

Lemma digits_scale V a : 0 < V -> 0 <= a -> digits (V * 2 ^ a) = digits V + a.
Proof.
  intros HV Ha. pose proof (digits_bounds V HV) as [Hlo Hhi].
  pose proof (digits_pos V). pose proof (pow2_pos a Ha).
  apply digits_unique; [|lia].
  replace (digits V + a - 1) with (digits V - 1 + a) by lia.
  rewrite !pow2_split by lia. nia.
Qed.

Lemma digits_Zpos m : digits (Zpos m) = Zpos (digits2_pos m).
Proof. apply digits_unique; [apply digits2_pos_bounds | lia]. Qed.

Section RoundNearest.
Variables p emn : Z.
Hypothesis Hp : 0 < p.
Hypothesis Hemn : 0 <= emn.

Lemma RN_nonneg V : 0 <= V -> 0 <= RN p emn V.
Proof.
  intros HV. unfold RN. set (k := Z.max _ _).
  assert (Hk : 0 <= k) by (unfold k; lia).
  pose proof (pow2_pos k Hk). destruct (rne_cases V k Hk) as (_ & _ & C).
  assert (0 <= V / 2 ^ k) by (apply Z.div_pos; lia). nia.
Qed.

Lemma RN_mono V1 V2 : 0 <= V1 <= V2 -> RN p emn V1 <= RN p emn V2.
Proof.
  intros [H1 H12]. unfold RN.
  set (k1 := Z.max (digits V1 - p) emn). set (k2 := Z.max (digits V2 - p) emn).
  pose proof (digits_mono V1 V2 H12) as Hd.
  assert (Hk1 : 0 <= k1) by (unfold k1; lia).
  assert (Hk2 : 0 <= k2) by (unfold k2; lia).
  assert (Hk : k1 <= k2) by (unfold k1, k2; lia).
  destruct (Z.eq_dec k1 k2) as [E|E].
  - rewrite <- E. pose proof (pow2_pos k1 Hk1).
    pose proof (rne_mono V1 V2 k1 Hk1 H12). nia.
  - (* the larger number owns a higher binade: 2^(d2 - 1) lies between *)
    assert (Hk2d : k2 = digits V2 - p) by (unfold k1, k2 in *; lia).
    assert (Hd12 : digits V1 < digits V2) by (unfold k1, k2 in *; lia).
    pose proof (digits_pos V1) as Hd1.
    assert (HV2 : 0 < V2).
    { destruct (Z.eq_dec V2 0) as [->|]; [|lia].
      replace V1 with 0 in Hd12 by lia. lia. }
    pose proof (digits_bounds V2 HV2) as [Hlo2 _].
    pose proof (digits_upper V1 H1) as Hhi1.
    set (d2 := digits V2) in *.
    assert (HB : 2 ^ digits V1 <= 2 ^ (d2 - 1)) by (apply pow2_le; lia).
    transitivity (2 ^ (d2 - 1)).
    + (* V1 rounds up to 2^(d2-1) at most *)
      assert (Hs : 2 ^ (d2 - 1) = 2 ^ (d2 - 1 - k1) * 2 ^ k1).
      { rewrite <- pow2_split by lia. f_equal. lia. }
      pose proof (pow2_pos k1 Hk1).
      destruct (rne_cases V1 k1 Hk1) as (D & R & C).
      assert (V1 / 2 ^ k1 < 2 ^ (d2 - 1 - k1)).
      { apply Z.div_lt_upper_bound; [lia|]. rewrite Z.mul_comm, <- Hs. lia. }
      rewrite Hs. apply Z.mul_le_mono_nonneg_r; lia.
    + (* V2 keeps its leading bit *)
      assert (Hs : 2 ^ (d2 - 1) = 2 ^ (p - 1) * 2 ^ k2).
      { rewrite <- pow2_split by lia. f_equal. lia. }
      pose proof (pow2_pos k2 Hk2).
      destruct (rne_cases V2 k2 Hk2) as (D & R & C).
      assert (2 ^ (p - 1) <= V2 / 2 ^ k2).
      { rewrite <- (Z.div_mul (2 ^ (p - 1)) (2 ^ k2)) by lia.
        apply Z.div_le_mono; lia. }
      rewrite Hs. apply Z.mul_le_mono_nonneg_r; lia.
Qed.

(** A number that has no bit below its rounding position is kept. *)
Lemma RN_exact N a :
  0 <= a -> Z.max (digits (N * 2 ^ a) - p) emn <= a -> RN p emn (N * 2 ^ a) = N * 2 ^ a.
Proof.
  intros Ha Hk. unfold RN. set (k := Z.max _ _) in *.
  assert (Hk0 : 0 <= k) by (unfold k; lia).
  assert (E : N * 2 ^ a = N * 2 ^ (a - k) * 2 ^ k).
  { rewrite <- Z.mul_assoc, <- pow2_split by lia. do 2 f_equal. lia. }
  clearbody k. rewrite E, rne_exact by lia. reflexivity.
Qed.

End RoundNearest.

(** ** The rounding of the binary64 operations

    The Standard Library rounds by shifting the significand right bit by
    bit while recording the last bit shifted out and whether anything was
    shifted out before it.  Read as arithmetic, this is [rne]. *)

Lemma iter_pos_nat {A : Type} (f : A -> A) (n : positive) (x : A) :
  SpecFloat.iter_pos f n x = Nat.iter (Pos.to_nat n) f x.
Proof.
  revert x. induction n as [n IH|n IH|]; intros x; cbn [SpecFloat.iter_pos].
  - rewrite !IH, Pos2Nat.inj_xI.
    replace (S (2 * Pos.to_nat n)) with (Pos.to_nat n + (Pos.to_nat n + 1))%nat by lia.
    rewrite !Nat.iter_add. reflexivity.
  - rewrite !IH, Pos2Nat.inj_xO.
    replace (2 * Pos.to_nat n)%nat with (Pos.to_nat n + Pos.to_nat n)%nat by lia.
    rewrite Nat.iter_add. reflexivity.
  - reflexivity.
Qed.

Lemma shr_1_spec m r s :
  0 <= m ->
  shr_1 (Build_shr_record m r s) = Build_shr_record (m / 2) (Z.odd m) (r || s).
Proof.
  intros Hm. rewrite <- Z.div2_div.
  destruct m as [|[q|q|]|q]; try reflexivity. lia.
Qed.

(** The record after [k >= 1] shifts of [N]. *)
Lemma shr_iter N (k : nat) :
  0 <= N ->
  Nat.iter (S k) shr_1 (Build_shr_record N false false) =
  Build_shr_record (N / 2 ^ Z.of_nat (S k))
                   (Z.odd (N / 2 ^ Z.of_nat k))
                   (negb (N mod 2 ^ Z.of_nat k =? 0)).
Proof.
  intros HN. induction k as [|k IH].
  - cbn [Nat.iter]. rewrite shr_1_spec by lia.
    change (2 ^ Z.of_nat 1) with 2. change (2 ^ Z.of_nat 0) with 1.
    rewrite Z.div_1_r, Z.mod_1_r. reflexivity.
  - change (Nat.iter (S (S k)) shr_1 ?x) with (shr_1 (Nat.iter (S k) shr_1 x)).
    rewrite IH.
    set (K := Z.of_nat k).
    assert (HK : 0 <= K) by (unfold K; lia).
    replace (Z.of_nat (S (S k))) with (K + 1 + 1) by (unfold K; lia).
    replace (Z.of_nat (S k)) with (K + 1) by (unfold K; lia).
    pose proof (pow2_pos K HK) as Hp.
    pose proof (pow2_pos (K + 1) ltac:(lia)) as Hp1.
    rewrite shr_1_spec by (apply Z.div_pos; lia).
    f_equal.
    + rewrite Z.div_div by lia. f_equal.
      rewrite (pow2_split (K + 1) 1) by lia. reflexivity.
    + (* something was shifted out among the first K + 1 bits *)
      rewrite (pow2_split K 1) by lia. change (2 ^ 1) with 2.
      rewrite Z.rem_mul_r by lia.
      rewrite (Zmod_odd (N / 2 ^ K)).
      pose proof (Z.mod_pos_bound N (2 ^ K) Hp) as Ha.
      destruct (Z.odd (N / 2 ^ K)); cbn [orb].
      * symmetry. apply negb_true_iff, Z.eqb_neq. lia.
      * f_equal. f_equal. lia.
Qed.

Lemma rne_shifted N k :
  0 <= N -> 1 <= k ->
  round_nearest_even (N / 2 ^ k)
    (loc_of_shr_record
       (Build_shr_record (N / 2 ^ k) (Z.odd (N / 2 ^ (k - 1)))
                         (negb (N mod 2 ^ (k - 1) =? 0)))) = rne N k.
Proof.
  intros HN Hk.
  pose proof (pow2_pos (k - 1) ltac:(lia)) as Hh.
  assert (E2 : 2 ^ k = 2 ^ (k - 1) * 2).
  { replace k with (k - 1 + 1) at 1 by lia. rewrite pow2_split by lia. reflexivity. }
  unfold rne. cbv zeta.
  assert (Er : N mod 2 ^ k =
               N mod 2 ^ (k - 1) + 2 ^ (k - 1) * (if Z.odd (N / 2 ^ (k - 1)) then 1 else 0)).
  { rewrite E2 at 1. rewrite Z.rem_mul_r by lia. rewrite Zmod_odd. reflexivity. }
  rewrite Er. clear Er.
  pose proof (Z.mod_pos_bound N (2 ^ (k - 1)) Hh) as Ha.
  set (q := N / 2 ^ k). rewrite E2.
  set (a := N mod 2 ^ (k - 1)) in *. set (h := 2 ^ (k - 1)) in *.
  destruct (Z.odd (N / h)) eqn:Eb.
  - destruct (a =? 0) eqn:Ea; cbn [negb loc_of_shr_record round_nearest_even].
    + apply Z.eqb_eq in Ea. rewrite Ea.
      replace (h * 2 <? 2 * (0 + h * 1)) with false by (symmetry; apply Z.ltb_ge; lia).
      replace (2 * (0 + h * 1) =? h * 2) with true by (symmetry; apply Z.eqb_eq; lia).
      cbn [orb andb]. rewrite <- Z.negb_odd. destruct (Z.odd q); reflexivity.
    + apply Z.eqb_neq in Ea.
      replace (h * 2 <? 2 * (a + h * 1)) with true by (symmetry; apply Z.ltb_lt; lia).
      reflexivity.
  - replace (h * 2 <? 2 * (a + h * 0)) with false by (symmetry; apply Z.ltb_ge; lia).
    replace (2 * (a + h * 0) =? h * 2) with false by (symmetry; apply Z.eqb_neq; lia).
    destruct (a =? 0); reflexivity.
Qed.

Lemma rne_zero_shift N : rne N 0 = N.
Proof. replace N with (N * 2 ^ 0) at 1 by (change (2 ^ 0) with 1; lia). apply rne_exact. lia. Qed.

Lemma fexp64 x : fexp prec emax x = Z.max (x - 53) (-1074).
Proof. reflexivity. Qed.

(** The first shift and the rounding. *)
Lemma shr_fexp_round (m : positive) (e : Z) :
  let n := Z.max (Zpos (digits2_pos m) - 53) (-1074 - e) in
  0 <= n ->
  let '(mrs, e') := shr_fexp prec emax (Zpos m) e loc_Exact in
  round_nearest_even (shr_m mrs) (loc_of_shr_record mrs) = rne (Zpos m) n /\ e' = e + n.
Proof.
  intros n Hn. unfold shr_fexp. rewrite fexp64.
  change (Zdigits2 (Zpos m)) with (Zpos (digits2_pos m)).
  replace (Z.max (Zpos (digits2_pos m) + e - 53) (-1074) - e) with n by (unfold n; lia).
  cbn [shr_record_of_loc]. clearbody n.
  destruct n as [|k|k]; [| |lia]; cbn [shr].
  - cbn [shr_m loc_of_shr_record round_nearest_even]. rewrite rne_zero_shift. lia.
  - rewrite iter_pos_nat.
    destruct (Pos.to_nat k) as [|j] eqn:Ej; [lia|].
    rewrite shr_iter by lia. cbn [shr_m].
    replace (Z.of_nat (S j)) with (Zpos k) by lia.
    replace (Z.of_nat j) with (Zpos k - 1) by lia.
    rewrite rne_shifted by lia. split; reflexivity.
Qed.

(** The second shift renormalises a significand that was rounded up to
    2^53. *)
Lemma shr_fexp_carry (M : Z) (e : Z) :
  0 <= M <= 2 ^ 53 -> -1074 <= e ->
  shr_fexp prec emax M e loc_Exact =
  if M <? 2 ^ 53 then (Build_shr_record M false false, e)
  else (Build_shr_record (2 ^ 52) false false, e + 1).
Proof.
  intros HM He. unfold shr_fexp. rewrite fexp64. cbn [shr_record_of_loc].
  destruct (M <? 2 ^ 53) eqn:E.
  - apply Z.ltb_lt in E.
    assert (Hd : Zdigits2 M <= 53).
    { destruct M as [|q|q]; [cbn; lia | | lia]. cbn [Zdigits2].
      pose proof (digits2_pos_bounds q) as [Dlo _].
      destruct (Z_le_gt_dec (Zpos (digits2_pos q)) 53) as [H|H]; [exact H|].
      assert (2 ^ 53 <= 2 ^ (Zpos (digits2_pos q) - 1)) by (apply pow2_le; lia). lia. }
    destruct (Z.max (Zdigits2 M + e - 53) (-1074) - e) as [|k|k] eqn:En; [reflexivity|lia|reflexivity].
  - apply Z.ltb_ge in E. replace M with (2 ^ 53) by lia.
    change (Zdigits2 (2 ^ 53)) with 54.
    replace (Z.max (54 + e - 53) (-1074) - e) with 1 by lia.
    reflexivity.
Qed.

(** The rounded significand has 53 bits or is 2^53. *)
Lemma rne_significand (m : positive) (n : Z) :
  0 <= n -> Zpos (digits2_pos m) - 53 <= n ->
  0 <= rne (Zpos m) n <= 2 ^ 53.
Proof.
  intros Hn Hd. pose proof (pow2_pos n Hn) as Hp.
  destruct (rne_cases (Zpos m) n Hn) as (D & R & C).
  pose proof (digits2_pos_bounds m) as [_ Dhi].
  assert (0 <= Zpos m / 2 ^ n) by (apply Z.div_pos; lia).
  assert (Zpos m / 2 ^ n < 2 ^ 53).
  { apply Z.div_lt_upper_bound; [lia|].
    rewrite <- pow2_split by lia.
    assert (2 ^ Zpos (digits2_pos m) <= 2 ^ (n + 53)) by (apply pow2_le; lia). lia. }
  lia.
Qed.

(** The rounding of a positive number [m * 2^e] to binary64. *)
Lemma binary_round_aux_spec (s : bool) (m : positive) (e : Z) :
  let n := Z.max (Zpos (digits2_pos m) - 53) (-1074 - e) in
  0 <= n ->
  let M := rne (Zpos m) n in
  binary_round_aux prec emax s (Zpos m) e loc_Exact =
  if M =? 0 then S754_zero s
  else if M <? 2 ^ 53
       then (if e + n <=? 971 then S754_finite s (Z.to_pos M) (e + n) else S754_infinity s)
       else (if e + n + 1 <=? 971 then S754_finite s (Z.to_pos (2 ^ 52)) (e + n + 1)
             else S754_infinity s).
Proof.
  intros n Hn M. unfold binary_round_aux.
  pose proof (shr_fexp_round m e Hn) as H1. fold n in H1.
  destruct (shr_fexp prec emax (Zpos m) e loc_Exact) as [mrs e'].
  destruct H1 as [-> ->]. fold M.
  assert (HM : 0 <= M <= 2 ^ 53) by (apply rne_significand; unfold n; lia).
  rewrite shr_fexp_carry by (unfold n; lia).
  destruct (M =? 0) eqn:E0.
  - apply Z.eqb_eq in E0. rewrite E0. reflexivity.
  - apply Z.eqb_neq in E0. destruct (M <? 2 ^ 53) eqn:E1; cbn [shr_m].
    + destruct M as [|q|q]; [lia| |lia]. reflexivity.
    + reflexivity.
Qed.

(** ** Values of binary64 numbers *)

Lemma RN_zero p emn : 0 <= emn -> RN p emn 0 = 0.
Proof.
  intros H. unfold RN. set (k := Z.max _ _).
  assert (Hk : 0 <= k) by (unfold k; lia).
  pose proof (rne_exact 0 k Hk) as E. rewrite Z.mul_0_l in E.
  rewrite E. apply Z.mul_0_l.
Qed.

Lemma RN_pow2 p emn a : 0 < p -> 0 <= emn <= a -> RN p emn (2 ^ a) = 2 ^ a.
Proof.
  intros Hp He. replace (2 ^ a) with (1 * 2 ^ a) by lia.
  apply RN_exact; [lia | lia |].
  rewrite digits_scale by lia. change (digits 1) with 1. lia.
Qed.

Lemma fin_nonneg_nonneg x : fin_nonneg x = true -> nonneg x = true.
Proof. destruct x as [s|s| |s m e]; try destruct s; simpl; congruence. Qed.

Section Values.
Variable K : Z.
Hypothesis HK : 2148 <= K.

Lemma val_nonneg x : 0 <= val K x.
Proof.
  destruct x as [s|s| |s m e]; cbn [val]; [lia | apply Z.pow_nonneg; lia | lia |].
  assert (0 <= 2 ^ (e + K)) by (apply Z.pow_nonneg; lia). lia.
Qed.

Lemma val_finite_bound s m e :
  valid_binary (S754_finite s m e) = true ->
  0 < val K (S754_finite s m e) < 2 ^ (1024 + K).
Proof.
  intros Hv. apply valid_finite in Hv as (Hm & He & _). simpl.
  pose proof (pow2_pos (e + K) ltac:(lia)) as Hp.
  split; [lia|].
  replace (1024 + K) with (53 + (971 + K)) by lia. rewrite (pow2_split 53 (971 + K)) by lia.
  assert (2 ^ (e + K) <= 2 ^ (971 + K)) by (apply pow2_le; lia).
  pose proof (pow2_pos (971 + K) ltac:(lia)).
  nia.
Qed.

Lemma val_exponent_lt s1 m1 e1 s2 m2 e2 :
  valid_binary (S754_finite s1 m1 e1) = true ->
  valid_binary (S754_finite s2 m2 e2) = true ->
  e1 < e2 ->
  val K (S754_finite s1 m1 e1) < val K (S754_finite s2 m2 e2).
Proof.
  intros H1 H2 He. apply valid_finite in H1 as (Hm1 & He1 & _).
  apply valid_finite in H2 as (Hm2 & He2 & Hn2). simpl.
  assert (Hn : 2 ^ 52 <= Zpos m2) by lia.
  pose proof (pow2_pos (e1 + K) ltac:(lia)) as Hp.
  assert (2 ^ (e1 + K + 1) <= 2 ^ (e2 + K)) by (apply pow2_le; lia).
  rewrite pow2_split in H by lia. change (2 ^ 1) with 2 in H.
  change (2 ^ 53) with (2 * 2 ^ 52) in Hm1.
  nia.
Qed.

(** On non-negative numbers the comparison of binary64 is the comparison
    of the values. *)
Lemma val_le x y :
  valid_binary x = true -> valid_binary y = true ->
  nonneg x = true -> nonneg y = true ->
  SFleb x y = (val K x <=? val K y).
Proof.
  intros Vx Vy Nx Ny.
  assert (HT : 0 < 2 ^ (1024 + K)) by (apply pow2_pos; lia).
  destruct x as [sx|sx| |sx mx ex]; try discriminate;
    destruct y as [sy|sy| |sy my ey]; try discriminate;
    try (destruct sx; try discriminate); try (destruct sy; try discriminate);
    unfold SFleb; cbn [SFcompare];
    try (pose proof (val_finite_bound _ _ _ Vx));
    try (pose proof (val_finite_bound _ _ _ Vy));
    try (cbn [val]; symmetry; first [apply Z.leb_le; cbn [val] in *; lia
                                    | apply Z.leb_gt; cbn [val] in *; lia]).
  destruct (Z.compare_spec ex ey) as [E|E|E].
  - subst ey. rewrite Pos.compare_cont_spec. cbn [Pos.switch_Eq val].
    apply valid_finite in Vx as (_ & He & _).
    pose proof (pow2_pos (ex + K) ltac:(lia)) as Hp.
    destruct (Pos.compare_spec mx my) as [E|E|E]; symmetry.
    + apply Z.leb_le. subst. lia.
    + apply Z.leb_le. nia.
    + apply Z.leb_gt. nia.
  - symmetry. apply Z.leb_le.
    pose proof (val_exponent_lt false mx ex false my ey Vx Vy E). lia.
  - symmetry. apply Z.leb_gt.
    apply (val_exponent_lt false my ey false mx ex Vy Vx). lia.
Qed.

Lemma val_lt_zero x :
  valid_binary x = true -> nonneg x = true ->
  SFltb (S754_zero false) x = (0 <? val K x).
Proof.
  intros Vx Nx.
  assert (HT : 0 < 2 ^ (1024 + K)) by (apply pow2_pos; lia).
  destruct x as [sx|sx| |sx mx ex]; try discriminate;
    try (destruct sx; try discriminate); unfold SFltb; cbn [SFcompare val]; symmetry;
    first [ apply Z.ltb_irrefl
          | apply Z.ltb_lt;
            first [lia | pose proof (val_finite_bound _ _ _ Vx); cbn [val] in *; lia] ].
Qed.

(** A binary64 number is its own rounding. *)
Lemma val_r64_fix x :
  valid_binary x = true -> r64 K (val K x) = val K x.
Proof.
  intros Vx. unfold r64.
  destruct x as [sx|sx| |sx mx ex]; cbn [val].
  - rewrite RN_zero by lia. pose proof (pow2_pos (1024 + K)). lia.
  - rewrite RN_pow2 by lia. lia.
  - rewrite RN_zero by lia. pose proof (pow2_pos (1024 + K)). lia.
  - pose proof (val_finite_bound _ _ _ Vx) as Hb. cbn [val] in Hb.
    apply valid_finite in Vx as (Hm & He & _).
    rewrite RN_exact; [lia | lia | lia |].
    rewrite digits_scale, digits_Zpos by lia.
    pose proof (digits2_pos_bounds mx) as [Dlo _].
    destruct (Z_le_gt_dec (Zpos (digits2_pos mx)) 53) as [H|H]; [lia|].
    assert (2 ^ 53 <= 2 ^ (Zpos (digits2_pos mx) - 1)) by (apply pow2_le; lia). lia.
Qed.

Lemma r64_mono V1 V2 : 0 <= V1 <= V2 -> r64 K V1 <= r64 K V2.
Proof.
  intros H. unfold r64.
  pose proof (RN_mono 53 (K - 1074) ltac:(lia) ltac:(lia) V1 V2 H). lia.
Qed.

Lemma r32_mono V1 V2 : 0 <= V1 <= V2 -> r32 K V1 <= r32 K V2.
Proof.
  intros H. unfold r32.
  pose proof (RN_mono 24 (K - 149) ltac:(lia) ltac:(lia) V1 V2 H) as Hm.
  assert (2 ^ (128 + K) <= 2 ^ (1024 + K)) by (apply pow2_le; lia).
  destruct (RN 24 (K - 149) V1 <? 2 ^ (128 + K)) eqn:E1;
    destruct (RN 24 (K - 149) V2 <? 2 ^ (128 + K)) eqn:E2;
    try apply Z.ltb_lt in E1; try apply Z.ltb_ge in E1;
    try apply Z.ltb_lt in E2; try apply Z.ltb_ge in E2; lia.
Qed.

(** The value of what [binary_round_aux] returns for [m * 2^e]. *)
Lemma binary_round_aux_val (m : positive) (e : Z) :
  0 <= Z.max (Zpos (digits2_pos m) - 53) (-1074 - e) -> 0 <= e + K ->
  let r := binary_round_aux prec emax false (Zpos m) e loc_Exact in
  nonneg r = true /\ val K r = r64 K (Zpos m * 2 ^ (e + K)).
Proof.
  intros Hn He r. unfold r. rewrite binary_round_aux_spec by exact Hn.
  set (d := Zpos (digits2_pos m)) in *.
  set (n := Z.max (d - 53) (-1074 - e)) in *.
  set (M := rne (Zpos m) n).
  assert (HM : 0 <= M <= 2 ^ 53) by (apply rne_significand; unfold n, d; lia).
  (* the rounding on values *)
  assert (HR : RN 53 (K - 1074) (Zpos m * 2 ^ (e + K)) = M * 2 ^ (n + (e + K))).
  { unfold RN. rewrite digits_scale, digits_Zpos by lia. fold d.
    replace (Z.max (d + (e + K) - 53) (K - 1074)) with (n + (e + K)) by (unfold n; lia).
    rewrite rne_scale by lia. reflexivity. }
  unfold r64. rewrite HR.
  pose proof (pow2_pos (n + (e + K)) ltac:(lia)) as Hp.
  assert (HT : 2 ^ (1024 + K) = 2 ^ 53 * 2 ^ (971 + K)).
  { rewrite <- pow2_split by lia. f_equal. lia. }
  destruct (M =? 0) eqn:E0.
  { apply Z.eqb_eq in E0. rewrite E0. cbn [nonneg val]. split; [reflexivity|].
    pose proof (pow2_pos (1024 + K)). lia. }
  apply Z.eqb_neq in E0.
  (* a number above the subnormal range keeps 53 bits *)
  assert (Hnormal : -1074 < e + n -> 2 ^ 52 <= M).
  { intros Hrange.
    assert (En : n = d - 53) by (unfold n in *; lia).
    pose proof (digits2_pos_bounds m) as [Dlo _]. fold d in Dlo.
    destruct (rne_cases (Zpos m) n Hn) as (_ & _ & C). fold M in C.
    assert (2 ^ 52 <= Zpos m / 2 ^ n).
    { rewrite <- (Z.div_mul (2 ^ 52) (2 ^ n)) by (pose proof (pow2_pos n Hn); lia).
      apply Z.div_le_mono; [apply pow2_pos; lia|].
      rewrite <- pow2_split by lia. replace (52 + n) with (d - 1) by lia. exact Dlo. }
    lia. }
  destruct (M <? 2 ^ 53) eqn:E1.
  - apply Z.ltb_lt in E1. destruct (e + n <=? 971) eqn:E2.
    + apply Z.leb_le in E2. cbn [nonneg val]. split; [reflexivity|].
      rewrite Z2Pos.id by lia. replace (e + n + K) with (n + (e + K)) by lia.
      assert (2 ^ (n + (e + K)) <= 2 ^ (971 + K)) by (apply pow2_le; lia).
      assert (M * 2 ^ (n + (e + K)) < 2 ^ (1024 + K)) by (rewrite HT; nia). lia.
    + apply Z.leb_gt in E2. cbn [nonneg val]. split; [reflexivity|].
      assert (2 ^ 52 <= M) by (apply Hnormal; lia).
      assert (2 ^ (972 + K) <= 2 ^ (n + (e + K))) by (apply pow2_le; lia).
      assert (HT' : 2 ^ (1024 + K) = 2 ^ 52 * 2 ^ (972 + K)).
      { rewrite <- pow2_split by lia. f_equal. lia. }
      assert (2 ^ (1024 + K) <= M * 2 ^ (n + (e + K))) by (rewrite HT'; nia). lia.
  - apply Z.ltb_ge in E1. assert (EM : M = 2 ^ 53) by lia.
    destruct (e + n + 1 <=? 971) eqn:E2.
    + apply Z.leb_le in E2. cbn [nonneg val]. split; [reflexivity|].
      rewrite Z2Pos.id by (apply pow2_pos; lia).
      replace (e + n + 1 + K) with (1 + (n + (e + K))) by lia.
      rewrite (pow2_split 1) by lia. rewrite EM.
      change (2 ^ 53) with (2 ^ 52 * 2 ^ 1).
      assert (2 ^ (n + (e + K)) < 2 ^ (971 + K)) by (apply pow2_lt; lia).
      assert (2 ^ 52 * 2 ^ 1 * 2 ^ (n + (e + K)) < 2 ^ (1024 + K))
        by (rewrite HT; change (2 ^ 53) with (2 ^ 52 * 2 ^ 1); nia).
      lia.
    + apply Z.leb_gt in E2. cbn [nonneg val]. split; [reflexivity|].
      assert (2 ^ (971 + K) <= 2 ^ (n + (e + K))) by (apply pow2_le; lia).
      assert (2 ^ (1024 + K) <= M * 2 ^ (n + (e + K))) by (rewrite HT, EM; nia). lia.
Qed.

End Values.

(** ** Products, sums and binary32 roundings of non-negative numbers *)

Lemma iter_xO_val (m d : positive) : Zpos (Pos.iter xO m d) = Zpos m * 2 ^ Zpos d.
Proof.
  induction d as [|d IH] using Pos.peano_ind.
  - cbn [Pos.iter]. change (2 ^ 1) with 2. lia.
  - rewrite Pos.iter_succ, Pos2Z.inj_xO, IH, Pos2Z.inj_succ, Z.pow_succ_r by lia. lia.
Qed.

Lemma shl_align_val mx ex ez :
  ez <= ex -> Zpos (fst (shl_align mx ex ez)) = Zpos mx * 2 ^ (ex - ez).
Proof.
  intros H. unfold shl_align.
  destruct (ez - ex) as [|k|k] eqn:E; cbn [fst]; [| lia |].
  - replace (ex - ez) with 0 by lia. change (2 ^ 0) with 1. lia.
  - rewrite iter_xO_val. do 2 f_equal. lia.
Qed.

Section Arithmetic.
Variable K : Z.
Hypothesis HK : 2148 <= K.

Lemma r64_zero : r64 K 0 = 0.
Proof.
  unfold r64. rewrite RN_zero by lia. pose proof (pow2_pos (1024 + K) ltac:(lia)). lia.
Qed.

Lemma r64_top V : 2 ^ (1024 + K) <= V -> r64 K V = 2 ^ (1024 + K).
Proof.
  intros H. pose proof (pow2_pos (1024 + K) ltac:(lia)) as Hp.
  pose proof (r64_mono K HK (2 ^ (1024 + K)) V ltac:(lia)) as Hm.
  pose proof (val_r64_fix K HK (S754_infinity false) eq_refl) as Hf.
  cbn [val] in Hf. rewrite Hf in Hm.
  unfold r64 in *. lia.
Qed.

Lemma SFmul_val x y :
  valid_binary x = true -> valid_binary y = true ->
  fin_nonneg x = true -> fin_nonneg y = true ->
  nonneg (SFmul prec emax x y) = true /\
  val K (SFmul prec emax x y) = r64 K (val K x * val K y / 2 ^ K).
Proof.
  intros Vx Vy Nx Ny.
  destruct x as [sx|sx| |sx mx ex]; try discriminate;
    destruct y as [sy|sy| |sy my ey]; try discriminate;
    try (destruct sx; try discriminate); try (destruct sy; try discriminate);
    cbn [SFmul xorb];
    try (cbn [nonneg val]; rewrite ?Z.mul_0_l, ?Z.mul_0_r, Z.div_0_l, r64_zero
           by (pose proof (pow2_pos K ltac:(lia)); lia);
         split; reflexivity).
  pose proof (valid_finite _ _ _ Vx) as (Hmx & Hex & Hnx).
  pose proof (valid_finite _ _ _ Vy) as (Hmy & Hey & Hny).
  assert (Hn : 0 <= Z.max (Zpos (digits2_pos (mx * my)) - 53) (-1074 - (ex + ey))).
  { destruct (Z_le_gt_dec 0 (-1074 - (ex + ey))) as [H|H]; [lia|].
    assert (2 ^ 52 <= Zpos (mx * my)) by (rewrite Pos2Z.inj_mul; nia).
    pose proof (digits2_pos_bounds (mx * my)) as [_ Dhi].
    destruct (Z_le_gt_dec 53 (Zpos (digits2_pos (mx * my)))) as [H'|H']; [lia|].
    assert (2 ^ Zpos (digits2_pos (mx * my)) <= 2 ^ 52) by (apply pow2_le; lia). lia. }
  destruct (binary_round_aux_val K HK (mx * my) (ex + ey) Hn ltac:(lia)) as [H1 H2].
  split; [exact H1|]. rewrite H2. f_equal. cbn [val].
  pose proof (pow2_pos K ltac:(lia)).
  replace (Zpos mx * 2 ^ (ex + K) * (Zpos my * 2 ^ (ey + K)))
    with (Zpos (mx * my) * 2 ^ (ex + ey + K) * 2 ^ K).
  - rewrite Z.div_mul by lia. reflexivity.
  - rewrite Pos2Z.inj_mul.
    replace (ex + ey + K) with ((ex + K) + ey) by lia.
    rewrite <- Z.mul_assoc, <- (Z.pow_add_r 2 (ex + K + ey) K) by lia.
    replace (ex + K + ey + K) with ((ex + K) + (ey + K)) by lia.
    rewrite pow2_split by lia. lia.
Qed.

Lemma binary_round_val (m : positive) (e : Z) :
  0 <= e + K ->
  nonneg (binary_round prec emax false m e) = true /\
  val K (binary_round prec emax false m e) = r64 K (Zpos m * 2 ^ (e + K)).
Proof.
  intros He. unfold binary_round. rewrite fexp64.
  set (d := Zpos (digits2_pos m)).
  set (f := Z.max (d + e - 53) (-1074)).
  unfold shl_align.
  destruct (f - e) as [|k|k] eqn:E.
  - apply binary_round_aux_val; [exact HK | fold d; lia | exact He].
  - apply binary_round_aux_val; [exact HK | fold d; lia | exact He].
  - assert (Hd : Zpos (digits2_pos (Pos.iter xO m k)) = d + Zpos k).
    { rewrite <- digits_Zpos, iter_xO_val, digits_scale, digits_Zpos by lia. reflexivity. }
    destruct (binary_round_aux_val K HK (Pos.iter xO m k) f) as [H1 H2].
    + rewrite Hd. lia.
    + unfold f. lia.
    + split; [exact H1|]. rewrite H2. f_equal.
      rewrite iter_xO_val, <- Z.mul_assoc, <- Z.pow_add_r by (unfold f; lia).
      do 2 f_equal. lia.
Qed.

Lemma SFadd_val x y :
  valid_binary x = true -> valid_binary y = true ->
  nonneg x = true -> nonneg y = true ->
  nonneg (SFadd prec emax x y) = true /\
  val K (SFadd prec emax x y) = r64 K (val K x + val K y).
Proof.
  intros Vx Vy Nx Ny.
  pose proof (val_nonneg K x) as Px. pose proof (val_nonneg K y) as Py.
  pose proof (val_r64_fix K HK x Vx) as Fx. pose proof (val_r64_fix K HK y Vy) as Fy.
  destruct x as [sx|sx| |sx mx ex]; try discriminate;
    destruct y as [sy|sy| |sy my ey]; try discriminate;
    try (destruct sx; try discriminate); try (destruct sy; try discriminate);
    cbn [SFadd];
    try (split; [reflexivity|]; cbn [val] in *;
         first [ rewrite Z.add_0_l; congruence
               | rewrite Z.add_0_r; congruence
               | rewrite r64_top by lia; reflexivity ]).
  cbn [cond_Zopp Z.add binary_normalize].
  pose proof (valid_finite _ _ _ Vx) as (Hmx & Hex & _).
  pose proof (valid_finite _ _ _ Vy) as (Hmy & Hey & _).
  set (ez := Z.min ex ey).
  destruct (binary_round_val (fst (shl_align mx ex ez) + fst (shl_align my ey ez)) ez)
    as [H1 H2]; [unfold ez; lia|].
  rewrite <- Pos2Z.inj_add. cbn [binary_normalize].
  split; [exact H1|]. rewrite H2. f_equal. cbn [val].
  rewrite Pos2Z.inj_add, !shl_align_val by (unfold ez; lia).
  rewrite Z.mul_add_distr_r, <- !Z.mul_assoc, <- !Z.pow_add_r by (unfold ez; lia).
  do 2 f_equal; f_equal; lia.
Qed.

(** The significand that [round32] keeps. *)
Lemma round32_significand s m e :
  valid_binary (S754_finite s m e) = true ->
  let n := Z.max 29 (-149 - e) in
  rne (Zpos m) n <> 0 ->
  n <= 53 /\ 2 ^ 52 <= rne (Zpos m) n * 2 ^ n <= 2 ^ 53.
Proof.
  intros Hv n Hne. apply valid_finite in Hv as (Hm & He & Hnorm).
  assert (Hn : 0 <= n) by (unfold n; lia).
  pose proof (pow2_pos n Hn) as Hp.
  destruct (rne_cases (Zpos m) n Hn) as (D & R & C).
  set (q := Zpos m / 2 ^ n) in *. set (r := Zpos m mod 2 ^ n) in *.
  assert (Hq0 : 0 <= q) by (apply Z.div_pos; lia).
  assert (Hn53 : n <= 53).
  { destruct (Z_le_gt_dec n 53) as [H|H]; [exact H|exfalso].
    assert (2 ^ 54 <= 2 ^ n) by (apply pow2_le; lia).
    change (2 ^ 54) with (2 * 2 ^ 53) in *.
    assert (q = 0) by (apply Z.div_small; lia).
    assert (r = Zpos m) by lia. lia. }
  split; [exact Hn53|].
  assert (Hnormal : 2 ^ 52 <= Zpos m) by (unfold n in *; lia).
  assert (Hs : 2 ^ 53 = 2 ^ (53 - n) * 2 ^ n).
  { rewrite <- pow2_split by lia. f_equal. lia. }
  pose proof (pow2_pos (53 - n) ltac:(lia)) as Hp'.
  assert (Hqhi : q < 2 ^ (53 - n)) by nia.
  split; [|rewrite Hs; apply Z.mul_le_mono_nonneg_r; lia].
  destruct (Z.eq_dec n 53) as [E|E].
  - rewrite E in *. change (2 ^ (53 - 53)) with 1 in *.
    assert (1 <= rne (Zpos m) 53) by lia.
    change (2 ^ 53) with (2 * 2 ^ 52) in *. nia.
  - assert (Hs' : 2 ^ 52 = 2 ^ (52 - n) * 2 ^ n).
    { rewrite <- pow2_split by lia. f_equal. lia. }
    assert (2 ^ (52 - n) <= q).
    { unfold q. rewrite <- (Z.div_mul (2 ^ (52 - n)) (2 ^ n)) by lia.
      apply Z.div_le_mono; lia. }
    rewrite Hs'. apply Z.mul_le_mono_nonneg_r; lia.
Qed.

Lemma round32_rne s m e :
  JS.round32 (S754_finite s m e) =
  let n := Z.max 29 (-149 - e) in
  let q' := rne (Zpos m) n in
  let M := q' * 2 ^ n in
  if q' =? 0 then S754_zero s
  else if M <? 2 ^ 53
       then (if e <=? 75 then S754_finite s (Z.to_pos M) e else S754_infinity s)
       else (if e + 1 <=? 75 then S754_finite s (Z.to_pos (2 ^ 52)) (e + 1)
             else S754_infinity s).
Proof.
  unfold JS.round32. cbv zeta. set (n := Z.max 29 (-149 - e)).
  assert (E2 : 2 ^ n = 2 * 2 ^ (n - 1)).
  { replace n with (1 + (n - 1)) at 1 by lia. rewrite pow2_split by (unfold n; lia). reflexivity. }
  assert (Er : (if (2 ^ (n - 1) <? Zpos m mod 2 ^ n)
                   || (Zpos m mod 2 ^ n =? 2 ^ (n - 1)) && Z.odd (Zpos m / 2 ^ n)
                then Zpos m / 2 ^ n + 1 else Zpos m / 2 ^ n) = rne (Zpos m) n).
  { unfold rne. cbv zeta.
    replace (2 ^ n <? 2 * (Zpos m mod 2 ^ n)) with (2 ^ (n - 1) <? Zpos m mod 2 ^ n).
    2:{ destruct (2 ^ (n - 1) <? Zpos m mod 2 ^ n) eqn:E; symmetry;
        [apply Z.ltb_lt in E; apply Z.ltb_lt | apply Z.ltb_ge in E; apply Z.ltb_ge]; lia. }
    replace (2 * (Zpos m mod 2 ^ n) =? 2 ^ n) with (Zpos m mod 2 ^ n =? 2 ^ (n - 1)).
    2:{ destruct (Zpos m mod 2 ^ n =? 2 ^ (n - 1)) eqn:E; symmetry;
        [apply Z.eqb_eq in E; apply Z.eqb_eq | apply Z.eqb_neq in E; apply Z.eqb_neq]; lia. }
    reflexivity. }
  rewrite Er. reflexivity.
Qed.

Lemma round32_val x :
  valid_binary x = true -> nonneg x = true ->
  nonneg (JS.round32 x) = true /\ val K (JS.round32 x) = r32 K (val K x).
Proof.
  intros Vx Nx.
  assert (HT : 2 ^ (128 + K) <= 2 ^ (1024 + K)) by (apply pow2_le; lia).
  pose proof (pow2_pos (128 + K) ltac:(lia)) as HT0.
  destruct x as [sx|sx| |sx m e]; try discriminate.
  - split; [reflexivity|]. cbn [JS.round32 val]. unfold r32.
    rewrite RN_zero by lia.
    replace (0 <? 2 ^ (128 + K)) with true by (symmetry; apply Z.ltb_lt; lia). reflexivity.
  - split; [exact Nx|]. cbn [JS.round32 val]. unfold r32.
    rewrite RN_pow2 by lia.
    replace (2 ^ (1024 + K) <? 2 ^ (128 + K)) with false by (symmetry; apply Z.ltb_ge; lia).
    reflexivity.
  - destruct sx; [discriminate|].
    pose proof (round32_significand false m e Vx) as Hsig. cbv zeta in Hsig.
    pose proof (valid_finite _ _ _ Vx) as (Hm & He & Hnorm).
    rewrite round32_rne. cbv zeta.
    set (n := Z.max 29 (-149 - e)) in *. set (q' := rne (Zpos m) n) in *.
    assert (Hn : 29 <= n) by (unfold n; lia).
    assert (HR : RN 24 (K - 149) (Zpos m * 2 ^ (e + K)) = q' * 2 ^ n * 2 ^ (e + K)).
    { unfold RN. rewrite digits_scale, digits_Zpos by lia.
      assert (Ek : Z.max (Zpos (digits2_pos m) + (e + K) - 24) (K - 149) = n + (e + K)).
      { destruct Hnorm as [Hnorm|Hnorm].
        - rewrite (digits2_pos_unique m 53) by (split; [exact Hnorm | exact Hm]).
          unfold n. lia.
        - pose proof (digits2_pos_bounds m) as [Dlo _].
          assert (Zpos (digits2_pos m) <= 53).
          { destruct (Z_le_gt_dec (Zpos (digits2_pos m)) 53) as [H|H]; [exact H|].
            assert (2 ^ 53 <= 2 ^ (Zpos (digits2_pos m) - 1)) by (apply pow2_le; lia). lia. }
          unfold n. lia. }
      rewrite Ek, rne_scale, pow2_split by lia. fold q'. lia. }
    unfold r32. cbn [val]. rewrite HR.
    pose proof (pow2_pos (e + K) ltac:(lia)) as Hp.
    destruct (q' =? 0) eqn:E0.
    { apply Z.eqb_eq in E0. rewrite E0, !Z.mul_0_l.
      replace (0 <? 2 ^ (128 + K)) with true by (symmetry; apply Z.ltb_lt; lia).
      split; reflexivity. }
    apply Z.eqb_neq in E0. destruct (Hsig E0) as (Hn53 & Mlo & Mhi).
    set (M := q' * 2 ^ n) in *.
    assert (H128 : 2 ^ (128 + K) = 2 ^ 53 * 2 ^ (75 + K)).
    { rewrite <- pow2_split by lia. f_equal. lia. }
    assert (H128' : 2 ^ (128 + K) = 2 ^ 52 * 2 ^ (76 + K)).
    { rewrite <- pow2_split by lia. f_equal. lia. }
    destruct (M <? 2 ^ 53) eqn:E1.
    + apply Z.ltb_lt in E1. destruct (e <=? 75) eqn:E2.
      * apply Z.leb_le in E2. cbn [nonneg val]. rewrite Z2Pos.id by lia.
        assert (2 ^ (e + K) <= 2 ^ (75 + K)) by (apply pow2_le; lia).
        replace (M * 2 ^ (e + K) <? 2 ^ (128 + K)) with true
          by (symmetry; apply Z.ltb_lt; rewrite H128; nia).
        split; reflexivity.
      * apply Z.leb_gt in E2. cbn [nonneg val].
        assert (2 ^ (76 + K) <= 2 ^ (e + K)) by (apply pow2_le; lia).
        replace (M * 2 ^ (e + K) <? 2 ^ (128 + K)) with false
          by (symmetry; apply Z.ltb_ge; rewrite H128'; nia).
        split; reflexivity.
    + apply Z.ltb_ge in E1. assert (EM : M = 2 ^ 53) by lia. rewrite EM.
      destruct (e + 1 <=? 75) eqn:E2.
      * apply Z.leb_le in E2. cbn [nonneg val].
        rewrite Z2Pos.id by (apply pow2_pos; lia).
        assert (2 ^ (e + K) < 2 ^ (75 + K)) by (apply pow2_lt; lia).
        replace (2 ^ 53 * 2 ^ (e + K) <? 2 ^ (128 + K)) with true
          by (symmetry; apply Z.ltb_lt; rewrite H128; nia).
        split; [reflexivity|].
        replace (e + 1 + K) with (1 + (e + K)) by lia. rewrite (pow2_split 1) by lia.
        change (2 ^ 53) with (2 ^ 52 * 2 ^ 1). lia.
      * apply Z.leb_gt in E2. cbn [nonneg val].
        assert (2 ^ (75 + K) <= 2 ^ (e + K)) by (apply pow2_le; lia).
        replace (2 ^ 53 * 2 ^ (e + K) <? 2 ^ (128 + K)) with false
          by (symmetry; apply Z.ltb_ge; rewrite H128; nia).
        split; reflexivity.
Qed.

End Arithmetic.

(** ** Order of the numbers of the solver *)

Lemma fin_nonnegative_nonnegative x : fin_nonnegative x = true -> nonnegative x = true.
Proof. apply fin_nonneg_nonneg. Qed.

Lemma nonnegative_not_nan x : nonnegative x = true -> is_nan x = false.
Proof.
  unfold nonnegative. rewrite is_nan_spec. unfold fnan.
  destruct (Prim2SF x) as [s|s| |s m e]; simpl; congruence.
Qed.

Section FloatValues.
Variable K : Z.
Hypothesis HK : 2148 <= K.

Lemma fmul_val x y :
  fin_nonnegative x = true -> fin_nonnegative y = true ->
  nonnegative (x * y) = true /\
  val K (Prim2SF (x * y)) = r64 K (val K (Prim2SF x) * val K (Prim2SF y) / 2 ^ K).
Proof.
  intros Hx Hy. unfold nonnegative. rewrite mul_spec.
  apply (SFmul_val K HK); first [apply Prim2SF_valid | assumption].
Qed.

Lemma fadd_val x y :
  nonnegative x = true -> nonnegative y = true ->
  nonnegative (x + y) = true /\
  val K (Prim2SF (x + y)) = r64 K (val K (Prim2SF x) + val K (Prim2SF y)).
Proof.
  intros Hx Hy. unfold nonnegative. rewrite add_spec.
  apply (SFadd_val K HK); first [apply Prim2SF_valid | assumption].
Qed.

Lemma fround_val x :
  nonnegative x = true ->
  nonnegative (JS.fround x) = true /\
  val K (Prim2SF (JS.fround x)) = r32 K (val K (Prim2SF x)).
Proof.
  intros Hx. unfold nonnegative, JS.fround.
  rewrite Prim2SF_SF2Prim by (apply round32_valid, Prim2SF_valid).
  apply (round32_val K HK); [apply Prim2SF_valid | exact Hx].
Qed.

Lemma fleb_val x y :
  nonnegative x = true -> nonnegative y = true ->
  (x <=? y)%float = (val K (Prim2SF x) <=? val K (Prim2SF y)).
Proof.
  intros Hx Hy. rewrite leb_spec.
  apply (val_le K HK); first [apply Prim2SF_valid | assumption].
Qed.

Lemma fltb_zero_val x :
  nonnegative x = true -> (0 <? x)%float = (0 <? val K (Prim2SF x)).
Proof.
  intros Hx. rewrite FloatAxioms.ltb_spec.
  change (Prim2SF 0) with (S754_zero false).
  apply (val_lt_zero K HK); [apply Prim2SF_valid | exact Hx].
Qed.

Lemma r32_zero : r32 K 0 = 0.
Proof.
  unfold r32. rewrite RN_zero by lia.
  pose proof (pow2_pos (128 + K) ltac:(lia)).
  replace (0 <? 2 ^ (128 + K)) with true by (symmetry; apply Z.ltb_lt; lia). reflexivity.
Qed.

Lemma pmlStore_val P :
  nonnegative P = true ->
  nonnegative (pmlStore P) = true /\
  val K (Prim2SF (pmlStore P)) = r32 K (val K (Prim2SF P)).
Proof.
  intros HP. unfold pmlStore.
  pose proof (fltb_zero_val P HP) as Hlt.
  destruct (0 <? P)%float eqn:E.
  - assert (Hmax : JS.Math_max 0 P = P).
    { unfold JS.Math_max. rewrite (nonnegative_not_nan P HP), E. reflexivity. }
    rewrite Hmax. apply fround_val, HP.
  - split; [reflexivity|].
    symmetry in Hlt. apply Z.ltb_ge in Hlt.
    pose proof (val_nonneg K (Prim2SF P)).
    replace (val K (Prim2SF P)) with 0 by lia.
    rewrite r32_zero. reflexivity.
Qed.

End FloatValues.

(** Products with a finite non-negative factor, sums with a non-negative
    term and the store into sigma keep the order. *)
Lemma fmul_mono c a b :
  fin_nonnegative c = true -> fin_nonnegative a = true -> fin_nonnegative b = true ->
  (a <=? b)%float = true ->
  nonnegative (c * a) = true /\ nonnegative (c * b) = true /\
  (c * a <=? c * b)%float = true.
Proof.
  intros Hc Ha Hb Hab.
  assert (HK : 2148 <= 2148) by lia.
  destruct (fmul_val 2148 HK c a Hc Ha) as [Na Va].
  destruct (fmul_val 2148 HK c b Hc Hb) as [Nb Vb].
  split; [exact Na|]. split; [exact Nb|].
  rewrite (fleb_val 2148 HK) in Hab by (apply fin_nonnegative_nonnegative; assumption).
  rewrite (fleb_val 2148 HK) by assumption.
  apply Z.leb_le in Hab. apply Z.leb_le. rewrite Va, Vb.
  pose proof (val_nonneg 2148 (Prim2SF c)). pose proof (val_nonneg 2148 (Prim2SF a)).
  apply (r64_mono 2148 HK). split.
  - apply Z.div_pos; [|apply pow2_pos]; nia.
  - apply Z.div_le_mono; [apply pow2_pos; lia|]. nia.
Qed.

Lemma fadd_mono_l x1 x2 y :
  nonnegative x1 = true -> nonnegative x2 = true -> nonnegative y = true ->
  (x1 <=? x2)%float = true ->
  nonnegative (x1 + y) = true /\ nonnegative (x2 + y) = true /\
  (x1 + y <=? x2 + y)%float = true.
Proof.
  intros H1 H2 Hy H12.
  assert (HK : 2148 <= 2148) by lia.
  destruct (fadd_val 2148 HK x1 y H1 Hy) as [N1 V1].
  destruct (fadd_val 2148 HK x2 y H2 Hy) as [N2 V2].
  split; [exact N1|]. split; [exact N2|].
  rewrite (fleb_val 2148 HK) in H12 by assumption.
  rewrite (fleb_val 2148 HK) by assumption.
  apply Z.leb_le in H12. apply Z.leb_le. rewrite V1, V2.
  pose proof (val_nonneg 2148 (Prim2SF x1)). pose proof (val_nonneg 2148 (Prim2SF y)).
  apply (r64_mono 2148 HK). lia.
Qed.

Lemma fadd_mono_r x y1 y2 :
  nonnegative x = true -> nonnegative y1 = true -> nonnegative y2 = true ->
  (y1 <=? y2)%float = true ->
  nonnegative (x + y1) = true /\ nonnegative (x + y2) = true /\
  (x + y1 <=? x + y2)%float = true.
Proof.
  intros Hx H1 H2 H12.
  assert (HK : 2148 <= 2148) by lia.
  destruct (fadd_val 2148 HK x y1 Hx H1) as [N1 V1].
  destruct (fadd_val 2148 HK x y2 Hx H2) as [N2 V2].
  split; [exact N1|]. split; [exact N2|].
  rewrite (fleb_val 2148 HK) in H12 by assumption.
  rewrite (fleb_val 2148 HK) by assumption.
  apply Z.leb_le in H12. apply Z.leb_le. rewrite V1, V2.
  pose proof (val_nonneg 2148 (Prim2SF x)). pose proof (val_nonneg 2148 (Prim2SF y1)).
  apply (r64_mono 2148 HK). lia.
Qed.

Lemma pmlStore_mono P1 P2 :
  nonnegative P1 = true -> nonnegative P2 = true ->
  (P1 <=? P2)%float = true ->
  (pmlStore P1 <=? pmlStore P2)%float = true.
Proof.
  intros H1 H2 H12.
  assert (HK : 2148 <= 2148) by lia.
  destruct (pmlStore_val 2148 HK P1 H1) as [N1 V1].
  destruct (pmlStore_val 2148 HK P2 H2) as [N2 V2].
  rewrite (fleb_val 2148 HK) in H12 by assumption.
  rewrite (fleb_val 2148 HK) by assumption.
  apply Z.leb_le in H12. apply Z.leb_le. rewrite V1, V2.
  pose proof (val_nonneg 2148 (Prim2SF P1)).
  apply (r32_mono 2148 HK). lia.
Qed.

Lemma fleb_refl x : nonnegative x = true -> (x <=? x)%float = true.
Proof.
  intros H. rewrite (fleb_val 2148 ltac:(lia)) by assumption. apply Z.leb_refl.
Qed.

(** ** The grading of the absorbing layer *)

Lemma ratio_min (k : Z) :
  1 <= k <= 20 ->
  JS.Math_min (JS.of_Z k / JS.of_Z pmlThickness) 1 = (JS.of_Z k / JS.of_Z pmlThickness)%float.
Proof.
  intros H.
  assert (Hk : In k (map Z.of_nat (seq 1 20))).
  { apply in_map_iff. exists (Z.to_nat k). split; [lia|]. apply in_seq. lia. }
  revert k Hk H. refine (proj1 (List.Forall_forall _ _) _).
  let l := eval vm_compute in (map Z.of_nat (seq 1 20)) in
  change (map Z.of_nat (seq 1 20)) with l.
  repeat (constructor; [intros _; vm_compute; reflexivity|]).
  constructor.
Qed.

Section Grading.
Context {M : MathHost}.

Lemma pow_graded_spec :
  pow_graded = true ->
  (forall k, 1 <= k <= 20 -> fin_nonnegative (pmlGrade k) = true) /\
  (forall k, 1 <= k < 20 -> (pmlGrade k <=? pmlGrade (k + 1))%float = true).
Proof.
  unfold pow_graded. intros H. apply andb_true_iff in H as [H1 H2].
  rewrite forallb_forall in H1, H2. split; intros k Hk.
  - apply H1. apply in_map_iff. exists (Z.to_nat k). split; [lia|]. apply in_seq. lia.
  - apply H2. apply in_map_iff. exists (Z.to_nat k). split; [lia|]. apply in_seq. lia.
Qed.

(** The profile of one axis, band by band. *)
Lemma pmlProfile_left sigmaMax n c :
  c < 20 -> pmlProfile sigmaMax 20 n c = (sigmaMax * pmlGrade (20 - c))%float.
Proof.
  intros H. unfold pmlProfile.
  replace (c <? 20) with true by (symmetry; apply Z.ltb_lt; lia). reflexivity.
Qed.

Lemma pmlProfile_right sigmaMax n c :
  20 <= c -> n - 20 <= c < n ->
  pmlProfile sigmaMax 20 n c = (sigmaMax * pmlGrade (c - (n - 20 - 1)))%float.
Proof.
  intros H1 H2. unfold pmlProfile.
  replace (c <? 20) with false by (symmetry; apply Z.ltb_ge; lia).
  replace (c >=? n - 20) with true by (symmetry; apply Z.geb_le; lia).
  cbv zeta. change 20 with pmlThickness at 2. rewrite ratio_min by lia. reflexivity.
Qed.

Lemma pmlProfile_interior sigmaMax n c :
  20 <= c < n - 20 -> pmlProfile sigmaMax 20 n c = 0%float.
Proof.
  intros H. unfold pmlProfile.
  replace (c <? 20) with false by (symmetry; apply Z.ltb_ge; lia).
  replace (c >=? n - 20) with false; [reflexivity|].
  symmetry. rewrite Z.geb_leb. apply Z.leb_gt. lia.
Qed.

Section Axis.
Variables (sigmaMax : float) (n : Z).
Hypothesis Hmax : fin_nonnegative sigmaMax = true.
Hypothesis Hpow : pow_graded = true.
Hypothesis Hn : 40 <= n.

Lemma pmlProfile_nonnegative c :
  0 <= c < n -> nonnegative (pmlProfile sigmaMax 20 n c) = true.
Proof.
  intros Hc. destruct (pow_graded_spec Hpow) as [Hfin Hle].
  destruct (Z_lt_le_dec c 20) as [H|H].
  - rewrite pmlProfile_left by lia.
    apply (fmul_mono sigmaMax _ _ Hmax (Hfin (20 - c) ltac:(lia)) (Hfin (20 - c) ltac:(lia))).
    apply fleb_refl, fin_nonnegative_nonnegative, Hfin. lia.
  - destruct (Z_lt_le_dec c (n - 20)) as [H'|H'].
    + rewrite pmlProfile_interior by lia. reflexivity.
    + rewrite pmlProfile_right by lia.
      apply (fmul_mono sigmaMax _ _ Hmax (Hfin (c - (n - 20 - 1)) ltac:(lia))
                       (Hfin (c - (n - 20 - 1)) ltac:(lia))).
      apply fleb_refl, fin_nonnegative_nonnegative, Hfin. lia.
Qed.

(** Towards the low edge the profile does not decrease. *)
Lemma pmlProfile_low c :
  0 <= c -> c + 1 < 20 ->
  (pmlProfile sigmaMax 20 n (c + 1) <=? pmlProfile sigmaMax 20 n c)%float = true.
Proof.
  intros H0 H1. destruct (pow_graded_spec Hpow) as [Hfin Hle].
  rewrite !pmlProfile_left by lia.
  apply (fmul_mono sigmaMax); [exact Hmax | apply Hfin; lia | apply Hfin; lia |].
  replace (20 - c) with (20 - (c + 1) + 1) by lia. apply Hle. lia.
Qed.

(** Towards the high edge the profile does not decrease. *)
Lemma pmlProfile_high c :
  n - 20 <= c -> c + 1 < n ->
  (pmlProfile sigmaMax 20 n c <=? pmlProfile sigmaMax 20 n (c + 1))%float = true.
Proof.
  intros H0 H1. destruct (pow_graded_spec Hpow) as [Hfin Hle].
  rewrite !pmlProfile_right by lia.
  apply (fmul_mono sigmaMax); [exact Hmax | apply Hfin; lia | apply Hfin; lia |].
  replace (c + 1 - (n - 20 - 1)) with (c - (n - 20 - 1) + 1) by lia. apply Hle. lia.
Qed.

End Axis.

Lemma pmlCell_store p i j :
  pmlThicknessOf p = 20 -> 0 <= i < nx p -> 0 <= j < ny p ->
  pmlCell p i j = Some (pmlStore (pmlSigmaAt p i j)).
Proof.
  intros Ht Hi Hj. unfold pmlCell.
  destruct (constructor_cell p i j Hi Hj) as (_ & _ & _ & ->).
  unfold pmlMerge, pmlStore. rewrite Ht. reflexivity.
Qed.

Lemma pmlThickness_room p : pmlThicknessOf p = 20 -> 80 <= nx p /\ 80 <= ny p.
Proof.
  unfold pmlThicknessOf, pmlThickness. intros H.
  assert (20 <= Z.min (nx p) (ny p) / 4) by lia.
  assert (4 * (Z.min (nx p) (ny p) / 4) <= Z.min (nx p) (ny p))
    by (apply Z.mul_div_le; lia).
  lia.
Qed.

End Grading.

(** ** The absorbing layer is monotone *)

Lemma pmlStore_sum_l x1 x2 y :
  nonnegative x1 = true -> nonnegative x2 = true -> nonnegative y = true ->
  (x1 <=? x2)%float = true ->
  (pmlStore (x1 + y) <=? pmlStore (x2 + y))%float = true.
Proof.
  intros H1 H2 Hy H. destruct (fadd_mono_l x1 x2 y H1 H2 Hy H) as (N1 & N2 & Hle).
  apply pmlStore_mono; assumption.
Qed.

Lemma pmlStore_sum_r x y1 y2 :
  nonnegative x = true -> nonnegative y1 = true -> nonnegative y2 = true ->
  (y1 <=? y2)%float = true ->
  (pmlStore (x + y1) <=? pmlStore (x + y2))%float = true.
Proof.
  intros Hx H1 H2 H. destruct (fadd_mono_r x y1 y2 Hx H1 H2 H) as (N1 & N2 & Hle).
  apply pmlStore_mono; assumption.
Qed.

Section Monotone.
Context {M : MathHost}.

(** C7.  On a grid whose absorbing layer has its full thickness of 20
    cells, with finite non-negative peak conductivities and a [Math.pow]
    that is graded on the layer's ratios: after construction sigma is
    exactly 0 at every cell inside the interior beyond the bands, and
    within each band of 20 cells it does not decrease from one cell to the
    next one towards the edge, along x in every row and along y in every
    column. *)
Theorem pml_monotone (p : GridParams) :
  pmlThicknessOf p = 20 ->
  fin_nonnegative (sigmaMaxOf 20 (dx p)) = true ->
  fin_nonnegative (sigmaMaxOf 20 (dy p)) = true ->
  pow_graded = true ->
  (forall i j, 20 <= i < nx p - 20 -> 20 <= j < ny p - 20 ->
     pmlCell p i j = Some 0%float) /\
  (forall i j, 0 <= j < ny p -> 0 <= i -> i + 1 < 20 ->
     exists v w, pmlCell p i j = Some v /\ pmlCell p (i + 1) j = Some w /\
                 (w <=? v)%float = true) /\
  (forall i j, 0 <= j < ny p -> nx p - 20 <= i -> i + 1 < nx p ->
     exists v w, pmlCell p i j = Some v /\ pmlCell p (i + 1) j = Some w /\
                 (v <=? w)%float = true) /\
  (forall i j, 0 <= i < nx p -> 0 <= j -> j + 1 < 20 ->
     exists v w, pmlCell p i j = Some v /\ pmlCell p i (j + 1) = Some w /\
                 (w <=? v)%float = true) /\
  (forall i j, 0 <= i < nx p -> ny p - 20 <= j -> j + 1 < ny p ->
     exists v w, pmlCell p i j = Some v /\ pmlCell p i (j + 1) = Some w /\
                 (v <=? w)%float = true).
Proof.
  intros Ht HX HY Hpow. destruct (pmlThickness_room p Ht) as [Hnx Hny].
  assert (Hcell : forall i j, 0 <= i < nx p -> 0 <= j < ny p ->
            pmlCell p i j =
            Some (pmlStore (pmlProfile (sigmaMaxOf 20 (dx p)) 20 (nx p) i
                            + pmlProfile (sigmaMaxOf 20 (dy p)) 20 (ny p) j))).
  { intros i j Hi Hj. rewrite pmlCell_store by assumption.
    unfold pmlSigmaAt. cbv zeta. rewrite Ht. reflexivity. }
  pose proof (pmlProfile_nonnegative _ (nx p) HX Hpow) as NX.
  pose proof (pmlProfile_nonnegative _ (ny p) HY Hpow) as NY.
  split; [|split; [|split; [|split]]].
  - intros i j Hi Hj. rewrite Hcell by lia.
    rewrite !pmlProfile_interior by lia. reflexivity.
  - intros i j Hj Hi0 Hi1. eexists. eexists.
    split; [apply Hcell; lia|]. split; [apply Hcell; lia|].
    apply pmlStore_sum_l; [apply NX; lia | apply NX; lia | apply NY; lia |].
    apply pmlProfile_low; first [assumption | lia].
  - intros i j Hj Hi0 Hi1. eexists. eexists.
    split; [apply Hcell; lia|]. split; [apply Hcell; lia|].
    apply pmlStore_sum_l; [apply NX; lia | apply NX; lia | apply NY; lia |].
    apply pmlProfile_high; first [assumption | lia].
  - intros i j Hi Hj0 Hj1. eexists. eexists.
    split; [apply Hcell; lia|]. split; [apply Hcell; lia|].
    apply pmlStore_sum_r; [apply NX; lia | apply NY; lia | apply NY; lia |].
    apply pmlProfile_low; first [assumption | lia].
  - intros i j Hi Hj0 Hj1. eexists. eexists.
    split; [apply Hcell; lia|]. split; [apply Hcell; lia|].
    apply pmlStore_sum_r; [apply NX; lia | apply NY; lia | apply NY; lia |].
    apply pmlProfile_high; first [assumption | lia].
Qed.

End Monotone.

Lemma pml_monotone_witness :
  pmlCell wide_params 40 40 = Some 0%float /\
  (exists v w, pmlCell wide_params 3 50 = Some v /\ pmlCell wide_params 4 50 = Some w /\
               (w <=? v)%float = true) /\
  (exists v w, pmlCell wide_params 90 7 = Some v /\ pmlCell wide_params 91 7 = Some w /\
               (v <=? w)%float = true).
Proof.
  assert (Ht : pmlThicknessOf wide_params = 20) by reflexivity.
  assert (HX : fin_nonnegative (sigmaMaxOf 20 (dx wide_params)) = true)
    by (vm_compute; reflexivity).
  assert (HY : fin_nonnegative (sigmaMaxOf 20 (dy wide_params)) = true)
    by (vm_compute; reflexivity).
  assert (Hpow : pow_graded = true) by (vm_compute; reflexivity).
  destruct (pml_monotone wide_params Ht HX HY Hpow) as (H1 & H2 & H3 & _).
  split; [apply H1; vm_compute; split; congruence|].
  split; [apply H2 | apply H3]; vm_compute; first [congruence | split; congruence].
Defined.

(** ** [fround] against the Standard Library's rounding

    [JS.round32] is written for binary64 significands; on samples from
    every range (normal, subnormal, ties, overflow, zero) it returns what
    the generic rounding of the Standard Library returns at the binary32
    parameters. *)
Example fround_agrees :
  forallb (fun x => PrimFloat.Leibniz.eqb (JS.fround x) (JS.fround_std x))
    [0.1; 1.5; 1e-40; 1e-46; 3.4028235e38; 3.4028236e38; 1e39; 16777217;
     0.33333333333333331; -2.5e-45; 7.006492321624085e-46;
     1.401298464324817e-45; -0.1; 5e-324; 73.344299316406254; 1e-12]%float = true.
Proof. vm_compute. reflexivity. Qed.

Example fround_ties_to_even : JS.fround 16777217 = 16777216%float.
Proof. vm_compute. reflexivity. Qed.

(** The rounding of the products agrees with the host's multiplication. *)
Example binary_round_aux_sample :
  SF2Prim (binary_round_aux prec emax false (6004799503160661 * 6004799503160661) (-108) loc_Exact)
  = (0.33333333333333331 * 0.33333333333333331)%float.
Proof. vm_compute. reflexivity. Qed.

(** ** The class invariant through the public methods *)

Lemma wf_addSource src s : wf s -> wf (addSource src s).
Proof. intros H. unfold addSource. apply wf_set_sources, H. Qed.

Lemma wf_removeSource id s : wf s -> wf (removeSource id s).
Proof. intros H. unfold removeSource. apply wf_set_sources, H. Qed.

Section Methods.
Context {M : MathHost}.

Lemma wf_run n : forall s s', wf s -> run n s = Some s' -> wf s'.
Proof.
  induction n as [|n IH]; simpl; intros s s' H.
  - intros [= <-]. exact H.
  - destruct (step s) as [t|] eqn:E; [|discriminate].
    apply IH. eapply wf_step; eassumption.
Qed.

(** X1.  The invariant of the class (the ten arrays have [nx * ny] entries,
    all of them binary32 values) holds after the constructor on a grid of
    non-negative sizes and is kept by every public method that changes the
    solver: [step], [run], [addSource], [removeSource], [addObstacle],
    [removeObstacle] and [reset]. *)
Theorem class_invariant :
  (forall p, 0 <= nx p -> 0 <= ny p -> wf (constructor p)) /\
  (forall s s', wf s -> step s = Some s' -> wf s') /\
  (forall n s s', wf s -> run n s = Some s' -> wf s') /\
  (forall src s, wf s -> wf (addSource src s)) /\
  (forall id s, wf s -> wf (removeSource id s)) /\
  (forall o s s', wf s -> addObstacle o s = Some s' -> wf s') /\
  (forall id s s', wf s -> removeObstacle id s = Some s' -> wf s') /\
  (forall s, wf s -> wf (reset s)).
Proof.
  split; [exact wf_constructor|].
  split; [exact wf_step|].
  split; [exact wf_run|].
  split; [exact wf_addSource|].
  split; [exact wf_removeSource|].
  split; [exact wf_addObstacle|].
  split; [exact wf_removeObstacle|].
  exact wf_reset.
Qed.

End Methods.

Lemma class_invariant_witness :
  wf (reset (removeSource "s1" (addSource demo_dipole2 demo_solver))) /\
  exists s', step demo_solver = Some s' /\ wf s'.
Proof.
  pose proof class_invariant as (Hc & Hs & Hr & Ha & Hrs & Hao & Hro & Hre).
  assert (H0 : wf demo_solver) by (apply Ha, Hc; vm_compute; congruence).
  split; [apply Hre, Hrs, Ha, H0|].
  destruct (step_total demo_solver) as [s' E]; [vm_compute; reflexivity|].
  exists s'. split; [exact E | exact (Hs _ _ H0 E)].
Defined.

(** ** The lists of sources and obstacles *)

Lemma filter_all {A} (f : A -> bool) (l : list A) :
  Forall (fun x => f x = true) l -> List.filter f l = l.
Proof.
  induction 1 as [|x l Hx _ IH]; simpl; [reflexivity|]. rewrite Hx, IH. reflexivity.
Qed.

Lemma set_sources_same s : set_sources (sources s) s = s.
Proof. destruct s. reflexivity. Qed.

Lemma set_sources_twice l l' s : set_sources l (set_sources l' s) = set_sources l s.
Proof. reflexivity. Qed.

(** X2.  [removeSource(id)] drops every source with that id, duplicates
    included, and keeps the others; with an id no source has it changes
    nothing; and after [addSource] of a source whose id is not in use it
    gives the solver from before back. *)
Theorem removeSource_spec :
  (forall id s x,
     In x (sources (removeSource id s)) <-> In x (sources s) /\ Source.id x <> id) /\
  (forall id s, Forall (fun x => Source.id x <> id) (sources s) -> removeSource id s = s) /\
  (forall src s,
     Forall (fun x => Source.id x <> Source.id src) (sources s) ->
     removeSource (Source.id src) (addSource src s) = s).
Proof.
  assert (Hkeep : forall id l,
            Forall (fun x : Source.t => Source.id x <> id) l ->
            List.filter (fun x => negb (String.eqb (Source.id x) id)) l = l).
  { intros id l H. apply filter_all. eapply Forall_impl; [exact H|].
    intros x Hx. apply negb_true_iff, String.eqb_neq, Hx. }
  split; [|split].
  - intros id s x. unfold removeSource. cbn [sources set_sources].
    rewrite filter_In, negb_true_iff, String.eqb_neq. reflexivity.
  - intros id s H. unfold removeSource. rewrite Hkeep by exact H. apply set_sources_same.
  - intros src s H. unfold removeSource, addSource. cbn [sources set_sources].
    rewrite List.filter_app, Hkeep by exact H. cbn [List.filter].
    rewrite String.eqb_refl. cbn [negb]. rewrite app_nil_r.
    rewrite set_sources_twice. apply set_sources_same.
Qed.

Lemma removeSource_spec_witness :
  removeSource "s2" (addSource demo_dipole2 demo_solver) = demo_solver.
Proof.
  apply (proj2 (proj2 removeSource_spec) demo_dipole2 demo_solver).
  replace (sources demo_solver) with [demo_dipole] by (vm_compute; reflexivity).
  repeat constructor. discriminate.
Defined.

Section Lists.
Context {M : MathHost}.

Lemma find_none_fresh (id : string) (l : list Obstacle.t) :
  Forall (fun o => Obstacle.id o <> id) l ->
  List.find (fun o => String.eqb (Obstacle.id o) id) l = None.
Proof.
  induction 1 as [|o l Ho _ IH]; simpl; [reflexivity|].
  apply String.eqb_neq in Ho. rewrite Ho. exact IH.
Qed.

Lemma removeObstacle_obstacles id s s' :
  removeObstacle id s = Some s' ->
  obstacles s' =
  List.filter (fun o => negb (String.eqb (Obstacle.id o) id)) (obstacles s).
Proof.
  intros H.
  destruct (List.find (fun o => String.eqb (Obstacle.id o) id) (obstacles s)) as [o|] eqn:E.
  - destruct (removeObstacle_inv id o s s' E H) as (j0 & j1 & i0 & i1 & _ & ->).
    destruct (core_updateCoefficients
                (setupPML
                   (set_obstacles
                      (List.filter (fun o' => negb (String.eqb (Obstacle.id o') id))
                         (obstacles (sweep (paintCell (params s) 1 1 0) j0 j1 i0 i1 s)))
                      (sweep (paintCell (params s) 1 1 0) j0 j1 i0 i1 s)))) as [_ ->].
    destruct (core_setupPML
                (set_obstacles
                   (List.filter (fun o' => negb (String.eqb (Obstacle.id o') id))
                      (obstacles (sweep (paintCell (params s) 1 1 0) j0 j1 i0 i1 s)))
                   (sweep (paintCell (params s) 1 1 0) j0 j1 i0 i1 s))) as [_ ->].
    cbn [obstacles set_obstacles].
    destruct (core_sweep_paint (params s) 1 1 0 j0 j1 i0 i1 s) as [_ ->]. reflexivity.
  - unfold removeObstacle in H. rewrite E in H. injection H as <-.
    symmetry. apply filter_all.
    apply Forall_forall. intros o Ho.
    apply negb_true_iff.
    apply (find_none _ _ E o). apply list_elem_of_In, Ho.
Qed.

(** X3.  [removeObstacle(id)] with an id no obstacle has returns the solver
    unchanged; when it returns, no obstacle of the list has the id and the
    obstacles with another id are those from before. *)
Theorem removeObstacle_spec :
  (forall id s,
     Forall (fun o => Obstacle.id o <> id) (obstacles s) -> removeObstacle id s = Some s) /\
  (forall id s s' o,
     removeObstacle id s = Some s' ->
     (In o (obstacles s') <-> In o (obstacles s) /\ Obstacle.id o <> id)).
Proof.
  split.
  - intros id s H. unfold removeObstacle. rewrite (find_none_fresh id _ H). reflexivity.
  - intros id s s' o H. rewrite (removeObstacle_obstacles id s s' H).
    rewrite filter_In, negb_true_iff, String.eqb_neq. reflexivity.
Qed.

(** ** Runs *)

(** X4.  Running [m + n] steps is running [m] steps and then [n] steps. *)
Theorem run_compose (m n : nat) (s : MaxwellSolver) :
  run (m + n) s = match run m s with
                  | Some t => run n t
                  | None => None
                  end.
Proof.
  revert s. induction m as [|m IH]; intros s; simpl; [reflexivity|].
  destruct (step s) as [t|]; [apply IH | reflexivity].
Qed.

Lemma run_static n : forall s s',
  run n s = Some s' -> static s' = static s /\ time s' = time s + Z.of_nat n.
Proof.
  induction n as [|n IH]; intros s s'.
  - simpl. intros [= <-]. split; [reflexivity | lia].
  - cbn [run]. destruct (step s) as [t|] eqn:E; [|discriminate].
    intros H. apply IH in H as [H1 H2]. apply step_static in E as [E1 E2].
    split; [congruence | lia].
Qed.

Lemma run_total n : forall s,
  forallb source_terminates (sources s) = true -> exists s', run n s = Some s'.
Proof.
  induction n as [|n IH]; intros s H; simpl; [eauto|].
  destruct (step_total s H) as [t E]. rewrite E. apply IH.
  apply step_static in E as [E _]. unfold static in E.
  replace (sources t) with (sources s) by congruence. exact H.
Qed.

Lemma loop_bounds_zero (hi : float) (k : Z) :
  (0 <? hi)%float = true -> JS.ceilZ hi = Some k -> k <= 2 ^ 53 ->
  loop_bounds 0 hi = Some (0, k).
Proof.
  intros Hpos Hk Hb. unfold loop_bounds. rewrite Hpos. cbn [negb].
  change (JS.floorZ 0%float) with (Some 0). rewrite Hk.
  destruct ((- 2 ^ 53 <=? 0) && (k <=? 2 ^ 53)) eqn:E; [reflexivity|].
  apply andb_false_iff in E. rewrite !Z.leb_gt in E. lia.
Qed.

(** X5.  [run(steps)] for a number [steps]: when [steps] is not above 0
    (or is NaN) the solver is unchanged; otherwise the call makes
    [ceil(steps)] steps: it returns when the loops of the sources terminate
    and the count is finite, the counter has then advanced by [ceil(steps)],
    and the grid, the materials, the coefficients, the sources and the
    obstacles are those from before. *)
Theorem runNumber_spec (steps : float) (s : MaxwellSolver) :
  ((0 <? steps)%float = false -> runNumber steps s = Some s) /\
  (forall k, (0 <? steps)%float = true -> JS.ceilZ steps = Some k -> k <= 2 ^ 53 ->
     (forallb source_terminates (sources s) = true ->
      exists s', runNumber steps s = Some s') /\
     (forall s', runNumber steps s = Some s' ->
        static s' = static s /\ time s' = time s + Z.max 0 k)).
Proof.
  unfold runNumber. split.
  - intros H. unfold loop_bounds. rewrite H. reflexivity.
  - intros k Hpos Hk Hb. rewrite (loop_bounds_zero steps k Hpos Hk Hb).
    split.
    + apply run_total.
    + intros s' H. apply run_static in H as [H1 H2]. split; [exact H1|]. lia.
Qed.

End Lists.

Lemma removeObstacle_spec_witness :
  removeObstacle "o7" demo_solver = Some demo_solver.
Proof.
  apply (proj1 removeObstacle_spec "o7"%string demo_solver). vm_compute. constructor.
Defined.

Lemma run_compose_witness :
  exists s1 s2, run 1 demo_solver = Some s1 /\ run 1 s1 = Some s2 /\
                run 2 demo_solver = Some s2.
Proof.
  destruct (run_total 1 demo_solver) as [s1 E1]; [vm_compute; reflexivity|].
  destruct (run_total 1 s1) as [s2 E2].
  { apply run_static in E1 as [E _]. unfold static in E.
    replace (sources s1) with (sources demo_solver) by congruence.
    vm_compute. reflexivity. }
  exists s1, s2. split; [exact E1|]. split; [exact E2|].
  rewrite (run_compose 1 1 demo_solver), E1. exact E2.
Defined.

Lemma runNumber_spec_witness :
  exists s', runNumber 2.5 demo_solver = Some s' /\ time s' = 3.
Proof.
  destruct (proj2 (runNumber_spec 2.5 demo_solver) 3) as [Ht Hf];
    [vm_compute; reflexivity | vm_compute; reflexivity | vm_compute; congruence |].
  destruct Ht as [s' E]; [vm_compute; reflexivity|].
  exists s'. split; [exact E|]. destruct (Hf s' E) as [_ ->]. reflexivity.
Defined.

(** ** What a step never writes *)

Section Unwritten.
Context {M : MathHost}.

Lemma updateH_last_row s i :
  0 <= i < nx (params s) ->
  F32.get (Hx (updateH s)) ((ny (params s) - 1) * nx (params s) + i)
  = F32.get (Hx s) ((ny (params s) - 1) * nx (params s) + i).
Proof.
  intros Hi. unfold updateH. cbv zeta.
  set (k := (ny (params s) - 1) * nx (params s) + i).
  etransitivity.
  { apply f_equal2; [|reflexivity].
    apply (for_range_frame Hx). intros j t _.
    apply (for_range_frame Hx). intros c u _. reflexivity. }
  apply (for_range_inv (fun t => F32.get (Hx t) k = F32.get (Hx s) k)); [reflexivity|].
  intros j t Hj Ht.
  apply (for_range_inv (fun t => F32.get (Hx t) k = F32.get (Hx s) k)); [exact Ht|].
  intros c u Hc Hu. cbn [Hx set_Hx]. rewrite F32_get_wr_ne; [exact Hu|].
  unfold k. intros E. apply cell_index_inj in E; lia.
Qed.

Lemma updateH_last_column s j :
  0 < nx (params s) ->
  F32.get (Hy (updateH s)) (j * nx (params s) + (nx (params s) - 1))
  = F32.get (Hy s) (j * nx (params s) + (nx (params s) - 1)).
Proof.
  intros Hn. unfold updateH. cbv zeta.
  set (k := j * nx (params s) + (nx (params s) - 1)).
  apply (for_range_inv (fun t => F32.get (Hy t) k = F32.get (Hy s) k)).
  - apply f_equal2; [|reflexivity].
    apply (for_range_frame Hy). intros r t _.
    apply (for_range_frame Hy). intros c u _. reflexivity.
  - intros r t Hr Ht.
    apply (for_range_inv (fun t => F32.get (Hy t) k = F32.get (Hy s) k)); [exact Ht|].
    intros c u Hc Hu. cbn [Hy set_Hy]. rewrite F32_get_wr_ne; [exact Hu|].
    unfold k. intros E. apply cell_index_inj in E; lia.
Qed.

Lemma step_fields s s' :
  step s = Some s' -> Hx s' = Hx (updateH s) /\ Hy s' = Hy (updateH s).
Proof.
  intros H. apply step_inv in H as (t & Ht & ->).
  apply applySourcesFrom_frame in Ht as (_ & _ & <- & <-).
  destruct (updateE_frame t) as (_ & _ & <- & <-).
  destruct (applyBoundaries_frame (updateE t)) as (_ & _ & <- & <-).
  split; reflexivity.
Qed.

(** X6.  No step writes Hx in the last row of the grid or Hy in its last
    column: through any run these entries are what they were. *)
Theorem run_unwritten (n : nat) (s s' : MaxwellSolver) :
  run n s = Some s' ->
  (forall i, 0 <= i < nx (params s) ->
     F32.get (Hx s') ((ny (params s) - 1) * nx (params s) + i)
     = F32.get (Hx s) ((ny (params s) - 1) * nx (params s) + i)) /\
  (forall j, 0 < nx (params s) ->
     F32.get (Hy s') (j * nx (params s) + (nx (params s) - 1))
     = F32.get (Hy s) (j * nx (params s) + (nx (params s) - 1))).
Proof.
  revert s. induction n as [|n IH]; intros s.
  - simpl. intros [= <-]. split; reflexivity.
  - cbn [run]. destruct (step s) as [t|] eqn:E; [|discriminate].
    intros H. destruct (IH t H) as [H1 H2].
    destruct (step_fields s t E) as [Ex Ey].
    apply step_static in E as [Es _]. unfold static in Es.
    assert (Hp : params t = params s) by congruence.
    rewrite Hp in H1, H2. split.
    + intros i Hi. rewrite (H1 i Hi), Ex. apply updateH_last_row, Hi.
    + intros j Hn. rewrite (H2 j Hn), Ey. apply updateH_last_column, Hn.
Qed.

End Unwritten.

Lemma run_unwritten_witness :
  exists s', run 2 demo_solver = Some s' /\
    F32.get (Hx s') ((8 - 1) * 8 + 3) = F32.get (Hx demo_solver) ((8 - 1) * 8 + 3).
Proof.
  destruct (run_total 2 demo_solver) as [s' E]; [vm_compute; reflexivity|].
  exists s'. split; [exact E|].
  apply (proj1 (run_unwritten 2 demo_solver s' E) 3). vm_compute. split; congruence.
Defined.

(** ** Reset *)

Lemma fill_fill a v w : F32.fill (F32.fill a v) w = F32.fill a w.
Proof. unfold F32.fill. rewrite length_replicate. reflexivity. Qed.

Lemma fill_same_length a b v : length a = length b -> F32.fill a v = F32.fill b v.
Proof. unfold F32.fill. intros ->. reflexivity. Qed.

Lemma fill_make n : F32.fill (F32.make n) 0 = F32.make n.
Proof. unfold F32.fill, F32.make. rewrite length_replicate. reflexivity. Qed.

Lemma zeroed_fixed s :
  F32.fill (Ez s) 0 = Ez s -> F32.fill (Hx s) 0 = Hx s -> F32.fill (Hy s) 0 = Hy s ->
  time s = 0 -> zeroed s = s.
Proof.
  destruct s. unfold zeroed. cbn. intros -> -> -> ->. reflexivity.
Qed.

Lemma wf_zeroed s : wf s -> wf (zeroed s).
Proof.
  intros H. unfold zeroed. apply wf_set_time.
  assert (H1 : wf (set_Ez (F32.fill (Ez s) 0) s)) by wf_store.
  assert (H2 : wf (set_Hx (F32.fill (Hx s) 0) (set_Ez (F32.fill (Ez s) 0) s))).
  { apply wf_set_Hx; [exact H1|]. wf_arrays H. cbn [params set_Ez]. aok. }
  apply wf_set_Hy; [exact H2|]. wf_arrays H. cbn [params set_Ez set_Hx]. aok.
Qed.

Section Reset.
Context {M : MathHost}.

Lemma reset_zeroed s : reset s = setupPML (zeroed s).
Proof. reflexivity. Qed.

Lemma zeroed_setupPML s : zeroed (setupPML (zeroed s)) = setupPML (zeroed s).
Proof.
  pose proof (setupPML_frame (zeroed s)) as Hf. unfold non_sigma in Hf.
  injection Hf as Hp He Hhx Hhy _ _ _ _ _ _ _ _ Ht.
  apply zeroed_fixed.
  - rewrite He. cbn [zeroed Ez set_time set_Hy set_Hx set_Ez]. apply fill_fill.
  - rewrite Hhx. cbn [zeroed Hx set_time set_Hy set_Hx set_Ez]. apply fill_fill.
  - rewrite Hhy. cbn [zeroed Hy set_time set_Hy set_Hx set_Ez]. apply fill_fill.
  - rewrite Ht. reflexivity.
Qed.

Lemma zeroed_run n s s' : wf s -> run n s = Some s' -> zeroed s' = zeroed s.
Proof.
  intros Hwf H. pose proof (wf_run n s s' Hwf H) as Hwf'.
  apply run_static in H as [Hs _]. unfold static in Hs.
  injection Hs as Hp He Hm Hg Ha Hb Hc Hd Hso Hob.
  destruct (wf_fields s Hwf) as (E1 & E2 & E3).
  destruct (wf_fields s' Hwf') as (F1 & F2 & F3).
  rewrite Hp in F1, F2, F3.
  apply array_ok_length in E1, E2, E3, F1, F2, F3.
  unfold zeroed.
  rewrite (fill_same_length (Ez s') (Ez s)), (fill_same_length (Hx s') (Hx s)),
    (fill_same_length (Hy s') (Hy s)) by congruence.
  destruct s, s'. cbn in *. subst. reflexivity.
Qed.

(** X7.  [reset] is idempotent; after any run it gives the state that
    [reset] gave before the run; and on a freshly constructed solver it
    changes nothing. *)
Theorem reset_spec :
  (forall s, wf s -> reset (reset s) = reset s) /\
  (forall n s s', wf s -> run n s = Some s' -> reset s' = reset s) /\
  (forall p, 0 <= nx p -> 0 <= ny p -> reset (constructor p) = constructor p).
Proof.
  split; [|split].
  - intros s Hwf. rewrite (reset_zeroed (reset s)), (reset_zeroed s), zeroed_setupPML.
    apply setupPML_fixed; [apply wf_setupPML, wf_zeroed, Hwf|].
    apply setupPML_merged, wf_zeroed, Hwf.
  - intros n s s' Hwf H. rewrite !reset_zeroed, (zeroed_run n s s' Hwf H). reflexivity.
  - intros p Hnx Hny. rewrite reset_zeroed.
    assert (Hz : zeroed (constructor p) = constructor p).
    { pose proof (updateCoefficients_frame (setupPML (allocate p))) as Huc.
      pose proof (setupPML_frame (allocate p)) as Hpml.
      unfold non_coefficients in Huc. unfold non_sigma in Hpml.
      injection Huc as _ _ _ _ E1 E2 E3 _ _ E4.
      injection Hpml as _ F1 F2 F3 _ _ _ _ _ _ _ _ F4.
      unfold constructor.
      apply zeroed_fixed.
      - rewrite E1, F1. apply fill_make.
      - rewrite E2, F2. apply fill_make.
      - rewrite E3, F3. apply fill_make.
      - rewrite E4, F4. reflexivity. }
    rewrite Hz. apply setupPML_fixed; [apply wf_constructor; assumption|].
    unfold constructor. apply updateCoefficients_merged, setupPML_merged, wf_allocate; assumption.
Qed.

End Reset.

Lemma reset_spec_witness :
  exists s', run 2 demo_solver = Some s' /\ reset s' = reset demo_solver.
Proof.
  destruct (run_total 2 demo_solver) as [s' E]; [vm_compute; reflexivity|].
  exists s'. split; [exact E|].
  apply (proj1 (proj2 reset_spec) 2%nat demo_solver s'); [vm_compute; reflexivity | exact E].
Defined.

(** ** What [addObstacle] paints *)

Section AddObstaclePaints.
Context {M : MathHost}.

(** The material of every cell after [addObstacle]. *)
Lemma addObstacle_cells (o : Obstacle.t) (s s1 : MaxwellSolver) :
  wf s -> addObstacle o s = Some s1 ->
  exists r, rect_of o = Some r /\
    forall i j, 0 <= i < nx (params s) -> 0 <= j < ny (params s) ->
      let idx := j * nx (params s) + i in
      let mat := Obstacle.material o in
      exists v, F32.get (sigma s) idx = Some v /\
        F32.get (epsilon s1) idx =
          (if in_rect r i j then Some (JS.fround (Material.epsilon mat))
           else F32.get (epsilon s) idx) /\
        F32.get (mu s1) idx =
          (if in_rect r i j then Some (JS.fround (Material.mu mat))
           else F32.get (mu s) idx) /\
        F32.get (sigma s1) idx =
          Some (pmlMerge (params s) i j
                  (if in_rect r i j then JS.fround (Material.sigma mat) else v)).
Proof.
  intros Hwf Ha.
  apply addObstacle_inv in Ha as (j0 & j1 & i0 & i1 & Hrect & Hs1).
  exists (j0, j1, i0, i1). split; [exact Hrect|].
  intros i j Hi Hj. cbv zeta.
  set (e := Material.epsilon (Obstacle.material o)) in *.
  set (m := Material.mu (Obstacle.material o)) in *.
  set (g := Material.sigma (Obstacle.material o)) in *.
  set (u0 := set_obstacles (obstacles s ++ [o]) s) in *.
  assert (Hwf0 : wf u0) by (apply wf_set_obstacles, Hwf).
  pose proof (repaint_cell u0 e m g (j0, j1, i0, i1) i j Hwf0 Hi Hj
                (sweep (paintCell (params u0) e m g) j0 j1 i0 i1 u0)
                (params_sweep_paint _ _ _ _ _ _ _ _ _) eq_refl eq_refl eq_refl) as H1.
  cbv zeta in H1. change (params u0) with (params s) in H1.
  change (epsilon u0) with (epsilon s) in H1. change (mu u0) with (mu s) in H1.
  change (sigma u0) with (sigma s) in H1. rewrite <- Hs1 in H1.
  destruct H1 as (_ & He1 & Hm1 & v & Hv & Hg1).
  exists v. auto.
Qed.

(** [addObstacle] fails exactly when a loop has bounds outside
    [loop_bounds]. *)
Lemma addObstacle_none (o : Obstacle.t) (s : MaxwellSolver) :
  addObstacle o s = None <-> rect_of o = None.
Proof.
  unfold addObstacle, applyObstacle. rewrite paintRect_eq.
  destruct (rect_of o) as [[[[j0 j1] i0] i1]|]; split; intros H;
    first [discriminate | reflexivity].
Qed.

(** X8.  [addObstacle] fails exactly when a loop of the rectangle has
    bounds outside [loop_bounds].  Otherwise it appends the obstacle, stores
    the obstacle's material (rounded to single precision) in the cells of
    its rectangle and nowhere else, merges the absorbing layer into sigma,
    and leaves the coefficients compiled from the new material. *)
Theorem addObstacle_paints (o : Obstacle.t) (s : MaxwellSolver) :
  wf s ->
  (addObstacle o s = None <-> rect_of o = None) /\
  (forall s1, addObstacle o s = Some s1 ->
     exists r, rect_of o = Some r /\
       obstacles s1 = obstacles s ++ [o] /\
       coefficients_ok s1 /\
       forall i j, 0 <= i < nx (params s) -> 0 <= j < ny (params s) ->
         let idx := j * nx (params s) + i in
         let mat := Obstacle.material o in
         exists v, F32.get (sigma s) idx = Some v /\
           F32.get (epsilon s1) idx =
             (if in_rect r i j then Some (JS.fround (Material.epsilon mat))
              else F32.get (epsilon s) idx) /\
           F32.get (mu s1) idx =
             (if in_rect r i j then Some (JS.fround (Material.mu mat))
              else F32.get (mu s) idx) /\
           F32.get (sigma s1) idx =
             Some (pmlMerge (params s) i j
                     (if in_rect r i j then JS.fround (Material.sigma mat) else v))).
Proof.
  intros Hwf. split; [apply addObstacle_none|].
  intros s1 Ha.
  destruct (addObstacle_post o s s1 Hwf Ha) as (Hwf1 & Hcore & Hobs).
  pose proof (addObstacle_ok o s s1 Hwf Ha) as Hok.
  destruct (addObstacle_cells o s s1 Hwf Ha) as (r & Hrect & Hcells).
  exists r. auto.
Qed.

End AddObstaclePaints.

Lemma addObstacle_paints_witness :
  exists s1, addObstacle demo_obstacle (constructor demo_params) = Some s1 /\
             obstacles s1 = [demo_obstacle] /\ coefficients_ok s1.
Proof.
  assert (Hwf : wf (constructor demo_params)) by (vm_compute; reflexivity).
  destruct (addObstacle demo_obstacle (constructor demo_params)) as [s1|] eqn:E.
  - exists s1. split; [reflexivity|].
    destruct (proj2 (addObstacle_paints demo_obstacle (constructor demo_params) Hwf) s1 E)
      as (r & _ & Hobs & Hok & _).
    split; [exact Hobs | exact Hok].
  - apply (proj1 (addObstacle_paints demo_obstacle (constructor demo_params) Hwf)) in E.
    vm_compute in E. discriminate E.
Defined.

(** ** Signs of the energy maps *)

Lemma binary_round_aux_not_neg m e l :
  not_neg (binary_round_aux prec emax false m e l) = true.
Proof.
  unfold binary_round_aux.
  destruct (shr_fexp prec emax m e l) as [a b].
  destruct (shr_fexp prec emax _ b loc_Exact) as [c d].
  destruct (shr_m c); [reflexivity | | reflexivity].
  destruct (d <=? emax - prec); reflexivity.
Qed.

Lemma SFmul_not_neg x y :
  not_neg x = true -> not_neg y = true -> not_neg (SFmul prec emax x y) = true.
Proof.
  destruct x as [sx|sx| |sx mx ex], y as [sy|sy| |sy my ey];
    try (destruct sx); try (destruct sy); intros Hx Hy;
    try discriminate; try reflexivity.
  apply binary_round_aux_not_neg.
Qed.

Lemma SFmul_self_not_neg x : not_neg (SFmul prec emax x x) = true.
Proof.
  destruct x as [sx|sx| |sx mx ex]; try (destruct sx); try reflexivity;
    apply binary_round_aux_not_neg.
Qed.

Lemma binary_round_not_neg m e : not_neg (binary_round prec emax false m e) = true.
Proof.
  unfold binary_round. destruct (shl_align _ _ _) as [mz ez].
  apply binary_round_aux_not_neg.
Qed.

Lemma SFadd_not_neg x y :
  not_neg x = true -> not_neg y = true -> not_neg (SFadd prec emax x y) = true.
Proof.
  destruct x as [sx|sx| |sx mx ex], y as [sy|sy| |sy my ey];
    try (destruct sx); try (destruct sy); intros Hx Hy;
    try discriminate; try reflexivity.
  unfold SFadd. cbn [cond_Zopp]. rewrite <- Pos2Z.inj_add. cbn [binary_normalize].
  apply binary_round_not_neg.
Qed.

Lemma SFsqrt_not_neg x : not_neg (SFsqrt prec emax x) = true.
Proof.
  destruct x as [sx|sx| |sx mx ex]; try (destruct sx); try reflexivity.
  unfold SFsqrt. destruct (SFsqrt_core_binary _ _ _ _) as [[mz ez] lz].
  apply binary_round_aux_not_neg.
Qed.

Lemma SFabs_not_neg x : not_neg (SFabs x) = true.
Proof. destruct x; reflexivity. Qed.

Lemma round32_not_neg x : not_neg x = true -> not_neg (JS.round32 x) = true.
Proof.
  destruct x as [sx|sx| |sx mx ex]; try (intros H; exact H).
  destruct sx; [discriminate|]. intros _. rewrite round32_rne. cbv zeta.
  repeat match goal with |- context [if ?b then _ else _] => destruct b end; reflexivity.
Qed.

Lemma Prim2SF_fround x : Prim2SF (JS.fround x) = JS.round32 (Prim2SF x).
Proof. unfold JS.fround. apply Prim2SF_SF2Prim, round32_valid, Prim2SF_valid. Qed.

Lemma not_negative_fround x : not_negative x = true -> not_negative (JS.fround x) = true.
Proof. unfold not_negative. rewrite Prim2SF_fround. apply round32_not_neg. Qed.

Lemma not_negative_square x : not_negative (x * x) = true.
Proof. unfold not_negative. rewrite mul_spec. apply SFmul_self_not_neg. Qed.

Lemma not_negative_poynting e hx hy :
  not_negative (abs e * sqrt (hx * hx + hy * hy)) = true.
Proof.
  unfold not_negative. rewrite mul_spec, abs_spec, sqrt_spec, add_spec, !mul_spec.
  apply SFmul_not_neg; [apply SFabs_not_neg | apply SFsqrt_not_neg].
Qed.

Lemma not_negative_ltb x : not_negative x = true -> (x <? 0)%float = false.
Proof.
  unfold not_negative. rewrite ltb_spec.
  change (Prim2SF 0) with (S754_zero false).
  destruct (Prim2SF x) as [sx|sx| |sx mx ex]; try (destruct sx);
    intros H; try discriminate; reflexivity.
Qed.

Lemma not_negative_cases x :
  not_negative x = true -> is_nan x = true \/ nonnegative x = true.
Proof.
  unfold not_negative, nonnegative. rewrite is_nan_spec. unfold fnan.
  destruct (Prim2SF x) as [sx|sx| |sx mx ex]; try (destruct sx);
    intros H; try discriminate; auto.
Qed.

(** The square of a number is NaN only if the number is. *)
Lemma square_nan x : is_nan (JS.fround (x * x)) = is_nan x.
Proof.
  rewrite !is_nan_spec. unfold fnan. rewrite Prim2SF_fround, mul_spec.
  pose proof (Prim2SF_valid x) as V.
  destruct (Prim2SF x) as [sx|sx| |sx mx ex] eqn:E; try reflexivity.
  assert (Hsq : SF64mul (S754_finite sx mx ex) (S754_finite sx mx ex)
                = SFmul prec emax (S754_finite false mx ex) (S754_finite false mx ex)).
  { destruct sx; reflexivity. }
  rewrite Hsq.
  assert (V' : valid_binary (S754_finite false mx ex) = true) by exact V.
  destruct (SFmul_val 2148 ltac:(lia) _ _ V' V' eq_refl eq_refl) as [Hn _].
  assert (Vm : valid_binary (SFmul prec emax (S754_finite false mx ex)
                               (S754_finite false mx ex)) = true).
  { rewrite <- (Prim2SF_SF2Prim (S754_finite false mx ex) V'), <- mul_spec.
    apply Prim2SF_valid. }
  destruct (round32_val 2148 ltac:(lia) _ Vm Hn) as [Hr _].
  destruct (JS.round32 _); try discriminate; reflexivity.
Qed.

(** ** The loops of the energy maps *)

Lemma map_loop (f : Z -> float) (n : Z) (a : F32.t) :
  let r := for_range 0 n (fun i a => F32.wr a i (f i)) a in
  length r = length a /\
  (forall k, 0 <= k < n -> k < Z.of_nat (length a) ->
     F32.get r k = Some (JS.fround (f k))) /\
  (forall k, ~ 0 <= k < n -> F32.get r k = F32.get a k).
Proof.
  cbv zeta. destruct (Z.le_gt_cases 0 n) as [Hn|Hn].
  - apply (for_range_ind (fun hi t =>
      length t = length a /\
      (forall k, 0 <= k < hi -> k < Z.of_nat (length a) ->
         F32.get t k = Some (JS.fround (f k))) /\
      (forall k, ~ 0 <= k < hi -> F32.get t k = F32.get a k))); [exact Hn | |].
    + split; [reflexivity|]. split; [intros k Hk; lia | reflexivity].
    + intros i t Hi (Hl & Hin & Hout). split; [|split].
      * rewrite F32_length_wr. exact Hl.
      * intros k Hk Hlen. destruct (Z.eq_dec i k) as [->|Hne].
        -- apply F32_get_wr_eq. lia.
        -- rewrite F32_get_wr_ne by exact Hne. apply Hin; lia.
      * intros k Hk. rewrite F32_get_wr_ne by lia. apply Hout. lia.
  - rewrite for_range_empty by lia. split; [reflexivity|].
    split; [intros k Hk; lia | reflexivity].
Qed.

Lemma getIntensity_entry s k v :
  F32.get (getIntensity s) k = Some v ->
  v = JS.fround (F32.rd (Ez s) k * F32.rd (Ez s) k).
Proof.
  unfold getIntensity. cbv zeta.
  set (f := fun i => (F32.rd (Ez s) i * F32.rd (Ez s) i)%float).
  set (n := nx (params s) * ny (params s)).
  destruct (map_loop f n (F32.make n)) as (Hl & Hin & _).
  intros H. pose proof (F32_get_Some_range _ _ _ H) as Hk.
  change (for_range 0 n (fun i intensity => F32.wr intensity i
            (F32.rd (Ez s) i * F32.rd (Ez s) i)) (F32.make n))
    with (for_range 0 n (fun i a => F32.wr a i (f i)) (F32.make n)) in H, Hk.
  rewrite Hl, F32_length_make in Hk.
  rewrite Hin in H by (rewrite ?F32_length_make; lia).
  injection H as <-. reflexivity.
Qed.

Lemma getPoyntingVector_entry s k v :
  F32.get (getPoyntingVector s) k = Some v ->
  v = JS.fround (abs (F32.rd (Ez s) k)
                 * sqrt (F32.rd (Hx s) k * F32.rd (Hx s) k
                         + F32.rd (Hy s) k * F32.rd (Hy s) k)).
Proof.
  unfold getPoyntingVector. cbv zeta.
  set (f := fun i => (abs (F32.rd (Ez s) i)
                      * sqrt (F32.rd (Hx s) i * F32.rd (Hx s) i
                              + F32.rd (Hy s) i * F32.rd (Hy s) i))%float).
  set (n := nx (params s) * ny (params s)).
  destruct (map_loop f n (F32.make n)) as (Hl & Hin & _).
  intros H. pose proof (F32_get_Some_range _ _ _ H) as Hk.
  change (for_range 0 n _ (F32.make n))
    with (for_range 0 n (fun i a => F32.wr a i (f i)) (F32.make n)) in H, Hk.
  rewrite Hl, F32_length_make in Hk.
  rewrite Hin in H by (rewrite ?F32_length_make; lia).
  injection H as <-. reflexivity.
Qed.

Lemma getIntensity_length s :
  length (getIntensity s) = Z.to_nat (nx (params s) * ny (params s)).
Proof.
  unfold getIntensity. cbv zeta.
  set (n := nx (params s) * ny (params s)).
  rewrite (proj1 (map_loop (fun i => (F32.rd (Ez s) i * F32.rd (Ez s) i)%float) n (F32.make n))).
  apply F32_length_make.
Qed.

Lemma getPoyntingVector_length s :
  length (getPoyntingVector s) = Z.to_nat (nx (params s) * ny (params s)).
Proof.
  unfold getPoyntingVector. cbv zeta.
  set (n := nx (params s) * ny (params s)).
  rewrite (proj1 (map_loop (fun i => (abs (F32.rd (Ez s) i)
                      * sqrt (F32.rd (Hx s) i * F32.rd (Hx s) i
                              + F32.rd (Hy s) i * F32.rd (Hy s) i))%float) n (F32.make n))).
  apply F32_length_make.
Qed.

(** X9.  The intensity and Poynting maps of a well-formed solver have one
    entry per cell, computed from the fields of that cell and rounded to
    single precision. *)
Theorem energy_maps (s : MaxwellSolver) (k : Z) :
  wf s -> 0 <= k < nx (params s) * ny (params s) ->
  exists e hx hy,
    F32.get (Ez s) k = Some e /\ F32.get (Hx s) k = Some hx /\
    F32.get (Hy s) k = Some hy /\
    F32.get (getIntensity s) k = Some (JS.fround (e * e)) /\
    F32.get (getPoyntingVector s) k =
      Some (JS.fround (abs e * sqrt (hx * hx + hy * hy))) /\
    length (getIntensity s) = length (Ez s) /\
    length (getPoyntingVector s) = length (Ez s).
Proof.
  intros Hwf Hk.
  destruct (wf_fields s Hwf) as (E1 & E2 & E3).
  apply array_ok_length in E1, E2, E3. unfold cells in E1, E2, E3.
  destruct (F32_get_in_range (Ez s) k) as [e He]; [lia|].
  destruct (F32_get_in_range (Hx s) k) as [hx Hhx]; [lia|].
  destruct (F32_get_in_range (Hy s) k) as [hy Hhy]; [lia|].
  exists e, hx, hy. split; [exact He|]. split; [exact Hhx|]. split; [exact Hhy|].
  destruct (F32_get_in_range (getIntensity s) k) as [v Hv];
    [rewrite getIntensity_length; lia|].
  destruct (F32_get_in_range (getPoyntingVector s) k) as [w Hw];
    [rewrite getPoyntingVector_length; lia|].
  pose proof (getIntensity_entry s k v Hv) as Ev.
  pose proof (getPoyntingVector_entry s k w Hw) as Ew.
  rewrite (F32_rd_get _ _ _ He) in Ev, Ew.
  rewrite (F32_rd_get _ _ _ Hhx), (F32_rd_get _ _ _ Hhy) in Ew.
  rewrite Hv, Hw, Ev, Ew, getIntensity_length, getPoyntingVector_length, E1.
  auto.
Qed.

(** X10.  No entry of the intensity map or of the Poynting map is
    negative, whatever the fields hold; an entry of the intensity map is
    NaN exactly when the field read for it is. *)
Theorem energy_not_negative (s : MaxwellSolver) (k : Z) :
  (forall v, F32.get (getIntensity s) k = Some v ->
     (v <? 0)%float = false /\ is_nan v = is_nan (F32.rd (Ez s) k)) /\
  (forall v, F32.get (getPoyntingVector s) k = Some v -> (v <? 0)%float = false).
Proof.
  split.
  - intros v H. apply getIntensity_entry in H as ->. split.
    + apply not_negative_ltb, not_negative_fround, not_negative_square.
    + apply square_nan.
  - intros v H. apply getPoyntingVector_entry in H as ->.
    apply not_negative_ltb, not_negative_fround, not_negative_poynting.
Qed.

Lemma energy_maps_witness :
  exists e hx hy,
    F32.get (Ez demo_solver) 36 = Some e /\ F32.get (Hx demo_solver) 36 = Some hx /\
    F32.get (Hy demo_solver) 36 = Some hy /\
    F32.get (getIntensity demo_solver) 36 = Some (JS.fround (e * e)) /\
    F32.get (getPoyntingVector demo_solver) 36 =
      Some (JS.fround (abs e * sqrt (hx * hx + hy * hy))) /\
    length (getIntensity demo_solver) = length (Ez demo_solver) /\
    length (getPoyntingVector demo_solver) = length (Ez demo_solver).
Proof.
  apply (energy_maps demo_solver 36); [vm_compute; reflexivity|].
  vm_compute. split; congruence.
Defined.

Lemma energy_not_negative_witness :
  exists s v, run 2 demo_solver = Some s /\
    F32.get (getIntensity s) 36 = Some v /\ (v <? 0)%float = false.
Proof.
  destruct (run_total 2 demo_solver) as [s E]; [vm_compute; reflexivity|].
  destruct (F32_get_in_range (getIntensity s) 36) as [v Hv].
  { rewrite getIntensity_length.
    apply run_static in E as [Es _]. unfold static in Es.
    replace (params s) with (params demo_solver) by congruence.
    vm_compute. split; congruence. }
  exists s, v. split; [exact E|]. split; [exact Hv|].
  apply (proj1 (energy_not_negative s 36) v Hv).
Defined.

(** ** The metrics of an exported frame *)

Section StrictOrder.
Variable K : Z.
Hypothesis HK : 2148 <= K.

Lemma val_lt x y :
  valid_binary x = true -> valid_binary y = true ->
  nonneg x = true -> nonneg y = true ->
  SFltb x y = (val K x <? val K y).
Proof.
  intros Vx Vy Nx Ny.
  assert (HT : 0 < 2 ^ (1024 + K)) by (apply pow2_pos; lia).
  destruct x as [sx|sx| |sx mx ex]; try discriminate;
    destruct y as [sy|sy| |sy my ey]; try discriminate;
    try (destruct sx; try discriminate); try (destruct sy; try discriminate);
    unfold SFltb; cbn [SFcompare];
    try (pose proof (val_finite_bound K HK _ _ _ Vx));
    try (pose proof (val_finite_bound K HK _ _ _ Vy));
    try (cbn [val]; symmetry; first [apply Z.ltb_lt; cbn [val] in *; lia
                                    | apply Z.ltb_ge; cbn [val] in *; lia]).
  destruct (Z.compare_spec ex ey) as [E|E|E].
  - subst ey. rewrite Pos.compare_cont_spec. cbn [Pos.switch_Eq val].
    apply valid_finite in Vx as (_ & He & _).
    pose proof (pow2_pos (ex + K) ltac:(lia)) as Hp.
    destruct (Pos.compare_spec mx my) as [E|E|E]; symmetry.
    + apply Z.ltb_ge. subst. lia.
    + apply Z.ltb_lt. nia.
    + apply Z.ltb_ge. nia.
  - symmetry. apply Z.ltb_lt.
    pose proof (val_exponent_lt K HK false mx ex false my ey Vx Vy E). lia.
  - symmetry. apply Z.ltb_ge.
    pose proof (val_exponent_lt K HK false my ey false mx ex Vy Vx ltac:(lia)). lia.
Qed.

Lemma fltb_val x y :
  nonnegative x = true -> nonnegative y = true ->
  (x <? y)%float = (val K (Prim2SF x) <? val K (Prim2SF y)).
Proof.
  intros Hx Hy. rewrite ltb_spec.
  apply val_lt; first [apply Prim2SF_valid | assumption].
Qed.

End StrictOrder.

Lemma fltb_nan_r x y : is_nan y = true -> (x <? y)%float = false.
Proof.
  rewrite is_nan_spec. unfold fnan. rewrite ltb_spec. unfold SFltb.
  destruct (Prim2SF y); try discriminate. intros _.
  destruct (Prim2SF x); reflexivity.
Qed.

Lemma fltb_nan_l x y : is_nan x = true -> (x <? y)%float = false.
Proof.
  rewrite is_nan_spec. unfold fnan. rewrite ltb_spec. unfold SFltb.
  destruct (Prim2SF x); try discriminate. reflexivity.
Qed.

Lemma fadd_nan_r x y : is_nan y = true -> is_nan (x + y) = true.
Proof.
  rewrite !is_nan_spec. unfold fnan. rewrite add_spec.
  destruct (Prim2SF y); try discriminate. intros _.
  destruct (Prim2SF x); reflexivity.
Qed.

Lemma fadd_nan_l x y : is_nan x = true -> is_nan (x + y) = true.
Proof.
  rewrite !is_nan_spec. unfold fnan. rewrite add_spec.
  destruct (Prim2SF x); try discriminate. reflexivity.
Qed.

(** One update of a running maximum. *)
Lemma max_step (m cur : float) :
  nonnegative m = true -> not_negative cur = true ->
  let m' := if (m <? cur)%float then cur else m in
  nonnegative m' = true /\ (m' <? cur)%float = false /\
  (m' = cur \/ m' = m) /\
  forall v, not_negative v = true -> (m <? v)%float = false -> (m' <? v)%float = false.
Proof.
  intros Hm Hc. cbv zeta.
  destruct (m <? cur)%float eqn:E.
  - destruct (not_negative_cases cur Hc) as [Hn|Hn].
    { rewrite (fltb_nan_r m cur Hn) in E. discriminate. }
    split; [exact Hn|]. split.
    { rewrite (fltb_val 2148 ltac:(lia) cur cur Hn Hn). apply Z.ltb_irrefl. }
    split; [left; reflexivity|].
    intros v Hv Hmv. destruct (not_negative_cases v Hv) as [Hvn|Hvn].
    { apply fltb_nan_r, Hvn. }
    rewrite (fltb_val 2148 ltac:(lia)) in E, Hmv |- * by assumption.
    apply Z.ltb_lt in E. apply Z.ltb_ge in Hmv. apply Z.ltb_ge. lia.
  - split; [exact Hm|]. split; [exact E|]. split; [right; reflexivity|].
    intros v _ Hmv. exact Hmv.
Qed.

Lemma metrics_loop (ci cp : Z -> float) (n : Z) :
  0 <= n ->
  (forall k, 0 <= k < n -> not_negative (ci k) = true /\ not_negative (cp k) = true) ->
  metrics_inv ci cp n
    (for_range 0 n (fun i '(maxIntensity, sumIntensity, maxPoynting) =>
       let currentIntensity := ci i in
       let currentPoynting := cp i in
       let maxIntensity :=
         if (maxIntensity <? currentIntensity)%float then currentIntensity else maxIntensity in
       let maxPoynting :=
         if (maxPoynting <? currentPoynting)%float then currentPoynting else maxPoynting in
       (maxIntensity, (sumIntensity + currentIntensity)%float, maxPoynting))
       (0%float, 0%float, 0%float)).
Proof.
  intros Hn Hc.
  apply (for_range_ind (metrics_inv ci cp)); [exact Hn | |].
  - cbn. repeat split; try reflexivity; try (intros; lia); auto.
    right. split; [intros; lia | reflexivity].
  - intros i [[mI sI] mP] Hi (HmI & HmP & HbI & HbP & HeI & HeP & Hs).
    destruct (Hc i Hi) as [HcI HcP].
    destruct (max_step mI (ci i) HmI HcI) as (A1 & A2 & A3 & A4).
    destruct (max_step mP (cp i) HmP HcP) as (B1 & B2 & B3 & B4).
    cbv zeta in A1, A2, A3, A4, B1, B2, B3, B4.
    unfold metrics_inv. cbv zeta.
    split; [exact A1|]. split; [exact B1|].
    split; [|split; [|split; [|split]]].
    + intros k Hk. destruct (Z.eq_dec k i) as [->|Hne]; [exact A2|].
      apply A4; [apply Hc; lia | apply HbI; lia].
    + intros k Hk. destruct (Z.eq_dec k i) as [->|Hne]; [exact B2|].
      apply B4; [apply Hc; lia | apply HbP; lia].
    + destruct A3 as [->| ->].
      * right. exists i. split; [lia | reflexivity].
      * destruct HeI as [E|(k & Hk & E)]; [left; exact E|].
        right. exists k. split; [lia | exact E].
    + destruct B3 as [->| ->].
      * right. exists i. split; [lia | reflexivity].
      * destruct HeP as [E|(k & Hk & E)]; [left; exact E|].
        right. exists k. split; [lia | exact E].
    + destruct Hs as [[(k & Hk & E) Hnan]|[Hall Hnn]].
      * left. split; [exists k; split; [lia | exact E]|]. apply fadd_nan_l, Hnan.
      * destruct (not_negative_cases (ci i) HcI) as [Hcn|Hcn].
        -- left. split; [exists i; split; [lia | exact Hcn]|]. apply fadd_nan_r, Hcn.
        -- right. split.
           ++ intros k Hk. destruct (Z.eq_dec k i) as [->|Hne];
                [apply nonnegative_not_nan, Hcn | apply Hall; lia].
           ++ apply (fadd_val 2148 ltac:(lia) sI (ci i) Hnn Hcn).
Qed.

Lemma getIntensity_not_negative s k :
  0 <= k < Z.of_nat (length (getIntensity s)) ->
  not_negative (F32.rd (getIntensity s) k) = true.
Proof.
  intros Hk. destruct (F32_get_in_range _ _ Hk) as [v Hv].
  rewrite (F32_rd_get _ _ _ Hv). apply getIntensity_entry in Hv as ->.
  apply not_negative_fround, not_negative_square.
Qed.

Lemma getPoyntingVector_not_negative s k :
  0 <= k < Z.of_nat (length (getPoyntingVector s)) ->
  not_negative (F32.rd (getPoyntingVector s) k) = true.
Proof.
  intros Hk. destruct (F32_get_in_range _ _ Hk) as [v Hv].
  rewrite (F32_rd_get _ _ _ Hv). apply getPoyntingVector_entry in Hv as ->.
  apply not_negative_fround, not_negative_poynting.
Qed.

(** X11.  The metrics of an exported frame.  Both maxima are numbers that
    are not negative, bound every entry of their map and are 0 or an entry
    of it; the total energy is NaN exactly when some entry of the intensity
    map is NaN (which the maxima skip), and is not negative otherwise. *)
Theorem export_metrics (s : MaxwellSolver) (mode : FieldMode) (vectors : bool) :
  let m := metrics (buildExportReport s mode vectors) in
  nonnegative (maxIntensity m) = true /\ nonnegative (maxPoynting m) = true /\
  (forall k v, F32.get (getIntensity s) k = Some v -> (maxIntensity m <? v)%float = false) /\
  (forall k v, F32.get (getPoyntingVector s) k = Some v ->
     (maxPoynting m <? v)%float = false) /\
  (maxIntensity m = 0%float \/
   exists k, F32.get (getIntensity s) k = Some (maxIntensity m)) /\
  (maxPoynting m = 0%float \/
   exists k, F32.get (getPoyntingVector s) k = Some (maxPoynting m)) /\
  (is_nan (totalEnergy m) = true <->
   exists k v, F32.get (getIntensity s) k = Some v /\ is_nan v = true) /\
  (is_nan (totalEnergy m) = false -> nonnegative (totalEnergy m) = true).
Proof.
  cbv zeta. unfold buildExportReport. cbv zeta.
  set (I := getIntensity s). set (P := getPoyntingVector s).
  assert (HlP : length P = length I).
  { unfold P, I. rewrite getIntensity_length, getPoyntingVector_length. reflexivity. }
  assert (H : metrics_inv (F32.rd I) (F32.rd P) (Z.of_nat (length I)) (metricsLoop I P)).
  { apply metrics_loop; [lia|].
    intros k Hk. split; [apply getIntensity_not_negative; exact Hk|].
    apply getPoyntingVector_not_negative. fold P. rewrite HlP. exact Hk. }
  destruct (metricsLoop I P) as [[mI sI] mP]. cbn [metrics maxIntensity maxPoynting totalEnergy].
  unfold metrics_inv in H.
  destruct H as (HmI & HmP & HbI & HbP & HeI & HeP & Hs).
  split; [exact HmI|]. split; [exact HmP|].
  split; [|split; [|split; [|split; [|split]]]].
  - intros k v Hv. pose proof (F32_get_Some_range _ _ _ Hv) as Hk.
    rewrite <- (F32_rd_get _ _ _ Hv). apply HbI, Hk.
  - intros k v Hv. pose proof (F32_get_Some_range _ _ _ Hv) as Hk.
    rewrite <- (F32_rd_get _ _ _ Hv). apply HbP. rewrite <- HlP. exact Hk.
  - destruct HeI as [E|(k & Hk & E)]; [left; exact E|]. right. exists k.
    destruct (F32_get_in_range I k Hk) as [v Hv].
    rewrite <- E, (F32_rd_get _ _ _ Hv). exact Hv.
  - destruct HeP as [E|(k & Hk & E)]; [left; exact E|]. right. exists k.
    destruct (F32_get_in_range P k ltac:(rewrite HlP; exact Hk)) as [v Hv].
    rewrite <- E, (F32_rd_get _ _ _ Hv). exact Hv.
  - split.
    + intros Hn. destruct Hs as [[(k & Hk & E) _]|[_ Hnn]].
      * destruct (F32_get_in_range I k Hk) as [v Hv]. exists k, v.
        split; [exact Hv|]. rewrite <- (F32_rd_get _ _ _ Hv). exact E.
      * apply nonnegative_not_nan in Hnn. congruence.
    + intros (k & v & Hv & Hn). destruct Hs as [[_ E]|[Hall _]]; [exact E|].
      pose proof (F32_get_Some_range _ _ _ Hv) as Hk.
      specialize (Hall k Hk). rewrite (F32_rd_get _ _ _ Hv) in Hall. congruence.
  - intros Hn. destruct Hs as [[_ E]|[_ Hnn]]; [congruence | exact Hnn].
Qed.

Lemma export_metrics_witness :
  nonnegative (maxIntensity (metrics (buildExportReport demo_solver ModeIntensity false))) = true.
Proof. apply (proj1 (export_metrics demo_solver ModeIntensity false)). Defined.

(** ** Integers as numbers *)

Section IntegerNumbers.
Variable K : Z.
Hypothesis HK : 2148 <= K.

Lemma r64_int N : 0 <= N < 2 ^ 53 -> r64 K (N * 2 ^ K) = N * 2 ^ K.
Proof.
  intros HN. unfold r64.
  pose proof (pow2_pos K ltac:(lia)) as HpK.
  rewrite RN_exact; [| lia | lia |].
  - apply Z.min_l.
    replace (1024 + K) with (971 + (53 + K)) by lia.
    rewrite (Z.pow_add_r 2 971 (53 + K)), (Z.pow_add_r 2 53 K) by lia.
    pose proof (pow2_pos 971 ltac:(lia)). nia.
  - destruct (Z.eq_dec N 0) as [->|Hne].
    + rewrite Z.mul_0_l. unfold digits. cbn. lia.
    + unfold digits. rewrite Z.log2_mul_pow2 by lia.
      assert (Z.log2 N < 53) by (apply Z.log2_lt_pow2; lia). lia.
Qed.

Lemma nonneg_fin x :
  nonneg x = true -> val K x < 2 ^ (1024 + K) -> fin_nonneg x = true.
Proof.
  destruct x as [s|s| |s m e]; try (destruct s); intros H Hv;
    try discriminate; try reflexivity.
  cbn [val] in Hv. lia.
Qed.

Lemma int_below_top N : 0 <= N < 2 ^ 53 -> N * 2 ^ K < 2 ^ (1024 + K).
Proof.
  intros HN. pose proof (pow2_pos K ltac:(lia)) as HpK.
  replace (1024 + K) with (971 + (53 + K)) by lia.
  rewrite (Z.pow_add_r 2 971 (53 + K)), (Z.pow_add_r 2 53 K) by lia.
  pose proof (pow2_pos 971 ltac:(lia)). nia.
Qed.

Lemma of_Z_val N :
  0 <= N < 2 ^ 53 ->
  fin_nonnegative (JS.of_Z N) = true /\ val K (Prim2SF (JS.of_Z N)) = N * 2 ^ K.
Proof.
  intros HN. destruct N as [|p|p]; [split; reflexivity | | lia].
  unfold fin_nonnegative, JS.of_Z.
  rewrite of_uint63_spec, Uint63.of_Z_spec.
  rewrite Z.mod_small by (split; [lia|]; change Uint63.wB with (2 ^ 63);
    assert (2 ^ 53 < 2 ^ 63) by (apply Z.pow_lt_mono_r; lia); lia).
  cbn [binary_normalize].
  destruct (binary_round_val K HK p 0 ltac:(lia)) as [Hn Hv].
  rewrite Z.add_0_l, r64_int in Hv by exact HN.
  split; [|exact Hv]. apply nonneg_fin; [exact Hn|].
  rewrite Hv. apply int_below_top, HN.
Qed.

Lemma floorZ_val x N :
  nonnegative x = true -> val K (Prim2SF x) = N * 2 ^ K -> N < 2 ^ 53 ->
  JS.floorZ x = Some N.
Proof.
  unfold nonnegative, JS.floorZ.
  pose proof (pow2_pos K ltac:(lia)) as HpK.
  destruct (Prim2SF x) as [s|s| |s m e] eqn:E; try (destruct s);
    intros Hn Hv HN; try discriminate; cbn [val] in Hv.
  - f_equal. nia.
  - f_equal. nia.
  - exfalso. assert (N * 2 ^ K < 2 ^ (1024 + K)); [|lia].
    replace (1024 + K) with (971 + (53 + K)) by lia.
    rewrite (Z.pow_add_r 2 971 (53 + K)), (Z.pow_add_r 2 53 K) by lia.
    pose proof (pow2_pos 971 ltac:(lia)). pose proof (pow2_pos 53 ltac:(lia)). nia.
  - pose proof (Prim2SF_valid x) as V. rewrite E in V.
    apply valid_finite in V as (_ & He & _).
    f_equal. destruct (0 <=? e) eqn:Ee.
    + apply Z.leb_le in Ee. rewrite Z.pow_add_r in Hv by lia. nia.
    + apply Z.leb_gt in Ee.
      replace K with ((e + K) + (- e)) in Hv at 2 by lia.
      rewrite (Z.pow_add_r 2 (e + K) (- e)) in Hv by lia.
      pose proof (pow2_pos (e + K) ltac:(lia)) as Hp1.
      assert (Hm : Z.pos m = N * 2 ^ (- e)) by nia.
      rewrite Hm. apply Z.div_mul. pose proof (pow2_pos (- e) ltac:(lia)). lia.
Qed.

Lemma Math_floor_val x i :
  JS.floorZ x = Some i -> 0 <= i < 2 ^ 53 ->
  fin_nonnegative (JS.Math_floor x) = true /\
  val K (Prim2SF (JS.Math_floor x)) = i * 2 ^ K.
Proof.
  intros Hf Hi. unfold JS.Math_floor. rewrite Hf.
  destruct (is_zero x) eqn:Ez.
  - rewrite is_zero_spec in Ez. unfold fzero in Ez.
    unfold JS.floorZ in Hf. unfold fin_nonnegative.
    destruct (Prim2SF x); try discriminate. injection Hf as <-. split; reflexivity.
  - replace (Z.abs i <? 2 ^ 53) with true by (symmetry; apply Z.ltb_lt; lia).
    apply of_Z_val, Hi.
Qed.

Lemma val_eq x y :
  valid_binary x = true -> valid_binary y = true ->
  nonneg x = true -> nonneg y = true ->
  val K x = val K y -> SFeqb x y = true.
Proof.
  intros Vx Vy Nx Ny.
  assert (HT : 0 < 2 ^ (1024 + K)) by (apply pow2_pos; lia).
  destruct x as [sx|sx| |sx mx ex]; try discriminate;
    destruct y as [sy|sy| |sy my ey]; try discriminate;
    try (destruct sx; try discriminate); try (destruct sy; try discriminate);
    unfold SFeqb; cbn [SFcompare];
    try (pose proof (val_finite_bound K HK _ _ _ Vx));
    try (pose proof (val_finite_bound K HK _ _ _ Vy));
    intros Hv; try reflexivity; try (cbn [val] in *; lia).
  destruct (Z.compare_spec ex ey) as [E|E|E].
  - subst ey. rewrite Pos.compare_cont_spec. cbn [Pos.switch_Eq val] in *.
    apply valid_finite in Vx as (_ & He & _).
    pose proof (pow2_pos (ex + K) ltac:(lia)) as Hp.
    assert (mx = my) by nia. subst. rewrite Pos.compare_refl. reflexivity.
  - pose proof (val_exponent_lt K HK false mx ex false my ey Vx Vy E). lia.
  - pose proof (val_exponent_lt K HK false my ey false mx ex Vy Vx ltac:(lia)). lia.
Qed.

(** The index [j * nx + i] computed on numbers is the integer index. *)
Lemma cell_index_number (x y : float) (n i j : Z) :
  JS.floorZ x = Some i -> JS.floorZ y = Some j ->
  0 <= i -> 0 <= j < 2 ^ 53 -> 0 <= n < 2 ^ 53 -> j * n + i < 2 ^ 53 ->
  let idx := (JS.Math_floor y * JS.of_Z n + JS.Math_floor x)%float in
  JS.floorZ idx = Some (j * n + i) /\ (JS.of_Z (j * n + i) =? idx)%float = true.
Proof.
  intros Hx Hy Hi Hj Hn Hk. cbv zeta.
  assert (Hjn : 0 <= j * n) by nia.
  destruct (Math_floor_val x i Hx ltac:(nia)) as [Fx Vx].
  destruct (Math_floor_val y j Hy ltac:(lia)) as [Fy Vy].
  destruct (of_Z_val n Hn) as [Fn Vn].
  destruct (fmul_val K HK _ _ Fy Fn) as [Nm Vm].
  rewrite Vy, Vn in Vm.
  pose proof (pow2_pos K ltac:(lia)) as HpK.
  replace (j * 2 ^ K * (n * 2 ^ K) / 2 ^ K) with (j * n * 2 ^ K) in Vm
    by (symmetry; replace (j * 2 ^ K * (n * 2 ^ K)) with (j * n * 2 ^ K * 2 ^ K) by ring;
        apply Z.div_mul; lia).
  rewrite r64_int in Vm by lia.
  destruct (fadd_val K HK _ _ Nm (fin_nonnegative_nonnegative _ Fx)) as [Na Va].
  rewrite Vm, Vx in Va.
  replace (j * n * 2 ^ K + i * 2 ^ K) with ((j * n + i) * 2 ^ K) in Va by ring.
  rewrite r64_int in Va by lia.
  split.
  - apply floorZ_val; [exact Na | exact Va | lia].
  - destruct (of_Z_val (j * n + i) ltac:(lia)) as [Fk Vk].
    rewrite FloatAxioms.eqb_spec.
    apply val_eq; try apply Prim2SF_valid.
    + apply fin_nonneg_nonneg, Fk.
    + exact Na.
    + rewrite Vk, Va. reflexivity.
Qed.

End IntegerNumbers.

(** ** Reading the fields at a position *)

Lemma or_default_not_nan v : is_nan (JS.or_default v 0) = false.
Proof.
  unfold JS.or_default, JS.truthy. destruct v as [x|]; [|reflexivity].
  destruct (is_zero x); [reflexivity|]. destruct (is_nan x) eqn:E; [reflexivity | exact E].
Qed.

(** X12.  Inside the grid [getFieldAt] reads the cell that holds the
    position, whatever the fractional parts of the coordinates: each
    component is the field of that cell, or 0 where the field is NaN.  No
    component of any answer is NaN. *)
Theorem getFieldAt_in_grid (s : MaxwellSolver) (x y : float) :
  (forall i j,
     nx (params s) * ny (params s) < 2 ^ 53 ->
     JS.floorZ x = Some i -> JS.floorZ y = Some j ->
     in_grid (params s) i j = true ->
     let idx := j * nx (params s) + i in
     getFieldAt x y s =
       {| sample_Ez := JS.or_default (F32.get (Ez s) idx) 0;
          sample_Hx := JS.or_default (F32.get (Hx s) idx) 0;
          sample_Hy := JS.or_default (F32.get (Hy s) idx) 0 |}) /\
  is_nan (sample_Ez (getFieldAt x y s)) = false /\
  is_nan (sample_Hx (getFieldAt x y s)) = false /\
  is_nan (sample_Hy (getFieldAt x y s)) = false.
Proof.
  split.
  - intros i j Hsize Hx Hy Hg. cbv zeta.
    unfold in_grid in Hg.
    apply andb_prop in Hg as [Hg Hj2]. apply andb_prop in Hg as [Hg Hj1].
    apply andb_prop in Hg as [Hi1 Hi2].
    apply Z.leb_le in Hi1, Hj1. apply Z.ltb_lt in Hi2, Hj2.
    assert (H53 : 0 < 2 ^ 53) by (apply pow2_pos; lia).
    destruct (cell_index_number 2148 ltac:(lia) x y (nx (params s)) i j Hx Hy)
      as [Hf He]; [lia | nia | nia | nia |].
    unfold getFieldAt. cbv zeta. rewrite Hf, He. reflexivity.
  - unfold getFieldAt. cbv zeta. cbn [sample_Ez sample_Hx sample_Hy].
    split; [|split]; apply or_default_not_nan.
Qed.

Lemma getFieldAt_in_grid_witness :
  getFieldAt 4.75 4.25 demo_solver =
    {| sample_Ez := JS.or_default (F32.get (Ez demo_solver) (4 * 8 + 4)) 0;
       sample_Hx := JS.or_default (F32.get (Hx demo_solver) (4 * 8 + 4)) 0;
       sample_Hy := JS.or_default (F32.get (Hy demo_solver) (4 * 8 + 4)) 0 |}.
Proof.
  apply (proj1 (getFieldAt_in_grid demo_solver 4.75 4.25) 4 4);
    vm_compute; reflexivity.
Defined.

(** ** Symmetry of the absorbing layer *)

(** A ratio [k / T] of a layer of at most twenty cells is not above 1. *)
Lemma ratio_min_layer (T k : Z) :
  1 <= T <= 20 -> 1 <= k <= T ->
  JS.Math_min (JS.of_Z k / JS.of_Z T) 1 = (JS.of_Z k / JS.of_Z T)%float.
Proof.
  intros HT Hk.
  assert (H : forallb (fun T => forallb (fun k =>
                PrimFloat.Leibniz.eqb (JS.Math_min (JS.of_Z k / JS.of_Z T) 1)
                                      (JS.of_Z k / JS.of_Z T))
                (map Z.of_nat (seq 1 (Z.to_nat T))))
              (map Z.of_nat (seq 1 20)) = true) by (vm_compute; reflexivity).
  rewrite forallb_forall in H.
  assert (H1 : In T (map Z.of_nat (seq 1 20))).
  { apply in_map_iff. exists (Z.to_nat T). split; [lia|]. apply in_seq. lia. }
  specialize (H T H1). rewrite forallb_forall in H.
  assert (H2 : In k (map Z.of_nat (seq 1 (Z.to_nat T)))).
  { apply in_map_iff. exists (Z.to_nat k). split; [lia|]. apply in_seq. lia. }
  apply FloatAxioms.Leibniz.eqb_spec, (H k H2).
Qed.

Section Mirror.
Context {M : MathHost}.

Lemma pmlProfile_mirror sigmaMax T n c :
  1 <= T <= 20 -> 2 * T <= n -> 0 <= c < n ->
  pmlProfile sigmaMax T n (n - 1 - c) = pmlProfile sigmaMax T n c.
Proof.
  intros HT Hn Hc. unfold pmlProfile. cbv zeta.
  destruct (Z.ltb_spec c T) as [L|L].
  - replace (n - 1 - c <? T) with false by (symmetry; apply Z.ltb_ge; lia).
    replace (n - 1 - c >=? n - T) with true by (symmetry; apply Z.geb_le; lia).
    replace (n - 1 - c - (n - T - 1)) with (T - c) by lia.
    rewrite ratio_min_layer by lia. reflexivity.
  - destruct (Z.geb_spec c (n - T)) as [G|G].
    + replace (n - 1 - c <? T) with true by (symmetry; apply Z.ltb_lt; lia).
      replace (T - (n - 1 - c)) with (c - (n - T - 1)) by lia.
      rewrite ratio_min_layer by lia. reflexivity.
    + replace (n - 1 - c <? T) with false by (symmetry; apply Z.ltb_ge; lia).
      replace (n - 1 - c >=? n - T) with false; [reflexivity|].
      symmetry. destruct (Z.geb_spec (n - 1 - c) (n - T)); [lia | reflexivity].
Qed.

Lemma pmlThicknessOf_bounds p :
  0 < pmlThicknessOf p ->
  1 <= pmlThicknessOf p <= 20 /\
  2 * pmlThicknessOf p <= nx p /\ 2 * pmlThicknessOf p <= ny p.
Proof.
  unfold pmlThicknessOf, pmlThickness. intros H.
  pose proof (Z.mul_div_le (Z.min (nx p) (ny p)) 4 ltac:(lia)). lia.
Qed.

Lemma pmlMerge_mirror p i j v :
  0 <= i < nx p -> 0 <= j < ny p ->
  pmlMerge p (nx p - 1 - i) j v = pmlMerge p i j v /\
  pmlMerge p i (ny p - 1 - j) v = pmlMerge p i j v.
Proof.
  intros Hi Hj. unfold pmlMerge.
  destruct (Z.leb_spec (pmlThicknessOf p) 0) as [L|L]; [split; reflexivity|].
  destruct (pmlThicknessOf_bounds p L) as (HT & Hx & Hy).
  unfold pmlSigmaAt. cbv zeta.
  rewrite (pmlProfile_mirror _ _ (nx p) i HT Hx Hi),
          (pmlProfile_mirror _ _ (ny p) j HT Hy Hj).
  split; reflexivity.
Qed.

(** X13.  The absorbing layer of a freshly constructed solver is mirror
    symmetric: a cell and its reflection across either centre line of the
    grid have the same conductivity. *)
Theorem pml_symmetric (p : GridParams) (i j : Z) :
  0 <= i < nx p -> 0 <= j < ny p ->
  pmlCell p (nx p - 1 - i) j = pmlCell p i j /\
  pmlCell p i (ny p - 1 - j) = pmlCell p i j.
Proof.
  intros Hi Hj. unfold pmlCell.
  destruct (constructor_cell p i j Hi Hj) as (_ & _ & _ & ->).
  destruct (constructor_cell p (nx p - 1 - i) j ltac:(lia) Hj) as (_ & _ & _ & ->).
  destruct (constructor_cell p i (ny p - 1 - j) Hi ltac:(lia)) as (_ & _ & _ & ->).
  destruct (pmlMerge_mirror p i j 0 Hi Hj) as [-> ->]. split; reflexivity.
Qed.

End Mirror.

Lemma pml_symmetric_witness :
  pmlCell demo_params (8 - 1 - 1) 3 = pmlCell demo_params 1 3 /\
  pmlCell demo_params 1 (8 - 1 - 3) = pmlCell demo_params 1 3.
Proof. apply (pml_symmetric demo_params 1 3); vm_compute; split; congruence. Defined.

(** ** Scenes of obstacles *)

Lemma filter_other_ids (id : string) (l : list Obstacle.t) (o : Obstacle.t) :
  List.NoDup (map Obstacle.id l) -> In o l -> Obstacle.id o = id ->
  forall o', In o' l -> Obstacle.id o' = id -> o' = o.
Proof.
  induction l as [|a l IH]; simpl; [contradiction|].
  intros Hnd Ho Hid o' Ho' Hid'. apply List.NoDup_cons_iff in Hnd as [Hna Hnd].
  destruct Ho as [->|Ho], Ho' as [->|Ho']; try reflexivity.
  - exfalso. apply Hna. rewrite Hid, <- Hid'. apply in_map, Ho'.
  - exfalso. apply Hna. rewrite Hid', <- Hid. apply in_map, Ho.
  - apply IH; assumption.
Qed.

Lemma find_id_In (id : string) (l : list Obstacle.t) (o : Obstacle.t) :
  List.find (fun o' => String.eqb (Obstacle.id o') id) l = Some o ->
  In o l /\ Obstacle.id o = id.
Proof.
  intros H. apply List.find_some in H as [H1 H2]. split; [exact H1|].
  apply String.eqb_eq, H2.
Qed.

Lemma NoDup_filter_ids (f : Obstacle.t -> bool) (l : list Obstacle.t) :
  List.NoDup (map Obstacle.id l) -> List.NoDup (map Obstacle.id (List.filter f l)).
Proof.
  induction l as [|a l IH]; simpl; [intros H; exact H|].
  intros H. apply List.NoDup_cons_iff in H as [Hna Hnd].
  destruct (f a); [|apply IH, Hnd]. simpl. apply List.NoDup_cons_iff. split; [|apply IH, Hnd].
  intros Hin. apply Hna. apply in_map_iff in Hin as (x & Hx & Hin).
  apply filter_In in Hin as [Hin _]. apply in_map_iff. exists x. split; assumption.
Qed.

Lemma filter_head_id (o : Obstacle.t) (l : list Obstacle.t) :
  List.NoDup (map Obstacle.id (o :: l)) ->
  List.filter (fun o' => negb (String.eqb (Obstacle.id o') (Obstacle.id o))) (o :: l) = l.
Proof.
  simpl. intros H. apply List.NoDup_cons_iff in H as [Hna _].
  rewrite String.eqb_refl. cbn [negb]. apply filter_all.
  refine (proj2 (List.Forall_forall _ _) _). intros x Hx.
  apply negb_true_iff, String.eqb_neq. intros E. apply Hna. rewrite <- E.
  apply in_map, Hx.
Qed.

Section SceneProofs.
Context {M : MathHost}.

(** The material of every cell after [removeObstacle] of a listed
    obstacle. *)
Lemma removeObstacle_cells (id : string) (o : Obstacle.t) (s s2 : MaxwellSolver) :
  wf s ->
  List.find (fun o' => String.eqb (Obstacle.id o') id) (obstacles s) = Some o ->
  removeObstacle id s = Some s2 ->
  exists r, rect_of o = Some r /\
    forall i j, 0 <= i < nx (params s) -> 0 <= j < ny (params s) ->
      let idx := j * nx (params s) + i in
      exists v, F32.get (sigma s) idx = Some v /\
        F32.get (epsilon s2) idx =
          (if in_rect r i j then Some 1%float else F32.get (epsilon s) idx) /\
        F32.get (mu s2) idx =
          (if in_rect r i j then Some 1%float else F32.get (mu s) idx) /\
        F32.get (sigma s2) idx =
          Some (pmlMerge (params s) i j (if in_rect r i j then 0%float else v)).
Proof.
  intros Hwf Hfind Hr.
  apply (removeObstacle_inv _ o) in Hr as (j0 & j1 & i0 & i1 & Hrect & ->); [|exact Hfind].
  exists (j0, j1, i0, i1). split; [exact Hrect|]. intros i j Hi Hj. cbv zeta.
  pose proof (repaint_cell s 1 1 0 (j0, j1, i0, i1) i j Hwf Hi Hj
                (set_obstacles
                   (List.filter (fun o' => negb (String.eqb (Obstacle.id o') id))
                      (obstacles (sweep (paintCell (params s) 1 1 0) j0 j1 i0 i1 s)))
                   (sweep (paintCell (params s) 1 1 0) j0 j1 i0 i1 s))
                (params_sweep_paint _ _ _ _ _ _ _ _ _) eq_refl eq_refl eq_refl) as H2.
  cbv zeta in H2. destruct H2 as (_ & He2 & Hm2 & w & Hw & Hg2).
  exists w. split; [exact Hw|]. split; [|split].
  - rewrite He2. destruct (in_rect _ _ _); reflexivity.
  - rewrite Hm2. destruct (in_rect _ _ _); reflexivity.
  - rewrite Hg2. destruct (in_rect _ _ _); reflexivity.
Qed.

Lemma removeObstacle_core (id : string) (s s2 : MaxwellSolver) :
  removeObstacle id s = Some s2 -> core s2 = core s.
Proof.
  intros Hr.
  destruct (List.find (fun o' => String.eqb (Obstacle.id o') id) (obstacles s))
    as [o|] eqn:Hfind.
  - destruct (removeObstacle_inv id o s s2 Hfind Hr) as (j0 & j1 & i0 & i1 & _ & E).
    subst s2.
    match goal with |- core (updateCoefficients ?x) = _ =>
      destruct (core_updateCoefficients x) as [-> _] end.
    match goal with |- core (setupPML ?x) = _ =>
      destruct (core_setupPML x) as [-> _] end.
    destruct (core_sweep_paint (params s) 1 1 0 j0 j1 i0 i1 s) as [Hc _].
    exact Hc.
  - unfold removeObstacle in Hr. rewrite Hfind in Hr. injection Hr as <-. reflexivity.
Qed.

Lemma removeObstacle_some (id : string) (s : MaxwellSolver) :
  Forall (fun o => rect_of o <> None) (obstacles s) ->
  exists s2, removeObstacle id s = Some s2.
Proof.
  intros Hrect. unfold removeObstacle, removeObstacleMaterial.
  destruct (List.find _ _) as [o|] eqn:Hfind; [|eexists; reflexivity].
  apply find_id_In in Hfind as [Hin _].
  pose proof (proj1 (List.Forall_forall _ _) Hrect o Hin) as Ho.
  cbv beta in Ho.
  rewrite paintRect_eq. destruct (rect_of o) as [[[[j0 j1] i0] i1]|]; [|contradiction].
  eexists. reflexivity.
Qed.

Lemma scene_constructor (p : GridParams) :
  0 <= nx p -> 0 <= ny p -> scene_ok (constructor p).
Proof.
  intros Hx Hy. unfold scene_ok. cbv zeta.
  assert (Hobs : obstacles (constructor p) = []).
  { unfold constructor.
    destruct (core_updateCoefficients (setupPML (allocate p))) as [_ ->].
    destruct (core_setupPML (allocate p)) as [_ ->]. reflexivity. }
  split; [apply wf_constructor; assumption|].
  split; [apply updateCoefficients_ok, wf_setupPML, wf_allocate; assumption|].
  rewrite Hobs. split; [constructor|]. split; [constructor|].
  assert (Hp : params (constructor p) = p).
  { unfold constructor.
    pose proof (proj1 (core_updateCoefficients (setupPML (allocate p)))) as H1.
    pose proof (proj1 (core_setupPML (allocate p))) as H2.
    unfold core in H1, H2. injection H1 as -> _. injection H2 as -> _. reflexivity. }
  rewrite Hp. intros i j Hi Hj _.
  destruct (constructor_cell p i j Hi Hj) as (_ & He & Hm & Hg). auto.
Qed.

Lemma NoDup_snoc_ids (l : list Obstacle.t) (o : Obstacle.t) :
  List.NoDup (map Obstacle.id l) ->
  Forall (fun o' => Obstacle.id o' <> Obstacle.id o) l ->
  List.NoDup (map Obstacle.id (l ++ [o])).
Proof.
  induction l as [|a l IH]; simpl; intros Hnd Hf.
  - constructor; [intros []|constructor].
  - apply List.NoDup_cons_iff in Hnd as [Hna Hnd].
    apply Forall_cons in Hf as [Ha Hf].
    apply List.NoDup_cons_iff. split; [|apply IH; assumption].
    rewrite map_app, in_app_iff. intros [H|[H|[]]]; [apply Hna, H | apply Ha; symmetry; exact H].
Qed.

Lemma scene_addObstacle (o : Obstacle.t) (s s1 : MaxwellSolver) :
  scene_ok s ->
  Forall (fun o' => Obstacle.id o' <> Obstacle.id o) (obstacles s) ->
  addObstacle o s = Some s1 -> scene_ok s1.
Proof.
  intros (Hwf & Hok & Hnd & Hrects & Hvac) Hfresh Ha. cbv zeta in Hvac.
  destruct (addObstacle_post o s s1 Hwf Ha) as (Hwf1 & Hcore & Hobs).
  assert (Hp : params s1 = params s) by (unfold core in Hcore; congruence).
  destruct (addObstacle_cells o s s1 Hwf Ha) as (r & Hrect & Hcells).
  unfold scene_ok. cbv zeta. rewrite Hp, Hobs.
  split; [exact Hwf1|]. split; [exact (addObstacle_ok o s s1 Hwf Ha)|].
  split; [apply NoDup_snoc_ids; assumption|].
  split.
  { apply Forall_app. split; [exact Hrects|]. constructor; [|constructor]. congruence. }
  intros i j Hi Hj Hnc.
  assert (Hout : in_rect r i j = false).
  { destruct (in_rect r i j) eqn:E; [|reflexivity]. exfalso. apply Hnc.
    exists o. split; [apply in_app_iff; right; left; reflexivity|].
    exists r. auto. }
  assert (Hnc0 : ~ covered (obstacles s) (params s) i j).
  { intros (o' & Ho' & Ht). apply Hnc. exists o'. split; [|exact Ht].
    apply in_app_iff. left. exact Ho'. }
  destruct (Hvac i j Hi Hj Hnc0) as (He & Hm & Hg).
  destruct (Hcells i j Hi Hj) as (v & Hv & He1 & Hm1 & Hg1). cbv zeta in *.
  rewrite Hout in He1, Hm1, Hg1. rewrite Hg in Hv. injection Hv as <-.
  rewrite He1, Hm1, Hg1, He, Hm. split; [reflexivity|]. split; [reflexivity|].
  f_equal. apply pmlMerge_idem. reflexivity.
Qed.

Lemma scene_removeObstacle (id : string) (s s2 : MaxwellSolver) :
  scene_ok s -> removeObstacle id s = Some s2 -> scene_ok s2.
Proof.
  intros Hs Hr. pose proof Hs as (Hwf & Hok & Hnd & Hrects & Hvac). cbv zeta in Hvac.
  destruct (List.find (fun o' => String.eqb (Obstacle.id o') id) (obstacles s))
    as [o|] eqn:Hfind.
  2:{ unfold removeObstacle in Hr. rewrite Hfind in Hr. injection Hr as <-. exact Hs. }
  pose proof (removeObstacle_core id s s2 Hr) as Hcore.
  assert (Hp : params s2 = params s) by (unfold core in Hcore; congruence).
  pose proof (removeObstacle_obstacles id s s2 Hr) as Hobs.
  destruct (removeObstacle_cells id o s s2 Hwf Hfind Hr) as (r & Hrect & Hcells).
  destruct (find_id_In id _ o Hfind) as [Hin Hid].
  unfold scene_ok. cbv zeta. rewrite Hp, Hobs.
  split; [exact (wf_removeObstacle id s s2 Hwf Hr)|].
  split; [exact (removeObstacle_ok id s s2 Hwf Hok Hr)|].
  split; [apply NoDup_filter_ids, Hnd|].
  split.
  { refine (proj2 (List.Forall_forall _ _) _). intros x Hx.
    apply filter_In in Hx as [Hx _].
    exact (proj1 (List.Forall_forall _ _) Hrects x Hx). }
  intros i j Hi Hj Hnc.
  destruct (Hcells i j Hi Hj) as (v & Hv & He1 & Hm1 & Hg1). cbv zeta in *.
  destruct (in_rect r i j) eqn:Er.
  - rewrite He1, Hm1, Hg1. auto.
  - assert (Hnc0 : ~ covered (obstacles s) (params s) i j).
    { intros (o' & Ho' & Ht).
      destruct (String.eqb (Obstacle.id o') id) eqn:E.
      - apply String.eqb_eq in E.
        assert (o' = o) by (apply (filter_other_ids id (obstacles s)); assumption).
        subst o'. destruct Ht as (r' & Hr' & Hin' & _).
        rewrite Hrect in Hr'. injection Hr' as <-. congruence.
      - apply Hnc. exists o'. split; [|exact Ht].
        apply filter_In. split; [exact Ho'|]. rewrite E. reflexivity. }
    destruct (Hvac i j Hi Hj Hnc0) as (He & Hm & Hg).
    rewrite Hg in Hv. injection Hv as <-.
    rewrite He1, Hm1, Hg1, He, Hm. split; [reflexivity|]. split; [reflexivity|].
    f_equal. apply pmlMerge_idem. reflexivity.
Qed.

Lemma scene_run (n : nat) (s s' : MaxwellSolver) :
  scene_ok s -> run n s = Some s' -> scene_ok s'.
Proof.
  intros (Hwf & Hok & Hnd & Hrects & Hvac) Hr.
  pose proof (wf_run n s s' Hwf Hr) as Hwf'.
  apply run_static in Hr as [Hs _]. unfold static in Hs.
  injection Hs as Hp He Hm Hg Ha Hb Hc Hd _ Ho.
  unfold scene_ok, coefficients_ok in *. cbv zeta in *.
  rewrite Hp, He, Hm, Hg, Ha, Hb, Hc, Hd, Ho. auto.
Qed.

Lemma removeObstacles_all : forall (l : list Obstacle.t) (s : MaxwellSolver),
  scene_ok s -> obstacles s = l ->
  exists s', removeObstacles (map Obstacle.id l) s = Some s' /\
             scene_ok s' /\ obstacles s' = [] /\ core s' = core s.
Proof.
  induction l as [|o l IH]; intros s Hs Hl.
  - exists s. auto.
  - pose proof Hs as (_ & _ & Hnd & Hrects & _).
    destruct (removeObstacle_some (Obstacle.id o) s Hrects) as [s2 Hr].
    pose proof (scene_removeObstacle _ s s2 Hs Hr) as Hs2.
    pose proof (removeObstacle_obstacles _ s s2 Hr) as Hobs.
    rewrite Hl in Hobs, Hnd. rewrite filter_head_id in Hobs by exact Hnd.
    destruct (IH s2 Hs2 Hobs) as (s' & Hall & Hs' & He & Hc).
    exists s'. cbn [map removeObstacles]. rewrite Hr.
    split; [exact Hall|]. split; [exact Hs'|]. split; [exact He|].
    rewrite Hc. apply (removeObstacle_core _ s s2 Hr).
Qed.

(** The coefficients are a function of the materials. *)
Lemma coefficients_of_materials (a b : MaxwellSolver) :
  wf a -> wf b -> coefficients_ok a -> coefficients_ok b ->
  materials a = materials b ->
  Ca a = Ca b /\ Cb a = Cb b /\ Da a = Da b /\ Db a = Db b.
Proof.
  intros Wa Wb Oa Ob Hm. unfold materials in Hm. injection Hm as Hp He Hmu Hg.
  unfold coefficients_ok in Oa, Ob. cbv zeta in Oa, Ob.
  assert (Hcell : forall i j, 0 <= i < nx (params a) -> 0 <= j < ny (params a) ->
    F32.get (Ca a) (j * nx (params a) + i) = F32.get (Ca b) (j * nx (params a) + i) /\
    F32.get (Cb a) (j * nx (params a) + i) = F32.get (Cb b) (j * nx (params a) + i) /\
    F32.get (Da a) (j * nx (params a) + i) = F32.get (Da b) (j * nx (params a) + i) /\
    F32.get (Db a) (j * nx (params a) + i) = F32.get (Db b) (j * nx (params a) + i)).
  { intros i j Hi Hj.
    destruct (Oa i j Hi Hj) as (e & g & m & Ee & Eg & Em & A1 & A2 & A3 & A4).
    rewrite Hp in Hi, Hj.
    destruct (Ob i j Hi Hj) as (e' & g' & m' & Ee' & Eg' & Em' & B1 & B2 & B3 & B4).
    rewrite <- Hp, <- He in Ee'. rewrite <- Hp, <- Hg in Eg'. rewrite <- Hp, <- Hmu in Em'.
    rewrite <- Hp in B1, B2, B3, B4.
    assert (e' = e) by congruence. assert (g' = g) by congruence.
    assert (m' = m) by congruence. subst.
    rewrite A1, A2, A3, A4, B1, B2, B3, B4. auto. }
  wf_arrays Wa. wf_arrays Wb.
  repeat match goal with H : array_ok (cells (params b)) _ = true |- _ =>
    rewrite <- Hp in H end.
  repeat split; apply (wf_array_ext a b); try assumption; try (symmetry; exact Hp);
    intros i j Hi Hj; apply (Hcell i j Hi Hj).
Qed.

Lemma scene_empty (s : MaxwellSolver) :
  scene_ok s -> obstacles s = [] ->
  let c := constructor (params s) in
  epsilon s = epsilon c /\ mu s = mu c /\ sigma s = sigma c /\
  Ca s = Ca c /\ Cb s = Cb c /\ Da s = Da c /\ Db s = Db c.
Proof.
  intros (Hwf & Hok & _ & _ & Hvac) Hobs. cbv zeta in *.
  destruct (wf_nonneg s Hwf) as [Hx Hy].
  set (c := constructor (params s)).
  destruct (scene_constructor (params s) Hx Hy) as (Hwfc & Hokc & _ & _ & Hvacc).
  fold c in Hwfc, Hokc, Hvacc. cbv zeta in Hvacc.
  assert (Hp : params c = params s).
  { unfold c, constructor.
    pose proof (proj1 (core_updateCoefficients (setupPML (allocate (params s))))) as H1.
    pose proof (proj1 (core_setupPML (allocate (params s)))) as H2.
    unfold core in H1, H2. injection H1 as -> _. injection H2 as -> _. reflexivity. }
  rewrite Hp in Hvacc.
  assert (Hnc : forall l i j, l = [] -> ~ covered l (params s) i j).
  { intros l i j -> (o & [] & _). }
  assert (Hobc : obstacles c = []).
  { unfold c, constructor.
    destruct (core_updateCoefficients (setupPML (allocate (params s)))) as [_ ->].
    destruct (core_setupPML (allocate (params s))) as [_ ->]. reflexivity. }
  assert (Hmat : epsilon s = epsilon c /\ mu s = mu c /\ sigma s = sigma c).
  { wf_arrays Hwf. wf_arrays Hwfc.
    repeat match goal with H : array_ok (cells (params c)) _ = true |- _ =>
      rewrite Hp in H end.
    repeat split; apply (wf_array_ext s c); try assumption;
      intros i j Hi Hj;
      destruct (Hvac i j Hi Hj (Hnc _ i j Hobs)) as (E1 & E2 & E3);
      destruct (Hvacc i j Hi Hj (Hnc _ i j Hobc)) as (F1 & F2 & F3); congruence. }
  destruct Hmat as (E1 & E2 & E3). split; [exact E1|]. split; [exact E2|].
  split; [exact E3|].
  apply coefficients_of_materials; try assumption.
  unfold materials. congruence.
Qed.

(** X14.  The scene invariant of the materials.  It holds for a fresh
    solver and is kept by [addObstacle] of an obstacle whose id is not in
    use, by [removeObstacle] of any id, which then never fails, and by
    [run]: every cell that no listed obstacle covers is vacuum with the
    conductivity of the absorbing layer, and the coefficients are those
    compiled from the materials. *)
Theorem scene_invariant :
  (forall p, 0 <= nx p -> 0 <= ny p -> scene_ok (constructor p)) /\
  (forall o s s1, scene_ok s ->
     Forall (fun o' => Obstacle.id o' <> Obstacle.id o) (obstacles s) ->
     addObstacle o s = Some s1 -> scene_ok s1) /\
  (forall id s, scene_ok s ->
     exists s2, removeObstacle id s = Some s2 /\ scene_ok s2) /\
  (forall n s s', scene_ok s -> run n s = Some s' -> scene_ok s').
Proof.
  split; [exact scene_constructor|]. split; [exact scene_addObstacle|].
  split; [|exact scene_run].
  intros id s Hs. pose proof Hs as (_ & _ & _ & Hrects & _).
  destruct (removeObstacle_some id s Hrects) as [s2 Hr].
  exists s2. split; [exact Hr|]. exact (scene_removeObstacle id s s2 Hs Hr).
Qed.

(** X15.  Removing every listed obstacle, in the order of the list, brings
    the materials and the coefficients back to those of a fresh solver on
    the same grid, however the rectangles overlap; the fields, the sources
    and the step counter are not touched. *)
Theorem remove_all_obstacles (s : MaxwellSolver) :
  scene_ok s ->
  exists s', removeObstacles (map Obstacle.id (obstacles s)) s = Some s' /\
    obstacles s' = [] /\ core s' = core s /\
    let c := constructor (params s) in
    epsilon s' = epsilon c /\ mu s' = mu c /\ sigma s' = sigma c /\
    Ca s' = Ca c /\ Cb s' = Cb c /\ Da s' = Da c /\ Db s' = Db c.
Proof.
  intros Hs.
  destruct (removeObstacles_all (obstacles s) s Hs eq_refl) as (s' & Hall & Hs' & He & Hc).
  exists s'. split; [exact Hall|]. split; [exact He|]. split; [exact Hc|].
  assert (Hp : params s' = params s) by (unfold core in Hc; congruence).
  rewrite <- Hp. apply scene_empty; assumption.
Qed.

End SceneProofs.

Lemma scene_demo :
  exists s1 s2,
    addObstacle demo_obstacle (constructor demo_params) = Some s1 /\
    addObstacle demo_obstacle2 s1 = Some s2 /\
    obstacles s2 = [demo_obstacle; demo_obstacle2] /\
    params s2 = demo_params /\ scene_ok s2.
Proof.
  assert (H0 : scene_ok (constructor demo_params)).
  { apply scene_constructor; vm_compute; congruence. }
  assert (Hobs0 : obstacles (constructor demo_params) = []) by (vm_compute; reflexivity).
  assert (Hp0 : params (constructor demo_params) = demo_params) by (vm_compute; reflexivity).
  destruct (addObstacle demo_obstacle (constructor demo_params)) as [s1|] eqn:E1.
  2:{ apply addObstacle_none in E1. vm_compute in E1. discriminate E1. }
  destruct (addObstacle_post _ _ _ (proj1 H0) E1) as (Hwf1 & Hc1 & Ho1).
  assert (H1 : scene_ok s1).
  { apply (scene_addObstacle demo_obstacle _ s1 H0); [|exact E1].
    rewrite Hobs0. constructor. }
  rewrite Hobs0 in Ho1. cbn [app] in Ho1.
  destruct (addObstacle demo_obstacle2 s1) as [s2|] eqn:E2.
  2:{ apply addObstacle_none in E2. vm_compute in E2. discriminate E2. }
  destruct (addObstacle_post _ _ _ Hwf1 E2) as (Hwf2 & Hc2 & Ho2).
  assert (H2 : scene_ok s2).
  { apply (scene_addObstacle demo_obstacle2 _ s2 H1); [|exact E2].
    rewrite Ho1. repeat constructor. discriminate. }
  rewrite Ho1 in Ho2. cbn [app] in Ho2.
  exists s1, s2. split; [reflexivity|]. split; [exact E2|]. split; [exact Ho2|].
  split; [|exact H2]. unfold core in Hc1, Hc2. congruence.
Qed.

Lemma remove_all_obstacles_witness :
  exists s1 s2 s',
    addObstacle demo_obstacle (constructor demo_params) = Some s1 /\
    addObstacle demo_obstacle2 s1 = Some s2 /\
    removeObstacles ["o1"; "o2"]%string s2 = Some s' /\
    obstacles s' = [] /\
    epsilon s' = epsilon (constructor demo_params) /\
    sigma s' = sigma (constructor demo_params).
Proof.
  destruct scene_demo as (s1 & s2 & E1 & E2 & Ho & Hp & Hs).
  destruct (remove_all_obstacles s2 Hs) as (s' & Hall & He & _ & Hm).
  cbv zeta in Hm. rewrite Hp in Hm. rewrite Ho in Hall.
  exists s1, s2, s'. split; [exact E1|]. split; [exact E2|]. split; [exact Hall|].
  split; [exact He|]. split; [apply Hm | apply Hm].
Defined.

Lemma scene_invariant_witness : scene_ok (constructor demo_params).
Proof. apply (proj1 scene_invariant demo_params); vm_compute; congruence. Defined.

(** ** Cells without conductivity *)

Lemma one_minus_zero z : fzero z = true -> (1 - z)%float = 1%float.
Proof.
  unfold fzero. intros H. apply Prim2SF_inj. rewrite sub_spec.
  destruct (Prim2SF z) as [sz|sz| |sz mz ez]; try discriminate. reflexivity.
Qed.

Lemma one_plus_zero z : fzero z = true -> (1 + z)%float = 1%float.
Proof.
  unfold fzero. intros H. apply Prim2SF_inj. rewrite add_spec.
  destruct (Prim2SF z) as [sz|sz| |sz mz ez]; try discriminate. reflexivity.
Qed.

Lemma spec_Ca_lossless dt e g :
  fzero g = true -> ffinite dt = true ->
  fzero (2 * (e * eps0)) = false -> fnan (2 * (e * eps0)) = false ->
  JS.fround (spec_Ca dt e g) = 1%float.
Proof.
  intros Hg Hdt Hz Hn. unfold spec_Ca. cbv zeta.
  pose proof (fzero_div _ _ (fzero_mul_l g dt Hg Hdt) Hz Hn) as H.
  rewrite (one_minus_zero _ H), (one_plus_zero _ H). reflexivity.
Qed.

Section Lossless.
Context {M : MathHost}.

Lemma coefficients_lossless (s : MaxwellSolver) (i j : Z) (e g : float) :
  coefficients_ok s ->
  0 <= i < nx (params s) -> 0 <= j < ny (params s) ->
  F32.get (epsilon s) (j * nx (params s) + i) = Some e ->
  F32.get (sigma s) (j * nx (params s) + i) = Some g ->
  fzero g = true -> ffinite (dt (params s)) = true ->
  fzero (2 * (e * eps0)) = false -> fnan (2 * (e * eps0)) = false ->
  F32.get (Ca s) (j * nx (params s) + i) = Some 1%float /\
  F32.get (Da s) (j * nx (params s) + i) = Some 1%float.
Proof.
  intros Hok Hi Hj He Hg Hz Hdt HD1 HD2.
  destruct (Hok i j Hi Hj) as (e' & g' & m' & He' & Hg' & _ & A1 & _ & A3 & _).
  rewrite He in He'. rewrite Hg in Hg'. injection He' as <-. injection Hg' as <-.
  rewrite A1, A3, spec_Ca_lossless by assumption. split; reflexivity.
Qed.

Lemma pmlMerge_interior (p : GridParams) (i j : Z) (v : float) :
  pmlThicknessOf p <= i < nx p - pmlThicknessOf p ->
  pmlThicknessOf p <= j < ny p - pmlThicknessOf p ->
  pmlMerge p i j v = v.
Proof.
  intros Hi Hj. unfold pmlMerge.
  destruct (pmlThicknessOf p <=? 0); [reflexivity|].
  unfold pmlSigmaAt, pmlProfile. cbv zeta.
  replace (i <? pmlThicknessOf p) with false by (symmetry; apply Z.ltb_ge; lia).
  replace (j <? pmlThicknessOf p) with false by (symmetry; apply Z.ltb_ge; lia).
  replace (i >=? nx p - pmlThicknessOf p) with false
    by (symmetry; destruct (Z.geb_spec i (nx p - pmlThicknessOf p)); [lia | reflexivity]).
  replace (j >=? ny p - pmlThicknessOf p) with false
    by (symmetry; destruct (Z.geb_spec j (ny p - pmlThicknessOf p)); [lia | reflexivity]).
  reflexivity.
Qed.

(** X16.  A cell without conductivity is lossless: whatever the finite
    time step and the permittivity (as long as [2 * eps] is a number other
    than 0), its coefficients Ca and Da are exactly 1.  This is the case of
    every cell of a fresh solver inside the absorbing layer's inner edge. *)
Theorem lossless_cells :
  (forall s i j e g,
     coefficients_ok s ->
     0 <= i < nx (params s) -> 0 <= j < ny (params s) ->
     F32.get (epsilon s) (j * nx (params s) + i) = Some e ->
     F32.get (sigma s) (j * nx (params s) + i) = Some g ->
     fzero g = true -> ffinite (dt (params s)) = true ->
     fzero (2 * (e * eps0)) = false -> fnan (2 * (e * eps0)) = false ->
     F32.get (Ca s) (j * nx (params s) + i) = Some 1%float /\
     F32.get (Da s) (j * nx (params s) + i) = Some 1%float) /\
  (forall p i j,
     ffinite (dt p) = true -> 0 <= nx p -> 0 <= ny p ->
     pmlThicknessOf p <= i < nx p - pmlThicknessOf p ->
     pmlThicknessOf p <= j < ny p - pmlThicknessOf p ->
     F32.get (Ca (constructor p)) (j * nx p + i) = Some 1%float /\
     F32.get (Da (constructor p)) (j * nx p + i) = Some 1%float).
Proof.
  split; [exact coefficients_lossless|].
  intros p i j Hdt Hnx Hny Hi Hj.
  assert (HT : 0 <= pmlThicknessOf p).
  { unfold pmlThicknessOf, pmlThickness.
    assert (0 <= Z.min (nx p) (ny p) / 4) by (apply Z.div_pos; lia). lia. }
  assert (Hi' : 0 <= i < nx p) by lia. assert (Hj' : 0 <= j < ny p) by lia.
  destruct (constructor_cell p i j Hi' Hj') as (Hp & He & _ & Hg).
  rewrite pmlMerge_interior in Hg by assumption.
  assert (Hok : coefficients_ok (constructor p)).
  { apply updateCoefficients_ok, wf_setupPML, wf_allocate; lia. }
  pose proof (coefficients_lossless (constructor p) i j 1 0 Hok) as H.
  rewrite Hp in H. apply H; try assumption; reflexivity.
Qed.

(** X17.  Compiling the coefficients twice is compiling them once. *)
Theorem updateCoefficients_idempotent (s : MaxwellSolver) :
  wf s -> updateCoefficients (updateCoefficients s) = updateCoefficients s.
Proof.
  intros Hwf.
  apply coefficients_ok_ext.
  - apply wf_updateCoefficients, wf_updateCoefficients, Hwf.
  - apply wf_updateCoefficients, Hwf.
  - apply updateCoefficients_ok, wf_updateCoefficients, Hwf.
  - apply updateCoefficients_ok, Hwf.
  - apply updateCoefficients_frame.
Qed.

End Lossless.

Lemma lossless_cells_witness :
  F32.get (Ca (constructor demo_params)) (4 * 8 + 4) = Some 1%float /\
  F32.get (Da (constructor demo_params)) (4 * 8 + 4) = Some 1%float.
Proof. apply (proj2 lossless_cells demo_params 4 4); vm_compute; try split; congruence. Defined.

Lemma updateCoefficients_idempotent_witness :
  updateCoefficients (updateCoefficients demo_solver) = updateCoefficients demo_solver.
Proof. apply updateCoefficients_idempotent. vm_compute. reflexivity. Defined.

(** ** Sources outside the grid *)

Lemma for_loop_morph {St : Type} (f : St -> St) (body : Z -> St -> St) n :
  (forall k t, body k (f t) = f (body k t)) ->
  forall i s, for_loop n i body (f s) = f (for_loop n i body s).
Proof.
  intros H. induction n as [|n IH]; intros i s; simpl; [reflexivity|].
  rewrite H. apply IH.
Qed.

Lemma for_range_morph {St : Type} (f : St -> St) (body : Z -> St -> St) lo hi s :
  (forall k t, body k (f t) = f (body k t)) ->
  for_range lo hi body (f s) = f (for_range lo hi body s).
Proof. intros H. unfold for_range. apply for_loop_morph, H. Qed.

Ltac morph l :=
  intros;
  first [ reflexivity
        | apply (for_range_morph (set_sources l)); morph l
        | match goal with
          | |- context [if ?c then _ else _] => destruct c; morph l
          | |- context [match ?c with Some _ => _ | None => _ end] => destruct c; morph l
          end ].

Section Outside.
Context {M : MathHost}.

Lemma updateH_sources l s : updateH (set_sources l s) = set_sources l (updateH s).
Proof.
  unfold updateH. cbv zeta. cbn [params set_sources].
  rewrite (for_range_morph (set_sources l)) by morph l.
  apply (for_range_morph (set_sources l)). morph l.
Qed.

Lemma updateE_sources l s : updateE (set_sources l s) = set_sources l (updateE s).
Proof.
  unfold updateE. cbv zeta. cbn [params set_sources].
  apply (for_range_morph (set_sources l)). morph l.
Qed.

Lemma applyBoundaries_sources l s :
  applyBoundaries (set_sources l s) = set_sources l (applyBoundaries s).
Proof.
  unfold applyBoundaries. cbv zeta. cbn [params set_sources].
  rewrite (for_range_morph (set_sources l)) by morph l.
  apply (for_range_morph (set_sources l)). morph l.
Qed.

Lemma add_Ez_at_sources l a b v s :
  add_Ez_at a b v (set_sources l s) = set_sources l (add_Ez_at a b v s).
Proof.
  unfold add_Ez_at. cbn [params set_sources].
  destruct (JS.floorZ a); [|reflexivity]. destruct (JS.floorZ b); [|reflexivity].
  destruct (in_grid _ _ _); reflexivity.
Qed.

Lemma applySource_sources l src s :
  applySource src (set_sources l s) = option_map (set_sources l) (applySource src s).
Proof.
  unfold applySource, applySourceNaN. cbv zeta. cbn [params set_sources time].
  destruct (JS.floorZ (Source.x src)) as [i|];
    [destruct (JS.floorZ (Source.y src)) as [j|]|].
  - destruct (_ || _ || _ || _); [reflexivity|].
    destruct (Source.type src); try reflexivity.
    + destruct (loop_bounds _ _) as [[k0 k1]|]; [|reflexivity].
      cbn [option_map]. f_equal. apply (for_range_morph (set_sources l)).
      intros k t. apply add_Ez_at_sources.
    + cbn [option_map]. f_equal. morph l.
    + cbn [option_map]. f_equal. morph l.
    + destruct (loop_bounds _ _) as [[k0 k1]|]; [|reflexivity].
      cbn [option_map]. f_equal. apply (for_range_morph (set_sources l)).
      intros k t. apply add_Ez_at_sources.
  - destruct (_ || _); [reflexivity|]. destruct (source_terminates src); reflexivity.
  - destruct (_ || _); [reflexivity|]. destruct (source_terminates src); reflexivity.
Qed.

Lemma applySourcesFrom_sources l l' : forall s,
  applySourcesFrom l' (set_sources l s) = option_map (set_sources l) (applySourcesFrom l' s).
Proof.
  induction l' as [|src l' IH]; intros s; simpl; [reflexivity|].
  rewrite applySource_sources. destruct (applySource src s) as [t|]; [|reflexivity].
  apply IH.
Qed.

Lemma applySourcesFrom_app l1 l2 : forall s,
  applySourcesFrom (l1 ++ l2) s =
  match applySourcesFrom l1 s with
  | Some t => applySourcesFrom l2 t
  | None => None
  end.
Proof.
  induction l1 as [|src l1 IH]; intros s; simpl; [reflexivity|].
  destruct (applySource src s) as [t|]; [apply IH | reflexivity].
Qed.

Lemma applySource_outside src s :
  outside src (params s) = true -> applySource src s = Some s.
Proof.
  unfold outside, applySource, applySourceNaN. cbv zeta.
  destruct (JS.floorZ (Source.x src)) as [i|];
    [destruct (JS.floorZ (Source.y src)) as [j|]|]; intros ->; reflexivity.
Qed.

Lemma step_outside src s :
  outside src (params s) = true ->
  step (addSource src s) = option_map (addSource src) (step s).
Proof.
  intros Ho. unfold step, applySources, addSource.
  rewrite updateH_sources. cbn [sources set_sources].
  destruct (updateH_frame s) as (Hst & _ & _).
  assert (Hsrc : sources (updateH s) = sources s) by (unfold static in Hst; congruence).
  assert (Hpar : params (updateH s) = params s) by (unfold static in Hst; congruence).
  rewrite Hsrc, applySourcesFrom_sources, applySourcesFrom_app.
  destruct (applySourcesFrom (sources s) (updateH s)) as [t|] eqn:E; [|reflexivity].
  destruct (applySourcesFrom_frame _ _ _ E) as (Hst' & _ & _ & _).
  assert (Hpar' : params t = params s) by (unfold static in Hst'; congruence).
  assert (Hsrc' : sources t = sources s) by (unfold static in Hst'; congruence).
  cbn [applySourcesFrom]. rewrite applySource_outside by (rewrite Hpar'; exact Ho).
  cbn [option_map]. rewrite updateE_sources, applyBoundaries_sources.
  cbn [time set_sources]. f_equal.
  destruct (updateE_frame t) as (H1 & _). destruct (applyBoundaries_frame (updateE t)) as (H2 & _).
  unfold static in H1, H2.
  assert (Hs3 : sources (applyBoundaries (updateE t)) = sources s) by congruence.
  cbn [sources set_time]. rewrite Hs3. reflexivity.
Qed.

(** X18.  A source whose position fails the range test of [applySources]
    is inert: running the solver with it gives, step for step, the state
    that running without it gives, with the source in the list. *)
Theorem source_outside_inert (n : nat) (src : Source.t) (s : MaxwellSolver) :
  outside src (params s) = true ->
  run n (addSource src s) = option_map (addSource src) (run n s).
Proof.
  revert s. induction n as [|n IH]; intros s Ho; [reflexivity|].
  cbn [run]. rewrite step_outside by exact Ho.
  destruct (step s) as [t|] eqn:E; [|reflexivity]. cbn [option_map].
  apply IH. apply step_static in E as [Hs _]. unfold static in Hs.
  replace (params t) with (params s) by congruence. exact Ho.
Qed.

End Outside.

Lemma source_outside_inert_witness :
  exists s', run 2 demo_solver = Some s' /\
             run 2 (addSource demo_far demo_solver) = Some (addSource demo_far s').
Proof.
  destruct (run_total 2 demo_solver) as [s' E]; [vm_compute; reflexivity|].
  exists s'. split; [exact E|].
  rewrite (source_outside_inert 2 demo_far demo_solver) by (vm_compute; reflexivity).
  rewrite E. reflexivity.
Defined.

(** ** The update equations *)

Section UpdateEquations.
Context {M : MathHost}.

Lemma updateH_Hx_cells (s : MaxwellSolver) :
  let p := params s in
  let t := sweep (fun i j s0 =>
             let idx := (j * nx p + i)%Z in
             let dEz_dy := ((F32.rd (Ez s0) (idx + nx p) - F32.rd (Ez s0) idx) / dy p)%float in
             set_Hx (F32.wr (Hx s0) idx
                       (F32.rd (Da s0) idx * F32.rd (Hx s0) idx
                        - F32.rd (Db s0) idx * dEz_dy)) s0) 0 (ny p - 1) 0 (nx p) s in
  (params t, Ez t, Da t, Db t, Hy t) = (params s, Ez s, Da s, Db s, Hy s) /\
  (forall i j, 0 <= j < ny p - 1 -> 0 <= i < nx p -> forall v,
     F32.get (Hx s) (j * nx p + i) = Some v ->
     F32.get (Hx t) (j * nx p + i) = Some (JS.fround (Hx_update s (j * nx p + i)))) /\
  (forall k, (forall i j, 0 <= j < ny p - 1 -> 0 <= i < nx p -> k <> j * nx p + i) ->
     F32.get (Hx t) k = F32.get (Hx s) k).
Proof.
  cbv zeta. set (p := params s).
  pose proof (sweep_spec Hx (fun t => (params t, Ez t, Da t, Db t, Hy t))
    (fun i j s0 =>
       let idx := (j * nx p + i)%Z in
       let dEz_dy := ((F32.rd (Ez s0) (idx + nx p) - F32.rd (Ez s0) idx) / dy p)%float in
       set_Hx (F32.wr (Hx s0) idx
                 (F32.rd (Da s0) idx * F32.rd (Hx s0) idx
                  - F32.rd (Db s0) idx * dEz_dy)) s0)
    (fun _ _ => true)
    (fun i j v =>
       let idx := (j * nx p + i)%Z in
       JS.fround (F32.rd (Da s) idx * v
                  - F32.rd (Db s) idx
                    * ((F32.rd (Ez s) (idx + nx p) - F32.rd (Ez s) idx) / dy p))%float)
    (nx p) (params s, Ez s, Da s, Db s, Hy s) 0 (ny p - 1) 0 (nx p)) as H.
  destruct (H ltac:(intros; lia)) with (s0 := s) as (H1 & _ & H3 & H4); clear H.
  - intros i j t Hj Hi Henv. cbv zeta. injection Henv as Ep Ee Ea Eb Ey.
    cbn [params Ez Da Db Hy Hx set_Hx]. rewrite Ep, Ee, Ea, Eb, Ey.
    split; [reflexivity|]. split; [apply F32_length_wr|]. split.
    + intros k [Hk|Hk]; [discriminate|]. apply F32_get_wr_ne. congruence.
    + intros _ v Hv. rewrite F32_get_wr_eq by (apply (F32_get_Some_range _ _ _ Hv)).
      rewrite (F32_rd_get _ _ _ Hv). reflexivity.
  - reflexivity.
  - cbv zeta in H1. split; [exact H1|]. split.
    + intros i j Hj Hi v Hv. pose proof (H3 i j Hj Hi eq_refl v Hv) as E.
      cbv zeta in E. rewrite E.
      unfold Hx_update. cbv zeta. fold p. rewrite (F32_rd_get _ _ _ Hv). reflexivity.
    + intros k Hk. specialize (H4 k). cbv zeta in H4. apply H4.
      intros i j Hj Hi _. apply Hk; assumption.
Qed.

Lemma updateH_Hy_cells (s : MaxwellSolver) :
  let p := params s in
  let t := sweep (fun i j s0 =>
             let idx := (j * nx p + i)%Z in
             let dEz_dx := ((F32.rd (Ez s0) (idx + 1) - F32.rd (Ez s0) idx) / dx p)%float in
             set_Hy (F32.wr (Hy s0) idx
                       (F32.rd (Da s0) idx * F32.rd (Hy s0) idx
                        + F32.rd (Db s0) idx * dEz_dx)) s0) 0 (ny p) 0 (nx p - 1) s in
  (params t, Ez t, Da t, Db t, Hx t) = (params s, Ez s, Da s, Db s, Hx s) /\
  (forall i j, 0 <= j < ny p -> 0 <= i < nx p - 1 -> forall v,
     F32.get (Hy s) (j * nx p + i) = Some v ->
     F32.get (Hy t) (j * nx p + i) = Some (JS.fround (Hy_update s (j * nx p + i)))) /\
  (forall k, (forall i j, 0 <= j < ny p -> 0 <= i < nx p - 1 -> k <> j * nx p + i) ->
     F32.get (Hy t) k = F32.get (Hy s) k).
Proof.
  cbv zeta. set (p := params s).
  pose proof (sweep_spec Hy (fun t => (params t, Ez t, Da t, Db t, Hx t))
    (fun i j s0 =>
       let idx := (j * nx p + i)%Z in
       let dEz_dx := ((F32.rd (Ez s0) (idx + 1) - F32.rd (Ez s0) idx) / dx p)%float in
       set_Hy (F32.wr (Hy s0) idx
                 (F32.rd (Da s0) idx * F32.rd (Hy s0) idx
                  + F32.rd (Db s0) idx * dEz_dx)) s0)
    (fun _ _ => true)
    (fun i j v =>
       let idx := (j * nx p + i)%Z in
       JS.fround (F32.rd (Da s) idx * v
                  + F32.rd (Db s) idx
                    * ((F32.rd (Ez s) (idx + 1) - F32.rd (Ez s) idx) / dx p))%float)
    (nx p) (params s, Ez s, Da s, Db s, Hx s) 0 (ny p) 0 (nx p - 1)) as H.
  destruct (H ltac:(intros; lia)) with (s0 := s) as (H1 & _ & H3 & H4); clear H.
  - intros i j t Hj Hi Henv. cbv zeta. injection Henv as Ep Ee Ea Eb Ex.
    cbn [params Ez Da Db Hy Hx set_Hy]. rewrite Ep, Ee, Ea, Eb, Ex.
    split; [reflexivity|]. split; [apply F32_length_wr|]. split.
    + intros k [Hk|Hk]; [discriminate|]. apply F32_get_wr_ne. congruence.
    + intros _ v Hv. rewrite F32_get_wr_eq by (apply (F32_get_Some_range _ _ _ Hv)).
      rewrite (F32_rd_get _ _ _ Hv). reflexivity.
  - reflexivity.
  - cbv zeta in H1. split; [exact H1|]. split.
    + intros i j Hj Hi v Hv. pose proof (H3 i j Hj Hi eq_refl v Hv) as E.
      cbv zeta in E. rewrite E.
      unfold Hy_update. cbv zeta. fold p. rewrite (F32_rd_get _ _ _ Hv). reflexivity.
    + intros k Hk. specialize (H4 k). cbv zeta in H4. apply H4.
      intros i j Hj Hi _. apply Hk; assumption.
Qed.

Lemma updateE_cells (s : MaxwellSolver) :
  let p := params s in
  (forall i j, 1 <= j < ny p -> 1 <= i < nx p -> forall v,
     F32.get (Ez s) (j * nx p + i) = Some v ->
     F32.get (Ez (updateE s)) (j * nx p + i)
     = Some (JS.fround (Ez_update s (j * nx p + i)))) /\
  (forall k, (forall i j, 1 <= j < ny p -> 1 <= i < nx p -> k <> j * nx p + i) ->
     F32.get (Ez (updateE s)) k = F32.get (Ez s) k).
Proof.
  cbv zeta. set (p := params s).
  pose proof (sweep_spec Ez (fun t => (params t, Hx t, Hy t, Ca t, Cb t))
    (fun i j s0 =>
       let idx := (j * nx p + i)%Z in
       let dHy_dx := ((F32.rd (Hy s0) idx - F32.rd (Hy s0) (idx - 1)) / dx p)%float in
       let dHx_dy := ((F32.rd (Hx s0) idx - F32.rd (Hx s0) (idx - nx p)) / dy p)%float in
       let curlH := (dHy_dx - dHx_dy)%float in
       set_Ez (F32.wr (Ez s0) idx
                 (F32.rd (Ca s0) idx * F32.rd (Ez s0) idx
                  + F32.rd (Cb s0) idx * curlH)) s0)
    (fun _ _ => true)
    (fun i j v =>
       let idx := (j * nx p + i)%Z in
       JS.fround (F32.rd (Ca s) idx * v
                  + F32.rd (Cb s) idx
                    * ((F32.rd (Hy s) idx - F32.rd (Hy s) (idx - 1)) / dx p
                       - (F32.rd (Hx s) idx - F32.rd (Hx s) (idx - nx p)) / dy p))%float)
    (nx p) (params s, Hx s, Hy s, Ca s, Cb s) 1 (ny p) 1 (nx p)) as H.
  destruct (H ltac:(intros; lia)) with (s0 := s) as (_ & _ & H3 & H4); clear H.
  - intros i j t Hj Hi Henv. cbv zeta. injection Henv as Ep Ex Ey Ea Eb.
    cbn [params Ez Ca Cb Hy Hx set_Ez]. rewrite Ep, Ex, Ey, Ea, Eb.
    split; [reflexivity|]. split; [apply F32_length_wr|]. split.
    + intros k [Hk|Hk]; [discriminate|]. apply F32_get_wr_ne. congruence.
    + intros _ v Hv. rewrite F32_get_wr_eq by (apply (F32_get_Some_range _ _ _ Hv)).
      rewrite (F32_rd_get _ _ _ Hv). reflexivity.
  - reflexivity.
  - split.
    + intros i j Hj Hi v Hv. pose proof (H3 i j Hj Hi eq_refl v Hv) as E.
      cbv zeta in E. unfold updateE. cbv zeta. fold p.
      unfold sweep in E. rewrite E.
      unfold Ez_update. cbv zeta. fold p. rewrite (F32_rd_get _ _ _ Hv). reflexivity.
    + intros k Hk. specialize (H4 k). cbv zeta in H4. unfold updateE. cbv zeta. fold p.
      unfold sweep in H4. apply H4.
      intros i j Hj Hi _. apply Hk; assumption.
Qed.

Lemma updateH_cells (s : MaxwellSolver) :
  let p := params s in
  (forall i j, 0 <= j < ny p - 1 -> 0 <= i < nx p -> forall v,
     F32.get (Hx s) (j * nx p + i) = Some v ->
     F32.get (Hx (updateH s)) (j * nx p + i)
     = Some (JS.fround (Hx_update s (j * nx p + i)))) /\
  (forall i j, 0 <= j < ny p -> 0 <= i < nx p - 1 -> forall v,
     F32.get (Hy s) (j * nx p + i) = Some v ->
     F32.get (Hy (updateH s)) (j * nx p + i)
     = Some (JS.fround (Hy_update s (j * nx p + i)))).
Proof.
  cbv zeta. set (p := params s).
  destruct (updateH_Hx_cells s) as (E1 & A1 & _). cbv zeta in E1, A1. fold p in E1, A1.
  match type of E1 with (params ?t, _, _, _, _) = _ => set (t1 := t) in * end.
  destruct (updateH_Hy_cells t1) as (E2 & B1 & _). cbv zeta in E2, B1.
  injection E1 as Ep Ee Ea Eb Ey.
  rewrite Ep in E2, B1. fold p in E2, B1.
  match type of E2 with (params ?t, _, _, _, _) = _ => set (t2 := t) in * end.
  assert (Eu : updateH s = t2) by reflexivity.
  clearbody t2. subst t2.
  injection E2 as _ _ _ _ Ex.
  split.
  - intros i j Hj Hi v Hv. rewrite Ex. apply (A1 i j Hj Hi v Hv).
  - intros i j Hj Hi v Hv. rewrite <- Ey in Hv. rewrite (B1 i j Hj Hi v Hv).
    unfold Hy_update. cbv zeta. rewrite Ep, Ee, Ea, Eb, Ey. reflexivity.
Qed.

(** Every cell after [updateH] and after [updateE]. *)
Lemma update_cells (s : MaxwellSolver) (i j : Z) :
  wf s -> 0 <= i < nx (params s) -> 0 <= j < ny (params s) ->
  let idx := j * nx (params s) + i in
  F32.get (Hx (updateH s)) idx =
    (if j <? ny (params s) - 1 then Some (JS.fround (Hx_update s idx))
     else F32.get (Hx s) idx) /\
  F32.get (Hy (updateH s)) idx =
    (if i <? nx (params s) - 1 then Some (JS.fround (Hy_update s idx))
     else F32.get (Hy s) idx) /\
  F32.get (Ez (updateE s)) idx =
    (if (1 <=? i) && (1 <=? j) then Some (JS.fround (Ez_update s idx))
     else F32.get (Ez s) idx).
Proof.
  intros Hwf Hi Hj. cbv zeta.
  destruct (wf_fields s Hwf) as (F1 & F2 & F3).
  destruct (wf_cell s i j Hwf Hi Hj _ F1) as [e He].
  destruct (wf_cell s i j Hwf Hi Hj _ F2) as [hx Hhx].
  destruct (wf_cell s i j Hwf Hi Hj _ F3) as [hy Hhy].
  destruct (updateH_cells s) as [A B]. destruct (updateE_cells s) as [C D].
  cbv zeta in A, B, C, D.
  split; [|split].
  - destruct (Z.ltb_spec j (ny (params s) - 1)) as [L|L].
    + apply (A i j ltac:(lia) Hi hx Hhx).
    + pose proof (updateH_last_row s i Hi) as E.
      replace j with (ny (params s) - 1) by lia. exact E.
  - destruct (Z.ltb_spec i (nx (params s) - 1)) as [L|L].
    + apply (B i j Hj ltac:(lia) hy Hhy).
    + pose proof (updateH_last_column s j ltac:(lia)) as E.
      replace i with (nx (params s) - 1) by lia. exact E.
  - destruct (Z.leb_spec 1 i) as [Li|Li]; [destruct (Z.leb_spec 1 j) as [Lj|Lj]|]; cbn [andb].
    + apply (C i j ltac:(lia) ltac:(lia) e He).
    + apply D. intros i' j' Hj' Hi' E. apply cell_index_inj in E; lia.
    + apply D. intros i' j' Hj' Hi' E. apply cell_index_inj in E; lia.
Qed.

(** X19.  The update equations.  [updateH] and [updateE] work in place,
    but every cell they store to gets the value of the finite-difference
    formula read from the fields as they were before the call; an entry
    outside the range of the loops keeps its value. *)
Theorem update_equations (s : MaxwellSolver) (i j : Z) :
  wf s -> 0 <= i < nx (params s) -> 0 <= j < ny (params s) ->
  let idx := j * nx (params s) + i in
  F32.get (Hx (updateH s)) idx =
    (if j <? ny (params s) - 1 then Some (JS.fround (Hx_update s idx))
     else F32.get (Hx s) idx) /\
  F32.get (Hy (updateH s)) idx =
    (if i <? nx (params s) - 1 then Some (JS.fround (Hy_update s idx))
     else F32.get (Hy s) idx) /\
  F32.get (Ez (updateE s)) idx =
    (if (1 <=? i) && (1 <=? j) then Some (JS.fround (Ez_update s idx))
     else F32.get (Ez s) idx).
Proof. apply update_cells. Qed.

End UpdateEquations.

Lemma update_equations_witness :
  F32.get (Hx (updateH demo_solver)) (4 * 8 + 4) =
    Some (JS.fround (Hx_update demo_solver (4 * 8 + 4))) /\
  F32.get (Ez (updateE demo_solver)) (4 * 8 + 4) =
    Some (JS.fround (Ez_update demo_solver (4 * 8 + 4))).
Proof.
  destruct (update_equations demo_solver 4 4) as (A & _ & C);
    [vm_compute; reflexivity | vm_compute; split; congruence
    | vm_compute; split; congruence |].
  split; [exact A | exact C].
Defined.

(** ** The light cone *)

Ltac box_hyps :=
  unfold in_box, in_box_Hx, in_box_Hy in *;
  repeat match goal with
         | H : _ && _ = false |- _ => apply andb_false_iff in H; destruct H as [H|H]
         | H : _ && _ = true |- _ => apply andb_true_iff in H; destruct H as [? H]
         | H : (_ <=? _) = false |- _ => apply Z.leb_gt in H
         | H : (_ <=? _) = true |- _ => apply Z.leb_le in H
         end.

Ltac box_goal :=
  unfold in_box, in_box_Hx, in_box_Hy;
  repeat match goal with
         | |- context [?a <=? ?b] => destruct (Z.leb_spec a b)
         end; cbn [andb]; first [reflexivity | lia].

Ltac boxes := box_hyps; box_goal.

Lemma cell_zero_rd a k : cell_zero a k -> fzero (F32.rd a k) = true.
Proof. intros (v & Hv & Hz). rewrite (F32_rd_get _ _ _ Hv). exact Hz. Qed.

Lemma cell_zero_wr0 a m k : cell_zero a k -> cell_zero (F32.wr a m 0) k.
Proof.
  intros (v & Hv & Hz). destruct (Z.eq_dec m k) as [->|Hne].
  - exists (JS.fround 0). split; [|reflexivity].
    apply F32_get_wr_eq, (F32_get_Some_range _ _ _ Hv).
  - exists v. split; [|exact Hz]. rewrite F32_get_wr_ne by exact Hne. exact Hv.
Qed.

Lemma applyBoundaries_zero s k :
  cell_zero (Ez s) k -> cell_zero (Ez (applyBoundaries s)) k.
Proof.
  intros H. unfold applyBoundaries. cbv zeta.
  apply (for_range_inv (fun t => cell_zero (Ez t) k)).
  - apply (for_range_inv (fun t => cell_zero (Ez t) k)); [exact H|].
    intros j t _ Ht. cbn [Ez set_Ez]. apply cell_zero_wr0, cell_zero_wr0, Ht.
  - intros i t _ Ht. cbn [Ez set_Ez]. apply cell_zero_wr0, cell_zero_wr0, Ht.
Qed.

Section LightCone.
Context {M : MathHost}.

Lemma finite_reads s i j :
  wf s -> finite_coefficients s = true ->
  0 <= i < nx (params s) -> 0 <= j < ny (params s) ->
  ffinite (F32.rd (Ca s) (j * nx (params s) + i)) = true /\
  ffinite (F32.rd (Cb s) (j * nx (params s) + i)) = true /\
  ffinite (F32.rd (Da s) (j * nx (params s) + i)) = true /\
  ffinite (F32.rd (Db s) (j * nx (params s) + i)) = true.
Proof.
  intros Hwf Hf Hi Hj. unfold finite_coefficients in Hf.
  apply andb_true_iff in Hf as [Hf Hd]. apply andb_true_iff in Hf as [Hf Hc].
  apply andb_true_iff in Hf as [Ha Hb].
  pose proof (cell_index_range (params s) i j Hi Hj) as Hr.
  wf_arrays Hwf.
  repeat match goal with H : array_ok _ _ = true |- _ => apply array_ok_length in H end.
  repeat split; apply rd_forallb; first [assumption | congruence | lia].
Qed.

Lemma updateH_dark (B : Region) (r : Z) (s : MaxwellSolver) (i j : Z) :
  wf s -> finite_coefficients s = true -> regular_spacing (params s) = true ->
  dark B r s ->
  0 <= i < nx (params s) -> 0 <= j < ny (params s) ->
  (in_box_Hx B r i j = false -> cell_zero (Hx (updateH s)) (j * nx (params s) + i)) /\
  (in_box_Hy B r i j = false -> cell_zero (Hy (updateH s)) (j * nx (params s) + i)).
Proof.
  intros Hwf Hfin Hreg Hd Hi Hj. unfold dark in Hd. cbv zeta in Hd.
  destruct (update_cells s i j Hwf Hi Hj) as (A & A' & _). cbv zeta in A, A'.
  destruct (finite_reads s i j Hwf Hfin Hi Hj) as (_ & _ & Fa & Fb).
  unfold regular_spacing in Hreg.
  apply andb_true_iff in Hreg as [Hreg R4]. apply andb_true_iff in Hreg as [Hreg R3].
  apply andb_true_iff in Hreg as [R1 R2].
  apply negb_true_iff in R1, R2, R3, R4.
  destruct (Hd i j Hi Hj) as (De & Dx & Dy).
  split; intros Hout.
  - unfold cell_zero. rewrite A. destruct (Z.ltb_spec j (ny (params s) - 1)) as [L|L].
    + eexists. split; [reflexivity|]. apply fzero_fround. unfold Hx_update. cbv zeta.
      apply zero_Hx_update; try assumption.
      * apply cell_zero_rd, Dx. clear - Hout. boxes.
      * replace (j * nx (params s) + i + nx (params s)) with ((j + 1) * nx (params s) + i)
          by ring.
        apply cell_zero_rd. apply (Hd i (j + 1) Hi ltac:(lia)). clear - Hout. boxes.
      * apply cell_zero_rd, De. clear - Hout. boxes.
    + apply Dx. clear - Hout. boxes.
  - unfold cell_zero. rewrite A'. destruct (Z.ltb_spec i (nx (params s) - 1)) as [L|L].
    + eexists. split; [reflexivity|]. apply fzero_fround. unfold Hy_update. cbv zeta.
      apply zero_Hy_update; try assumption.
      * apply cell_zero_rd, Dy. clear - Hout. boxes.
      * replace (j * nx (params s) + i + 1) with (j * nx (params s) + (i + 1)) by ring.
        apply cell_zero_rd. apply (Hd (i + 1) j ltac:(lia) Hj). clear - Hout. boxes.
      * apply cell_zero_rd, De. clear - Hout. boxes.
    + apply Dy. clear - Hout. boxes.
Qed.

Lemma applySource_confined (B : Region) (src : Source.t) (s s' : MaxwellSolver) (i j : Z) :
  confined B src = true -> applySource src s = Some s' ->
  0 <= i < nx (params s) -> in_box B 0 i j = false ->
  F32.get (Ez s') (j * nx (params s) + i) = F32.get (Ez s) (j * nx (params s) + i).
Proof.
  unfold confined, applySource, applySourceNaN. cbv zeta. intros Hc Ha Hi Hout.
  apply andb_true_iff in Hc as [Hk Hb].
  destruct (JS.floorZ (Source.x src)) as [i0|];
    [destruct (JS.floorZ (Source.y src)) as [j0|]|].
  - destruct (_ || _ || _ || _) eqn:Hg; [injection Ha as <-; reflexivity|].
    apply orb_false_iff in Hg as [Hg G4]. apply orb_false_iff in Hg as [Hg G3].
    apply orb_false_iff in Hg as [G1 G2].
    assert (Hne : j0 * nx (params s) + i0 <> j * nx (params s) + i).
    { intros E. apply cell_index_inj in E as [-> ->]; [congruence | | lia].
      apply Z.ltb_ge in G1.
      destruct (Z.geb_spec i0 (nx (params s))); [discriminate | lia]. }
    destruct (Source.type src); try discriminate Hk; injection Ha as <-;
      unfold add_Ez; cbn [Ez set_Ez]; apply F32_get_wr_ne, Hne.
  - destruct (_ || _); [injection Ha as <-; reflexivity|].
    destruct (source_terminates src); [injection Ha as <-; reflexivity | discriminate].
  - destruct (_ || _); [injection Ha as <-; reflexivity|].
    destruct (source_terminates src); [injection Ha as <-; reflexivity | discriminate].
Qed.

Lemma applySourcesFrom_confined (B : Region) (i j : Z) (l : list Source.t) :
  forall s s',
  forallb (confined B) l = true -> applySourcesFrom l s = Some s' ->
  0 <= i < nx (params s) -> in_box B 0 i j = false ->
  F32.get (Ez s') (j * nx (params s) + i) = F32.get (Ez s) (j * nx (params s) + i).
Proof.
  induction l as [|src l IH]; intros s s' Hc Ha Hi Hout; simpl in Ha.
  - injection Ha as <-. reflexivity.
  - simpl in Hc. apply andb_true_iff in Hc as [Hc1 Hc2].
    destruct (applySource src s) as [t|] eqn:E; [|discriminate].
    destruct (applySource_frame src s t E) as (Hst & _).
    assert (Hp : params t = params s) by (unfold static in Hst; congruence).
    rewrite <- (applySource_confined B src s t i j Hc1 E Hi Hout).
    rewrite <- Hp. apply IH; try assumption. rewrite Hp. exact Hi.
Qed.

Lemma updateE_dark (B : Region) (r : Z) (t : MaxwellSolver) (i j : Z) :
  wf t -> finite_coefficients t = true -> regular_spacing (params t) = true ->
  (forall i j, 0 <= i < nx (params t) -> 0 <= j < ny (params t) ->
     (in_box B (r + 1) i j = false -> cell_zero (Ez t) (j * nx (params t) + i)) /\
     (in_box_Hx B r i j = false -> cell_zero (Hx t) (j * nx (params t) + i)) /\
     (in_box_Hy B r i j = false -> cell_zero (Hy t) (j * nx (params t) + i))) ->
  0 <= i < nx (params t) -> 0 <= j < ny (params t) ->
  in_box B (r + 1) i j = false ->
  cell_zero (Ez (updateE t)) (j * nx (params t) + i).
Proof.
  intros Hwf Hfin Hreg Hd Hi Hj Hout.
  destruct (update_cells t i j Hwf Hi Hj) as (_ & _ & A). cbv zeta in A.
  destruct (finite_reads t i j Hwf Hfin Hi Hj) as (Fa & Fb & _ & _).
  unfold regular_spacing in Hreg.
  apply andb_true_iff in Hreg as [Hreg R4]. apply andb_true_iff in Hreg as [Hreg R3].
  apply andb_true_iff in Hreg as [R1 R2].
  apply negb_true_iff in R1, R2, R3, R4.
  destruct (Hd i j Hi Hj) as (De & Dx & Dy).
  unfold cell_zero. rewrite A.
  destruct ((1 <=? i) && (1 <=? j)) eqn:Hin; [|apply De, Hout].
  apply andb_true_iff in Hin as [Li Lj]. apply Z.leb_le in Li, Lj.
  eexists. split; [reflexivity|]. apply fzero_fround. unfold Ez_update. cbv zeta.
  apply zero_Ez_update; try assumption.
  - apply cell_zero_rd, De, Hout.
  - apply cell_zero_rd, Dy. clear - Hout. boxes.
  - replace (j * nx (params t) + i - 1) with (j * nx (params t) + (i - 1)) by ring.
    apply cell_zero_rd. apply (Hd (i - 1) j ltac:(lia) Hj). clear - Hout. boxes.
  - apply cell_zero_rd, Dx. clear - Hout. boxes.
  - replace (j * nx (params t) + i - nx (params t)) with ((j - 1) * nx (params t) + i)
      by ring.
    apply cell_zero_rd. apply (Hd i (j - 1) Hi ltac:(lia)). clear - Hout. boxes.
Qed.

Lemma step_dark (B : Region) (r : Z) (s s' : MaxwellSolver) :
  wf s -> finite_coefficients s = true -> regular_spacing (params s) = true ->
  forallb (confined B) (sources s) = true -> -1 <= r ->
  dark B r s -> step s = Some s' -> dark B (r + 1) s'.
Proof.
  intros Hwf Hfin Hreg Hsrc Hr Hd Hs.
  destruct (step_fields s s' Hs) as [Ex Ey].
  destruct (step_inv s s' Hs) as (t & Ht & ->).
  destruct (updateH_frame s) as (Hst1 & _ & He1).
  unfold applySources in Ht.
  destruct (applySourcesFrom_frame _ _ _ Ht) as (Hst2 & _ & Hx2 & Hy2).
  destruct (updateE_frame t) as (Hst3 & _). 
  destruct (applyBoundaries_frame (updateE t)) as (Hst4 & _).
  unfold static in Hst1, Hst2, Hst3, Hst4.
  injection Hst1 as P1 _ _ _ A1 B1 C1 D1 S1 _.
  injection Hst2 as P2 _ _ _ A2 B2 C2 D2 _ _.
  injection Hst3 as P3 _ _ _ _ _ _ _ _ _.
  injection Hst4 as P4 _ _ _ _ _ _ _ _ _.
  assert (Pt : params t = params s) by congruence.
  assert (Wt : wf t).
  { eapply wf_applySourcesFrom; [apply wf_updateH, Hwf | exact Ht]. }
  assert (Ft : finite_coefficients t = true).
  { unfold finite_coefficients in *. rewrite A2, B2, C2, D2, A1, B1, C1, D1. exact Hfin. }
  unfold dark. cbv zeta. cbn [params set_time Ez Hx Hy] in *.
  replace (params (applyBoundaries (updateE t))) with (params s) by congruence.
  intros i j Hi Hj.
  destruct (updateH_dark B r s i j Hwf Hfin Hreg Hd Hi Hj) as [Ux Uy].
  replace (r + 1 - 1) with r by lia. rewrite Ex, Ey.
  split; [|split; assumption].
  intros Hout. apply applyBoundaries_zero. rewrite <- Pt.
  apply (updateE_dark B r t i j Wt Ft); try (rewrite Pt; assumption); [|exact Hout].
  rewrite Pt. intros i' j' Hi' Hj'.
  destruct (updateH_dark B r s i' j' Hwf Hfin Hreg Hd Hi' Hj') as [Ux' Uy'].
  rewrite Hx2, Hy2. split; [|split; assumption].
  intros Hout'.
  assert (E : F32.get (Ez t) (j' * nx (params (updateH s)) + i')
              = F32.get (Ez (updateH s)) (j' * nx (params (updateH s)) + i')).
  { apply (applySourcesFrom_confined B i' j' (sources (updateH s)));
      [rewrite S1; exact Hsrc | exact Ht | rewrite P1; exact Hi' | clear - Hout' Hr; boxes]. }
  rewrite P1, He1 in E. unfold cell_zero. rewrite E.
  apply (Hd i' j' Hi' Hj'). clear - Hout' Hr. boxes.
Qed.

Lemma run_dark (B : Region) (n : nat) : forall (r : Z) (s s' : MaxwellSolver),
  wf s -> finite_coefficients s = true -> regular_spacing (params s) = true ->
  forallb (confined B) (sources s) = true -> -1 <= r ->
  dark B r s -> run n s = Some s' -> dark B (r + Z.of_nat n) s'.
Proof.
  induction n as [|n IH]; intros r s s' Hwf Hfin Hreg Hsrc Hr Hd Hrun.
  - simpl in Hrun. injection Hrun as <-. replace (r + Z.of_nat 0) with r by lia. exact Hd.
  - cbn [run] in Hrun. destruct (step s) as [t|] eqn:E; [|discriminate].
    pose proof (step_dark B r s t Hwf Hfin Hreg Hsrc Hr Hd E) as Hd'.
    pose proof (wf_step s t Hwf E) as Hwf'.
    apply step_static in E as [Hst _]. unfold static in Hst.
    injection Hst as P _ _ _ A1 B1 C1 D1 S1 _.
    replace (r + Z.of_nat (S n)) with (r + 1 + Z.of_nat n) by lia.
    apply (IH (r + 1) t s'); try assumption; try lia.
    + unfold finite_coefficients in *. rewrite A1, B1, C1, D1. exact Hfin.
    + rewrite P. exact Hreg.
    + rewrite S1. exact Hsrc.
Qed.

Lemma quiet_dark (B : Region) (r : Z) (s : MaxwellSolver) : quiet s -> dark B r s.
Proof.
  intros Hq. unfold dark. cbv zeta. intros i j Hi Hj.
  destruct (quiet_cell s s i j Hq eq_refl Hi Hj) as (Ze & Zx & Zy & _).
  destruct (quiet_parts s Hq) as (Hwf & _).
  destruct (wf_fields s Hwf) as (F1 & F2 & F3).
  destruct (wf_cell s i j Hwf Hi Hj _ F1) as [e He].
  destruct (wf_cell s i j Hwf Hi Hj _ F2) as [hx Hhx].
  destruct (wf_cell s i j Hwf Hi Hj _ F3) as [hy Hhy].
  rewrite (F32_rd_get _ _ _ He) in Ze. rewrite (F32_rd_get _ _ _ Hhx) in Zx.
  rewrite (F32_rd_get _ _ _ Hhy) in Zy.
  split; [|split]; intros _; eexists; split; eassumption.
Qed.

(** X20.  The light cone.  From rest, with sources that excite single
    cells of a rectangle, the field Ez after [n + 1] steps is zero in every
    cell more than [n] cells away from the rectangle: the scheme carries a
    disturbance one cell per step and no further. *)
Theorem light_cone (B : Region) (n : nat) (s s' : MaxwellSolver) :
  quiet s -> forallb (confined B) (sources s) = true ->
  run (S n) s = Some s' ->
  forall i j, 0 <= i < nx (params s) -> 0 <= j < ny (params s) ->
    in_box B (Z.of_nat n) i j = false ->
    exists v, F32.get (Ez s') (j * nx (params s) + i) = Some v /\ fzero v = true.
Proof.
  intros Hq Hsrc Hrun i j Hi Hj Hout.
  destruct (quiet_parts s Hq) as (Hwf & _).
  destruct Hq as (Hq1 & Hq2 & Hfin & Hreg).
  assert (Hq : quiet s) by (repeat split; assumption).
  pose proof (run_dark B (S n) (-1) s s' Hwf Hfin Hreg Hsrc ltac:(lia)
                (quiet_dark B (-1) s Hq) Hrun) as Hd.
  unfold dark in Hd. cbv zeta in Hd.
  apply run_static in Hrun as [Hst _]. unfold static in Hst.
  assert (P : params s' = params s) by congruence. rewrite P in Hd.
  apply (Hd i j Hi Hj).
  replace (-1 + Z.of_nat (S n)) with (Z.of_nat n) by lia. exact Hout.
Qed.

End LightCone.

Lemma light_cone_witness :
  exists s' v, run 2 demo_solver = Some s' /\
    F32.get (Ez s') (2 * 8 + 4) = Some v /\ fzero v = true.
Proof.
  destruct (run_total 2 demo_solver) as [s' E]; [vm_compute; reflexivity|].
  destruct (light_cone demo_region 1 demo_solver s' quiet_demo) with (i := 4) (j := 2)
    as (v & Hv & Hz);
    [vm_compute; reflexivity | exact E | vm_compute; split; congruence
    | vm_compute; split; congruence | vm_compute; reflexivity |].
  exists s', v. split; [exact E|]. split; [exact Hv | exact Hz].
Defined.

(** ** The excitation of a dipole *)

Lemma same_number_refl x : same_number x x.
Proof. left. reflexivity. Qed.

Lemma same_number_trans x y z : same_number x y -> same_number y z -> same_number x z.
Proof.
  intros [->|[H1 H2]] [->|[H3 H4]]; try (left; reflexivity); right.
  - split; assumption.
  - split; assumption.
  - split; assumption.
Qed.

Lemma same_number_add_l z x : fzero z = true -> same_number (z + x) x.
Proof.
  unfold same_number, fzero. intros Hz.
  destruct (Prim2SF x) as [sx|sx| |sx mx ex] eqn:Ex.
  - right. rewrite add_spec, Ex. destruct (Prim2SF z) as [sz| | |]; try discriminate.
    split; [destruct sz, sx; reflexivity | reflexivity].
  - left. apply Prim2SF_inj. rewrite add_spec, Ex.
    destruct (Prim2SF z) as [sz| | |]; try discriminate. reflexivity.
  - left. apply Prim2SF_inj. rewrite add_spec, Ex.
    destruct (Prim2SF z) as [sz| | |]; try discriminate. reflexivity.
  - left. apply Prim2SF_inj. rewrite add_spec, Ex.
    destruct (Prim2SF z) as [sz| | |]; try discriminate. reflexivity.
Qed.

Lemma same_number_add_r x z : fzero z = true -> same_number (x + z) x.
Proof.
  unfold same_number, fzero. intros Hz.
  destruct (Prim2SF x) as [sx|sx| |sx mx ex] eqn:Ex.
  - right. rewrite add_spec, Ex. destruct (Prim2SF z) as [sz| | |]; try discriminate.
    split; [destruct sz, sx; reflexivity | reflexivity].
  - left. apply Prim2SF_inj. rewrite add_spec, Ex.
    destruct (Prim2SF z) as [sz| | |]; try discriminate. reflexivity.
  - left. apply Prim2SF_inj. rewrite add_spec, Ex.
    destruct (Prim2SF z) as [sz| | |]; try discriminate. reflexivity.
  - left. apply Prim2SF_inj. rewrite add_spec, Ex.
    destruct (Prim2SF z) as [sz| | |]; try discriminate. reflexivity.
Qed.

Lemma same_number_fround x y : same_number x y -> same_number (JS.fround x) (JS.fround y).
Proof.
  intros [->|[H1 H2]]; [left; reflexivity|]. right. split; apply fzero_fround; assumption.
Qed.

Lemma same_number_mul c x y :
  ffinite c = true -> same_number x y -> same_number (c * x) (c * y).
Proof.
  intros Hc [->|[H1 H2]]; [left; reflexivity|]. right.
  split; apply fzero_mul_r; assumption.
Qed.

Lemma applyBoundaries_interior (s : MaxwellSolver) (i j : Z) :
  1 <= i < nx (params s) - 1 -> 1 <= j < ny (params s) - 1 ->
  F32.get (Ez (applyBoundaries s)) (j * nx (params s) + i)
  = F32.get (Ez s) (j * nx (params s) + i).
Proof.
  intros Hi Hj. unfold applyBoundaries. cbv zeta.
  set (k := j * nx (params s) + i).
  apply (for_range_inv (fun t => F32.get (Ez t) k = F32.get (Ez s) k)).
  - apply (for_range_inv (fun t => F32.get (Ez t) k = F32.get (Ez s) k)); [reflexivity|].
    intros r t Hr Ht. cbn [Ez set_Ez]. rewrite !F32_get_wr_ne; [exact Ht | |].
    + unfold k. replace (r * nx (params s)) with (r * nx (params s) + 0) by ring.
      intros E. apply cell_index_inj in E; lia.
    + unfold k.
      replace (r * nx (params s) + nx (params s) - 1)
        with (r * nx (params s) + (nx (params s) - 1)) by ring.
      intros E. apply cell_index_inj in E; lia.
  - intros c t Hc Ht. cbn [Ez set_Ez]. rewrite !F32_get_wr_ne; [exact Ht | |].
    + unfold k. replace c with (0 * nx (params s) + c) by ring.
      intros E. apply cell_index_inj in E; lia.
    + unfold k. intros E. apply cell_index_inj in E; lia.
Qed.

Section Excitation.
Context {M : MathHost}.

(** One step from rest with one dipole: the excitation is taken at the
    time of the counter before the step. *)
Lemma step_from_rest (s : MaxwellSolver) (source : Source.t) (i j : Z) :
  quiet s ->
  sources s = [source] ->
  Source.type source = Source.dipole ->
  JS.floorZ (Source.x source) = Some i ->
  JS.floorZ (Source.y source) = Some j ->
  0 <= i < nx (params s) -> 0 <= j < ny (params s) ->
  exists s' v,
    step s = Some s' /\ time s' = time s + 1 /\
    F32.get (Ez s') (j * nx (params s) + i) = Some v /\
    (on_rim (params s) i j -> v = 0%float) /\
    (~ on_rim (params s) i j ->
     same_number v
       (JS.fround (F32.rd (Ca s) (j * nx (params s) + i)
                   * JS.fround (Source.amplitude source
                                * Math_sin (omega * Source.frequency source
                                            * (JS.of_Z (time s) * dt (params s))
                                            + Source.phase source)))%float)).
Proof.
  intros Hq Hsrc Hty Hfx Hfy Hi Hj.
  destruct (quiet_parts s Hq) as (Hwf & _ & _ & _).
  destruct (updateH_frame s) as (Hst & Ht & _).
  assert (Hs1 : sources (updateH s) = [source]) by (unfold static in Hst; congruence).
  assert (HCa : Ca (updateH s) = Ca s) by (unfold static in Hst; congruence).
  assert (HCb : Cb (updateH s) = Cb s) by (unfold static in Hst; congruence).
  destruct (quiet_updateH s Hq) as [H1 P1].
  set (w := Math_sin (omega * Source.frequency source
                      * (JS.of_Z (time s) * dt (params s)) + Source.phase source)%float).
  set (idx := j * nx (params s) + i).
  set (t := add_Ez idx (Source.amplitude source * w)%float (updateH s)).
  assert (Hstep : step s = Some (set_time (time (applyBoundaries (updateE t)) + 1)
                                   (applyBoundaries (updateE t)))).
  { unfold step, applySources. rewrite Hs1. cbn [applySourcesFrom]. unfold applySource.
    cbv zeta. rewrite Hfx, Hfy, Hty, Ht, P1.
    replace ((i <? 0) || (i >=? nx (params s)) || (j <? 0) || (j >=? ny (params s)))
      with false; [reflexivity|].
    symmetry. rewrite !orb_false_iff, !Z.ltb_ge, Z.geb_leb, Z.geb_leb, !Z.leb_gt. lia. }
  assert (Wt : wf t) by (apply wf_add_Ez, wf_updateH, Hwf).
  assert (Pt : params t = params s) by exact P1.
  destruct (updateE_frame t) as (Hse & Hte & _).
  destruct (applyBoundaries_frame (updateE t)) as (Hsb & Htb & _).
  assert (Pe : params (updateE t) = params s) by (unfold static in Hse; congruence).
  assert (Htime : time (applyBoundaries (updateE t)) + 1 = time s + 1).
  { rewrite Htb, Hte. cbn [time t add_Ez set_Ez]. rewrite Ht. reflexivity. }
  (* the source cell after the injection and after updateE *)
  destruct (quiet_cell s (updateH s) i j H1 P1 Hi Hj) as (Z1 & Zx & Zy & Fa & Fb & _).
  fold idx in Z1, Zx, Zy, Fa, Fb.
  destruct (wf_fields _ (wf_updateH s Hwf)) as (F1 & _).
  rewrite P1 in F1.
  destruct (wf_cell s i j Hwf Hi Hj _ F1) as [e0 He0]. fold idx in He0.
  assert (HEt : F32.get (Ez t) idx
                = Some (JS.fround (F32.rd (Ez (updateH s)) idx + Source.amplitude source * w))).
  { unfold t, add_Ez. cbn [Ez set_Ez]. apply F32_get_wr_eq. apply (F32_get_Some_range _ _ _ He0). }
  destruct (Z.eq_dec i 0) as [Ei|Ei]; [|destruct (Z.eq_dec i (nx (params s) - 1)) as [Ei'|Ei'];
    [|destruct (Z.eq_dec j 0) as [Ej|Ej]; [|destruct (Z.eq_dec j (ny (params s) - 1)) as [Ej'|Ej']]]].
  1-4: (assert (Hrim : on_rim (params s) i j) by (unfold on_rim; tauto);
        pose proof (applyBoundaries_rim (updateE t) i j (wf_updateE t Wt)) as Hb;
        rewrite Pe in Hb; fold idx in Hb;
        eexists; exists 0%float; split; [exact Hstep|];
        split; [exact Htime|]; cbn [Ez set_time];
        split; [apply Hb; assumption|];
        split; [intros _; reflexivity | intros Hn; contradiction]).
  (* an interior cell *)
  pose proof (applyBoundaries_interior (updateE t) i j) as Hb.
  rewrite Pe in Hb. fold idx in Hb.
  destruct (update_cells t i j Wt) as (_ & _ & A); [rewrite Pt; exact Hi | rewrite Pt; exact Hj|].
  cbv zeta in A. rewrite Pt in A. fold idx in A.
  replace ((1 <=? i) && (1 <=? j)) with true in A
    by (symmetry; apply andb_true_iff; split; apply Z.leb_le; lia).
  eexists. eexists. split; [exact Hstep|]. split; [exact Htime|]. cbn [Ez set_time].
  rewrite Hb by lia.
  split; [exact A|].
  split; [intros Hrim; exfalso; unfold on_rim in Hrim; lia|]. intros _.
  unfold Ez_update. cbv zeta. rewrite Pt.
  rewrite (F32_rd_get _ _ _ HEt).
  change (Ca t) with (Ca (updateH s)). change (Cb t) with (Cb (updateH s)).
  change (Hx t) with (Hx (updateH s)). change (Hy t) with (Hy (updateH s)).
  rewrite HCa.
  destruct (quiet_cell s (updateH s) (i - 1) j H1 P1 ltac:(lia) Hj) as (_ & _ & Zy' & _).
  destruct (quiet_cell s (updateH s) i (j - 1) H1 P1 Hi ltac:(lia)) as (_ & Zx' & _).
  replace (j * nx (params s) + (i - 1)) with (idx - 1) in Zy' by (unfold idx; ring).
  replace ((j - 1) * nx (params s) + i) with (idx - nx (params s)) in Zx' by (unfold idx; ring).
  destruct (quiet_parts (updateH s) H1) as (_ & _ & _ & (R1 & R2 & R3 & R4)).
  rewrite P1 in R1, R2, R3, R4. rewrite HCa in Fa.
  eapply same_number_trans.
  - apply same_number_fround, same_number_add_r.
    apply fzero_mul_r; [exact Fb|]. apply fzero_sub.
    + apply fzero_div; [apply fzero_sub; assumption | exact R1 | exact R2].
    + apply fzero_div; [apply fzero_sub; assumption | exact R3 | exact R4].
  - apply same_number_fround, same_number_mul; [exact Fa|].
    apply same_number_fround, same_number_add_l, Z1.
Qed.

(** C1 (amended).  One dipole at the grid cell (i, j) of a solver at rest.
    A [step] evaluates the excitation at the time of the counter before the
    step: with the counter at k, Ez at the source cell is afterwards
    fround(Ca * fround(A * sin(2 pi f (k dt) + phase))), up to the sign of
    a zero, and 0 on the rim.  Hence with phase 0 and counter 0 the first
    step leaves Ez at the source cell zero, and the value of
    A * sin(2 pi f dt) arrives with the second step. *)
Theorem first_step_dipole (s : MaxwellSolver) (source : Source.t) (i j : Z) :
  quiet s ->
  sources s = [source] ->
  Source.type source = Source.dipole ->
  JS.floorZ (Source.x source) = Some i ->
  JS.floorZ (Source.y source) = Some j ->
  0 <= i < nx (params s) -> 0 <= j < ny (params s) ->
  let idx := j * nx (params s) + i in
  let excitation (k : Z) :=
    (Source.amplitude source
     * Math_sin (omega * Source.frequency source * (JS.of_Z k * dt (params s))
                 + Source.phase source))%float in
  (exists s' v,
     step s = Some s' /\ time s' = time s + 1 /\
     F32.get (Ez s') idx = Some v /\
     (on_rim (params s) i j -> v = 0%float) /\
     (~ on_rim (params s) i j ->
      same_number v (JS.fround (F32.rd (Ca s) idx * JS.fround (excitation (time s)))))) /\
  (time s = 0 -> Source.phase source = 0%float ->
   ffinite (dt (params s)) = true ->
   ffinite (Source.amplitude source) = true ->
   ffinite (omega * Source.frequency source) = true ->
   exists s1 s2 v1 v2,
     step s = Some s1 /\
     F32.get (Ez s1) idx = Some v1 /\ fzero v1 = true /\
     step s1 = Some s2 /\
     F32.get (Ez s2) idx = Some v2 /\
     (on_rim (params s) i j -> v2 = 0%float) /\
     (~ on_rim (params s) i j ->
      same_number v2 (JS.fround (F32.rd (Ca s) idx * JS.fround (excitation 1))))).
Proof.
  intros Hq Hsrc Hty Hx Hy Hi Hj. cbv zeta. split.
  - apply step_from_rest; assumption.
  - intros Htime Hph Hdt Hamp Hfr.
    destruct (first_step_quiet s source i j Hq Htime Hsrc Hty Hph Hx Hy Hi Hj Hdt Hamp Hfr)
      as (s1 & Hs1 & Hq1).
    destruct (step_static s s1 Hs1) as [Hst Ht1]. unfold static in Hst.
    injection Hst as Hp _ _ _ Ha _ _ _ Hsr _.
    destruct (step_from_rest s1 source i j Hq1) as (s2 & v2 & Hs2 & _ & Hv2 & Hr2 & Hn2);
      try assumption; try congruence.
    rewrite Hp, Ha, Ht1, Htime in *.
    rewrite <- Hp in Hi, Hj.
    destruct (quiet_zero_cell s1 i j Hq1 Hi Hj) as (v1 & Hv1 & Hz1).
    rewrite Hp in Hv1.
    exists s1, s2, v1, v2. auto 10.
Qed.

End Excitation.

(** ** The amended claims on the demo grid *)

Lemma first_step_dipole_witness :
  exists s1 s2 v1 v2,
    step demo_solver = Some s1 /\
    F32.get (Ez s1) (4 * 8 + 4) = Some v1 /\ fzero v1 = true /\
    step s1 = Some s2 /\
    F32.get (Ez s2) (4 * 8 + 4) = Some v2 /\
    same_number v2
      (JS.fround (F32.rd (Ca demo_solver) (4 * 8 + 4)
                  * JS.fround (Source.amplitude demo_dipole
                               * Math_sin (omega * Source.frequency demo_dipole
                                           * (JS.of_Z 1 * dt demo_params)
                                           + Source.phase demo_dipole)))%float).
Proof.
  destruct (first_step_dipole demo_solver demo_dipole 4 4) as [_ H];
    [exact quiet_demo | vm_compute; reflexivity | reflexivity
    | vm_compute; reflexivity | vm_compute; reflexivity
    | vm_compute; split; congruence | vm_compute; split; congruence |].
  destruct H as (s1 & s2 & v1 & v2 & E1 & Hv1 & Hz1 & E2 & Hv2 & _ & Hn);
    [vm_compute; reflexivity | reflexivity | vm_compute; reflexivity
    | vm_compute; reflexivity | vm_compute; reflexivity |].
  exists s1, s2, v1, v2.
  split; [exact E1|]. split; [exact Hv1|]. split; [exact Hz1|].
  split; [exact E2|]. split; [exact Hv2|].
  apply Hn. unfold on_rim. vm_compute. intros [H|[H|[H|H]]]; discriminate H.
Defined.

(** C1 as stated fails: after the first step of the demo solver, whose
    dipole has amplitude 1 and 2 pi f dt = pi / 2, Ez at the source cell
    (4, 4) is 0, while A sin(2 pi f dt) is 1 to within a hundredth. *)
Lemma first_step_dipole_counterexample :
  exists s',
    step demo_solver = Some s' /\
    F32.get (Ez s') (4 * 8 + 4) = Some 0%float /\
    (0.99 <? Source.amplitude demo_dipole
             * Math_sin (omega * Source.frequency demo_dipole * dt demo_params))%float
    = true.
Proof. eexists. split; [vm_compute; reflexivity|]. evaluate. Qed.

Lemma scene_addSource `{MathHost} (src : Source.t) (s : MaxwellSolver) :
  scene_ok s -> scene_ok (addSource src s).
Proof.
  intros (W & O & N & R & V). unfold addSource.
  split; [apply wf_set_sources, W|]. split; [exact O|].
  split; [exact N|]. split; [exact R | exact V].
Qed.

Lemma add_remove_obstacle_witness :
  exists s0 s s1 s2,
    addObstacle demo_obstacle2 demo_solver = Some s0 /\
    step s0 = Some s /\
    addObstacle demo_obstacle3 s = Some s1 /\
    removeObstacle (Obstacle.id demo_obstacle3) s1 = Some s2 /\
    s2 = s.
Proof.
  assert (Hsc : scene_ok demo_solver).
  { unfold demo_solver. apply scene_addSource, scene_constructor; vm_compute; congruence. }
  destruct (addObstacle demo_obstacle2 demo_solver) as [s0|] eqn:E0.
  2:{ apply addObstacle_none in E0. vm_compute in E0. discriminate E0. }
  assert (Hobs0 : obstacles demo_solver = []) by (vm_compute; reflexivity).
  assert (Hsrc0 : sources demo_solver = [demo_dipole]) by (vm_compute; reflexivity).
  assert (Hp0 : params demo_solver = demo_params) by (vm_compute; reflexivity).
  destruct (addObstacle_post _ _ _ (proj1 Hsc) E0) as (W0 & C0 & O0).
  rewrite Hobs0 in O0. cbn [app] in O0.
  assert (Hsc0 : scene_ok s0).
  { apply (scene_addObstacle demo_obstacle2 demo_solver s0 Hsc); [|exact E0].
    rewrite Hobs0. constructor. }
  assert (Hm0 : pml_merged s0).
  { destruct (addObstacle_inv _ _ _ E0) as (j0 & j1 & i0 & i1 & _ & ->).
    apply updateCoefficients_merged, setupPML_merged.
    apply wf_sweep_paint, wf_set_obstacles, (proj1 Hsc). }
  assert (Hs0 : sources s0 = [demo_dipole]) by (unfold core in C0; congruence).
  destruct (step_total s0) as [s E]; [rewrite Hs0; vm_compute; reflexivity|].
  pose proof (scene_run 1 s0 s Hsc0) as Hscs. cbn [run] in Hscs. rewrite E in Hscs.
  specialize (Hscs eq_refl).
  destruct (step_static s0 s E) as [Hst _]. unfold static in Hst.
  injection Hst as Pp _ _ Pg _ _ _ _ _ Po.
  assert (Hp : params s = demo_params) by (unfold core in C0; congruence).
  assert (Hm : pml_merged s) by (apply (pml_merged_same s0 s); assumption).
  destruct Hscs as (W & O & N & R & V). cbv zeta in V.
  assert (Hfresh : Forall (fun o' => Obstacle.id o' <> Obstacle.id demo_obstacle3)
                     (obstacles s)).
  { rewrite Po, O0. repeat constructor. discriminate. }
  destruct (proj1 add_remove_obstacle s demo_obstacle3 W Hfresh) as (s1 & s2 & A1 & A2);
    [vm_compute; discriminate|].
  exists s0, s, s1, s2. split; [reflexivity|]. split; [exact E|].
  split; [exact A1|]. split; [exact A2|].
  apply (proj1 (proj2 (proj2 add_remove_obstacle)) s demo_obstacle3 s1 s2 W O Hm Hfresh);
    [|exact A1 | exact A2].
  intros i j (r & Hr & Hin & Hi & Hj). apply (V i j Hi Hj).
  intros (o & Ho & ro & Hro & Hino & _). rewrite Po, O0 in Ho.
  destruct Ho as [<-|[]].
  vm_compute in Hr, Hro. injection Hr as <-. injection Hro as <-.
  unfold in_rect in Hin, Hino.
  repeat match goal with
         | H : _ && _ = true |- _ => apply andb_true_iff in H; destruct H
         | H : (_ <=? _) = true |- _ => apply Z.leb_le in H
         | H : (_ <? _) = true |- _ => apply Z.ltb_lt in H
         end.
  lia.
Defined.

(** C5 as stated fails, in both parts.  The obstacle of the demo covers the
    corner cell (0, 0), which lies in the absorbing layer; after
    addObstacle and removeObstacle its sigma is the layer's value, not 0.
    And where it overlaps a listed obstacle, in the cell (1, 1), the
    removal erases what that obstacle had painted: epsilon goes from 2 to 1
    and the coefficient Cb of the cell is not the one from before. *)
Lemma add_remove_obstacle_counterexample :
  (exists s1 s2,
     addObstacle demo_obstacle (constructor demo_params) = Some s1 /\
     removeObstacle (Obstacle.id demo_obstacle) s1 = Some s2 /\
     rect_of demo_obstacle = Some (0, 2, 0, 2) /\
     in_rect (0, 2, 0, 2) 0 0 = true /\
     F32.get (sigma s2) (0 * 8 + 0) = Some 73.34429931640625%float) /\
  (exists s s1 s2 cb cb',
     addObstacle demo_obstacle2 (constructor demo_params) = Some s /\
     addObstacle demo_obstacle s = Some s1 /\
     removeObstacle (Obstacle.id demo_obstacle) s1 = Some s2 /\
     obstacles s2 = [demo_obstacle2] /\
     rect_of demo_obstacle2 = Some (1, 4, 1, 4) /\
     in_rect (0, 2, 0, 2) 1 1 = true /\ in_rect (1, 4, 1, 4) 1 1 = true /\
     F32.get (epsilon s) (1 * 8 + 1) = Some 2%float /\
     F32.get (epsilon s2) (1 * 8 + 1) = Some 1%float /\
     F32.get (Cb s) (1 * 8 + 1) = Some cb /\
     F32.get (Cb s2) (1 * 8 + 1) = Some cb' /\
     (cb =? cb')%float = false).
Proof.
  split.
  - eexists. eexists. split; [vm_compute; reflexivity|]. evaluate.
  - eexists. eexists. eexists. eexists. eexists.
    split; [vm_compute; reflexivity|]. evaluate.
Qed.
